(** * PencilPlan timeline renderer: the layout engine of [TimelineRenderer]

    A shallow embedding of the layout pipeline of [src/PencilCanvas.js]
    (class [TimelineRenderer]): theme collection ([getUniqueThemes]),
    project processing ([processProject]), theme grouping and lane
    placement ([resolveCollisionsWithThemes]), canvas sizing
    ([calculateRequiredDimensions]), the orchestration
    ([calculateTimelinePositions]) and the pressure fall-back chains of the
    drawing code ([drawProjectLine]).

    How JavaScript values are represented:

    - Numbers that come out of date arithmetic are IEEE-754 binary64
      values: a rational payload that is re-rounded (round to nearest, ties
      to even, 53 bits, gradual underflow, overflow to infinity) after every
      arithmetic operation, plus [NaN] and the two infinities.  The sign of
      zero is not tracked: the pipeline never divides by a computed zero of
      negative sign, and [-0] and [+0] are both falsy and compare equal.
    - Heights and vertical positions are sums of small integer constants
      and list lengths; binary64 computes them exactly, so they are
      integers of [Z].
    - Strings are sequences of 8-bit code units, compared code unit by
      code unit as the default [sort] does.
    - A property that may be missing is an [option]; an array property
      that may be missing is an [option (list _)].  Arrays hold objects
      only (no [null] entries).
    - Objects that are mutated after creation and shared between several
      arrays (processed projects, processed epics) are stored once, and
      the arrays hold references to them.
    - An exception ends the computation with [Throw]. *)

From Stdlib Require Import ZArith QArith Qround Qpower Lia Lqa.
From Stdlib Require Import String Ascii.
From Stdlib Require Import PrimFloat FloatOps SpecFloat Uint63.
From stdpp Require Import base decidable option list sorting strings gmap.

Set Default Proof Using "Type".
Local Open Scope Z_scope.

(* ===================================================================== *)
(** ** IEEE-754 binary64 rounding over the rationals *)
(* ===================================================================== *)

Module Float64.

(** [2^e] as a rational, for any integer exponent. *)
Definition pow2 (e : Z) : Q := Qpower 2 e.

(** [floor (log2 q)] for [q > 0]. *)
Definition Qlog2 (q : Q) : Z :=
  let e := Z.log2 (Qnum q) - Z.log2 (Zpos (Qden q)) in
  if Qle_bool (pow2 e) q then e else e - 1.

(** Round a rational to the nearest integer, ties to the even one. *)
Definition round_even (m : Q) : Z :=
  let f := Qfloor m in
  match Qcompare (m - inject_Z f) (1 # 2) with
  | Lt => f
  | Gt => f + 1
  | Eq => if Z.even f then f else f + 1
  end.

(** The exponent of the unit in the last place of a positive [q]:
    53 significant bits, and no finer than the subnormal grid [2^-1074]. *)
Definition ulp_exp (q : Q) : Z := Z.max (Qlog2 q - 52) (-1074).

(** Nearest binary64 value of a positive rational, before the overflow test. *)
Definition round_pos (q : Q) : Q :=
  let s := ulp_exp q in
  Qred (inject_Z (round_even (q / pow2 s)) * pow2 s).

End Float64.

(** JavaScript [Number] values. *)
Inductive number : Type :=
| NaN
| PosInf
| NegInf
| Fin (q : Q).

Module JS.
Import Float64.

(** Round an exact real result to a [Number]. *)
Definition fl (q : Q) : number :=
  match Qcompare q 0 with
  | Eq => Fin 0
  | Gt => let r := round_pos q in
          if Qle_bool (pow2 1024) r then PosInf else Fin r
  | Lt => let r := round_pos (- q) in
          if Qle_bool (pow2 1024) r then NegInf else Fin (Qred (- r))
  end.

End JS.

Module Num.
Import JS.

(** Exact embedding of an integer that binary64 represents exactly
    (time values, pixel constants, line counts). *)
Definition of_Z (z : Z) : number := Fin (inject_Z z).

(** The decimal literal [n/d] of the source text, rounded as the parser does. *)
Definition literal (n : Z) (d : positive) : number := fl (n # d).

Definition add (a b : number) : number :=
  match a, b with
  | NaN, _ => NaN
  | _, NaN => NaN
  | PosInf, NegInf => NaN
  | NegInf, PosInf => NaN
  | PosInf, _ => PosInf
  | _, PosInf => PosInf
  | NegInf, _ => NegInf
  | _, NegInf => NegInf
  | Fin x, Fin y => fl (x + y)
  end.

Definition sub (a b : number) : number :=
  match a, b with
  | NaN, _ => NaN
  | _, NaN => NaN
  | PosInf, PosInf => NaN
  | NegInf, NegInf => NaN
  | PosInf, _ => PosInf
  | _, NegInf => PosInf
  | NegInf, _ => NegInf
  | _, PosInf => NegInf
  | Fin x, Fin y => fl (x - y)
  end.

(** Sign of a finite operand, a zero counting as [+0]. *)
Definition nonneg (q : Q) : bool := Qle_bool 0 q.

Definition mul (a b : number) : number :=
  match a, b with
  | NaN, _ => NaN
  | _, NaN => NaN
  | Fin x, Fin y => fl (x * y)
  | PosInf, PosInf => PosInf
  | NegInf, NegInf => PosInf
  | PosInf, NegInf => NegInf
  | NegInf, PosInf => NegInf
  | PosInf, Fin y | Fin y, PosInf =>
      match Qcompare y 0 with Eq => NaN | Gt => PosInf | Lt => NegInf end
  | NegInf, Fin y | Fin y, NegInf =>
      match Qcompare y 0 with Eq => NaN | Gt => NegInf | Lt => PosInf end
  end.

Definition div (a b : number) : number :=
  match a, b with
  | NaN, _ => NaN
  | _, NaN => NaN
  | Fin x, Fin y =>
      match Qcompare y 0 with
      | Eq => match Qcompare x 0 with Eq => NaN | Gt => PosInf | Lt => NegInf end
      | _ => fl (x / y)
      end
  | Fin _, _ => Fin 0
  | PosInf, Fin y => if nonneg y then PosInf else NegInf
  | NegInf, Fin y => if nonneg y then NegInf else PosInf
  | _, _ => NaN
  end.

(** The relational operators [<] and [<=]: false as soon as one side is [NaN]. *)
Definition ltb (a b : number) : bool :=
  match a, b with
  | NaN, _ => false
  | _, NaN => false
  | _, NegInf => false
  | PosInf, _ => false
  | NegInf, _ => true
  | _, PosInf => true
  | Fin x, Fin y => negb (Qle_bool y x)
  end.

Definition leb (a b : number) : bool :=
  match a, b with
  | NaN, _ => false
  | _, NaN => false
  | NegInf, _ => true
  | _, PosInf => true
  | _, NegInf => false
  | PosInf, _ => false
  | Fin x, Fin y => Qle_bool x y
  end.

(** [ToBoolean] on a number: zero and [NaN] are falsy. *)
Definition truthy (a : number) : bool :=
  match a with
  | NaN => false
  | Fin q => negb (Qeq_bool q 0)
  | _ => true
  end.

(** [Math.round]: nearest integer, a tie going towards [+Infinity]. *)
Definition Math_round (a : number) : number :=
  match a with
  | Fin q => Fin (inject_Z (Qfloor (q + (1 # 2))))
  | _ => a
  end.

Definition min2 (a b : number) : number :=
  match a, b with
  | NaN, _ => NaN
  | _, NaN => NaN
  | _, _ => if ltb b a then b else a
  end.

Definition max2 (a b : number) : number :=
  match a, b with
  | NaN, _ => NaN
  | _, NaN => NaN
  | _, _ => if ltb a b then b else a
  end.

(** [Math.min(...l)] and [Math.max(...l)]. *)
Definition Math_min (l : list number) : number := foldr min2 PosInf l.
Definition Math_max (l : list number) : number := foldr max2 NegInf l.

(** [a || b] on numbers. *)
Definition or_else (a b : number) : number := if truthy a then a else b.

End Num.

(* ===================================================================== *)
(** ** Host environment *)
(* ===================================================================== *)

(** The two built-ins the layout code calls and whose algorithms live in the
    JavaScript engine: [Date.parse] (the time value of a date string in
    milliseconds since the epoch, [None] for an unparsable string) and
    [parseFloat] (applied to a property that may be missing). *)
Class Host : Type := {
  Date_parse : string → option Z;
  parseFloat : option string → number
}.

(** A [Date] object: [Some t] holds the time value [t], [None] is an
    Invalid Date (time value [NaN]). *)
Definition Date : Type := option Z.

(** [TimeClip]: a time value beyond 8.64e15 ms makes the date invalid. *)
Definition TimeClip (t : Z) : Date :=
  if Z.abs t <=? 8640000000000000 then Some t else None.

(** [date.valueOf()], the operand that [-], [<] and [<=] see. *)
Definition valueOf (d : Date) : number :=
  match d with
  | Some t => Num.of_Z t
  | None => NaN
  end.

(** What the layout code can throw: an [Error] built by [processProject],
    identified with its message, or the [TypeError] of the engine when a
    property of [undefined] is read. *)
Inductive exception : Type :=
| Error (message : string)
| TypeError.

Inductive result (A : Type) : Type :=
| Ok (a : A)
| Throw (e : exception).
Arguments Ok {A} a.
Arguments Throw {A} e.

(** Sequencing: the first exception escapes.  With these instances
    [mapM f l] is [l.map(f)] for a callback [f] that may throw: elements are
    visited from left to right. *)
#[global] Instance result_ret : MRet result := @Ok.
#[global] Instance result_bind : MBind result := λ A B k r,
  match r with
  | Ok a => k a
  | Throw e => Throw e
  end.

(** Truthiness of an optional string property: missing and empty are falsy. *)
Definition truthy_str (o : option string) : bool :=
  match o with
  | Some s => negb (String.eqb s EmptyString)
  | None => false
  end.

(** [o || d] for an optional string property. *)
Definition str_or (o : option string) (d : string) : string :=
  match o with
  | Some s => if String.eqb s EmptyString then d else s
  | None => d
  end.

(** [o || d] for an optional numeric property. *)
Definition num_or (o : option number) (d : number) : number :=
  match o with
  | Some n => Num.or_else n d
  | None => d
  end.

(** A property printed inside a template literal. *)
Definition show (o : option string) : string :=
  match o with
  | Some s => s
  | None => "undefined"
  end.

(** [s.split(sep)] for a one-character separator. *)
Fixpoint split (sep : ascii) (s : string) : list string :=
  match s with
  | EmptyString => [EmptyString]
  | String c s' =>
      if Ascii.eqb c sep then EmptyString :: split sep s'
      else match split sep s' with
           | w :: ws => String c w :: ws
           | [] => [String c EmptyString]
           end
  end.

(** The default comparison of [Array.prototype.sort] on strings:
    lexicographic on code units. *)
Definition String_le (s1 s2 : string) : Prop := String.leb s1 s2 = true.

#[global] Instance String_le_dec : RelDecision String_le.
Proof. intros s1 s2. unfold String_le. apply _. Defined.

(* ===================================================================== *)
(** ** Input dataset *)
(* ===================================================================== *)

Module Project.
Record t : Type := mk {
  name : string;
  theme : option string;
  tbeg : string;
  tend : string;
  tailEnd : option string;
  color : option string;
  pencilPressure : option number;
  pencilThickness : option number
}.
End Project.

Module Epic.
Record t : Type := mk {
  name : string;
  theme : option string;
  pencilPressure : option string;
  projectLines : option (list Project.t)
}.
End Epic.

Module Data.
Record t : Type := mk {
  tbeg : string;
  tend : string;
  pencilPressure : option number;
  projectLines : option (list Project.t);
  epics : option (list Epic.t)
}.
End Data.

(** [a && Array.isArray(a)] followed by a loop: a missing array is skipped. *)
Definition array {A} (a : option (list A)) : list A := default [] a.

(* ===================================================================== *)
(** ** Objects built by the layout pass *)
(* ===================================================================== *)

(** Objects that the layout pass mutates after creation (processed projects,
    processed epics) live in arrays that serve as the store: a reference to
    such an object is its index in [allProjects], respectively [epics]. *)
Definition ref : Type := nat.

(** The object returned by [processProject]. *)
Module PProject.
Record t : Type := mk {
  source : Project.t;          (* the properties copied by [...project] *)
  theme : option string;       (* the copied [theme], reassigned for epic members *)
  x1 : number;
  x2 : number;
  x3 : option number;          (* [None] is [null] *)
  y : Z;
  startDate : Date;
  endDate : Date;
  tailEndDate : option Date;
  epicIndex : option nat
}.
Definition set_y (v : Z) (p : t) : t :=
    mk (source p) (theme p) (x1 p) (x2 p) (x3 p) v
       (startDate p) (endDate p) (tailEndDate p) (epicIndex p).
Definition set_theme (v : option string) (p : t) : t :=
    mk (source p) v (x1 p) (x2 p) (x3 p) (y p)
       (startDate p) (endDate p) (tailEndDate p) (epicIndex p).
End PProject.

(** The object pushed on [epics] by [calculateTimelinePositions]. *)
Module PEpic.
Record t : Type := mk {
  name : string;
  theme : option string;
  projects : list ref;
  x1 : number;
  x2 : number;
  epicIndex : nat;
  pencilPressure : number;
  minY : option Z;             (* [None] until the resolver assigns it *)
  maxY : option Z
}.
Definition set_bounds (lo hi : option Z) (e : t) : t :=
    mk (name e) (theme e) (projects e) (x1 e) (x2 e) (epicIndex e)
       (pencilPressure e) lo hi.
End PEpic.

(** [themeObj] of [resolveCollisionsWithThemes]. *)
Module ThemeObj.
Record t : Type := mk {
  name : string;
  y : Z;
  height : Z;
  projects : list ref;
  epics : list ref
}.
End ThemeObj.

(** The value returned by the layout pass, with the final state of the
    project objects its references point to. *)
Module Scene.
Record t : Type := mk {
  heap : list PProject.t;
  projects : list ref;
  epics : list PEpic.t;
  themes : list ThemeObj.t
}.
End Scene.

(** The fields of a [TimelineRenderer] that the layout reads. *)
Module Renderer.
Record t : Type := mk {
  data : option Data.t;
  displayWidth : Z;
  displayHeight : Z
}.
End Renderer.

(** [this.margin] and [this.lineHeight], set once by the constructor. *)
Definition margin_top : Z := 120.
Definition margin_bottom : Z := 60.
Definition margin_left : Z := 120.
Definition margin_right : Z := 60.
Definition lineHeight : Z := 40.

(** What [calculateThemeContentHeight] asks of an element of [epics]:
    the length of its [projects] property when that is an array. *)
Class EpicLike (E : Type) : Type := projects_length : E → option nat.

(** An epic of the dataset carries [projectLines]; it has no [projects]. *)
#[global] Instance raw_epic_like : EpicLike Epic.t := λ _, None.
#[global] Instance processed_epic_like : EpicLike PEpic.t :=
  λ e, Some (length (PEpic.projects e)).

(** The double quote character of the error messages. *)
Definition dquote : string := String (ascii_of_nat 34) EmptyString.

(** [Math.min(...ys)] and [Math.max(...ys)] on a non-empty array of integers. *)
Definition Math_min_Z (ys : list Z) : option Z :=
  match ys with
  | [] => None
  | v :: ys' => Some (foldl Z.min v ys')
  end.
Definition Math_max_Z (ys : list Z) : option Z :=
  match ys with
  | [] => None
  | v :: ys' => Some (foldl Z.max v ys')
  end.

(** An array paired with its indices, as [forEach((x, i) => ...)] sees it. *)
Definition indexed {A} (l : list A) : list (nat * A) := zip (seq 0 (length l)) l.

(** The groups of [themeGroups]: references to projects and to epics. *)
Module Group.
Record t : Type := mk { projects : list ref; epics : list ref }.
Definition empty : t := mk [] [].
Definition push_project (r : ref) (g : t) : t := mk (projects g ++ [r]) (epics g).
Definition push_epic (r : ref) (g : t) : t := mk (projects g) (epics g ++ [r]).
End Group.

(** One call of the drawing collaborator. *)
Inductive stroke : Type :=
| PencilLine (x1 y1 x2 y2 thickness pressure : number)
| FadingTail (x1 y1 x2 y2 thickness pressure : number).

(* ===================================================================== *)
(** ** The methods of [TimelineRenderer] *)
(* ===================================================================== *)

(** The property names that an object literal inherits from
    [Object.prototype]; each of them holds a function or an object. *)
Definition inheritedKeys : list string :=
  ["constructor"; "hasOwnProperty"; "isPrototypeOf"; "propertyIsEnumerable";
   "toLocaleString"; "toString"; "valueOf"; "__proto__";
   "__defineGetter__"; "__defineSetter__"; "__lookupGetter__";
   "__lookupSetter__"]%string.

Definition inherited (key : string) : bool := bool_decide (key ∈ inheritedKeys).

Section TimelineRenderer.
Context `{Host}.

(** [parseDate(dateStr)] is [new Date(dateStr)]. *)
Definition parseDate (dateStr : string) : Date := Date_parse dateStr ≫= TimeClip.

(** [themes.add(x.theme)] under the guard [x && x.theme]. *)
Definition add_theme (o : option string) (themes : gset string) : gset string :=
  match o with
  | Some s => if truthy_str o then themes ∪ {[ s ]} else themes
  | None => themes
  end.

Definition getUniqueThemes (this : Renderer.t) : list string :=
  let themes : gset string := ∅ in
  let themes :=
    match Renderer.data this with
    | Some data =>
        foldl (λ themes project, add_theme (Project.theme project) themes)
              themes (array (Data.projectLines data))
    | None => themes
    end in
  let themes :=
    match Renderer.data this with
    | Some data =>
        foldl (λ themes epic, add_theme (Epic.theme epic) themes)
              themes (array (Data.epics data))
    | None => themes
    end in
  merge_sort String_le (elements themes).

Definition calculateLabelHeight (themeName : string) : Z :=
  let words := split " "%char themeName in
  let maxWordsPerLine := 2 in
  let lines := Qceiling (inject_Z (Z.of_nat (length words)) / inject_Z maxWordsPerLine) in
  lines * 20.

Definition calculateThemeContentHeight {P E} `{EpicLike E}
    (projects : list P) (epics : list E) : Z :=
  let totalLines := Z.of_nat (length projects) in
  let totalLines :=
    foldl (λ totalLines epic,
             match projects_length epic with
             | Some n => totalLines + Z.of_nat n
             | None => totalLines
             end) totalLines epics in
  Z.max 80 (totalLines * lineHeight).

Definition getThemeContent (this : Renderer.t) (themeName : string)
    : list Project.t * list Epic.t :=
  match Renderer.data this with
  | Some data =>
      (filter (λ project, Project.theme project = Some themeName)
              (array (Data.projectLines data)),
       filter (λ epic, Epic.theme epic = Some themeName)
              (array (Data.epics data)))
  | None => ([], [])
  end.

(** The height one theme adds in [calculateRequiredDimensions]. *)
Definition requiredThemeHeight (this : Renderer.t) (theme : string) : Z :=
  let themeGroup := getThemeContent this theme in
  let labelHeight := calculateLabelHeight theme in
  let contentHeight := calculateThemeContentHeight themeGroup.1 themeGroup.2 in
  Z.max (labelHeight + 20) (contentHeight + 40).

Definition calculateRequiredDimensions (this : Renderer.t) : Z * Z :=
  match Renderer.data this with
  | None => (1200, 800)
  | Some _ =>
      let requiredWidth := 1200 in
      let themes := getUniqueThemes this in
      let totalHeight := margin_top + margin_bottom + 100 in
      let totalHeight :=
        foldl (λ totalHeight theme, totalHeight + requiredThemeHeight this theme)
              totalHeight themes in
      let bottomBuffer := 200 in
      let totalHeight := totalHeight + bottomBuffer in
      let finalHeight := Z.max 800 totalHeight in
      (requiredWidth, finalHeight)
  end.

Definition resizeCanvas (this : Renderer.t) : Renderer.t :=
  let dimensions := calculateRequiredDimensions this in
  Renderer.mk (Renderer.data this) dimensions.1 dimensions.2.

(** [setupCanvas], as run by the constructor before any data is loaded. *)
Definition setupCanvas : Renderer.t := resizeCanvas (Renderer.mk None 1200 800).

(** [loadFile] and [loadDefaultData] up to their call of [renderTimeline]:
    the parsed dataset is stored and the canvas resized. *)
Definition loadData (data : Data.t) (this : Renderer.t) : Renderer.t :=
  resizeCanvas (Renderer.mk (Some data) (Renderer.displayWidth this)
                            (Renderer.displayHeight this)).

Definition dateRangeMessage (project : Project.t) : string :=
  "Invalid date range for project " +:+ dquote +:+ Project.name project +:+ dquote
  +:+ ": end date (" +:+ Project.tend project
  +:+ ") is before start date (" +:+ Project.tbeg project +:+ ")".

Definition tailEndMessage (project : Project.t) : string :=
  "Invalid tailEnd for project " +:+ dquote +:+ Project.name project +:+ dquote
  +:+ ": tailEnd (" +:+ show (Project.tailEnd project)
  +:+ ") must be after tend (" +:+ Project.tend project +:+ ")".

(** The pixel abscissa of a date: [margin.left + ratio * timelineWidth]. *)
Definition xOf (date startDate : Date) (totalDuration timelineWidth : number) : number :=
  let ratio := Num.div (Num.sub (valueOf date) (valueOf startDate)) totalDuration in
  Num.add (Num.of_Z margin_left) (Num.mul ratio timelineWidth).

Definition processProject (project : Project.t) (startDate : Date)
    (totalDuration timelineWidth : number) (epicIndex : option nat)
    : result PProject.t :=
  let projStart := parseDate (Project.tbeg project) in
  let projEnd := parseDate (Project.tend project) in
  let projTailEnd :=
    if truthy_str (Project.tailEnd project)
    then Some (parseDate (show (Project.tailEnd project)))
    else None in
  if Num.ltb (valueOf projEnd) (valueOf projStart)
  then Throw (Error (dateRangeMessage project))
  else if match projTailEnd with
          | Some tail => Num.leb (valueOf tail) (valueOf projEnd)
          | None => false
          end
  then Throw (Error (tailEndMessage project))
  else
    let x1 := xOf projStart startDate totalDuration timelineWidth in
    let x2 := xOf projEnd startDate totalDuration timelineWidth in
    let x3 := (λ tail, xOf tail startDate totalDuration timelineWidth) <$> projTailEnd in
    Ok {| PProject.source := project;
          PProject.theme := Project.theme project;
          PProject.x1 := Num.Math_round x1;
          PProject.x2 := Num.Math_round x2;
          PProject.x3 := match x3 with
                         | Some v => if Num.truthy v then Some (Num.Math_round v) else None
                         | None => None
                         end;
          PProject.y := 0;
          PProject.startDate := projStart;
          PProject.endDate := projEnd;
          PProject.tailEndDate := projTailEnd;
          PProject.epicIndex := epicIndex |}.

(** [p.x3 || p.x2]. *)
Definition x3_or_x2 (p : PProject.t) : number :=
  match PProject.x3 p with
  | Some v => Num.or_else v (PProject.x2 p)
  | None => PProject.x2 p
  end.

(** The fall-back constant [0.85]. *)
Definition defaultPressure : number := Num.literal 85 100.

(** [parseFloat(epic.pencilPressure) || this.data.pencilPressure || 0.85]. *)
Definition epicPressure (data : Data.t) (epic : Epic.t) : number :=
  Num.or_else (parseFloat (Epic.pencilPressure epic))
              (num_or (Data.pencilPressure data) defaultPressure).

(** One iteration of [this.data.epics.forEach((epic, epicIndex) => ...)]
    in [calculateTimelinePositions]. *)
Definition processEpic (data : Data.t) (startDate : Date)
    (totalDuration timelineWidth : number)
    (st : list PProject.t * list PEpic.t) (entry : nat * Epic.t)
    : result (list PProject.t * list PEpic.t) :=
  let '(allProjects, epics) := st in
  let '(epicIndex, epic) := entry in
  match Epic.projectLines epic with
  | None => Ok st
  | Some projectLines =>
      epicProjects ←
        mapM (λ project,
                processedProject ←
                  processProject project startDate totalDuration timelineWidth
                                 (Some epicIndex);
                Ok (if negb (truthy_str (PProject.theme processedProject))
                       && truthy_str (Epic.theme epic)
                    then PProject.set_theme (Epic.theme epic) processedProject
                    else processedProject))
             projectLines;
      let refs := seq (length allProjects) (length epicProjects) in
      let allProjects := allProjects ++ epicProjects in
      if (0 <? length epicProjects)%nat then
        let minX := Num.Math_min (PProject.x1 <$> epicProjects) in
        let maxX := Num.Math_max (x3_or_x2 <$> epicProjects) in
        Ok (allProjects,
            epics ++ [ {| PEpic.name := Epic.name epic;
                          PEpic.theme := Epic.theme epic;
                          PEpic.projects := refs;
                          PEpic.x1 := minX;
                          PEpic.x2 := maxX;
                          PEpic.epicIndex := epicIndex;
                          PEpic.pencilPressure := epicPressure data epic;
                          PEpic.minY := None;
                          PEpic.maxY := None |} ])
      else Ok (allProjects, epics)
  end.

(** A [forEach] whose body may throw. *)
Fixpoint forEachM {S A} (body : S → A → result S) (s : S) (l : list A) : result S :=
  match l with
  | [] => Ok s
  | a :: l' => s' ← body s a; forEachM body s' l'
  end.

(** First pass of [resolveCollisionsWithThemes]: fill [themeGroups].
    [themeGroups] is an object literal, so [themeGroups[theme]] also finds
    what every object inherits: for such a [theme] the test
    [!themeGroups[theme]] is false, no group is created, and reading [.push]
    (or [.forEach]) on the missing [.projects] of the inherited value is a
    [TypeError]. *)
Definition groupProject (themeGroups : gmap string Group.t) (entry : ref * PProject.t)
    : result (gmap string Group.t) :=
  let '(r, project) := entry in
  let theme := str_or (PProject.theme project) "Default" in
  if inherited theme then Throw TypeError
  else Ok (<[theme := Group.push_project r (default Group.empty (themeGroups !! theme))]>
             themeGroups).

Definition groupEpic (themeGroups : gmap string Group.t) (entry : ref * PEpic.t)
    : result (gmap string Group.t) :=
  let '(r, epic) := entry in
  let theme := str_or (PEpic.theme epic) "Default" in
  if inherited theme then Throw TypeError
  else Ok (<[theme := Group.push_epic r (default Group.empty (themeGroups !! theme))]>
             themeGroups).

Definition groupByTheme (projects : list PProject.t) (epics : list PEpic.t)
    : result (gmap string Group.t) :=
  let themeGroups : gmap string Group.t := ∅ in
  themeGroups ← forEachM groupProject themeGroups (indexed projects);
  forEachM groupEpic themeGroups (indexed epics).

(** The state of the loops that place projects: the project objects, the
    cursor [projectY] and [themeObj.projects]. *)
Definition placeProject (st : list PProject.t * Z * list ref) (project : ref)
    : list PProject.t * Z * list ref :=
  let '(heap, projectY, placed) := st in
  (alter (PProject.set_y projectY) project heap,
   projectY + lineHeight,
   placed ++ [project]).

(** The body of [epicProjects.forEach]: [projects.find(p => p === epicProject)]
    returns the object itself when the array holds it, and both assignments
    then write the same object. *)
Definition placeEpicProject (st : list PProject.t * Z * list ref) (epicProject : ref)
    : list PProject.t * Z * list ref :=
  let '(heap, projectY, placed) := st in
  let projectInAll := if decide (epicProject < length heap)%nat then Some epicProject else None in
  let heap := match projectInAll with
              | Some r => alter (PProject.set_y projectY) r heap
              | None => heap
              end in
  let heap := alter (PProject.set_y projectY) epicProject heap in
  (heap, projectY + lineHeight, placed ++ [epicProject]).

(** The body of [group.epics.forEach]. *)
Definition placeEpic (st : list PProject.t * list PEpic.t * Z * list ref) (e : ref)
    : list PProject.t * list PEpic.t * Z * list ref :=
  let '(heap, epics, projectY, placed) := st in
  match epics !! e with
  | None => st
  | Some epic =>
      let epicProjects := PEpic.projects epic in
      if (0 <? length epicProjects)%nat then
        let '(heap, projectY, placed) :=
          foldl placeEpicProject (heap, projectY, placed) epicProjects in
        let projectYs := omap (λ r, PProject.y <$> heap !! r) epicProjects in
        (heap,
         alter (PEpic.set_bounds (Math_min_Z projectYs) (Math_max_Z projectYs)) e epics,
         projectY, placed)
      else st
  end.

(** The height of a theme block in the layout pass. *)
Definition blockHeight (epics : list PEpic.t) (theme : string) (group : Group.t) : Z :=
  let labelHeight := calculateLabelHeight theme in
  let contentHeight :=
    calculateThemeContentHeight (Group.projects group)
      (omap (λ e, epics !! e) (Group.epics group)) in
  Z.max (labelHeight + 20) (contentHeight + 40).

(** The body of [themes.forEach] in [resolveCollisionsWithThemes]. *)
Definition placeTheme (themeGroups : gmap string Group.t)
    (st : list PProject.t * list PEpic.t * Z * list ThemeObj.t) (theme : string)
    : result (list PProject.t * list PEpic.t * Z * list ThemeObj.t) :=
  let '(heap, epics, currentY, themeData) := st in
  if inherited theme then Throw TypeError else
  let group := default Group.empty (themeGroups !! theme) in
  let themeHeight := blockHeight epics theme group in
  let projectY := currentY + 20 in
  let '(heap, projectY, placed) :=
    foldl placeProject (heap, projectY, []) (Group.projects group) in
  let '(heap, epics, projectY, placed) :=
    foldl placeEpic (heap, epics, projectY, placed) (Group.epics group) in
  let themeObj := {| ThemeObj.name := theme;
                     ThemeObj.y := currentY;
                     ThemeObj.height := themeHeight;
                     ThemeObj.projects := placed;
                     ThemeObj.epics := Group.epics group |} in
  Ok (heap, epics, currentY + themeHeight, themeData ++ [themeObj]).

Definition resolveCollisionsWithThemes (projects : list PProject.t)
    (epics : list PEpic.t) (themes : list string) : result Scene.t :=
  themeGroups ← groupByTheme projects epics;
  let currentY := margin_top in
  '(heap, epics, _, themeData) ←
    forEachM (placeTheme themeGroups) (projects, epics, currentY, []) themes;
  let allPositionedProjects := themeData ≫= ThemeObj.projects in
  Ok {| Scene.heap := heap;
        Scene.projects := allPositionedProjects;
        Scene.epics := epics;
        Scene.themes := themeData |}.

Definition calculateTimelinePositions (this : Renderer.t) : result Scene.t :=
  match Renderer.data this with
  | None => Ok (Scene.mk [] [] [] [])
  | Some data =>
      let startDate := parseDate (Data.tbeg data) in
      let endDate := parseDate (Data.tend data) in
      let totalDuration := Num.sub (valueOf endDate) (valueOf startDate) in
      let timelineWidth :=
        Num.of_Z (Renderer.displayWidth this - margin_left - margin_right) in
      let themes := getUniqueThemes this in
      standaloneProjects ←
        mapM (λ project,
                processProject project startDate totalDuration timelineWidth None)
             (array (Data.projectLines data));
      let allProjects := standaloneProjects in
      '(allProjects, epics) ←
        forEachM (processEpic data startDate totalDuration timelineWidth)
                 (allProjects, []) (indexed (array (Data.epics data)));
      resolveCollisionsWithThemes allProjects epics themes
  end.

(** The layout pass on a freshly loaded dataset. *)
Definition layout (data : Data.t) : result Scene.t :=
  calculateTimelinePositions (loadData data setupCanvas).

(** The pressure that [drawProjectLine] hands to the drawing collaborator. *)
Definition projectPressure (data : Data.t) (project : PProject.t) : number :=
  num_or (Project.pencilPressure (PProject.source project))
         (num_or (Data.pencilPressure data) defaultPressure).

Definition drawProjectLine (data : Data.t) (project : PProject.t) : list stroke :=
  let pressure := projectPressure data project in
  let thickness := num_or (Project.pencilThickness (PProject.source project)) (Num.of_Z 6) in
  let y := Num.of_Z (PProject.y project) in
  PencilLine (PProject.x1 project) y (PProject.x2 project) y thickness pressure
  :: match PProject.x3 project with
     | Some x3 =>
         if Num.truthy x3 && Num.ltb (PProject.x2 project) x3
         then [FadingTail (PProject.x2 project) y x3 y thickness pressure]
         else []
     | None => []
     end.

End TimelineRenderer.

(* ===================================================================== *)
(** ** A concrete host for closed examples *)
(* ===================================================================== *)

(** The engine on the inputs used in the examples below: date-only ISO
    strings [YYYY-MM-DD], which every engine reads as midnight UTC of that
    day, and plain decimal numerals [-ddd.ddd].  Other strings are answered
    with an Invalid Date, respectively [NaN]; the examples do not use them. *)
Module Engine.

Definition digit (c : ascii) : option Z :=
    let n := Z.of_N (N_of_ascii c) in
    if (48 <=? n) && (n <=? 57) then Some (n - 48) else None.

Fixpoint digits (acc : Z) (s : string) : option Z :=
    match s with
    | EmptyString => Some acc
    | String c s' => d ← digit c; digits (10 * acc + d) s'
    end.

(** A non-empty string of decimal digits. *)
Definition numeral (s : string) : option Z :=
    match s with
    | EmptyString => None
    | _ => digits 0 s
    end.

Definition leap (y : Z) : bool :=
    ((y mod 4 =? 0) && negb (y mod 100 =? 0)) || (y mod 400 =? 0).

Definition days_in_month (y m : Z) : Z :=
    if m =? 2 then (if leap y then 29 else 28)
    else if (m =? 4) || (m =? 6) || (m =? 9) || (m =? 11) then 30
    else 31.

(** Days from 1970-01-01 to the civil date [y-m-d] (proleptic Gregorian). *)
Definition days_from_civil (y m d : Z) : Z :=
    let y' := if m <=? 2 then y - 1 else y in
    let era := y' / 400 in
    let yoe := y' - era * 400 in
    let mp := (m + 9) mod 12 in
    let doy := (153 * mp + 2) / 5 + d - 1 in
    let doe := yoe * 365 + yoe / 4 - yoe / 100 + doy in
    era * 146097 + doe - 719468.

Definition msPerDay : Z := 86400000.

Definition Date_parse (s : string) : option Z :=
    match split "-"%char s with
    | [ys; ms; ds] =>
        if (String.length ys =? 4)%nat && (String.length ms =? 2)%nat
           && (String.length ds =? 2)%nat
        then
          y ← numeral ys; m ← numeral ms; d ← numeral ds;
          if (1 <=? m) && (m <=? 12) && (1 <=? d) && (d <=? days_in_month y m)
          then Some (days_from_civil y m d * msPerDay)
          else None
        else None
    | _ => None
    end.

(** An unsigned decimal numeral with an optional fraction part. *)
Definition unsigned (s : string) : option Q :=
    match split "."%char s with
    | [ip] => n ← numeral ip; Some (inject_Z n)
    | [ip; fp] =>
        n ← numeral ip; f ← numeral fp;
        let scale := Z.pow 10 (Z.of_nat (String.length fp)) in
        Some (Qmake (n * scale + f) (Z.to_pos scale))
    | _ => None
    end.

Definition parseFloat (o : option string) : number :=
    match o with
    | None => NaN
    | Some (String "-"%char s) =>
        match unsigned s with Some q => JS.fl (- q) | None => NaN end
    | Some s =>
        match unsigned s with Some q => JS.fl q | None => NaN end
    end.

End Engine.

#[global] Instance engine : Host :=
  {| Date_parse := Engine.Date_parse; parseFloat := Engine.parseFloat |}.


(* ===================================================================== *)
(** ** Vocabulary of the statements *)
(* ===================================================================== *)

(** The [theme] properties that [getUniqueThemes] visits, in visiting order:
    those of the standalone projects, then those of the epics. *)
Definition themeNames (this : Renderer.t) : list (option string) :=
  match Renderer.data this with
  | Some data =>
      (Project.theme <$> array (Data.projectLines data))
      ++ (Epic.theme <$> array (Data.epics data))
  | None => []
  end.

(** The set that [getUniqueThemes] accumulates from a list of [theme] properties. *)
Definition collectThemes (l : list (option string)) (themes : gset string) : gset string :=
  foldl (λ themes o, add_theme o themes) themes l.

(** A [theme] property whose group key is an ordinary key of [themeGroups],
    not a property name that every object inherits. *)
Definition ordinaryTheme (o : option string) : Prop :=
  inherited (str_or o "Default") = false.

(** The [theme] properties of all project records and of all epics. *)
Definition themeProperties (data : Data.t) : list (option string) :=
  (Project.theme <$> (array (Data.projectLines data)
                      ++ (array (Data.epics data) ≫= λ epic, array (Epic.projectLines epic))))
  ++ (Epic.theme <$> array (Data.epics data)).

(** [msg] contains [part] as a substring. *)
Definition contains (part msg : string) : Prop :=
  ∃ pre post, msg = pre +:+ part +:+ post.

(** Every project record of the dataset that [calculateTimelinePositions]
    hands to [processProject], in processing order. *)
Definition projectRecords (data : Data.t) : list Project.t :=
  array (Data.projectLines data)
  ++ (array (Data.epics data) ≫= λ epic, array (Epic.projectLines epic)).

Section Vocabulary.
Context `{Host}.

(** The arguments with which [calculateTimelinePositions] calls
    [processProject] on a freshly loaded dataset: the window start, the
    window duration and the width of the drawing band
    ([displayWidth] is 1200 after every [resizeCanvas]). *)
Definition startDateOf (data : Data.t) : Date := parseDate (Data.tbeg data).
Definition totalDurationOf (data : Data.t) : number :=
  Num.sub (valueOf (parseDate (Data.tend data))) (valueOf (parseDate (Data.tbeg data))).
Definition timelineWidth : number := Num.of_Z (1200 - margin_left - margin_right).

Definition processed (data : Data.t) (project : Project.t) (epicIndex : option nat)
    : result PProject.t :=
  processProject project (startDateOf data) (totalDurationOf data) timelineWidth epicIndex.

(** The unrounded tail abscissa of a project record in a dataset. *)
Definition tailX (data : Data.t) (project : Project.t) : number :=
  xOf (parseDate (show (Project.tailEnd project))) (startDateOf data)
      (totalDurationOf data) timelineWidth.

(** The window of the dataset parses to the time values [ts] and [te]. *)
Definition window (data : Data.t) (ts te : Z) : Prop :=
  parseDate (Data.tbeg data) = Some ts ∧ parseDate (Data.tend data) = Some te.

(** The end date of the record precedes its start date. *)
Definition endBeforeStart (project : Project.t) : Prop :=
  ∃ s e, parseDate (Project.tbeg project) = Some s
         ∧ parseDate (Project.tend project) = Some e ∧ e < s.

(** The record has a tail-end date and it is not strictly after its end date. *)
Definition tailNotAfterEnd (project : Project.t) : Prop :=
  ∃ str t e, Project.tailEnd project = Some str ∧ str ≠ EmptyString
             ∧ parseDate str = Some t
             ∧ parseDate (Project.tend project) = Some e ∧ t <= e.

(** The record has a tail-end date and it is strictly after its end date. *)
Definition tailAfterEnd (project : Project.t) : Prop :=
  ∃ str t e, Project.tailEnd project = Some str ∧ str ≠ EmptyString
             ∧ parseDate str = Some t
             ∧ parseDate (Project.tend project) = Some e ∧ e < t.

(** The message with which [processProject] rejects a record, if it does. *)
Definition validation (project : Project.t) : option string :=
  if Num.ltb (valueOf (parseDate (Project.tend project)))
             (valueOf (parseDate (Project.tbeg project)))
  then Some (dateRangeMessage project)
  else if truthy_str (Project.tailEnd project)
          && Num.leb (valueOf (parseDate (show (Project.tailEnd project))))
                     (valueOf (parseDate (Project.tend project)))
  then Some (tailEndMessage project)
  else None.

(** [p] is the object that [processProject] built for some record of the
    dataset, up to the two properties the pass reassigns: [theme] and [y]. *)
Definition builtFrom (data : Data.t) (p : PProject.t) : Prop :=
  ∃ project epicIndex p0,
    project ∈ projectRecords data
    ∧ processed data project epicIndex = Ok p0
    ∧ p = PProject.set_y (PProject.y p) (PProject.set_theme (PProject.theme p) p0).

End Vocabulary.

(** A number that is a zero. *)
Definition isZero (n : number) : Prop := ∃ q, n = Fin q ∧ Qeq q 0.

(** The message of the first record, in processing order, that fails validation. *)
Definition firstError `{Host} (data : Data.t) : option string :=
  head (omap validation (projectRecords data)).

(** Theme blocks stacked downwards from [top] without gap or overlap. *)
Fixpoint stacked (top : Z) (blocks : list ThemeObj.t) : Prop :=
  match blocks with
  | [] => True
  | block :: blocks' =>
      ThemeObj.y block = top ∧ stacked (top + ThemeObj.height block) blocks'
  end.

(** The [y] of the project object behind a reference. *)
Definition yOf (heap : list PProject.t) (r : ref) : option Z :=
  PProject.y <$> heap !! r.

(** The key under which the resolver files a project object. *)
Definition groupKey (p : PProject.t) : string := str_or (PProject.theme p) "Default".

(** No epic object refers to a project object that satisfies [S]. *)
Definition membersAvoid (S : ref → Prop) (epics : list PEpic.t) : Prop :=
  Forall (λ epic, Forall (λ r, ¬ S r) (PEpic.projects epic)) epics.

(** The references of the standalone projects that the resolver files under
    [theme], in input order: a standalone project is the object at the index
    of its record in [projectLines]. *)
Definition standaloneRefs (data : Data.t) (theme : string) : list ref :=
  (filter (λ entry, str_or (Project.theme entry.2) "Default" = theme)
          (indexed (array (Data.projectLines data)))).*1.

(* ===================================================================== *)
(** ** Example datasets *)
(* ===================================================================== *)

Module Examples.
Local Open Scope string_scope.

(** A century-wide window and a project whose tail ends one day after
      the project itself. *)
Definition centuryData : Data.t :=
    Data.mk "2000-01-01" "2100-01-01" None None None.
Definition shortTailProject : Project.t :=
    Project.mk "Launch" (Some "X") "2050-01-01" "2050-06-01" (Some "2050-06-02")
               None None None.

(** A seventeen-day window and a project that lies just before it: the
      tail ends two days before the window starts. *)
Definition seventeenDays : Data.t :=
    Data.mk "2024-01-03" "2024-01-20" None None None.
Definition zeroTailProject : Project.t :=
    Project.mk "Survey" (Some "X") "2023-12-30" "2023-12-31" (Some "2024-01-01")
               None None None.

(** A window that starts and ends on the same day, and a project whose
      tail ends on that day. *)
Definition oneInstant : Data.t :=
    Data.mk "2024-01-03" "2024-01-03" None None None.
Definition instantTailProject : Project.t :=
    Project.mk "Review" (Some "X") "2024-01-01" "2024-01-02" (Some "2024-01-03")
               None None None.
End Examples.

Module WindowExamples.
Local Open Scope string_scope.

(** A window that ends a year before it starts, around a valid project. *)
Definition invertedWindow : Data.t :=
    Data.mk "2025-01-01" "2024-01-01" None
      (Some [Project.mk "A" (Some "X") "2024-02-01" "2024-03-01" None None None None])
      None.

(** A valid window around a project that ends before it starts, inside an epic. *)
Definition backwardsProject : Project.t :=
    Project.mk "Migration" None "2024-05-01" "2024-04-01" None None None None.
Definition backwardsData : Data.t :=
    Data.mk "2024-01-01" "2025-01-01" None
      (Some [Project.mk "A" (Some "X") "2024-02-01" "2024-03-01" None None None None])
      (Some [Epic.mk "Platform" (Some "X") None (Some [backwardsProject])]).

(** A valid dataset whose only theme is named like an inherited property. *)
Definition constructorTheme : Data.t :=
    Data.mk "2024-01-01" "2025-01-01" None
      (Some [Project.mk "A" (Some "constructor") "2024-02-01" "2024-03-01"
                        None None None None])
      None.
End WindowExamples.

Module PressureExamples.
Local Open Scope string_scope.

(** A dataset with pressure 0.6 (the double nearest to it), a project and
      an epic that both ask for pressure 0. *)
Definition sixTenths : number := Num.literal 6 10.
Definition zeroPressureProject : Project.t :=
    Project.mk "A" (Some "X") "2024-02-01" "2024-03-01" None None
               (Some (Num.of_Z 0)) None.
Definition zeroPressureEpic : Epic.t :=
    Epic.mk "Platform" (Some "X") (Some "0") (Some [zeroPressureProject]).
Definition pressureData : Data.t :=
    Data.mk "2024-01-01" "2025-01-01" (Some sixTenths)
            (Some [zeroPressureProject]) (Some [zeroPressureEpic]).

(** The object that the layout pass builds for [zeroPressureProject]. *)
Definition zeroPressurePositioned : PProject.t :=
    PProject.mk zeroPressureProject (Some "X") (Fin 206) (Fin 287) None 140
                (Some 1706745600000) (Some 1709251200000) None None.
End PressureExamples.

Module LayoutExamples.
Local Open Scope string_scope.

Definition year2024 (projectLines : list Project.t) (epics : list Epic.t) : Data.t :=
    Data.mk "2024-01-01" "2025-01-01" None (Some projectLines) (Some epics).

Definition task (name : string) (theme : option string) : Project.t :=
    Project.mk name theme "2024-02-01" "2024-03-01" None None None None.

(** One standalone project that names no theme. *)
Definition untagged : Data.t := year2024 [task "Untagged" None] [].

(** One standalone project of theme X and one epic of theme X with a
      single member that names no theme. *)
Definition oneAndEpic : Data.t :=
    year2024 [task "S" (Some "X")]
             [Epic.mk "Platform" (Some "X") None (Some [task "E" None])].

(** Theme X holds nothing but an epic of ten members. *)
Definition tenMembers : Data.t :=
    year2024 [] [Epic.mk "Platform" (Some "X") None (Some (replicate 10 (task "E" None)))].

(** The scenario of a single project A of theme X. *)
Definition single : Data.t := year2024 [task "A" (Some "X")] [].
End LayoutExamples.

Module ThemeExamples.
Local Open Scope string_scope.

(** The same theme names in two different input orders. *)
Definition themesBA : Data.t :=
    LayoutExamples.year2024
      [LayoutExamples.task "P1" (Some "B"); LayoutExamples.task "P2" (Some "A")]
      [Epic.mk "Platform" (Some "C") None None].
Definition themesAB : Data.t :=
    LayoutExamples.year2024
      [LayoutExamples.task "P2" (Some "A"); LayoutExamples.task "P1" (Some "B")]
      [Epic.mk "Platform" (Some "C") None None].
End ThemeExamples.

(* ===================================================================== *)
(** ** The same arithmetic on primitive binary64 floats *)
(* ===================================================================== *)

(** Rocq's primitive floats are IEEE-754 binary64 numbers computed by the
    processor.  The abscissa formula is repeated on them, so that the
    rational model of rounding can be compared with the machine on the
    inputs of the examples. *)
Module Hardware.

Definition of_spec (f : spec_float) : number :=
  match f with
  | S754_zero _ => Fin 0
  | S754_infinity s => if s then NegInf else PosInf
  | S754_nan => NaN
  | S754_finite s m e =>
      Fin (Qred (inject_Z (if s then Z.neg m else Z.pos m) * Float64.pow2 e))
  end.

Definition of_float (x : float) : number := of_spec (Prim2SF x).

(** An integer below [2^63] in absolute value as a float. *)
Definition float_of_Z (z : Z) : float :=
  if z <? 0 then PrimFloat.opp (PrimFloat.of_uint63 (Uint63.of_Z (- z)))
  else PrimFloat.of_uint63 (Uint63.of_Z z).

(** [margin.left + ((t - ts) / (te - ts)) * timelineWidth] on time values. *)
Definition xOf (t ts te : Z) : float :=
  PrimFloat.add (float_of_Z margin_left)
    (PrimFloat.mul
       (PrimFloat.div (PrimFloat.sub (float_of_Z t) (float_of_Z ts))
                      (PrimFloat.sub (float_of_Z te) (float_of_Z ts)))
       (float_of_Z (1200 - margin_left - margin_right))).

End Hardware.
(* ===================================================================== *)
(** ** Theme labels *)
(* ===================================================================== *)

(** [l.join(sep)]. *)
Definition join (sep : string) (l : list string) : string :=
  match l with
  | [] => EmptyString
  | w :: ws => foldl (λ acc w, acc +:+ sep +:+ w) w ws
  end.

(** [l.slice(i, j)] for indices [0 ≤ i ≤ j]; [j] may exceed the length. *)
Definition slice {A} (i j : nat) (l : list A) : list A := take (j - i) (drop i l).

(** The loop [for (let i = 0; i < words.length; i += maxWordsPerLine)] of
    [drawVerticalThemeLabel], started at [i] with the lines pushed so far.
    [fuel] bounds the number of iterations; [None] means it was too small. *)
Fixpoint breakLines (fuel : nat) (words : list string) (i : nat) (lines : list string)
    : option (list string) :=
  let maxWordsPerLine := 2%nat in
  if (i <? length words)%nat then
    match fuel with
    | O => None
    | S fuel =>
        let line := join " " (slice i (i + maxWordsPerLine) words) in
        breakLines fuel words (i + maxWordsPerLine)%nat (lines ++ [line])
    end
  else Some lines.

(** The [lines] array of [drawVerticalThemeLabel]. *)
Definition labelLines (text : string) : option (list string) :=
  let words := split " "%char text in
  breakLines (length words) words 0 [].

(** One call of [ctx.fillText(text, x, y)]. *)
Record fillText : Type := FillText { ft_text : string; ft_x : Z; ft_y : Z }.

(** The [fillText] calls of [drawVerticalThemeLabel], in the rotated frame
    whose origin is the centre of the label: the first coordinate runs
    across the lines. *)
Definition drawVerticalThemeLabel (text : string) : option (list fillText) :=
  lines ← labelLines text;
  let lineSpacing := 18 in
  let startY := - (Z.of_nat (length lines) - 1) * lineSpacing / 2 in
  Some ((λ entry : nat * string,
           FillText entry.2 (startY + Z.of_nat entry.1 * lineSpacing) 0)
        <$> indexed lines).

(** Words taken two at a time, each pair joined by a space. *)
Fixpoint pairUp (words : list string) : list string :=
  match words with
  | [] => []
  | [w] => [w]
  | w1 :: w2 :: rest => (w1 +:+ " " +:+ w2) :: pairUp rest
  end.
(* ===================================================================== *)
(** ** Colours *)
(* ===================================================================== *)

(** [toLowerCase] on one code unit below 256: the capital letters are
    A to Z and, in the Latin-1 range, U+00C0 to U+00DE without the
    multiplication sign U+00D7; each is 32 below its small letter. *)
Definition lowerUnit (c : ascii) : ascii :=
  let n := nat_of_ascii c in
  if ((65 <=? n) && (n <=? 90) || (192 <=? n) && (n <=? 222) && negb (n =? 215))%nat
  then ascii_of_nat (n + 32)
  else c.

Fixpoint toLowerCase (s : string) : string :=
  match s with
  | EmptyString => EmptyString
  | String c s' => String (lowerUnit c) (toLowerCase s')
  end.

(** [s.startsWith(p)]. *)
Definition startsWith (p s : string) : bool := String.prefix p s.

(** The own properties of the object literal [colors] of [getColorHex]. *)
Definition colors : list (string * string) :=
  [("red", "#CC3333"); ("blue", "#3366CC"); ("green", "#66CC33");
   ("darkgreen", "#336633"); ("yellow", "#CCCC33"); ("orange", "#CC9933");
   ("purple", "#9933CC"); ("violet", "#9933CC"); ("pink", "#CC3399");
   ("brown", "#996633"); ("black", "#333333"); ("gray", "#666666");
   ("grey", "#666666")]%string.

(** An own property of an object literal given by its entries. *)
Fixpoint own {A} (key : string) (entries : list (string * A)) : option A :=
  match entries with
  | [] => None
  | (k, v) :: entries' => if String.eqb k key then Some v else own key entries'
  end.

(** What [getColorHex] returns: a string, or the function or object that
    [colors] inherits from [Object.prototype] under the name looked up. *)
Inductive colorValue : Type :=
| ColorString (s : string)
| InheritedValue (key : string).

(** [colors[key] || '#333333']: an own property wins, then an inherited
    one; every inherited value is truthy. *)
Definition getColorHex (colorName : string) : colorValue :=
  if startsWith "#" colorName then ColorString colorName
  else
    let key := toLowerCase colorName in
    match own key colors with
    | Some hex => ColorString (str_or (Some hex) "#333333")
    | None => if inherited key then InheritedValue key else ColorString "#333333"
    end.

(** [color] of [drawProjectLine]: [getColorHex(project.color || '#336699')]. *)
Definition projectColor (project : PProject.t) : colorValue :=
  getColorHex (str_or (Project.color (PProject.source project)) "#336699").

(** A hexadecimal digit. *)
Definition isHexDigit (c : ascii) : bool :=
  let n := nat_of_ascii c in
  ((48 <=? n) && (n <=? 57) || (65 <=? n) && (n <=? 70) || (97 <=? n) && (n <=? 102))%nat.

(** A colour written [#RRGGBB]. *)
Definition isHexColor (s : string) : bool :=
  match s with
  | String "#" digits =>
      (String.length digits =? 6)%nat && forallb isHexDigit (list_ascii_of_string digits)
  | _ => false
  end.
(* ===================================================================== *)
(** ** Vocabulary of the statements on epics *)
(* ===================================================================== *)

(** The project objects behind the references of an epic. *)
Definition membersOf (heap : list PProject.t) (epic : PEpic.t) : list PProject.t :=
  omap (λ r, heap !! r) (PEpic.projects epic).

(** The horizontal extent of an epic is the one of its members: every
    reference points to an object, [x1] is the least [x1] and [x2] the
    greatest [x3 || x2] of these objects. *)
Definition epicExtent (heap : list PProject.t) (epic : PEpic.t) : Prop :=
  Forall (λ r, is_Some (heap !! r)) (PEpic.projects epic)
  ∧ PEpic.x1 epic = Num.Math_min (PProject.x1 <$> membersOf heap epic)
  ∧ PEpic.x2 epic = Num.Math_max (x3_or_x2 <$> membersOf heap epic).

(** Every project record of the dataset has a start and an end date that parse. *)
Definition datesParse `{Host} (data : Data.t) : Prop :=
  Forall (λ project, is_Some (parseDate (Project.tbeg project))
                     ∧ is_Some (parseDate (Project.tend project)))
         (projectRecords data).

(** The key under which the resolver files an epic object. *)
Definition epicKey (epic : PEpic.t) : string := str_or (PEpic.theme epic) "Default".

(** The members of an epic lie on consecutive lanes from [lo] downwards,
    and the bounds of the epic are the first and the last of these lanes. *)
Definition onLanes (heap : list PProject.t) (epic : PEpic.t) (lo : Z) : Prop :=
  PEpic.minY epic = Some lo
  ∧ PEpic.maxY epic
    = Some (lo + lineHeight * (Z.of_nat (length (PEpic.projects epic)) - 1))
  ∧ ∀ i r, PEpic.projects epic !! i = Some r →
           yOf heap r = Some (lo + lineHeight * Z.of_nat i).

(** The member lists of different epics share no reference, and every
    list is non-empty, without repetition and within a store of [size]
    objects. *)
Definition separateMembers (size : nat) (members : list (list ref)) : Prop :=
  Forall (λ l, l ≠ [] ∧ NoDup l ∧ Forall (λ r, (r < size)%nat) l) members
  ∧ ∀ e1 e2 l1 l2 r, e1 ≠ e2 → members !! e1 = Some l1 → members !! e2 = Some l2 →
                     r ∈ l1 → r ∉ l2.

(** Every standalone project of the dataset names a theme. *)
Definition allTagged (data : Data.t) : Prop :=
  Forall (λ project, truthy_str (Project.theme project) = true)
         (array (Data.projectLines data)).
(* ===================================================================== *)
(** ** The pencil: class [PencilCanvas] *)
(* ===================================================================== *)

(** [Math.abs] and [Math.floor]; both are exact. *)
Definition Math_abs (a : number) : number :=
  match a with
  | NaN => NaN
  | PosInf | NegInf => PosInf
  | Fin q => if Qle_bool 0 q then Fin q else Fin (- q)
  end.

Definition Math_floor (a : number) : number :=
  match a with
  | Fin q => Fin (inject_Z (Qfloor q))
  | _ => a
  end.

(** The built-ins of [Math] whose results the language leaves to the
    engine ("implementation-approximated"). *)
Class MathHost : Type := {
  Math_sqrt : number → number;
  Math_pow : number → number → number
}.

(** [Math.random()]: the [k]-th call since the page was loaded returns
    [random k]. *)
Definition oracle : Type := nat → number.

(** A value of [Math.random()]: a number in [0, 1). *)
Definition unitInterval (u : number) : Prop :=
  ∃ q, u = Fin q ∧ (0 <= q)%Q ∧ (q < 1)%Q.

(** The white space that [parseInt] skips, among the code units below 256. *)
Definition isWhiteSpace (c : ascii) : bool :=
  let n := nat_of_ascii c in
  ((9 <=? n) && (n <=? 13) || (n =? 32) || (n =? 160))%nat.

Fixpoint trimStart (s : string) : string :=
  match s with
  | String c s' => if isWhiteSpace c then trimStart s' else s
  | EmptyString => s
  end.

(** The value of a digit of radix 16. *)
Definition hexValue (c : ascii) : option Z :=
  let n := Z.of_nat (nat_of_ascii c) in
  if (48 <=? n) && (n <=? 57) then Some (n - 48)
  else if (65 <=? n) && (n <=? 70) then Some (n - 55)
  else if (97 <=? n) && (n <=? 102) then Some (n - 87)
  else None.

(** The value of the longest prefix of radix-16 digits; [acc] is the value
    of the digits read so far, [None] before the first. *)
Fixpoint hexPrefix (acc : option Z) (s : string) : option Z :=
  match s with
  | String c s' =>
      match hexValue c with
      | Some d => hexPrefix (Some (16 * default 0 acc + d)) s'
      | None => acc
      end
  | EmptyString => acc
  end.

(** [parseInt(s, 16)]. *)
Definition parseInt16 (s : string) : number :=
  let s := trimStart s in
  let '(sign, s) :=
    match s with
    | String "-" s' => (-1, s')
    | String "+" s' => (1, s')
    | _ => (1, s)
    end in
  let s :=
    match s with
    | String "0" (String "x" s') | String "0" (String "X" s') => s'
    | _ => s
    end in
  match hexPrefix None s with
  | Some v => JS.fl (inject_Z (sign * v))
  | None => NaN
  end.

(** [s.substring(i, j)] for [i ≤ j]. *)
Definition substring (i j : nat) (s : string) : string := String.substring i (j - i) s.

Module PencilCanvas.

(** The [options] argument of the constructor; any property may be missing. *)
Record given : Type := Given {
  given_color : option string;
  given_thickness : option number;
  given_density : option number;
  given_jiggle : option number;
  given_alpha : option number
}.

(** [this.options]. *)
Record options : Type := Options {
  color : string;
  thickness : number;
  density : number;
  jiggle : number;
  alpha : number
}.

(** The properties that the object literal of the constructor lists first:
    [options.color || '#000000'] and so on. *)
Definition listed (o : given) : options :=
  {| color := str_or (given_color o) "#000000";
     thickness := num_or (given_thickness o) (Num.of_Z 3);
     density := num_or (given_density o) (Num.literal 4 10);
     jiggle := num_or (given_jiggle o) (Num.literal 15 10);
     alpha := num_or (given_alpha o) (Num.literal 9 10) |}.

(** [{ ...base, ...options }]: every property of the argument is copied over. *)
Definition spread (o : given) (base : options) : options :=
  {| color := default (color base) (given_color o);
     thickness := default (thickness base) (given_thickness o);
     density := default (density base) (given_density o);
     jiggle := default (jiggle base) (given_jiggle o);
     alpha := default (alpha base) (given_alpha o) |}.

(** The fields of a [PencilCanvas]. *)
Record t : Type := mk {
  opts : options;
  isDrawing : bool;
  isStraightLineMode : bool;
  lastX : number;
  lastY : number;
  straightLineStartX : number;
  straightLineStartY : number
}.

Definition constructor (o : given) : t :=
  {| opts := spread o (listed o);
     isDrawing := false;
     isStraightLineMode := false;
     lastX := Num.of_Z 0;
     lastY := Num.of_Z 0;
     straightLineStartX := Num.of_Z 0;
     straightLineStartY := Num.of_Z 0 |}.

Definition toggleStraightLineMode (this : t) : t :=
  {| opts := opts this;
     isDrawing := isDrawing this;
     isStraightLineMode := negb (isStraightLineMode this);
     lastX := lastX this;
     lastY := lastY this;
     straightLineStartX := straightLineStartX this;
     straightLineStartY := straightLineStartY this |}.

(** The coordinates of a mouse event or of a touch point; a touch point has
    no [offsetX], [offsetY]. *)
Record pointer : Type := Pointer {
  offsetX : option number;
  offsetY : option number;
  clientX : option number;
  clientY : option number
}.

(** [canvas.getBoundingClientRect()]. *)
Record domRect : Type := DomRect { left : number; top : number }.

(** A property read in an arithmetic expression: [undefined] gives [NaN]. *)
Definition toNumber (o : option number) : number := default NaN o.

Definition _getCoords (rect : domRect) (e : pointer) : number * number :=
  match offsetX e, offsetY e with
  | Some x, Some y => (x, y)
  | _, _ => (Num.sub (toNumber (clientX e)) (left rect),
             Num.sub (toNumber (clientY e)) (top rect))
  end.

Definition _startDrawing (rect : domRect) (this : t) (e : pointer) : t :=
  let '(offsetX, offsetY) := _getCoords rect e in
  {| opts := opts this;
     isDrawing := true;
     isStraightLineMode := isStraightLineMode this;
     lastX := offsetX;
     lastY := offsetY;
     straightLineStartX := offsetX;
     straightLineStartY := offsetY |}.

Definition _stopDrawing (this : t) : t :=
  {| opts := opts this;
     isDrawing := false;
     isStraightLineMode := isStraightLineMode this;
     lastX := lastX this;
     lastY := lastY this;
     straightLineStartX := straightLineStartX this;
     straightLineStartY := straightLineStartY this |}.

(** One call [_drawPencilStroke(x1, y1, x2, y2)]. *)
Record segment : Type := Segment { x1 : number; y1 : number; x2 : number; y2 : number }.

(** [_draw(e)]: the new state and the segment handed to [_drawPencilStroke],
    if any. *)
Definition _draw (rect : domRect) (this : t) (e : pointer) : t * list segment :=
  if negb (isDrawing this) then (this, [])
  else
    let '(offsetX, offsetY) := _getCoords rect e in
    let currentX := offsetX in
    let currentY := offsetY in
    let '(currentX, currentY) :=
      if isStraightLineMode this then
        let dx := Math_abs (Num.sub currentX (straightLineStartX this)) in
        let dy := Math_abs (Num.sub currentY (straightLineStartY this)) in
        if Num.ltb dy dx then (currentX, straightLineStartY this)
        else (straightLineStartX this, currentY)
      else (currentX, currentY) in
    ({| opts := opts this;
        isDrawing := isDrawing this;
        isStraightLineMode := isStraightLineMode this;
        lastX := currentX;
        lastY := currentY;
        straightLineStartX := straightLineStartX this;
        straightLineStartY := straightLineStartY this |},
     [Segment (lastX this) (lastY this) currentX currentY]).

(** What reaches the pencil: the events that [_addEventListeners] listens
    to (a touch event is given by its first touch point) and the calls of
    [toggleStraightLineMode]. *)
Inductive input : Type :=
| mousedown (e : pointer)
| mousemove (e : pointer)
| mouseup
| mouseout
| touchstart (touch : pointer)
| touchmove (touch : pointer)
| touchend
| toggle.

Definition handle (rect : domRect) (this : t) (i : input) : t * list segment :=
  match i with
  | mousedown e | touchstart e => (_startDrawing rect this e, [])
  | mousemove e | touchmove e => _draw rect this e
  | mouseup | mouseout | touchend => (_stopDrawing this, [])
  | toggle => (toggleStraightLineMode this, [])
  end.

(** The segments drawn in the course of a sequence of inputs. *)
Fixpoint run (rect : domRect) (this : t) (inputs : list input) : t * list segment :=
  match inputs with
  | [] => (this, [])
  | i :: inputs' =>
      let '(this, drawn) := handle rect this i in
      let '(this, later) := run rect this inputs' in
      (this, drawn ++ later)
  end.

(** One iteration of the loop of [_drawPencilStroke]: what is set on the
    context and the tiny line that is stroked. *)
Record dot : Type := Dot {
  red : number;              (* the three channels and the alpha of [strokeStyle] *)
  green : number;
  blue : number;
  opacity : number;
  lineWidth : number;
  moveTo : number * number;
  lineTo : number * number
}.

Section Stroke.
Context `{MathHost}.
Variable random : oracle.

(** [Math.max(0, Math.min(255, v))]. *)
Definition clampChannel (v : number) : number :=
  Num.max2 (Num.of_Z 0) (Num.min2 (Num.of_Z 255) v).

(** The body of the loop at distance [d], the oracle having been called
    [n] times; it calls the oracle nine times. *)
Definition drawDot (o : options) (s : segment) (dist d : number) (n : nat) : dot :=
  let half := Num.literal 5 10 in
  let ratio := Num.div d dist in
  let currentX := Num.add (x1 s) (Num.mul (Num.sub (x2 s) (x1 s)) ratio) in
  let currentY := Num.add (y1 s) (Num.mul (Num.sub (y2 s) (y1 s)) ratio) in
  let jiggleX := Num.mul (Num.mul (Num.sub (random n) half) (jiggle o)) (Num.of_Z 2) in
  let jiggleY := Num.mul (Num.mul (Num.sub (random (n + 1)%nat) half) (jiggle o)) (Num.of_Z 2) in
  let currentX := Num.add currentX jiggleX in
  let currentY := Num.add currentY jiggleY in
  let randomThickness :=
    Num.mul (thickness o) (Num.add half (Num.mul (random (n + 2)%nat) half)) in
  let randomAlpha :=
    Num.mul (alpha o)
            (Num.add (Num.literal 1 10) (Num.mul (random (n + 3)%nat) (Num.literal 9 10))) in
  let r := parseInt16 (substring 1 3 (color o)) in
  let g := parseInt16 (substring 3 5 (color o)) in
  let b := parseInt16 (substring 5 7 (color o)) in
  let jitterAmount := Num.of_Z 15 in
  let jitterR :=
    clampChannel (Num.add r (Num.mul (Num.sub (random (n + 4)%nat) half) jitterAmount)) in
  let jitterG :=
    clampChannel (Num.add g (Num.mul (Num.sub (random (n + 5)%nat) half) jitterAmount)) in
  let jitterB :=
    clampChannel (Num.add b (Num.mul (Num.sub (random (n + 6)%nat) half) jitterAmount)) in
  {| red := Num.Math_round jitterR;
     green := Num.Math_round jitterG;
     blue := Num.Math_round jitterB;
     opacity := randomAlpha;
     lineWidth := randomThickness;
     moveTo := (currentX, currentY);
     lineTo :=
       (Num.add currentX
                (Num.mul (Num.mul (Num.sub (random (n + 7)%nat) half) randomThickness) half),
        Num.add currentY
                (Num.mul (Num.mul (Num.sub (random (n + 8)%nat) half) randomThickness) half)) |}.

(** The loop [for (let d = 0; d < dist; d += step)]; [fuel] bounds the
    number of iterations and [None] means that it was too small. *)
Fixpoint strokeLoop (fuel : nat) (o : options) (s : segment) (dist step d : number)
    (n : nat) (dots : list dot) : option (list dot * nat) :=
  if Num.ltb d dist then
    match fuel with
    | O => None
    | S fuel =>
        strokeLoop fuel o s dist step (Num.add d step) (n + 9)%nat
                   (dots ++ [drawDot o s dist d n])
    end
  else Some (dots, n).

(** [dist] and [step] of [_drawPencilStroke]. *)
Definition strokeLength (s : segment) : number :=
  Math_sqrt (Num.add (Math_pow (Num.sub (x2 s) (x1 s)) (Num.of_Z 2))
                     (Math_pow (Num.sub (y2 s) (y1 s)) (Num.of_Z 2))).

Definition strokeStep (o : options) (dist : number) : number :=
  Num.max2 (Num.of_Z 1) (Num.mul (Num.mul dist (density o)) (Num.literal 1 10)).

(** [_drawPencilStroke(x1, y1, x2, y2)] after [n] calls of the oracle: the
    dots drawn and the number of calls afterwards. *)
Definition _drawPencilStroke (fuel : nat) (o : options) (s : segment) (n : nat)
    : option (list dot * nat) :=
  let dist := strokeLength s in
  let step := strokeStep o dist in
  strokeLoop fuel o s dist step (Num.of_Z 0) n [].

End Stroke.

End PencilCanvas.

(** An input that starts a stroke. *)
Definition isPress (i : PencilCanvas.input) : bool :=
  match i with
  | PencilCanvas.mousedown _ | PencilCanvas.touchstart _ => true
  | _ => false
  end.

(** Segments that form one polyline from the point [(x, y)]. *)
Fixpoint connected (x y : number) (segments : list PencilCanvas.segment) : Prop :=
  match segments with
  | [] => True
  | s :: segments' =>
      PencilCanvas.x1 s = x ∧ PencilCanvas.y1 s = y
      ∧ connected (PencilCanvas.x2 s) (PencilCanvas.y2 s) segments'
  end.

(** An integer between 0 and 255. *)
Definition isByte (v : number) : Prop := ∃ z, v = Num.of_Z z ∧ 0 <= z <= 255.

(** Every code unit below 256. *)
Definition allUnits : list ascii := ascii_of_nat <$> seq 0 256.

(** Two radix-16 digits read by [parseInt] give an integer between 0 and 255. *)
Definition twoDigitsParse (a b : ascii) : bool :=
  if isHexDigit a && isHexDigit b then
    match parseInt16 (String a (String b EmptyString)) with
    | Fin (Qmake v 1) => (0 <=? v) && (v <=? 255)
    | _ => false
    end
  else true.

(** An engine for the closed examples on the pencil: squares are computed
    by one multiplication, square roots by an integer square root on 120
    fractional bits; other powers are not used by the examples. *)
Module PencilExamples.
Import PencilCanvas.

Definition sqrt (a : number) : number :=
  match a with
  | Fin q =>
      if Qle_bool 0 q
      then JS.fl (inject_Z (Z.sqrt (Qfloor (q * inject_Z (2 ^ 120)))) / inject_Z (2 ^ 60))
      else NaN
  | NegInf => NaN
  | _ => a
  end.

Definition pow (a b : number) : number :=
  match b with
  | Fin q => if Qeq_bool q 2 then Num.mul a a else NaN
  | _ => NaN
  end.

(** An oracle that alternates between 0.25 and 0.75. *)
Definition alternating : oracle :=
  λ k, if Nat.even k then Fin (1 # 4) else Fin (3 # 4).

(** The pencil that [TimelineRenderer.setupCanvas] creates. *)
Definition timelinePencil : t :=
  constructor (Given (Some "#336699"%string) (Some (Num.of_Z 2))
                     (Some (Num.literal 8 10)) None (Some (Num.literal 9 10))).

Definition rect : domRect := DomRect (Num.of_Z 8) (Num.of_Z 8).

(** A mouse event and a touch point at the given place. *)
Definition mouseAt (x y : Z) : pointer :=
  Pointer (Some (Num.of_Z x)) (Some (Num.of_Z y))
          (Some (Num.of_Z (x + 8))) (Some (Num.of_Z (y + 8))).
Definition touchAt (x y : Z) : pointer :=
  Pointer None None (Some (Num.of_Z (x + 8))) (Some (Num.of_Z (y + 8))).

(** The pointer moves over the canvas without being pressed. *)
Definition hovering : list input :=
  [mousemove (mouseAt 10 10); touchmove (touchAt 20 15); mouseup; mousemove (mouseAt 30 5)].

(** The pencil in straight-line mode, pressed at (10, 10). *)
Definition pressedStraight : t :=
  (run rect timelinePencil [toggle; mousedown (mouseAt 10 10)]).1.

(** The pointer drifts to the right, then mostly downwards, and is released. *)
Definition drifting : list input :=
  [mousemove (mouseAt 30 12); touchmove (touchAt 31 50); mouseup; mousemove (mouseAt 40 40)].

(** A segment of length five. *)
Definition threeFour : segment :=
  Segment (Num.of_Z 0) (Num.of_Z 0) (Num.of_Z 3) (Num.of_Z 4).

End PencilExamples.

#[global] Instance exampleMath : MathHost :=
  {| Math_sqrt := PencilExamples.sqrt; Math_pow := PencilExamples.pow |}.
(* ===================================================================== *)
(** ** The top timeline *)
(* ===================================================================== *)

(** The calendar of the engine, which depends on the time zone of the
    host: [getFullYear] on a valid date, and [new Date(year, month, 1)],
    the local midnight that starts a month. *)
Class Calendar : Type := {
  getFullYear : Z → Z;
  newDate : Z → Z → Date
}.

(** What [drawTopTimeline] draws: the base line between two abscissae, a
    long tick with the year above it, a short tick with the quarter above it. *)
Inductive mark : Type :=
| BaseLine (x1 x2 : number)
| YearTick (x : number) (year : Z)
| QuarterTick (x : number) (quarter : Z).

Section TopTimeline.
Context `{Host} `{Calendar}.

(** [d >= startDate && d <= endDate]. *)
Definition withinWindow (d startDate endDate : Date) : bool :=
  Num.leb (valueOf startDate) (valueOf d) && Num.leb (valueOf d) (valueOf endDate).

(** The body of the loop over the years. *)
Definition drawYear (startDate endDate : Date) (totalDuration timelineWidth : number)
    (year : Z) : list mark :=
  let yearStart := newDate year 0 in
  (if withinWindow yearStart startDate endDate
   then [YearTick (xOf yearStart startDate totalDuration timelineWidth) year]
   else [])
  ++ (seqZ 1 4 ≫= λ quarter,
        let quarterMonth := (quarter - 1) * 3 in
        let quarterStart := newDate year quarterMonth in
        if withinWindow quarterStart startDate endDate && (1 <? quarter)
        then [QuarterTick (xOf quarterStart startDate totalDuration timelineWidth) quarter]
        else []).

(** The years of [for (let year = startYear; year <= endYear; year++)];
    the year of an invalid date is [NaN] and the loop does not run. *)
Definition yearsOf (startDate endDate : Date) : list Z :=
  match startDate, endDate with
  | Some ts, Some te =>
      let startYear := getFullYear ts in
      let endYear := getFullYear te in
      seqZ startYear (endYear - startYear + 1)
  | _, _ => []
  end.

Definition drawTopTimeline (displayWidth : Z) (data : Data.t) : list mark :=
  let startDate := parseDate (Data.tbeg data) in
  let endDate := parseDate (Data.tend data) in
  let timelineWidth := Num.of_Z (displayWidth - margin_left - margin_right) in
  let totalDuration := Num.sub (valueOf endDate) (valueOf startDate) in
  BaseLine (Num.of_Z margin_left) (Num.add (Num.of_Z margin_left) timelineWidth)
  :: (yearsOf startDate endDate
      ≫= drawYear startDate endDate totalDuration timelineWidth).

End TopTimeline.

(** The abscissa of a tick. *)
Definition tickX (m : mark) : option number :=
  match m with
  | BaseLine _ _ => None
  | YearTick x _ | QuarterTick x _ => Some x
  end.

(** The calendar of an engine whose time zone is UTC. *)
Module UTC.

(** The civil year of a day counted from 1970-01-01. *)
Definition year_of_days (days : Z) : Z :=
  let z := days + 719468 in
  let era := z / 146097 in
  let doe := z - era * 146097 in
  let yoe := (doe - doe / 1460 + doe / 36524 - doe / 146096) / 365 in
  let doy := doe - (365 * yoe + yoe / 4 - yoe / 100) in
  let mp := (5 * doy + 2) / 153 in
  yoe + era * 400 + (if mp <? 10 then 0 else 1).

Definition getFullYear (t : Z) : Z := year_of_days (t / Engine.msPerDay).

(** Years 0 to 99 stand for 1900 to 1999; months beyond December carry
    into the following years. *)
Definition newDate (year month : Z) : Date :=
  let year := if (0 <=? year) && (year <=? 99) then 1900 + year else year in
  TimeClip (Engine.days_from_civil (year + month / 12) (month mod 12 + 1) 1
            * Engine.msPerDay).

End UTC.

#[global] Instance utc : Calendar :=
  {| getFullYear := UTC.getFullYear; newDate := UTC.newDate |}.
(* ===================================================================== *)
(** ** Epic boxes *)
(* ===================================================================== *)

(** A property assigned by the resolver, read in an arithmetic expression:
    [undefined] gives [NaN]. *)
Definition numberOf (o : option Z) : number :=
  match o with
  | Some z => Num.of_Z z
  | None => NaN
  end.

(** The call [ctx.fillRect(x, y, width, height)] of [drawPencilCrosshatch]
    with the components of its [fillStyle]
    [rgba(grayValue, grayValue, grayValue, alpha)]. *)
Record fillRect : Type := FillRect {
  grayValue : number;
  fillAlpha : number;
  rectX : number;
  rectY : number;
  rectWidth : number;
  rectHeight : number
}.

Definition drawPencilCrosshatch (x y width height pressure : number) : fillRect :=
  let alpha := Num.max2 (Num.literal 1 10) (Num.mul pressure (Num.literal 3 10)) in
  let grayValue := Math_floor (Num.sub (Num.of_Z 220) (Num.mul pressure (Num.of_Z 50))) in
  FillRect grayValue alpha x y width height.

(** The four pencil lines of the outline, colour #AAAAAA: top, right,
    bottom, left. *)
Definition drawPencilBoxOutline (x y width height pressure : number) : list stroke :=
  let outlineThickness := Num.max2 (Num.literal 5 10) (Num.mul pressure (Num.of_Z 2)) in
  let outlinePressure := Num.max2 (Num.literal 3 10) (Num.mul pressure (Num.literal 8 10)) in
  [PencilLine x y (Num.add x width) y outlineThickness outlinePressure;
   PencilLine (Num.add x width) y (Num.add x width) (Num.add y height)
              outlineThickness outlinePressure;
   PencilLine (Num.add x width) (Num.add y height) x (Num.add y height)
              outlineThickness outlinePressure;
   PencilLine x (Num.add y height) x y outlineThickness outlinePressure].

(** [drawPencilBox]: the fill, then the outline. *)
Definition drawPencilBox (x y width height pressure : number) : fillRect * list stroke :=
  (drawPencilCrosshatch x y width height pressure,
   drawPencilBoxOutline x y width height pressure).

Definition drawEpicGrouping (epic : PEpic.t) : fillRect * list stroke :=
  let padding := Num.of_Z 15 in
  let x := Num.sub (PEpic.x1 epic) padding in
  let y := Num.sub (numberOf (PEpic.minY epic)) (Num.of_Z 35) in
  let width := Num.add (Num.sub (PEpic.x2 epic) (PEpic.x1 epic))
                       (Num.mul padding (Num.of_Z 2)) in
  let height := Num.add (Num.sub (numberOf (PEpic.maxY epic)) (numberOf (PEpic.minY epic)))
                        (Num.of_Z 50) in
  drawPencilBox x y width height (PEpic.pencilPressure epic).

(** The thickness and the pressure of a pencil line. *)
Definition strokeThickness (s : stroke) : number :=
  match s with
  | PencilLine _ _ _ _ thickness _ | FadingTail _ _ _ _ thickness _ => thickness
  end.
Definition strokePressure (s : stroke) : number :=
  match s with
  | PencilLine _ _ _ _ _ pressure | FadingTail _ _ _ _ _ pressure => pressure
  end.

Module EpicExamples.
Local Open Scope string_scope.

(** A standalone project and an epic of two members under theme X; one
    member names the theme itself, the other inherits it. *)
Definition twoMembers : Data.t :=
  LayoutExamples.year2024
    [LayoutExamples.task "S" (Some "X")]
    [Epic.mk "Platform" (Some "X") None
       (Some [LayoutExamples.task "E1" None; LayoutExamples.task "E2" (Some "X")])].

(** The same, but the second member names a theme that is sorted after
    the theme of its epic and that a standalone project uses as well. *)
Definition straying : Data.t :=
  LayoutExamples.year2024
    [LayoutExamples.task "S" (Some "Y")]
    [Epic.mk "Platform" (Some "X") None
       (Some [LayoutExamples.task "E1" None; LayoutExamples.task "E2" (Some "Y")])].

End EpicExamples.
(* ===================================================================== *)
(** ** Lanes: the resolver without themes *)
(* ===================================================================== *)

(** The array [lanes] is a list whose entries are holes or hold the
    projects of a lane. *)

(** [lanes[i]]: [undefined] for a hole and beyond the length. *)
Definition laneAt (ls : list (option (list ref))) (i : nat) : option (list ref) := ls !! i ≫= id.

(** [lanes[i] = lane]: writing beyond the length extends the array with holes. *)
Definition setLane (i : nat) (lane : list ref) (ls : list (option (list ref)))
    : list (option (list ref)) :=
  if decide (i < length ls)%nat then <[i := Some lane]> ls
  else ls ++ replicate (i - length ls) None ++ [Some lane].

(** [lanes[i] && lanes[i].length > 0]. *)
Definition occupied (ls : list (option (list ref))) (i : nat) : bool :=
  match laneAt ls i with
  | Some lane => (0 <? length lane)%nat
  | None => false
  end.

(** The inner loop of [findAvailableLaneRange]: no lane of the range
    [startLane, startLane + neededLanes) is occupied. *)
Definition available (ls : list (option (list ref))) (startLane neededLanes : nat) : bool :=
  forallb (λ i, negb (occupied ls (startLane + i))) (seq 0 neededLanes).

(** The loop [while (true)] of [findAvailableLaneRange] from [startLane]
    on; [fuel] bounds the number of iterations and [None] means that it was
    too small. *)
Fixpoint findFrom (fuel : nat) (ls : list (option (list ref))) (neededLanes startLane : nat) : option nat :=
  if available ls startLane neededLanes then Some startLane
  else match fuel with
       | O => None
       | S fuel => findFrom fuel ls neededLanes (S startLane)
       end.

Definition findAvailableLaneRange (fuel : nat) (ls : list (option (list ref))) (neededLanes : nat)
    : option nat :=
  findFrom fuel ls neededLanes 0.
(* ===================================================================== *)
(** ** The controls of the page *)
(* ===================================================================== *)

Module App.

(** What a handler does to the page, in order. *)
Inductive effect : Type :=
| ClearRect (width height : Z)              (* [clearCanvas] *)
| Drawn (scene : Scene.t)                   (* the drawing calls of [renderTimeline] *)
| Alert (text : string)
| AlertError (text : string) (e : option exception)
    (* [alert(text + err.message)]; [None] is the [SyntaxError] of [JSON.parse] *)
| Log (text : string)
| SetTimeout (id : nat)
| ClearTimeout (id : nat)
| RequestAnimationFrame
| Uncaught (e : exception).                 (* an exception that leaves the handler *)

(** The fields of the [TimelineRenderer] and the [disabled] attributes of
    the two buttons. *)
Record t : Type := mk {
  renderer : Renderer.t;
  isPlaying : bool;
  animationId : option nat;
  playDisabled : bool;
  stopDisabled : bool
}.

Definition set_renderer (r : Renderer.t) (this : t) : t :=
  mk r (isPlaying this) (animationId this) (playDisabled this) (stopDisabled this).

Section Handlers.
Context `{Host}.

(** The drawing calls that [renderTimeline] makes once the layout is
    known may throw themselves (a colour that is no string reaches
    [substring]); they are left open. *)
Variable drawScene : Renderer.t → Scene.t → option exception.

Definition clearCanvas (this : t) : effect :=
  ClearRect (Renderer.displayWidth (renderer this)) (Renderer.displayHeight (renderer this)).

(** [renderTimeline]: the effects, and the exception that ends it, if any. *)
Definition renderTimeline (this : t) : list effect * option exception :=
  match Renderer.data (renderer this) with
  | None => ([clearCanvas this], None)
  | Some _ =>
      match calculateTimelinePositions (renderer this) with
      | Throw e => ([clearCanvas this], Some e)
      | Ok scene => ([clearCanvas this; Drawn scene], drawScene (renderer this) scene)
      end
  end.

(** [if (this.animationId)]: a timer with the identifier 0 counts as none. *)
Definition pendingTimer (this : t) : option nat :=
  match animationId this with
  | Some id => if (0 <? id)%nat then Some id else None
  | None => None
  end.

Definition stopAnimation (this : t) : t * list effect :=
  match pendingTimer this with
  | Some id => (mk (renderer this) false None false true, [ClearTimeout id])
  | None => (mk (renderer this) false (animationId this) false true, [])
  end.

(** The function [animate] of [startAnimation]; [id] is the identifier
    that [setTimeout] returns if it is called. *)
Definition animate (id : nat) (this : t) : t * list effect :=
  if negb (isPlaying this) then (this, [])
  else
    match renderTimeline this with
    | (effects, Some e) => (this, effects ++ [Uncaught e])
    | (effects, None) =>
        (mk (renderer this) (isPlaying this) (Some id) (playDisabled this) (stopDisabled this),
         effects ++ [SetTimeout id])
    end.

Definition startAnimation (id : nat) (this : t) : t * list effect :=
  match Renderer.data (renderer this) with
  | None => (this, [Alert "Please load a JSON file first"])
  | Some _ =>
      if isPlaying this then (this, [])
      else animate id (mk (renderer this) true (animationId this) true false)
  end.

(** The [onload] handler of [loadFile]: [None] is a text that
    [JSON.parse] rejects. *)
Definition loadFile (parsed : option Data.t) (this : t) : t * list effect :=
  match parsed with
  | None => (this, [AlertError "Error parsing JSON file: " None])
  | Some data =>
      let this :=
        set_renderer (Renderer.mk (Some data) (Renderer.displayWidth (renderer this))
                                  (Renderer.displayHeight (renderer this))) this in
      let '(this, stopped) := stopAnimation this in
      let this := set_renderer (resizeCanvas (renderer this)) this in
      match renderTimeline this with
      | (effects, Some e) =>
          (this, stopped ++ effects ++ [AlertError "Error parsing JSON file: " (Some e)])
      | (effects, None) => (this, stopped ++ effects)
      end
  end.

(** The continuation of [fetch] in [loadDefaultData]. *)
Definition loadDefaultData (data : Data.t) (this : t) : t * list effect :=
  let this :=
    set_renderer (Renderer.mk (Some data) (Renderer.displayWidth (renderer this))
                              (Renderer.displayHeight (renderer this))) this in
  let this := set_renderer (resizeCanvas (renderer this)) this in
  match renderTimeline this with
  | (effects, Some e) => (this, effects ++ [Log "Could not load default input1.json"])
  | (effects, None) => (this, effects)
  end.

(** What happens on the page. *)
Inductive event : Type :=
| fileRead (parsed : option Data.t)      (* the file chosen in the input has been read *)
| defaultFetched (data : Data.t)         (* [input1.json] has arrived *)
| defaultFailed                          (* [input1.json] is missing or no JSON *)
| playClicked (id : nat)
| stopClicked
| clearClicked
| timeoutFired                           (* the callback passed to [setTimeout] runs *)
| frameFired (id : nat).                 (* the callback passed to [requestAnimationFrame] runs *)

Definition handle (this : t) (ev : event) : t * list effect :=
  match ev with
  | fileRead parsed => loadFile parsed this
  | defaultFetched data => loadDefaultData data this
  | defaultFailed => (this, [Log "Could not load default input1.json"])
  | playClicked id => startAnimation id this
  | stopClicked => stopAnimation this
  | clearClicked =>
      let '(this, effects) := stopAnimation this in
      (this, effects ++ [clearCanvas this])
  | timeoutFired => (this, [RequestAnimationFrame])
  | frameFired id => animate id this
  end.

Fixpoint run (this : t) (events : list event) : t * list effect :=
  match events with
  | [] => (this, [])
  | ev :: events' =>
      let '(this, effects) := handle this ev in
      let '(this, later) := run this events' in
      (this, effects ++ later)
  end.

End Handlers.

(** The buttons show the state: Play is disabled exactly while playing,
    Stop exactly while not playing. *)
Definition buttonsFollow (this : t) : Prop :=
  playDisabled this = isPlaying this ∧ stopDisabled this = negb (isPlaying this).

(** An effect that paints. *)
Definition paints (e : effect) : bool :=
  match e with
  | Drawn _ => true
  | _ => false
  end.

(** An event that only lets time pass. *)
Definition isTick (ev : event) : bool :=
  match ev with
  | timeoutFired | frameFired _ => true
  | _ => false
  end.

End App.

Module AppExamples.
(** A page on which nothing is loaded, drawn by calls that do not throw. *)
Definition fresh : App.t := App.mk setupCanvas false None false true.
Definition quiet (_ : Renderer.t) (_ : Scene.t) : option exception := None.

(** A page that is playing a dataset, with the timer 7 pending. *)
Definition playing : App.t :=
  App.mk (loadData LayoutExamples.single setupCanvas) true (Some 7%nat) true false.
End AppExamples.
(* ===================================================================== *)
(** ** The lane resolver *)
(* ===================================================================== *)

(** [Array.prototype.sort] with a comparison function.  The language
    fixes the order only for a consistent comparison function (one that
    returns [NaN] for an invalid date is not); every engine returns a
    rearrangement of the array. *)
Class ArraySort : Type := {
  Array_sort : ∀ {A : Type}, (A → A → number) → list A → list A;
  Array_sort_Permutation :
    ∀ {A : Type} (comparefn : A → A → number) (l : list A), Array_sort comparefn l ≡ₚ l
}.

(** The elements of [epicBoxes]. *)
Module EpicBox.
Record t : Type := mk { minX : number; maxX : number; minY : Z; maxY : Z }.
End EpicBox.

Definition hasOverlap (project1 project2 : PProject.t) : bool :=
  let buffer := Num.of_Z 10 in
  let p1End := num_or (PProject.x3 project1) (PProject.x2 project1) in
  let p2End := num_or (PProject.x3 project2) (PProject.x2 project2) in
  negb (Num.ltb (Num.add p1End buffer) (PProject.x1 project2)
        || Num.ltb (Num.add p2End buffer) (PProject.x1 project1)).

Definition projectCollidesWithEpicBox (project : PProject.t) (projectY : Z)
    (epicBox : EpicBox.t) : bool :=
  let projectMinX := PProject.x1 project in
  let projectMaxX := num_or (PProject.x3 project) (PProject.x2 project) in
  let buffer := Num.of_Z 10 in
  let horizontalOverlap :=
    negb (Num.ltb (Num.add projectMaxX buffer) (EpicBox.minX epicBox)
          || Num.ltb (EpicBox.maxX epicBox) (Num.sub projectMinX buffer)) in
  let verticalOverlap :=
    negb ((projectY + 15 <? EpicBox.minY epicBox)
          || (EpicBox.maxY epicBox <? projectY - 15)) in
  horizontalOverlap && verticalOverlap.

(** [epicGroups]: the projects that carry an [epicIndex], filed under it
    in the order of the array. *)
Definition fileUnderEpic (epicGroups : gmap nat (list ref)) (entry : ref * PProject.t)
    : gmap nat (list ref) :=
  match PProject.epicIndex entry.2 with
  | Some epicIndex =>
      <[epicIndex := default [] (epicGroups !! epicIndex) ++ [entry.1]]> epicGroups
  | None => epicGroups
  end.

Definition groupEpics (projects : list PProject.t) : gmap nat (list ref) :=
  foldl fileUnderEpic ∅ (indexed projects).

(** [Object.keys] of an object whose keys are array indices: in
    ascending order. *)
Definition Object_keys {A} (o : gmap nat A) : list nat :=
  merge_sort (≤)%nat (map_to_list o).*1.

(** The variables of [resolveCollisions]; the project objects are shared
    with the array that is passed in and returned. *)
Module Resolver.
Record t : Type := mk {
  heap : list PProject.t;
  lanes : list (option (list ref));
  epicBoxes : list EpicBox.t;
  currentLane : nat
}.
End Resolver.

(** [if (!lanes[laneIndex]) lanes[laneIndex] = []]. *)
Definition ensureLane (laneIndex : nat) (ls : list (option (list ref)))
    : list (option (list ref)) :=
  match laneAt ls laneIndex with
  | Some _ => ls
  | None => setLane laneIndex [] ls
  end.

(** [lanes[laneIndex].push(project)]. *)
Definition pushOnLane (laneIndex : nat) (project : ref) (ls : list (option (list ref)))
    : list (option (list ref)) :=
  setLane laneIndex (default [] (laneAt ls laneIndex) ++ [project]) ls.

Definition yOfLane (laneIndex : nat) : Z := margin_top + Z.of_nat laneIndex * lineHeight.

Definition startTime (heap : list PProject.t) (r : ref) : number :=
  match heap !! r with
  | Some project => valueOf (PProject.startDate project)
  | None => NaN
  end.

Section ResolveCollisions.
Context `{ArraySort}.

(** The callback of [epicProjects.forEach]. *)
Definition placeMember (epicStartLane : nat)
    (st : list PProject.t * list (option (list ref))) (entry : nat * ref)
    : list PProject.t * list (option (list ref)) :=
  let laneIndex := (epicStartLane + entry.1)%nat in
  (alter (PProject.set_y (yOfLane laneIndex)) entry.2 st.1,
   pushOnLane laneIndex entry.2 (ensureLane laneIndex st.2)).

(** The callback of [Object.keys(epicGroups).forEach], for the group of
    one key; [None] when the search for free lanes runs out of fuel. *)
Definition placeGroup (fuel : nat) (st : Resolver.t) (group : list ref) : option Resolver.t :=
  let epicProjects :=
    Array_sort (λ a b, Num.sub (startTime (Resolver.heap st) a) (startTime (Resolver.heap st) b))
               group in
  found ← findAvailableLaneRange fuel (Resolver.lanes st) (length epicProjects);
  let epicStartLane := Nat.max (Resolver.currentLane st) found in
  let placed :=
    foldl (placeMember epicStartLane) (Resolver.heap st, Resolver.lanes st)
          (indexed epicProjects) in
  let members := omap (λ r, placed.1 !! r) epicProjects in
  let minX := Num.Math_min (PProject.x1 <$> members) in
  let maxX := Num.Math_max ((λ p, num_or (PProject.x3 p) (PProject.x2 p)) <$> members) in
  let minY := margin_top + Z.of_nat epicStartLane * lineHeight - 35 in
  let maxY :=
    margin_top + (Z.of_nat epicStartLane + Z.of_nat (length epicProjects) - 1) * lineHeight
    + 15 in
  Some (Resolver.mk placed.1 placed.2
          (Resolver.epicBoxes st ++ [EpicBox.mk minX maxX minY maxY])
          (epicStartLane + length epicProjects + 2)).

(** The test of one lane in the second pass. *)
Definition collides (heap : list PProject.t) (epicBoxes : list EpicBox.t)
    (project : ref) (lane : list ref) (proposedY : Z) : bool :=
  match heap !! project with
  | Some p =>
      existsb (λ existingProject,
                 match heap !! existingProject with
                 | Some q => hasOverlap p q
                 | None => false
                 end) lane
      || existsb (projectCollidesWithEpicBox p proposedY) epicBoxes
  | None => false
  end.

(** The loop [while (!placed)] for one standalone project, from
    [laneIndex] on; [fuel] bounds the number of lanes it may skip. *)
Fixpoint placeFrom (fuel : nat) (epicBoxes : list EpicBox.t) (project : ref)
    (heap : list PProject.t) (ls : list (option (list ref))) (laneIndex : nat)
    : option (list PProject.t * list (option (list ref))) :=
  let ls := ensureLane laneIndex ls in
  let proposedY := yOfLane laneIndex in
  if collides heap epicBoxes project (default [] (laneAt ls laneIndex)) proposedY then
    match fuel with
    | O => None
    | S fuel => placeFrom fuel epicBoxes project heap ls (S laneIndex)
    end
  else
    Some (alter (PProject.set_y proposedY) project heap, pushOnLane laneIndex project ls).

Definition placeStandalone (fuel : nat) (st : Resolver.t) (project : ref)
    : option Resolver.t :=
  placed ← placeFrom fuel (Resolver.epicBoxes st) project
                     (Resolver.heap st) (Resolver.lanes st) 0;
  Some (Resolver.mk placed.1 placed.2 (Resolver.epicBoxes st) (Resolver.currentLane st)).

Definition standaloneOf (projects : list PProject.t) : list ref :=
  (filter (λ entry, PProject.epicIndex entry.2 = None) (indexed projects)).*1.

(** The groups in the order in which [Object.keys] visits them. *)
Definition groupsInOrder (projects : list PProject.t) : list (list ref) :=
  let epicGroups := groupEpics projects in
  omap (λ epicIndex, epicGroups !! epicIndex) (Object_keys epicGroups).

Definition forEachOpt {S A} (f : S → A → option S) (st : S) (l : list A) : option S :=
  foldl (λ acc a, acc ≫= λ st, f st a) (Some st) l.

(** The state of the resolver when it returns. *)
Definition resolved (fuel : nat) (projects : list PProject.t) : option Resolver.t :=
  st ← forEachOpt (placeGroup fuel) (Resolver.mk projects [] [] 0) (groupsInOrder projects);
  forEachOpt (placeStandalone fuel) st (standaloneOf projects).

(** [resolveCollisions], for an array of distinct project objects: the
    array it returns holds the same objects, with [y] assigned. *)
Definition resolveCollisions (fuel : nat) (projects : list PProject.t)
    : option (list PProject.t) :=
  Resolver.heap <$> resolved fuel projects.

End ResolveCollisions.

(** The projects of a lane, a hole counting as an empty lane. *)
Definition laneList (ls : list (option (list ref))) (i : nat) : list ref :=
  default [] (laneAt ls i).

(** [hasOverlap] on the objects behind two references. *)
Definition overlapping (heap : list PProject.t) (a b : ref) : bool :=
  match heap !! a, heap !! b with
  | Some p, Some q => hasOverlap p q
  | _, _ => false
  end.

(** Two arrays hold the same project objects up to [y]. *)
Definition sameButY (heap heap0 : list PProject.t) : Prop :=
  PProject.set_y 0 <$> heap = PProject.set_y 0 <$> heap0.

(** What the two passes keep true of the lanes, for the list [placed] of
    the projects placed so far: a project lies on the ordinate of its lane,
    the projects of a lane are distinct and do not overlap, and the lanes
    hold the placed projects and no others. *)
Record laneInv (heap : list PProject.t) (ls : list (option (list ref)))
    (placed : list ref) : Prop := LaneInv {
  inv_y : ∀ i r, r ∈ laneList ls i → yOf heap r = Some (yOfLane i);
  inv_NoDup : ∀ i, NoDup (laneList ls i);
  inv_apart : ∀ i a b, a ∈ laneList ls i → b ∈ laneList ls i → a ≠ b →
                       overlapping heap a b = false;
  inv_placed : ∀ i r, r ∈ laneList ls i → r ∈ placed;
  inv_lane : ∀ r, r ∈ placed → ∃ i, r ∈ laneList ls i
}.

(** Every box ends above the lane after the last one. *)
Definition boxesAbove (epicBoxes : list EpicBox.t) (ls : list (option (list ref))) : Prop :=
  Forall (λ box, EpicBox.maxY box < yOfLane (length ls) - 15) epicBoxes.

(** The projects that carry the epic index [k], in the order of the array. *)
Definition membersOfIndex (projects : list PProject.t) (k : nat) : list ref :=
  (filter (λ entry, PProject.epicIndex entry.2 = Some k) (indexed projects)).*1.

(** The lanes that the groups of the keys [keys] take, two spare lanes
    after each group included. *)
Definition lanesTaken (projects : list PProject.t) (keys : list nat) : nat :=
  sum_list ((λ k, length (membersOfIndex projects k) + 2)%nat <$> keys).

(** An engine whose [sort] is a stable merge sort that puts [b] before [a]
    when the comparison of [a] with [b] is positive. *)
Definition notAfter {A} (comparefn : A → A → number) (a b : A) : Prop :=
  Num.ltb (Num.of_Z 0) (comparefn a b) = false.

#[global] Instance notAfter_dec {A} (comparefn : A → A → number) (a b : A)
    : Decision (notAfter comparefn a b) :=
  bool_eq_dec _ _.

#[global] Instance mergeSort : ArraySort := {|
  Array_sort A comparefn := merge_sort (notAfter comparefn);
  Array_sort_Permutation A comparefn := merge_sort_Permutation (notAfter comparefn)
|}.

Module ResolverExamples.
Local Open Scope string_scope.

(** A positioned project from [x1] to [x2] that starts at the time [t]. *)
Definition bar (x1 x2 : Z) (t : Z) (epicIndex : option nat) : PProject.t :=
  PProject.mk (Project.mk "P" None "2024-01-01" "2024-02-01" None None None None) None
              (Num.of_Z x1) (Num.of_Z x2) None 0 (Some t) (Some t) None epicIndex.

(** Two standalone bars that overlap the box of the first epic, an epic
    of two members given out of order, an epic of one member, and a bar to
    the right of everything. *)
Definition six : list PProject.t :=
  [bar 100 200 1 None; bar 150 300 5 (Some 0%nat); bar 120 180 2 (Some 1%nat);
   bar 400 500 3 (Some 0%nat); bar 600 700 4 None; bar 650 750 6 None].
End ResolverExamples.
(* ===================================================================== *)
(** ** The fading tail *)
(* ===================================================================== *)

Section FadingTail.
Context `{MathHost}.

(** The body of the loop of [drawFadingTail] for the counter [i]: the call
    of [drawPencilLine] that it makes. *)
Definition tailSegment (x1 y1 y2 thickness pressure segmentLength numSegments i : number)
    : stroke :=
  let startX := Num.add x1 (Num.mul i segmentLength) in
  let endX := Num.add x1 (Num.mul (Num.add i (Num.of_Z 1)) segmentLength) in
  let progress := Num.div i numSegments in
  let fadeRatio := Math_sqrt (Num.sub (Num.of_Z 1) progress) in
  let segmentPressure := Num.mul pressure fadeRatio in
  let segmentThickness := Num.mul thickness (Num.max2 (Num.literal 4 10) fadeRatio) in
  PencilLine startX y1 endX y2 segmentThickness segmentPressure.

(** The loop [for (let i = 0; i < numSegments; i++)] from the counter [i]
    on; [fuel] bounds the number of iterations and [None] means that it was
    too small. *)
Fixpoint tailLoop (fuel : nat)
    (x1 y1 y2 thickness pressure segmentLength numSegments i : number)
    : option (list stroke) :=
  if Num.ltb i numSegments then
    match fuel with
    | O => None
    | S fuel =>
        cons (tailSegment x1 y1 y2 thickness pressure segmentLength numSegments i)
          <$> tailLoop fuel x1 y1 y2 thickness pressure segmentLength numSegments
                       (Num.add i (Num.of_Z 1))
    end
  else Some [].

Definition tailSegments (x1 x2 : number) : number :=
  Num.max2 (Num.of_Z 5) (Math_floor (Num.div (Num.sub x2 x1) (Num.of_Z 10))).

(** [drawFadingTail(x1, y1, x2, y2, color, thickness, pressure)]: the calls
    of [drawPencilLine], all with the colour passed in. *)
Definition drawFadingTail (fuel : nat) (x1 y1 x2 y2 thickness pressure : number)
    : option (list stroke) :=
  let tailLength := Num.sub x2 x1 in
  let numSegments := tailSegments x1 x2 in
  let segmentLength := Num.div tailLength numSegments in
  tailLoop fuel x1 y1 y2 thickness pressure segmentLength numSegments (Num.of_Z 0).

End FadingTail.

(** The two ends of a pencil line. *)
Definition strokeFrom (s : stroke) : number * number :=
  match s with
  | PencilLine x1 y1 _ _ _ _ | FadingTail x1 y1 _ _ _ _ => (x1, y1)
  end.
Definition strokeTo (s : stroke) : number * number :=
  match s with
  | PencilLine _ _ x2 y2 _ _ | FadingTail _ _ x2 y2 _ _ => (x2, y2)
  end.

(** Each line starts at the abscissa where the one before it ended. *)
Definition chained (l : list stroke) : Prop :=
  ∀ j a b, l !! j = Some a → l !! S j = Some b → (strokeTo a).1 = (strokeFrom b).1.
(** [this.data.pencilPressure || 0.85], the end of both fall-back chains. *)
Definition datasetPressure (data : Data.t) : number :=
  num_or (Data.pencilPressure data) defaultPressure.
(* ===================================================================== *)
(** * Properties *)
(* ===================================================================== *)

(** ** Rounding to binary64 is monotone *)

Module Float64Facts.
Import Float64.
Local Open Scope Q_scope.

Lemma pow2_pos e : 0 < pow2 e.
Proof. apply Qpower_0_lt. reflexivity. Qed.

Lemma pow2_add a b : pow2 (a + b) == pow2 a * pow2 b.
Proof. apply Qpower_plus. discriminate. Qed.

Lemma pow2_le a b : (a <= b)%Z -> pow2 a <= pow2 b.
Proof. intros H. apply Qpower_le_compat_l; [exact H | discriminate]. Qed.

Lemma pow2_lt a b : (a < b)%Z -> pow2 a < pow2 b.
Proof. intros H. apply Qpower_lt_compat_l; [exact H | reflexivity]. Qed.

Lemma pow2_inject k : (0 <= k)%Z -> pow2 k == inject_Z (2 ^ k).
Proof. intros H. unfold pow2. rewrite Zpower_Qpower by exact H. reflexivity. Qed.

Lemma pow2_succ a : pow2 (a + 1) == 2 * pow2 a.
Proof. rewrite pow2_add. change (pow2 1) with 2. ring. Qed.

(** The bounds that make [Z.log2] a floor of the binary logarithm, in Q. *)
Lemma Zlog2_bounds n :
  (0 < n)%Z -> pow2 (Z.log2 n) <= inject_Z n /\ inject_Z n < pow2 (Z.log2 n + 1).
Proof.
  intros Hn. destruct (Z.log2_spec n Hn) as [Hlo Hhi].
  pose proof (Z.log2_nonneg n) as Hnn.
  rewrite !pow2_inject by lia. rewrite <- Zle_Qle, <- Zlt_Qlt.
  split; [exact Hlo | exact Hhi].
Qed.

Lemma Qlog2_spec q :
  0 < q -> pow2 (Qlog2 q) <= q /\ q < pow2 (Qlog2 q + 1).
Proof.
  intros Hq. destruct q as [n d]. unfold Qlog2. cbn [Qnum Qden].
  assert (Hn : (0 < n)%Z).
  { unfold Qlt in Hq. cbn in Hq. lia. }
  destruct (Zlog2_bounds n Hn) as [Hn1 Hn2].
  destruct (Zlog2_bounds (Zpos d) eq_refl) as [Hd1 Hd2].
  set (a := Z.log2 n) in *. set (b := Z.log2 (Zpos d)) in *.
  assert (Hq' : (n # d) * inject_Z (Zpos d) == inject_Z n).
  { rewrite (Qmake_Qdiv n d). field. discriminate. }
  assert (Hdpos : 0 < inject_Z (Zpos d)) by reflexivity.
  pose proof (pow2_pos (a - b)) as Hp0.
  pose proof (pow2_pos b) as Hpb.
  assert (Ha : pow2 a == pow2 (a - b) * pow2 b).
  { rewrite <- pow2_add. replace (a - b + b)%Z with a by lia. reflexivity. }
  assert (Hs : pow2 (a - b + 1) == 2 * pow2 (a - b)) by apply pow2_succ.
  assert (Hs1 : pow2 (a + 1) == 2 * pow2 a) by apply pow2_succ.
  assert (Hs2 : pow2 (b + 1) == 2 * pow2 b) by apply pow2_succ.
  assert (Hs3 : pow2 (a - b) == 2 * pow2 (a - b - 1)).
  { rewrite <- pow2_succ. replace (a - b - 1 + 1)%Z with (a - b)%Z by lia. reflexivity. }
  destruct (Qle_bool (pow2 (a - b)) (n # d)) eqn:E.
  - apply Qle_bool_iff in E. split; [exact E |].
    rewrite Hs. 
    apply Qnot_le_lt. intros Hc.
    assert (2 * pow2 (a - b) * inject_Z (Zpos d) <= (n # d) * inject_Z (Zpos d)).
    { apply Qmult_le_compat_r; [exact Hc | apply Qlt_le_weak; exact Hdpos]. }
    assert (2 * pow2 (a - b) * pow2 b <= 2 * pow2 (a - b) * inject_Z (Zpos d)).
    { apply Qmult_le_l; [nra | exact Hd1]. }
    nra.
  - assert (E' : (n # d) < pow2 (a - b)).
    { apply Qnot_le_lt. intros Hc. apply Qle_bool_iff in Hc. congruence. }
    replace (a - b - 1 + 1)%Z with (a - b)%Z by lia.
    split; [| exact E'].
    apply Qnot_lt_le. intros Hc.
    assert ((n # d) * inject_Z (Zpos d) < pow2 (a - b - 1) * inject_Z (Zpos d)).
    { apply Qmult_lt_compat_r; [exact Hdpos | exact Hc]. }
    assert (pow2 (a - b - 1) * inject_Z (Zpos d) <= pow2 (a - b - 1) * pow2 (b + 1)).
    { apply Qmult_le_l; [apply pow2_pos | apply Qlt_le_weak; exact Hd2]. }
    nra.
Qed.


Lemma round_even_bounds m :
  (Qfloor m <= round_even m <= Qfloor m + 1)%Z.
Proof.
  unfold round_even.
  destruct (Qcompare (m - inject_Z (Qfloor m)) (1 # 2)); [destruct (Z.even _) | |]; lia.
Qed.

Lemma round_even_Z z : round_even (inject_Z z) = z.
Proof.
  unfold round_even. rewrite Qfloor_Z.
  assert (E : (inject_Z z - inject_Z z ?= 1 # 2) = Lt).
  { assert (E0 : inject_Z z - inject_Z z == 0) by ring. rewrite E0. reflexivity. }
  rewrite E. reflexivity.
Qed.

Lemma round_even_mono m1 m2 : m1 <= m2 -> (round_even m1 <= round_even m2)%Z.
Proof.
  intros Hm. pose proof (Qfloor_resp_le _ _ Hm) as Hf.
  destruct (Z.eq_dec (Qfloor m1) (Qfloor m2)) as [E | NE].
  - unfold round_even. rewrite <- E.
    destruct (Qcompare_spec (m1 - inject_Z (Qfloor m1)) (1 # 2)) as [H1 | H1 | H1];
    destruct (Qcompare_spec (m2 - inject_Z (Qfloor m1)) (1 # 2)) as [H2 | H2 | H2];
    try destruct (Z.even (Qfloor m1)); try lia; exfalso; lra.
  - pose proof (round_even_bounds m1). pose proof (round_even_bounds m2). lia.
Qed.

Lemma round_even_ge z m : inject_Z z <= m -> (z <= round_even m)%Z.
Proof. intros Hm. rewrite <- (round_even_Z z). apply round_even_mono, Hm. Qed.

Lemma round_even_le z m : m <= inject_Z z -> (round_even m <= z)%Z.
Proof. intros Hm. rewrite <- (round_even_Z z). apply round_even_mono, Hm. Qed.

Lemma Qlog2_mono x y : 0 < x -> x <= y -> (Qlog2 x <= Qlog2 y)%Z.
Proof.
  intros Hx Hxy.
  assert (Hy : 0 < y) by lra.
  destruct (Qlog2_spec x Hx) as [Hx1 _]. destruct (Qlog2_spec y Hy) as [_ Hy2].
  destruct (Z_lt_le_dec (Qlog2 y) (Qlog2 x)) as [Hlt | Hle]; [| exact Hle].
  exfalso. assert (pow2 (Qlog2 y + 1) <= pow2 (Qlog2 x)) by (apply pow2_le; lia). lra.
Qed.

(** The value of [round_pos] before normalisation of the fraction. *)
Lemma round_pos_eq q :
  round_pos q == inject_Z (round_even (q / pow2 (ulp_exp q))) * pow2 (ulp_exp q).
Proof. unfold round_pos. apply Qred_correct. Qed.

Lemma scaled_le x y s : x <= y -> x / pow2 s <= y / pow2 s.
Proof.
  intros Hxy. pose proof (pow2_pos s) as Hs.
  apply Qmult_le_compat_r; [exact Hxy |].
  apply Qlt_le_weak, Qinv_lt_0_compat, Hs.
Qed.

Lemma scaled_pow2 a s : pow2 a / pow2 s == pow2 (a - s).
Proof.
  pose proof (pow2_pos s) as Hs.
  assert (E : pow2 a == pow2 (a - s) * pow2 s).
  { rewrite <- pow2_add. replace (a - s + s)%Z with a by lia. reflexivity. }
  rewrite E. field. lra.
Qed.

Lemma round_pos_mono x y : 0 < x -> x <= y -> round_pos x <= round_pos y.
Proof.
  intros Hx Hxy. assert (Hy : 0 < y) by lra.
  rewrite (round_pos_eq x), (round_pos_eq y).
  pose proof (Qlog2_mono x y Hx Hxy) as HL.
  destruct (Qlog2_spec x Hx) as [_ Hx2]. destruct (Qlog2_spec y Hy) as [Hy1 _].
  set (sx := ulp_exp x). set (sy := ulp_exp y).
  assert (Hs : (sx <= sy)%Z) by (unfold sx, sy, ulp_exp; lia).
  pose proof (pow2_pos sx) as Hpx. pose proof (pow2_pos sy) as Hpy.
  destruct (Z.eq_dec sx sy) as [E | NE].
  - rewrite <- E. apply Qmult_le_compat_r; [| lra].
    rewrite <- Zle_Qle. apply round_even_mono, scaled_le, Hxy.
  - assert (Esy : sy = (Qlog2 y - 52)%Z) by (unfold sx, sy, ulp_exp in *; lia).
    assert (Hsx : (Qlog2 x + 1 <= sx + 53)%Z) by (unfold sx, ulp_exp; lia).
    (* the rounded x stays below 2^(sx+53), the rounded y above 2^(sy+52) *)
    assert (Hux : (round_even (x / pow2 sx) <= 2 ^ 53)%Z).
    { apply round_even_le. rewrite <- pow2_inject by lia.
      assert (E53 : pow2 53 == pow2 (sx + 53) / pow2 sx).
      { rewrite scaled_pow2. replace (sx + 53 - sx)%Z with 53%Z by lia. reflexivity. }
      rewrite E53. apply scaled_le.
      assert (pow2 (Qlog2 x + 1) <= pow2 (sx + 53)) by (apply pow2_le; lia). lra. }
    assert (Hly : (2 ^ 52 <= round_even (y / pow2 sy))%Z).
    { apply round_even_ge. rewrite <- pow2_inject by lia.
      assert (E52 : pow2 52 == pow2 (Qlog2 y) / pow2 sy).
      { rewrite scaled_pow2. replace (Qlog2 y - sy)%Z with 52%Z by lia. reflexivity. }
      rewrite E52. apply scaled_le, Hy1. }
    rewrite Zle_Qle in Hux, Hly.
    rewrite <- pow2_inject in Hux, Hly by lia.
    assert (H1 : inject_Z (round_even (x / pow2 sx)) * pow2 sx <= pow2 53 * pow2 sx).
    { apply Qmult_le_compat_r; lra. }
    assert (H2 : pow2 52 * pow2 sy <= inject_Z (round_even (y / pow2 sy)) * pow2 sy).
    { apply Qmult_le_compat_r; lra. }
    assert (H3 : pow2 53 * pow2 sx <= pow2 52 * pow2 sy).
    { rewrite <- !pow2_add. apply pow2_le. lia. }
    lra.
Qed.
End Float64Facts.

(** ** Order-preserving arithmetic on [number] *)

Module NumFacts.
Import Float64 Float64Facts JS.
Local Open Scope Q_scope.

Lemma round_pos_nonneg q : 0 < q -> 0 <= round_pos q.
Proof.
  intros Hq. rewrite round_pos_eq.
  pose proof (pow2_pos (ulp_exp q)) as Hp.
  assert (Hr : (0 <= round_even (q / pow2 (ulp_exp q)))%Z).
  { apply round_even_ge. apply Qlt_le_weak, Qlt_shift_div_l; [exact Hp |]. change (inject_Z 0) with 0. lra. }
  rewrite Zle_Qle in Hr. change (inject_Z 0) with 0 in Hr. apply Qmult_le_0_compat; lra.
Qed.

Lemma leb_Fin x y : Num.leb (Fin x) (Fin y) = true <-> x <= y.
Proof. apply Qle_bool_iff. Qed.

Lemma fl_not_NaN q : fl q <> NaN.
Proof.
  unfold fl. destruct (Qcompare q 0); [discriminate | |];
  destruct (Qle_bool _ _); discriminate.
Qed.

(** Rounding preserves the order of the exact results. *)
Lemma fl_mono x y : x <= y -> Num.leb (fl x) (fl y) = true.
Proof.
  intros Hxy. unfold fl.
  destruct (Qcompare_spec x 0) as [Hx | Hx | Hx];
  destruct (Qcompare_spec y 0) as [Hy | Hy | Hy]; try (exfalso; lra).
  - reflexivity.
  - pose proof (round_pos_nonneg y Hy).
    destruct (Qle_bool _ (round_pos y)); [reflexivity | apply leb_Fin; lra].
  - assert (Hx' : 0 < - x) by lra. pose proof (round_pos_nonneg _ Hx').
    destruct (Qle_bool _ (round_pos (- x))); [reflexivity |].
    apply leb_Fin. rewrite Qred_correct. lra.
  - assert (Hx' : 0 < - x) by lra. assert (Hy' : 0 < - y) by lra.
    assert (Hle : - y <= - x) by lra.
    pose proof (round_pos_mono _ _ Hy' Hle) as Hm.
    destruct (Qle_bool (pow2 1024) (round_pos (- x))) eqn:Ex;
      [destruct (Qle_bool (pow2 1024) (round_pos (- y))); reflexivity |].
    destruct (Qle_bool (pow2 1024) (round_pos (- y))) eqn:Ey.
    + apply Qle_bool_iff in Ey.
      assert (pow2 1024 <= round_pos (- x)) by lra.
      apply Qle_bool_iff in H. congruence.
    + apply leb_Fin. rewrite !Qred_correct. lra.
  - assert (Hx' : 0 < - x) by lra. pose proof (round_pos_nonneg _ Hx').
    pose proof (round_pos_nonneg y Hy).
    destruct (Qle_bool _ (round_pos (- x))); destruct (Qle_bool _ (round_pos y)); try reflexivity.
    apply leb_Fin. rewrite Qred_correct. lra.
  - pose proof (round_pos_mono _ _ Hx Hxy) as Hm.
    destruct (Qle_bool (pow2 1024) (round_pos y)) eqn:Ey;
      [destruct (Qle_bool (pow2 1024) (round_pos x)); reflexivity |].
    destruct (Qle_bool (pow2 1024) (round_pos x)) eqn:Ex.
    + apply Qle_bool_iff in Ex.
      assert (pow2 1024 <= round_pos y) by lra.
      apply Qle_bool_iff in H. congruence.
    + apply leb_Fin. lra.
Qed.

Lemma leb_NegInf_fl q : Num.leb NegInf (fl q) = true.
Proof. destruct (fl q) eqn:E; try reflexivity. now apply fl_not_NaN in E. Qed.

Lemma leb_fl_PosInf q : Num.leb (fl q) PosInf = true.
Proof. destruct (fl q) eqn:E; try reflexivity. now apply fl_not_NaN in E. Qed.

Ltac order_cases a b x y Hle :=
  destruct a as [| | |x], b as [| | |y]; intros Hle; try discriminate Hle;
  cbn [Num.add Num.sub Num.mul Num.div Num.Math_round];
  try reflexivity; try apply leb_NegInf_fl; try apply leb_fl_PosInf;
  try (apply leb_Fin in Hle).

Lemma add_mono_r c a b :
  Num.leb a b = true -> Num.leb (Num.add (Fin c) a) (Num.add (Fin c) b) = true.
Proof.
  order_cases a b x y Hle. apply fl_mono. lra.
Qed.

Lemma sub_mono_l c a b :
  Num.leb a b = true -> Num.leb (Num.sub a (Fin c)) (Num.sub b (Fin c)) = true.
Proof.
  order_cases a b x y Hle. apply fl_mono. lra.
Qed.

Lemma mul_mono_l w a b :
  0 < w -> Num.leb a b = true -> Num.leb (Num.mul a (Fin w)) (Num.mul b (Fin w)) = true.
Proof.
  intros Hw.
  assert (Ew : (w ?= 0) = Gt) by (apply Qgt_alt; exact Hw).
  order_cases a b x y Hle; rewrite ?Ew; try reflexivity; try apply leb_NegInf_fl;
    try apply leb_fl_PosInf.
  apply fl_mono. nra.
Qed.

Lemma div_mono_l r a b :
  0 < r -> Num.leb a b = true -> Num.leb (Num.div a (Fin r)) (Num.div b (Fin r)) = true.
Proof.
  intros Hr.
  assert (Er : (r ?= 0) = Gt) by (apply Qgt_alt; exact Hr).
  assert (En : Num.nonneg r = true) by (apply Qle_bool_iff; lra).
  order_cases a b x y Hle; rewrite ?Er, ?En; try reflexivity; try apply leb_NegInf_fl;
    try apply leb_fl_PosInf.
  apply fl_mono.
  apply Qmult_le_compat_r; [exact Hle |]. apply Qlt_le_weak, Qinv_lt_0_compat, Hr.
Qed.

Lemma Math_round_mono a b :
  Num.leb a b = true -> Num.leb (Num.Math_round a) (Num.Math_round b) = true.
Proof.
  order_cases a b x y Hle. apply leb_Fin. rewrite <- Zle_Qle.
  apply Qfloor_resp_le. lra.
Qed.

End NumFacts.

(* ===================================================================== *)
(** ** The theme collector *)
(* ===================================================================== *)

Section StringOrder.

Lemma Ascii_compare_Lt_trans a b c :
  Ascii.compare a b = Lt → Ascii.compare b c = Lt → Ascii.compare a c = Lt.
Proof. unfold Ascii.compare. rewrite !N.compare_lt_iff. lia. Qed.

Lemma String_compare_refl s : String.compare s s = Eq.
Proof.
  induction s as [| c s IH]; [reflexivity |]. cbn.
  unfold Ascii.compare. rewrite N.compare_refl. exact IH.
Qed.

Lemma String_compare_Lt_trans s1 : ∀ s2 s3,
  String.compare s1 s2 = Lt → String.compare s2 s3 = Lt → String.compare s1 s3 = Lt.
Proof.
  induction s1 as [| c1 s1 IH]; intros [| c2 s2] [| c3 s3]; cbn; try congruence.
  destruct (Ascii.compare c1 c2) eqn:E12; try congruence;
  destruct (Ascii.compare c2 c3) eqn:E23; try congruence; intros H12 H23.
  - apply Ascii.compare_eq_iff in E12, E23. subst.
    unfold Ascii.compare. rewrite N.compare_refl. eauto.
  - apply Ascii.compare_eq_iff in E12. subst. rewrite E23. reflexivity.
  - apply Ascii.compare_eq_iff in E23. subst. rewrite E12. reflexivity.
  - rewrite (Ascii_compare_Lt_trans _ _ _ E12 E23). reflexivity.
Qed.

Lemma String_le_alt s1 s2 : String_le s1 s2 ↔ String.compare s1 s2 = Lt ∨ s1 = s2.
Proof.
  unfold String_le, String.leb. split.
  - destruct (String.compare s1 s2) eqn:E; try discriminate; intros _.
    + right. apply String.compare_eq_iff, E.
    + left. reflexivity.
  - intros [E | ->]; [rewrite E | rewrite String_compare_refl]; reflexivity.
Qed.

#[global] Instance String_le_refl : Reflexive String_le.
Proof. intros s. apply String_le_alt. right. reflexivity. Qed.

#[global] Instance String_le_trans : Transitive String_le.
Proof.
  intros s1 s2 s3. rewrite !String_le_alt. intros [H12 | ->] [H23 | ->]; auto.
  left. eapply String_compare_Lt_trans; eassumption.
Qed.

#[global] Instance String_le_total : Total String_le.
Proof. intros s1 s2. apply String.leb_total. Qed.

#[global] Instance String_le_antisym : AntiSymm (=) String_le.
Proof. intros s1 s2. apply String.leb_antisym. Qed.

End StringOrder.

Section ThemeCollector.

Lemma truthy_str_Some s : truthy_str (Some s) = true ↔ s ≠ EmptyString.
Proof.
  cbn. destruct (String.eqb_spec s EmptyString) as [-> | Hne]; cbn; split;
    congruence.
Qed.

Lemma elem_of_add_theme t o themes :
  t ∈ add_theme o themes ↔ t ∈ themes ∨ (o = Some t ∧ t ≠ EmptyString).
Proof.
  unfold add_theme. destruct o as [s |]; [| naive_solver].
  destruct (truthy_str (Some s)) eqn:E.
  - apply truthy_str_Some in E. rewrite elem_of_union, elem_of_singleton.
    naive_solver.
  - assert (¬ s ≠ EmptyString) by (rewrite <- truthy_str_Some; congruence).
    naive_solver.
Qed.

Lemma elem_of_collectThemes t l : ∀ themes,
  t ∈ collectThemes l themes ↔ t ∈ themes ∨ (Some t ∈ l ∧ t ≠ EmptyString).
Proof.
  unfold collectThemes.
  induction l as [| o l IH]; intros themes; cbn.
  - rewrite elem_of_nil. naive_solver.
  - rewrite IH, elem_of_add_theme, elem_of_cons. naive_solver.
Qed.

(** The set collected depends on the list only up to reordering. *)
Lemma collectThemes_Permutation l1 l2 themes :
  l1 ≡ₚ l2 → collectThemes l1 themes = collectThemes l2 themes.
Proof.
  intros Hp. apply set_eq. intros t. rewrite !elem_of_collectThemes.
  by setoid_rewrite Hp.
Qed.

(** [getUniqueThemes] sorts the set collected from [themeNames]. *)
Lemma getUniqueThemes_collect this :
  getUniqueThemes this = merge_sort String_le (elements (collectThemes (themeNames this) ∅)).
Proof.
  unfold getUniqueThemes, themeNames, collectThemes.
  destruct (Renderer.data this) as [data |]; [| reflexivity].
  rewrite foldl_app, !foldl_fmap. reflexivity.
Qed.

Lemma elem_of_getUniqueThemes this t :
  t ∈ getUniqueThemes this ↔ Some t ∈ themeNames this ∧ t ≠ EmptyString.
Proof.
  rewrite getUniqueThemes_collect, merge_sort_Permutation, elem_of_elements,
    elem_of_collectThemes.
  set_solver.
Qed.

Lemma getUniqueThemes_NoDup this : NoDup (getUniqueThemes this).
Proof.
  rewrite getUniqueThemes_collect, merge_sort_Permutation. apply NoDup_elements.
Qed.

Lemma getUniqueThemes_sorted this : StronglySorted String_le (getUniqueThemes this).
Proof. rewrite getUniqueThemes_collect. apply StronglySorted_merge_sort; apply _. Qed.

End ThemeCollector.

(** C8. For any two datasets whose project and epic theme names form the same
    multiset (the same names in any input order, or the same dataset read
    twice), [getUniqueThemes] returns one and the same list, and that list
    has no duplicates and is sorted in ascending lexicographic order. *)
Theorem getUniqueThemes_sorted_unique_stable (this this' : Renderer.t) :
  themeNames this' ≡ₚ themeNames this →
  NoDup (getUniqueThemes this)
  ∧ StronglySorted String_le (getUniqueThemes this)
  ∧ getUniqueThemes this' = getUniqueThemes this.
Proof.
  intros Hp. split; [apply getUniqueThemes_NoDup |].
  split; [apply getUniqueThemes_sorted |].
  rewrite !getUniqueThemes_collect.
  by rewrite (collectThemes_Permutation _ _ _ Hp).
Qed.

Lemma getUniqueThemes_sorted_unique_stable_witness :
  getUniqueThemes (loadData ThemeExamples.themesBA setupCanvas)
  = ["A"; "B"; "C"]%string
  ∧ NoDup (getUniqueThemes (loadData ThemeExamples.themesAB setupCanvas))
  ∧ StronglySorted String_le (getUniqueThemes (loadData ThemeExamples.themesAB setupCanvas))
  ∧ getUniqueThemes (loadData ThemeExamples.themesBA setupCanvas)
    = getUniqueThemes (loadData ThemeExamples.themesAB setupCanvas).
Proof.
  split; [vm_compute; reflexivity |].
  apply (getUniqueThemes_sorted_unique_stable
           (loadData ThemeExamples.themesAB setupCanvas)
           (loadData ThemeExamples.themesBA setupCanvas)).
  apply perm_swap.
Defined.

(* ===================================================================== *)
(** ** The project processor *)
(* ===================================================================== *)

Section Processor.
Context `{Host}.
Import NumFacts.

Lemma parseDate_range s t : parseDate s = Some t → Z.abs t <= 8640000000000000.
Proof.
  unfold parseDate. destruct (Date_parse s) as [t' |]; cbn; [| discriminate].
  unfold TimeClip. destruct (Z.leb_spec (Z.abs t') 8640000000000000); congruence.
Qed.

Lemma leb_of_Z a b : Num.leb (Num.of_Z a) (Num.of_Z b) = true ↔ a <= b.
Proof. unfold Num.of_Z. rewrite leb_Fin, <- Zle_Qle. reflexivity. Qed.

Lemma ltb_of_Z a b : Num.ltb (Num.of_Z a) (Num.of_Z b) = true ↔ a < b.
Proof.
  unfold Num.of_Z. cbn [Num.ltb]. rewrite negb_true_iff, <- not_true_iff_false,
    Qle_bool_iff, <- Zle_Qle. lia.
Qed.

(** The duration of a window that ends after it starts is a positive finite number. *)
Lemma duration_positive ts te :
  Z.abs ts <= 8640000000000000 → Z.abs te <= 8640000000000000 → ts < te →
  ∃ r, Num.sub (Num.of_Z te) (Num.of_Z ts) = Fin r ∧ (0 < r)%Q.
Proof.
  intros Hs He Hlt. cbn [Num.sub Num.of_Z].
  assert (Hlo : Num.leb (JS.fl 1) (JS.fl (inject_Z te - inject_Z ts)) = true).
  { apply fl_mono. unfold Qminus. rewrite <- inject_Z_opp, <- inject_Z_plus.
    change 1%Q with (inject_Z 1). rewrite <- Zle_Qle. lia. }
  assert (Hhi : Num.leb (JS.fl (inject_Z te - inject_Z ts))
                        (JS.fl (inject_Z 17280000000000000)) = true).
  { apply fl_mono. unfold Qminus. rewrite <- inject_Z_opp, <- inject_Z_plus, <- Zle_Qle. lia. }
  replace (JS.fl 1) with (Fin 1) in Hlo by (vm_compute; reflexivity).
  replace (JS.fl (inject_Z 17280000000000000)) with (Fin (inject_Z 17280000000000000))
    in Hhi by (vm_compute; reflexivity).
  destruct (JS.fl (inject_Z te - inject_Z ts)) as [| | | r]; try discriminate.
  exists r. split; [reflexivity |]. apply leb_Fin in Hlo. lra.
Qed.

Lemma timelineWidth_positive : ∃ w, timelineWidth = Fin w ∧ (0 < w)%Q.
Proof. eexists. split; reflexivity. Qed.

(** Later dates lie further right. *)
Lemma xOf_mono a b ts r w :
  (0 < r)%Q → (0 < w)%Q → a <= b →
  Num.leb (xOf (Some a) (Some ts) (Fin r) (Fin w))
          (xOf (Some b) (Some ts) (Fin r) (Fin w)) = true.
Proof.
  intros Hr Hw Hab. unfold xOf.
  apply add_mono_r, mul_mono_l, div_mono_l; [exact Hw | exact Hr |].
  cbn [valueOf]. apply sub_mono_l, leb_of_Z, Hab.
Qed.

(** [processProject] validates, then computes. *)
Lemma processProject_validation project startDate totalDuration width epicIndex :
  match validation project with
  | Some message =>
      processProject project startDate totalDuration width epicIndex = Throw (Error message)
  | None =>
      ∃ p, processProject project startDate totalDuration width epicIndex = Ok p
           ∧ PProject.source p = project
           ∧ PProject.theme p = Project.theme project
           ∧ PProject.epicIndex p = epicIndex
           ∧ PProject.x1 p =
               Num.Math_round (xOf (parseDate (Project.tbeg project)) startDate
                                   totalDuration width)
           ∧ PProject.x2 p =
               Num.Math_round (xOf (parseDate (Project.tend project)) startDate
                                   totalDuration width)
           ∧ PProject.x3 p =
               (if truthy_str (Project.tailEnd project)
                then let v := xOf (parseDate (show (Project.tailEnd project)))
                                  startDate totalDuration width in
                     if Num.truthy v then Some (Num.Math_round v) else None
                else None)
  end.
Proof.
  unfold validation, processProject.
  destruct (Num.ltb _ _); [reflexivity |].
  destruct (truthy_str (Project.tailEnd project)); cbn [andb fmap option_fmap option_map].
  - destruct (Num.leb _ _); [reflexivity |].
    eexists. split; [reflexivity |]. cbn. repeat split; reflexivity.
  - eexists. split; [reflexivity |]. cbn. repeat split; reflexivity.
Qed.

End Processor.

Section ProcessorOrder.
Context `{Host}.
Import NumFacts.

Lemma window_duration data ts te :
  window data ts te → ts < te →
  startDateOf data = Some ts ∧ ∃ r, totalDurationOf data = Fin r ∧ (0 < r)%Q.
Proof.
  intros [Hs He] Hlt. split; [exact Hs |].
  unfold totalDurationOf. rewrite Hs, He. cbn [valueOf].
  apply duration_positive; eauto using parseDate_range.
Qed.

(** Inside a valid window the abscissa of a valid date is a number. *)
Lemma xOf_not_NaN t ts r w :
  (0 < r)%Q → (0 < w)%Q → xOf (Some t) (Some ts) (Fin r) (Fin w) ≠ NaN.
Proof.
  intros Hr Hw Hx.
  pose proof (xOf_mono t t ts r w Hr Hw (Z.le_refl t)) as Hle.
  rewrite Hx in Hle. discriminate.
Qed.

(** An unparsable date has no abscissa. *)
Lemma xOf_invalid startDate totalDuration width :
  xOf None startDate totalDuration width = NaN.
Proof. reflexivity. Qed.

Lemma truthy_false_zero v : v ≠ NaN → (Num.truthy v = false ↔ isZero v).
Proof.
  intros Hv. unfold isZero. destruct v as [| | | q]; cbn; try congruence.
  - split; [discriminate | intros (q & ? & _); discriminate].
  - split; [discriminate | intros (q & ? & _); discriminate].
  - rewrite negb_false_iff, Qeq_bool_iff. split.
    + intros Hq. exists q. split; [reflexivity | exact Hq].
    + intros (q' & Hq' & Hz). congruence.
Qed.

End ProcessorOrder.

Section XOrder.
Context `{Host}.

(** Ordered dates give ordered pixels, for any positive duration and width. *)
Lemma processProject_x_order project ts r w epicIndex p :
  (0 < r)%Q → (0 < w)%Q →
  is_Some (parseDate (Project.tbeg project)) →
  is_Some (parseDate (Project.tend project)) →
  processProject project (Some ts) (Fin r) (Fin w) epicIndex = Ok p →
  Num.leb (PProject.x1 p) (PProject.x2 p) = true
  ∧ (∀ x3, PProject.x3 p = Some x3 → Num.leb (PProject.x2 p) x3 = true).
Proof.
  intros Hr Hwpos [s Hs] [e He] Hp.
  pose proof (processProject_validation project (Some ts) (Fin r) (Fin w) epicIndex)
    as Hv.
  destruct (validation project) as [message |] eqn:Eval; [congruence |].
  destruct Hv as (p' & Hp' & _ & _ & _ & Hx1 & Hx2 & Hx3).
  assert (p' = p) by congruence. subst p'. clear Hp'.
  rewrite Hs in Hx1. rewrite He in Hx2.
  unfold validation in Eval. rewrite Hs, He in Eval. cbn [valueOf] in Eval.
  destruct (Num.ltb (Num.of_Z e) (Num.of_Z s)) eqn:Ese; [discriminate |].
  assert (Hse : s <= e).
  { destruct (Z_le_gt_dec s e) as [Hle | Hgt]; [exact Hle |].
    assert (Num.ltb (Num.of_Z e) (Num.of_Z s) = true) by (apply ltb_of_Z; lia).
    congruence. }
  split.
  - rewrite Hx1, Hx2. apply NumFacts.Math_round_mono, xOf_mono; assumption.
  - intros x3 Ex3. rewrite Ex3 in Hx3.
    destruct (truthy_str (Project.tailEnd project)); [| discriminate].
    cbn [andb] in Eval.
    destruct (parseDate (show (Project.tailEnd project))) as [t |] eqn:Et.
    + cbn [valueOf] in Eval.
      destruct (Num.leb (Num.of_Z t) (Num.of_Z e)) eqn:Ete; [discriminate |].
      assert (Het : e <= t).
      { destruct (Z_le_gt_dec e t) as [Hle | Hgt]; [exact Hle |].
        assert (Num.leb (Num.of_Z t) (Num.of_Z e) = true) by (apply leb_of_Z; lia).
        congruence. }
      cbn zeta in Hx3.
      destruct (Num.truthy _); [| discriminate].
      injection Hx3 as ->. rewrite Hx2.
      apply NumFacts.Math_round_mono, xOf_mono; assumption.
    + rewrite xOf_invalid in Hx3. cbn in Hx3. discriminate.
Qed.

Lemma processProject_fields project startDate totalDuration width epicIndex p :
  processProject project startDate totalDuration width epicIndex = Ok p →
  PProject.source p = project
  ∧ PProject.theme p = Project.theme project
  ∧ PProject.startDate p = parseDate (Project.tbeg project)
  ∧ PProject.endDate p = parseDate (Project.tend project).
Proof.
  unfold processProject. destruct (Num.ltb _ _); [discriminate |].
  destruct (match _ with Some _ => _ | None => false end); [discriminate |].
  intros [= <-]. repeat split; reflexivity.
Qed.

End XOrder.

(** C6 (amended). In a window of positive duration, a project record with
    parseable start and end dates that passes validation is positioned with
    [x1 <= x2], and whenever its [x3] is a pixel coordinate (not [null]),
    [x2 <= x3]. *)
Theorem processed_x_order `{Host} (data : Data.t) (ts te : Z)
    (project : Project.t) (epicIndex : option nat) (p : PProject.t) :
  window data ts te → ts < te →
  is_Some (parseDate (Project.tbeg project)) →
  is_Some (parseDate (Project.tend project)) →
  processed data project epicIndex = Ok p →
  Num.leb (PProject.x1 p) (PProject.x2 p) = true
  ∧ (∀ x3, PProject.x3 p = Some x3 → Num.leb (PProject.x2 p) x3 = true).
Proof.
  intros Hwin Hlt Hs He Hp.
  destruct (window_duration data ts te Hwin Hlt) as (Hstart & r & Hdur & Hr).
  destruct timelineWidth_positive as (w & Hw & Hwpos).
  unfold processed in Hp. rewrite Hstart, Hdur, Hw in Hp.
  exact (processProject_x_order project ts r w epicIndex p Hr Hwpos Hs He Hp).
Qed.

Lemma processed_x_order_witness :
  ∃ p, processed Examples.centuryData Examples.shortTailProject None = Ok p
       ∧ Num.leb (PProject.x1 p) (PProject.x2 p) = true
       ∧ (∀ x3, PProject.x3 p = Some x3 → Num.leb (PProject.x2 p) x3 = true).
Proof.
  eexists. split; [vm_compute; reflexivity |].
  apply (processed_x_order Examples.centuryData 946684800000 4102444800000
           Examples.shortTailProject None).
  - split; vm_compute; reflexivity.
  - lia.
  - eexists. vm_compute. reflexivity.
  - eexists. vm_compute. reflexivity.
  - vm_compute. reflexivity.
Defined.

(** C6 as stated fails on the strict part: in a century-wide window a tail
    that ends one day after the project lands on the same pixel, so [x3] is
    not to the right of [x2]. *)
Lemma tail_one_day_same_pixel :
  window Examples.centuryData 946684800000 4102444800000
  ∧ tailAfterEnd Examples.shortTailProject
  ∧ ∃ p, processed Examples.centuryData Examples.shortTailProject None = Ok p
         ∧ PProject.x2 p = Fin 634
         ∧ PProject.x3 p = Some (Fin 634)
         ∧ Num.ltb (PProject.x2 p) (Fin 634) = false.
Proof.
  split; [split; vm_compute; reflexivity |]. split.
  - exists "2050-06-02"%string, 2537740800000, 2537654400000.
    repeat split; try discriminate; try lia; vm_compute; reflexivity.
  - eexists. split; [vm_compute; reflexivity |].
    repeat split; vm_compute; reflexivity.
Qed.

(** A number is falsy exactly when it is a zero or [NaN]. *)
Lemma truthy_false_iff v : Num.truthy v = false ↔ isZero v ∨ v = NaN.
Proof.
  assert (v = NaN ∨ v ≠ NaN) as [-> | Hv] by (destruct v; [by left | by right ..]).
  - split; [by right | reflexivity].
  - rewrite (truthy_false_zero v Hv). split; [by left | by intros [? | ?]].
Qed.

(** C9 (amended). Some project with a tail-end date strictly after its end
    date is positioned with [x3 = null]: the one of
    [Examples.seventeenDays], whose unrounded tail abscissa
    [margin.left + tailEndRatio * timelineWidth] is exactly 0.  In
    general, whatever the window is, a validated project with such a tail
    gets [x3 = null] when its unrounded tail abscissa is exactly 0 or is
    [NaN], and that abscissa rounded to the nearest integer in every other
    case. *)
Theorem falsy_tail_abscissa_discarded :
  (tailAfterEnd Examples.zeroTailProject
   ∧ isZero (tailX Examples.seventeenDays Examples.zeroTailProject)
   ∧ ∃ p, processed Examples.seventeenDays Examples.zeroTailProject None = Ok p
          ∧ PProject.x3 p = None)
  ∧ ∀ (H : Host) (data : Data.t) (project : Project.t)
      (epicIndex : option nat) (p : PProject.t),
      tailAfterEnd project →
      processed data project epicIndex = Ok p →
      (isZero (tailX data project) ∨ tailX data project = NaN → PProject.x3 p = None)
      ∧ (¬ isZero (tailX data project) → tailX data project ≠ NaN →
         PProject.x3 p = Some (Num.Math_round (tailX data project))).
Proof.
  split.
  - split.
    { exists "2024-01-01"%string, 1704067200000, 1703980800000.
      repeat split; try discriminate; try lia; vm_compute; reflexivity. }
    split.
    { exists 0%Q. split; [vm_compute; reflexivity | reflexivity]. }
    eexists. split; vm_compute; reflexivity.
  - intros H data project epicIndex p Htail Hp.
    destruct Htail as (str & t & e & Hstr & Hne & Ht & He & Het).
    unfold processed in Hp.
    pose proof (processProject_validation project (startDateOf data)
                  (totalDurationOf data) timelineWidth epicIndex) as Hv.
    destruct (validation project) as [message |]; [congruence |].
    destruct Hv as (p' & Hp' & _ & _ & _ & _ & _ & Hx3).
    assert (p' = p) by congruence. subst p'.
    assert (Etr : truthy_str (Project.tailEnd project) = true).
    { rewrite Hstr. apply truthy_str_Some, Hne. }
    rewrite Etr in Hx3. cbn zeta in Hx3. fold (tailX data project) in Hx3.
    pose proof (truthy_false_iff (tailX data project)) as Hfalsy.
    destruct (Num.truthy (tailX data project)) eqn:Etruthy.
    + split; [| intros _ _; exact Hx3].
      intros Hzero. apply Hfalsy in Hzero. discriminate.
    + split; [intros _; exact Hx3 |].
      intros Hnz Hnan. destruct (proj1 Hfalsy eq_refl) as [Hz | Hn]; contradiction.
Qed.

Lemma falsy_tail_abscissa_discarded_witness :
  ∃ p, processed Examples.centuryData Examples.shortTailProject None = Ok p
       ∧ (isZero (tailX Examples.centuryData Examples.shortTailProject)
          ∨ tailX Examples.centuryData Examples.shortTailProject = NaN →
          PProject.x3 p = None)
       ∧ (¬ isZero (tailX Examples.centuryData Examples.shortTailProject) →
          tailX Examples.centuryData Examples.shortTailProject ≠ NaN →
          PProject.x3 p =
            Some (Num.Math_round (tailX Examples.centuryData Examples.shortTailProject))).
Proof.
  eexists. split; [vm_compute; reflexivity |].
  apply (proj2 falsy_tail_abscissa_discarded engine Examples.centuryData
           Examples.shortTailProject None).
  - exists "2050-06-02"%string, 2537740800000, 2537654400000.
    repeat split; try discriminate; try lia; vm_compute; reflexivity.
  - vm_compute. reflexivity.
Defined.

(** C9 as stated fails on its last part: in a window that starts and ends
    on the same day the tail abscissa is 0/0, which is [NaN] and not 0;
    the guard discards it all the same, so [x3] is [null] and not that
    value rounded. *)
Lemma nan_tail_abscissa_is_discarded :
  tailAfterEnd Examples.instantTailProject
  ∧ tailX Examples.oneInstant Examples.instantTailProject = NaN
  ∧ ¬ isZero (tailX Examples.oneInstant Examples.instantTailProject)
  ∧ ∃ p, processed Examples.oneInstant Examples.instantTailProject None = Ok p
         ∧ PProject.x3 p = None
         ∧ PProject.x3 p
           ≠ Some (Num.Math_round (tailX Examples.oneInstant Examples.instantTailProject)).
Proof.
  split.
  { exists "2024-01-03"%string, 1704240000000, 1704153600000.
    repeat split; try discriminate; try lia; vm_compute; reflexivity. }
  assert (tailX Examples.oneInstant Examples.instantTailProject = NaN) as Hnan
    by (vm_compute; reflexivity).
  split; [exact Hnan |]. split.
  { rewrite Hnan. intros (q & Hq & _). discriminate. }
  eexists. split; [vm_compute; reflexivity |]. split; [reflexivity | discriminate].
Qed.

(* ===================================================================== *)
(** ** Errors of the layout pass *)
(* ===================================================================== *)

Section Messages.

Lemma string_app_assoc (a b c : string) : (a +:+ b) +:+ c = a +:+ (b +:+ c).
Proof.
  induction a as [| x a IH]; [reflexivity |].
  change (String x ((a +:+ b) +:+ c) = String x (a +:+ (b +:+ c))).
  rewrite IH. reflexivity.
Qed.

Lemma contains_here part post : contains part (part +:+ post).
Proof. exists EmptyString, post. reflexivity. Qed.

Lemma contains_later part pre msg : contains part msg → contains part (pre +:+ msg).
Proof.
  intros (pre' & post & ->). exists (pre +:+ pre'), post.
  symmetry. apply string_app_assoc.
Qed.

Lemma dateRangeMessage_contains project :
  contains (Project.name project) (dateRangeMessage project)
  ∧ contains (Project.tend project) (dateRangeMessage project)
  ∧ contains (Project.tbeg project) (dateRangeMessage project).
Proof.
  unfold dateRangeMessage.
  repeat split; repeat (apply contains_here || apply contains_later).
Qed.

Lemma tailEndMessage_contains project :
  contains (Project.name project) (tailEndMessage project)
  ∧ contains (show (Project.tailEnd project)) (tailEndMessage project)
  ∧ contains (Project.tend project) (tailEndMessage project).
Proof.
  unfold tailEndMessage.
  repeat split; repeat (apply contains_here || apply contains_later).
Qed.

End Messages.

Section Propagation.
Context `{Host}.

Lemma mapM_result_cons {A B} (f : A → result B) a l :
  mapM f (a :: l) =
    match f a with
    | Ok b => match mapM f l with
              | Ok bs => Ok (b :: bs)
              | Throw e => Throw e
              end
    | Throw e => Throw e
    end.
Proof. reflexivity. Qed.

Lemma mapM_result_Forall2 {A B} (f : A → result B) l : ∀ bs,
  mapM f l = Ok bs → Forall2 (λ a b, f a = Ok b) l bs.
Proof.
  induction l as [| a l IH]; intros bs.
  - intros [= <-]. constructor.
  - rewrite mapM_result_cons. destruct (f a) as [b |] eqn:Ea; [| discriminate].
    destruct (mapM f l) as [bs' |]; [| discriminate].
    intros [= <-]. constructor; auto.
Qed.

(** A loop whose body may throw preserves what each iteration preserves. *)
Lemma forEachM_invariant {S A} (body : S → A → result S) (I : S → Prop)
    (Q : A → Prop) l : ∀ s s',
  (∀ s a s', Q a → I s → body s a = Ok s' → I s') →
  Forall Q l → I s → forEachM body s l = Ok s' → I s'.
Proof.
  induction l as [| a l IH]; intros s s' Hbody HQ Hs; cbn [forEachM].
  - intros [= <-]. exact Hs.
  - destruct (body s a) as [s1 |] eqn:E; cbn [mbind result_bind]; [| discriminate].
    inversion HQ; subst. eapply IH; eauto.
Qed.

Lemma foldl_invariant {S A} (body : S → A → S) (I : S → Prop) l : ∀ s,
  (∀ s a, I s → I (body s a)) → I s → I (foldl body s l).
Proof. induction l as [| a l IH]; intros s Hbody Hs; cbn; auto. Qed.

(** A [map] whose callback validates each element: the first failing
    element decides. *)
Lemma mapM_first_error {A B} (f : A → result B) (check : A → option string) l :
  (∀ a, match check a with
        | Some message => f a = Throw (Error message)
        | None => ∃ b, f a = Ok b
        end) →
  match head (omap check l) with
  | Some message => mapM f l = Throw (Error message)
  | None => ∃ bs, mapM f l = Ok bs
  end.
Proof.
  intros Hf. induction l as [| a l IH]; cbn [omap list_omap head].
  - eexists. reflexivity.
  - rewrite mapM_result_cons. specialize (Hf a).
    destruct (check a) as [message |]; cbn [head].
    + rewrite Hf. reflexivity.
    + destruct Hf as [b ->].
      destruct (head (omap check l)) as [message |].
      * rewrite IH. reflexivity.
      * destruct IH as [bs ->]. eexists. reflexivity.
Qed.

Lemma processProject_outcome project startDate totalDuration width epicIndex :
  match validation project with
  | Some message =>
      processProject project startDate totalDuration width epicIndex = Throw (Error message)
  | None => ∃ p, processProject project startDate totalDuration width epicIndex = Ok p
  end.
Proof.
  pose proof (processProject_validation project startDate totalDuration width
                epicIndex) as Hv.
  destruct (validation project); [exact Hv |].
  destruct Hv as (p & Hp & _). eauto.
Qed.

(** The callback of the epic loop throws exactly when [processProject] does. *)
Lemma epic_member_validation (epic : Epic.t) epicIndex startDate totalDuration width a :
  match validation a with
  | Some message =>
      (processedProject ←
         processProject a startDate totalDuration width (Some epicIndex);
       Ok (if negb (truthy_str (PProject.theme processedProject))
              && truthy_str (Epic.theme epic)
           then PProject.set_theme (Epic.theme epic) processedProject
           else processedProject)) = Throw (Error message)
  | None =>
      ∃ b, (processedProject ←
              processProject a startDate totalDuration width (Some epicIndex);
            Ok (if negb (truthy_str (PProject.theme processedProject))
                   && truthy_str (Epic.theme epic)
                then PProject.set_theme (Epic.theme epic) processedProject
                else processedProject)) = Ok b
  end.
Proof.
  pose proof (processProject_validation a startDate totalDuration width
                (Some epicIndex)) as Hv.
  destruct (validation a) as [message |].
  - rewrite Hv. reflexivity.
  - destruct Hv as (p & -> & _). eexists. reflexivity.
Qed.

Lemma processEpic_first_error data startDate totalDuration width st epicIndex epic :
  match head (omap validation (array (Epic.projectLines epic))) with
  | Some message =>
      processEpic data startDate totalDuration width st (epicIndex, epic)
      = Throw (Error message)
  | None =>
      ∃ st', processEpic data startDate totalDuration width st (epicIndex, epic) = Ok st'
  end.
Proof.
  unfold processEpic. destruct st as [allProjects epics].
  destruct (Epic.projectLines epic) as [projectLines |];
    [change (array (Some projectLines)) with projectLines
    | change (array (@None (list Project.t))) with (@nil Project.t)].
  - pose proof (mapM_first_error _ validation projectLines
                  (epic_member_validation epic epicIndex startDate totalDuration width))
      as Hm.
    destruct (head (omap validation projectLines)) as [message |].
    + rewrite Hm. reflexivity.
    + destruct Hm as [bs ->]. cbn [mbind result_bind].
      destruct (0 <? length bs)%nat; eexists; reflexivity.
  - eexists. reflexivity.
Qed.

Lemma forEachM_epics_first_error data startDate totalDuration width epics : ∀ st i,
  match head (omap validation (epics ≫= λ epic, array (Epic.projectLines epic))) with
  | Some message =>
      forEachM (processEpic data startDate totalDuration width) st
               (zip (seq i (length epics)) epics) = Throw (Error message)
  | None =>
      ∃ st', forEachM (processEpic data startDate totalDuration width) st
                      (zip (seq i (length epics)) epics) = Ok st'
  end.
Proof.
  induction epics as [| epic epics IH]; intros st i.
  - eexists. reflexivity.
  - cbn [mbind list_bind]. rewrite omap_app, head_app.
    cbn [length seq zip zip_with forEachM].
    pose proof (processEpic_first_error data startDate totalDuration width st i epic)
      as He.
    destruct (head (omap validation (array (Epic.projectLines epic)))) as [message |].
    + rewrite He. reflexivity.
    + destruct He as [st' ->]. cbn [mbind result_bind]. apply IH.
Qed.

Lemma forEachM_indexed_first_error data startDate totalDuration width epics st :
  match head (omap validation (epics ≫= λ epic, array (Epic.projectLines epic))) with
  | Some message =>
      forEachM (processEpic data startDate totalDuration width) st (indexed epics)
      = Throw (Error message)
  | None =>
      ∃ st', forEachM (processEpic data startDate totalDuration width) st
                      (indexed epics) = Ok st'
  end.
Proof. apply forEachM_epics_first_error. Qed.

Lemma displayWidth_loadData data this :
  Renderer.displayWidth (loadData data this) = 1200.
Proof. reflexivity. Qed.

Lemma data_loadData data this : Renderer.data (loadData data this) = Some data.
Proof. reflexivity. Qed.

(** A loop throws only what its body throws. *)
Lemma forEachM_throw {S A} (body : S → A → result S) (P : exception → Prop) l :
  ∀ s e, (∀ s a e, body s a = Throw e → P e) → forEachM body s l = Throw e → P e.
Proof.
  induction l as [| a l IH]; intros s e Hbody; cbn [forEachM]; [discriminate |].
  destruct (body s a) as [s1 | e1] eqn:E; cbn [mbind result_bind].
  - apply IH, Hbody.
  - intros [= <-]. eapply Hbody, E.
Qed.

(** A loop whose body succeeds on every element succeeds. *)
Lemma forEachM_Ok {S A} (body : S → A → result S) (Q : A → Prop) l :
  ∀ s, (∀ s a, Q a → ∃ s', body s a = Ok s') → Forall Q l →
       ∃ s', forEachM body s l = Ok s'.
Proof.
  induction l as [| a l IH]; intros s Hbody HQ; cbn [forEachM]; [eauto |].
  inversion HQ as [| ? ? Ha Hl]; subst.
  destruct (Hbody s a Ha) as [s1 ->]. cbn [mbind result_bind]. apply IH; assumption.
Qed.

Lemma groupByTheme_throw projects epics e :
  groupByTheme projects epics = Throw e → e = TypeError.
Proof.
  unfold groupByTheme.
  destruct (forEachM groupProject ∅ (indexed projects)) as [themeGroups | e1] eqn:E1;
    cbn [mbind result_bind].
  - apply (forEachM_throw groupEpic (λ e, e = TypeError)).
    intros s [r epic] e'. unfold groupEpic.
    destruct (inherited _); congruence.
  - intros [= <-]. revert E1. apply (forEachM_throw groupProject (λ e, e = TypeError)).
    intros s [r project] e'. unfold groupProject. destruct (inherited _); congruence.
Qed.

Lemma placeTheme_throw themeGroups st theme e :
  placeTheme themeGroups st theme = Throw e → e = TypeError.
Proof.
  unfold placeTheme. destruct st as [[[heap epics] currentY] themeData].
  destruct (inherited theme); [congruence |].
  destruct (foldl placeProject _ _) as [[heap1 projectY1] placed1].
  destruct (foldl placeEpic _ _) as [[[heap2 epics2] projectY2] placed2].
  discriminate.
Qed.

(** The resolver throws nothing but the [TypeError] of an inherited key. *)
Lemma resolve_throw projects epics themes e :
  resolveCollisionsWithThemes projects epics themes = Throw e → e = TypeError.
Proof.
  unfold resolveCollisionsWithThemes.
  destruct (groupByTheme projects epics) as [themeGroups | e1] eqn:Eg;
    cbn [mbind result_bind].
  - destruct (forEachM _ _ themes) as [[[[heap epics'] currentY] themeData] | e2] eqn:Ef;
      cbn [mbind result_bind]; [discriminate |].
    intros [= <-]. revert Ef.
    apply (forEachM_throw (placeTheme themeGroups) (λ e, e = TypeError)).
    intros s a e'. apply placeTheme_throw.
  - intros [= <-]. eapply groupByTheme_throw, Eg.
Qed.

Lemma groupByTheme_Ok projects epics :
  Forall (λ p, ordinaryTheme (PProject.theme p)) projects →
  Forall (λ e, ordinaryTheme (PEpic.theme e)) epics →
  ∃ themeGroups, groupByTheme projects epics = Ok themeGroups.
Proof.
  intros Hp He. unfold groupByTheme.
  destruct (forEachM_Ok groupProject
              (λ entry, ordinaryTheme (PProject.theme entry.2))
              (indexed projects) ∅) as [themeGroups ->].
  - intros s [r project] Hord. unfold groupProject, ordinaryTheme in *.
    cbn [snd] in Hord. rewrite Hord. eauto.
  - unfold indexed. apply Forall_forall. intros [r project] Hin.
    apply elem_of_zip_r in Hin. rewrite Forall_forall in Hp. apply Hp, Hin.
  - cbn [mbind result_bind].
    apply (forEachM_Ok groupEpic (λ entry, ordinaryTheme (PEpic.theme entry.2))).
    + intros s [r epic] Hord. unfold groupEpic, ordinaryTheme in *.
      cbn [snd] in Hord. rewrite Hord. eauto.
    + unfold indexed. apply Forall_forall. intros [r epic] Hin.
      apply elem_of_zip_r in Hin. rewrite Forall_forall in He. apply He, Hin.
Qed.

Lemma placeTheme_Ok themeGroups st theme :
  inherited theme = false → ∃ st', placeTheme themeGroups st theme = Ok st'.
Proof.
  intros Hord. unfold placeTheme. destruct st as [[[heap epics] currentY] themeData].
  rewrite Hord.
  destruct (foldl placeProject _ _) as [[heap1 projectY1] placed1].
  destruct (foldl placeEpic _ _) as [[[heap2 epics2] projectY2] placed2].
  eauto.
Qed.

Lemma resolve_Ok projects epics themes :
  Forall (λ p, ordinaryTheme (PProject.theme p)) projects →
  Forall (λ e, ordinaryTheme (PEpic.theme e)) epics →
  Forall (λ theme, inherited theme = false) themes →
  ∃ scene, resolveCollisionsWithThemes projects epics themes = Ok scene.
Proof.
  intros Hp He Ht. unfold resolveCollisionsWithThemes.
  destruct (groupByTheme_Ok projects epics Hp He) as [themeGroups ->].
  cbn [mbind result_bind].
  destruct (forEachM_Ok (placeTheme themeGroups) (λ theme, inherited theme = false)
              themes (projects, epics, margin_top, [])
              (λ st theme, placeTheme_Ok themeGroups st theme) Ht)
    as [[[[heap epics'] currentY] themeData] ->].
  cbn [mbind result_bind]. eauto.
Qed.

(** The outcome of the layout pass: the date error of the first record that
    fails validation, and otherwise a scene, unless a theme name collides
    with an inherited property. *)
Lemma layout_outcome data :
  match firstError data with
  | Some message => layout data = Throw (Error message)
  | None => layout data = Throw TypeError ∨ ∃ scene, layout data = Ok scene
  end.
Proof.
  unfold firstError, projectRecords, layout, calculateTimelinePositions.
  rewrite data_loadData, omap_app, head_app.
  set (startDate := parseDate (Data.tbeg data)).
  set (totalDuration := Num.sub _ _).
  set (width := Num.of_Z _).
  pose proof (mapM_first_error
                (λ project, processProject project startDate totalDuration width None)
                validation (array (Data.projectLines data))
                (λ a, processProject_outcome a startDate totalDuration width None))
    as Hm.
  destruct (head (omap validation (array (Data.projectLines data)))) as [message |].
  - rewrite Hm. reflexivity.
  - destruct Hm as [standalone ->]. cbn [mbind result_bind].
    pose proof (forEachM_indexed_first_error data startDate totalDuration width
                  (array (Data.epics data)) (standalone, [])) as He.
    destruct (head (omap validation _)) as [message |].
    + rewrite He. reflexivity.
    + destruct He as [[allProjects epics] ->]. cbn [mbind result_bind].
      destruct (resolveCollisionsWithThemes allProjects epics _) as [scene | e] eqn:Er.
      * right. eauto.
      * left. f_equal. eapply resolve_throw, Er.
Qed.

(** The themes that [processEpic] leaves on the project and epic objects
    are themes of the dataset. *)
Lemma processEpic_ordinary data startDate totalDuration width st epicIndex epic st' :
  ordinaryTheme (Epic.theme epic) →
  Forall (λ project, ordinaryTheme (Project.theme project))
         (array (Epic.projectLines epic)) →
  Forall (λ p, ordinaryTheme (PProject.theme p)) st.1
  ∧ Forall (λ e, ordinaryTheme (PEpic.theme e)) st.2 →
  processEpic data startDate totalDuration width st (epicIndex, epic) = Ok st' →
  Forall (λ p, ordinaryTheme (PProject.theme p)) st'.1
  ∧ Forall (λ e, ordinaryTheme (PEpic.theme e)) st'.2.
Proof.
  intros Hepic Hlines [Hp He]. unfold processEpic. destruct st as [allProjects epics].
  cbn [fst snd] in Hp, He.
  destruct (Epic.projectLines epic) as [projectLines |];
    [change (array (Some projectLines)) with projectLines in Hlines
    | intros [= <-]; auto].
  destruct (mapM _ projectLines) as [epicProjects |] eqn:Em;
    cbn [mbind result_bind]; [| discriminate].
  assert (Hnew : Forall (λ p, ordinaryTheme (PProject.theme p)) epicProjects).
  { apply mapM_result_Forall2 in Em.
    induction Em as [| project p l bs Hpr _ IH]; [constructor |].
    inversion Hlines as [| ? ? Hproject Hrest]; subst.
    constructor; [| apply IH, Hrest].
    destruct (processProject project _ _ _ _) as [p0 |] eqn:Ep0;
      cbn [mbind result_bind] in Hpr; [| discriminate].
    injection Hpr as <-.
    destruct (processProject_fields _ _ _ _ _ _ Ep0) as (_ & Etheme & _).
    destruct (_ && _); cbn [PProject.set_theme PProject.theme];
      [exact Hepic | rewrite Etheme; exact Hproject]. }
  destruct (0 <? length epicProjects)%nat; intros [= <-]; cbn [fst snd]; split;
    try (apply Forall_app; split); auto.
Qed.

Lemma themeProperties_records data project :
  project ∈ projectRecords data →
  Forall ordinaryTheme (themeProperties data) → ordinaryTheme (Project.theme project).
Proof.
  intros Hin Hall. rewrite Forall_forall in Hall. apply Hall.
  unfold themeProperties. apply elem_of_app. left.
  apply list_elem_of_fmap. exists project. split; [reflexivity | exact Hin].
Qed.

Lemma themeProperties_epics data epic :
  epic ∈ array (Data.epics data) →
  Forall ordinaryTheme (themeProperties data) → ordinaryTheme (Epic.theme epic).
Proof.
  intros Hin Hall. rewrite Forall_forall in Hall. apply Hall.
  unfold themeProperties. apply elem_of_app. right.
  apply list_elem_of_fmap. exists epic. split; [reflexivity | exact Hin].
Qed.

Lemma getUniqueThemes_ordinary data :
  Forall ordinaryTheme (themeProperties data) →
  Forall (λ theme, inherited theme = false) (getUniqueThemes (loadData data setupCanvas)).
Proof.
  intros Hall. apply Forall_forall. intros theme Hin.
  apply elem_of_getUniqueThemes in Hin as [Hin Hne].
  rewrite Forall_forall in Hall.
  assert (Hord : ordinaryTheme (Some theme)).
  { apply Hall. unfold themeNames in Hin. rewrite data_loadData in Hin.
    unfold themeProperties. rewrite fmap_app.
    apply elem_of_app in Hin as [Hin | Hin].
    - apply elem_of_app. left. apply elem_of_app. left. exact Hin.
    - apply elem_of_app. right. exact Hin. }
  unfold ordinaryTheme in Hord. cbn [str_or] in Hord.
  destruct (String.eqb_spec theme EmptyString); [contradiction | exact Hord].
Qed.

(** Without date errors and without inherited theme names the pass returns
    a scene. *)
Lemma layout_Ok data :
  firstError data = None → Forall ordinaryTheme (themeProperties data) →
  ∃ scene, layout data = Ok scene.
Proof.
  intros Hfirst Hord.
  unfold firstError, projectRecords in Hfirst. rewrite omap_app in Hfirst.
  apply head_app_None in Hfirst as [Hfirst1 Hfirst2].
  unfold layout, calculateTimelinePositions. rewrite data_loadData.
  set (startDate := parseDate (Data.tbeg data)).
  set (totalDuration := Num.sub _ _).
  set (width := Num.of_Z _).
  pose proof (mapM_first_error
                (λ project, processProject project startDate totalDuration width None)
                validation (array (Data.projectLines data))
                (λ a, processProject_outcome a startDate totalDuration width None))
    as Hm.
  rewrite Hfirst1 in Hm. destruct Hm as [standalone Em]. rewrite Em.
  cbn [mbind result_bind].
  pose proof (forEachM_indexed_first_error data startDate totalDuration width
                (array (Data.epics data)) (standalone, [])) as He.
  rewrite Hfirst2 in He. destruct He as [[allProjects epics] Ef]. rewrite Ef.
  cbn [mbind result_bind].
  assert (Hst : Forall (λ p, ordinaryTheme (PProject.theme p)) standalone).
  { clear Ef. apply mapM_result_Forall2 in Em.
    assert (Hsub : ∀ project, project ∈ array (Data.projectLines data) →
                              ordinaryTheme (Project.theme project)).
    { intros project Hp. apply (themeProperties_records data); [| exact Hord].
      unfold projectRecords. apply elem_of_app. auto. }
    revert Em Hsub. generalize (array (Data.projectLines data)).
    intros l Em. induction Em as [| project p l bs Hp _ IH]; intros Hsub;
      [constructor |].
    constructor.
    - destruct (processProject_fields _ _ _ _ _ _ Hp) as (_ & -> & _).
      apply Hsub, list_elem_of_here.
    - apply IH. intros q Hq. apply Hsub, list_elem_of_further, Hq. }
  apply (forEachM_invariant _
           (λ st, Forall (λ p, ordinaryTheme (PProject.theme p)) st.1
                  ∧ Forall (λ e, ordinaryTheme (PEpic.theme e)) st.2)
           (λ entry, entry.2 ∈ array (Data.epics data))) in Ef.
  - destruct Ef as [Hp He]. apply resolve_Ok; [exact Hp | exact He |].
    apply getUniqueThemes_ordinary, Hord.
  - intros st [i epic] st' Hin Hinv Hstep. cbn [snd] in Hin.
    eapply processEpic_ordinary; [| | exact Hinv | exact Hstep].
    + apply (themeProperties_epics data); assumption.
    + apply Forall_forall. intros project Hp.
      apply (themeProperties_records data); [| exact Hord].
      unfold projectRecords. apply elem_of_app. right.
      apply list_elem_of_bind. exists epic. auto.
  - unfold indexed. apply Forall_forall. intros [i epic] Hin.
    apply elem_of_zip_r in Hin. exact Hin.
  - split; [exact Hst | constructor].
Qed.

End Propagation.

Section Validation.
Context `{Host}.

Lemma ltb_valueOf d1 d2 :
  Num.ltb (valueOf d1) (valueOf d2) = true ↔ ∃ a b, d1 = Some a ∧ d2 = Some b ∧ a < b.
Proof.
  destruct d1 as [a |], d2 as [b |]; cbn [valueOf].
  - rewrite ltb_of_Z. naive_solver.
  - split; [discriminate | naive_solver].
  - split; [discriminate | naive_solver].
  - split; [discriminate | naive_solver].
Qed.

Lemma leb_valueOf d1 d2 :
  Num.leb (valueOf d1) (valueOf d2) = true ↔ ∃ a b, d1 = Some a ∧ d2 = Some b ∧ a <= b.
Proof.
  destruct d1 as [a |], d2 as [b |]; cbn [valueOf].
  - rewrite leb_of_Z. naive_solver.
  - split; [discriminate | naive_solver].
  - split; [discriminate | naive_solver].
  - split; [discriminate | naive_solver].
Qed.

(** What [validation] answers on a record with an offending date. *)
Lemma validation_invalid project :
  endBeforeStart project ∨ tailNotAfterEnd project →
  (endBeforeStart project ∧ validation project = Some (dateRangeMessage project))
  ∨ (tailNotAfterEnd project ∧ validation project = Some (tailEndMessage project)).
Proof.
  intros Hbad. unfold validation.
  destruct (Num.ltb _ _) eqn:Elt.
  - left. split; [| reflexivity].
    apply ltb_valueOf in Elt as (e & s & He & Hs & Hlt). exists s, e. auto.
  - destruct Hbad as [(s & e & Hs & He & Hlt) | Htail].
    + assert (Num.ltb (valueOf (parseDate (Project.tend project)))
                      (valueOf (parseDate (Project.tbeg project))) = true)
        by (apply ltb_valueOf; eauto).
      congruence.
    + right. split; [exact Htail |].
      destruct Htail as (str & t & e & Hstr & Hne & Ht & He & Hle).
      rewrite Hstr. cbn [show].
      assert (Etr : truthy_str (Some str) = true) by (apply truthy_str_Some, Hne).
      assert (Ele : Num.leb (valueOf (parseDate str))
                            (valueOf (parseDate (Project.tend project))) = true)
        by (apply leb_valueOf; eauto).
      rewrite Etr, Ele. reflexivity.
Qed.

Lemma firstError_Some data project message :
  project ∈ projectRecords data → validation project = Some message →
  ∃ message' culprit, firstError data = Some message'
                      ∧ culprit ∈ projectRecords data
                      ∧ validation culprit = Some message'.
Proof.
  intros Hin Hv. unfold firstError.
  assert (Hm : message ∈ omap validation (projectRecords data)).
  { apply list_elem_of_omap. eauto. }
  destruct (omap validation (projectRecords data)) as [| message' l] eqn:E.
  - by apply elem_of_nil in Hm.
  - assert (Hm' : message' ∈ omap validation (projectRecords data)).
    { rewrite E. apply list_elem_of_here. }
    apply list_elem_of_omap in Hm' as (culprit & Hc & Hvc).
    exists message', culprit. auto.
Qed.

Lemma firstError_None data :
  Forall (λ project, validation project = None) (projectRecords data) →
  firstError data = None.
Proof.
  intros Hall. unfold firstError.
  destruct (omap validation (projectRecords data)) as [| message l] eqn:E;
    [reflexivity |].
  assert (Hm : message ∈ omap validation (projectRecords data)).
  { rewrite E. apply list_elem_of_here. }
  apply list_elem_of_omap in Hm as (culprit & Hc & Hvc).
  rewrite Forall_forall in Hall. rewrite (Hall _ Hc) in Hvc. discriminate.
Qed.

End Validation.

(** C4 (amended). The layout pass never inspects the window: whatever
    [tbeg] and [tend] are, it returns a scene as soon as every project
    record passes its own date validation (and no theme name is a property
    name that objects inherit, such as ["constructor"]). *)
Theorem layout_fails_only_on_project_dates `{Host} (data : Data.t) :
  Forall (λ project, validation project = None) (projectRecords data) →
  Forall ordinaryTheme (themeProperties data) →
  (∃ scene, layout data = Ok scene)
  ∧ ∀ tbeg tend,
      ∃ scene, layout (Data.mk tbeg tend (Data.pencilPressure data)
                               (Data.projectLines data) (Data.epics data)) = Ok scene.
Proof.
  intros Hall Hord. split.
  - apply layout_Ok; [apply firstError_None, Hall | exact Hord].
  - intros tbeg tend.
    apply layout_Ok; [apply firstError_None, Hall | exact Hord].
Qed.

Lemma layout_fails_only_on_project_dates_witness :
  ∃ scene, layout WindowExamples.invertedWindow = Ok scene.
Proof.
  apply (layout_fails_only_on_project_dates WindowExamples.invertedWindow).
  - repeat constructor.
  - repeat constructor.
Defined.

(** A theme named like a property inherited from [Object.prototype] stops
    the resolver with a [TypeError]. *)
Example constructor_theme_TypeError :
  firstError WindowExamples.constructorTheme = None
  ∧ layout WindowExamples.constructorTheme = Throw TypeError.
Proof. split; vm_compute; reflexivity. Qed.

(** C4 as stated fails: a dataset whose window ends a year before it starts
    is laid out without any error. *)
Lemma inverted_window_is_laid_out :
  window WindowExamples.invertedWindow 1735689600000 1704067200000
  ∧ 1704067200000 <= 1735689600000
  ∧ ∃ scene, layout WindowExamples.invertedWindow = Ok scene
             ∧ length (Scene.themes scene) = 1%nat
             ∧ Scene.projects scene = [0%nat].
Proof.
  split; [split; vm_compute; reflexivity |]. split; [lia |].
  eexists. split; [vm_compute; reflexivity |]. split; reflexivity.
Qed.

(** C7. A project record whose end date precedes its start date, or whose
    tail-end date is present and not strictly after its end date (equal
    included), makes [processProject] throw, whatever the window; the
    message contains the name of the project and the literal offending
    dates; and a dataset that holds such a record gets no scene: the layout
    pass ends with the error of an offending record. *)
Theorem invalid_dates_abort_layout `{Host} (data : Data.t) (project : Project.t) :
  project ∈ projectRecords data →
  endBeforeStart project ∨ tailNotAfterEnd project →
  (∃ message,
     (∀ startDate totalDuration width epicIndex,
        processProject project startDate totalDuration width epicIndex = Throw (Error message))
     ∧ contains (Project.name project) message
     ∧ ((endBeforeStart project
         ∧ contains (Project.tend project) message
         ∧ contains (Project.tbeg project) message)
        ∨ (tailNotAfterEnd project
           ∧ contains (show (Project.tailEnd project)) message
           ∧ contains (Project.tend project) message)))
  ∧ ∃ message culprit,
      layout data = Throw (Error message)
      ∧ culprit ∈ projectRecords data
      ∧ validation culprit = Some message.
Proof.
  intros Hin Hbad.
  assert (Hthrow : ∀ message, validation project = Some message →
            ∀ startDate totalDuration width epicIndex,
              processProject project startDate totalDuration width epicIndex
              = Throw (Error message)).
  { intros message Hv startDate totalDuration width epicIndex.
    pose proof (processProject_outcome project startDate totalDuration width
                  epicIndex) as Ho.
    rewrite Hv in Ho. exact Ho. }
  destruct (validation_invalid project Hbad) as [[Hrange Hv] | [Htail Hv]].
  - split.
    + exists (dateRangeMessage project).
      destruct (dateRangeMessage_contains project) as (Hn & He & Hs).
      split; [exact (Hthrow _ Hv) |]. split; [exact Hn |]. left. auto.
    + destruct (firstError_Some data project _ Hin Hv) as (m & culprit & Hf & Hc & Hvc).
      exists m, culprit. pose proof (layout_outcome data) as Ho.
      rewrite Hf in Ho. auto.
  - split.
    + exists (tailEndMessage project).
      destruct (tailEndMessage_contains project) as (Hn & Ht & He).
      split; [exact (Hthrow _ Hv) |]. split; [exact Hn |]. right. auto.
    + destruct (firstError_Some data project _ Hin Hv) as (m & culprit & Hf & Hc & Hvc).
      exists m, culprit. pose proof (layout_outcome data) as Ho.
      rewrite Hf in Ho. auto.
Qed.

Lemma invalid_dates_abort_layout_witness :
  ∃ message culprit,
    layout WindowExamples.backwardsData = Throw (Error message)
    ∧ culprit ∈ projectRecords WindowExamples.backwardsData
    ∧ validation culprit = Some message.
Proof.
  apply (invalid_dates_abort_layout WindowExamples.backwardsData
           WindowExamples.backwardsProject).
  - vm_compute. apply list_elem_of_further, list_elem_of_here.
  - left. exists 1714521600000, 1711929600000.
    repeat split; try lia; vm_compute; reflexivity.
Defined.

(* ===================================================================== *)
(** ** Pressure fall-back chains *)
(* ===================================================================== *)

Section Pressure.
Context `{Host}.

Lemma isZero_falsy n : isZero n → Num.truthy n = false.
Proof.
  intros (q & -> & Hq). cbn. apply negb_false_iff, Qeq_bool_iff, Hq.
Qed.

Lemma truthy_not_zero n : Num.truthy n = true → ¬ isZero n.
Proof. intros Ht Hz. apply isZero_falsy in Hz. congruence. Qed.

Lemma defaultPressure_truthy : Num.truthy defaultPressure = true.
Proof. vm_compute. reflexivity. Qed.

Lemma or_else_truthy a b : Num.truthy b = true → Num.truthy (Num.or_else a b) = true.
Proof. intros Hb. unfold Num.or_else. destruct (Num.truthy a) eqn:E; congruence. Qed.

Lemma num_or_truthy o d : Num.truthy d = true → Num.truthy (num_or o d) = true.
Proof. destruct o; cbn; [apply or_else_truthy | auto]. Qed.

(** The dataset-level pressure, or 0.85 when it is missing or falsy. *)
Lemma datasetPressure_default data :
  Data.pencilPressure data = None
  ∨ (∃ z, Data.pencilPressure data = Some z ∧ isZero z) →
  num_or (Data.pencilPressure data) defaultPressure = defaultPressure.
Proof.
  intros [-> | (z & -> & Hz)]; [reflexivity |].
  cbn. unfold Num.or_else. by rewrite (isZero_falsy z Hz).
Qed.

(** Every stroke that [drawProjectLine] orders carries [projectPressure]. *)
Lemma drawProjectLine_pressure data p :
  Forall (λ s, match s with
               | PencilLine _ _ _ _ _ pressure
               | FadingTail _ _ _ _ _ pressure => pressure = projectPressure data p
               end)
         (drawProjectLine data p).
Proof.
  unfold drawProjectLine. constructor; [reflexivity |].
  destruct (PProject.x3 p) as [x3 |]; [| constructor].
  destruct (_ && _); repeat constructor.
Qed.

End Pressure.

(* ===================================================================== *)
(** ** The dimension calculator and the lane resolver on concrete datasets *)
(* ===================================================================== *)

Section Dimensions.

(** Elements without a [projects] array add no line. *)
Lemma contentHeight_raw_epics {P} (projects : list P) (epics : list Epic.t) :
  calculateThemeContentHeight projects epics
  = Z.max 80 (Z.of_nat (length projects) * lineHeight).
Proof.
  unfold calculateThemeContentHeight. f_equal. f_equal.
  generalize (Z.of_nat (length projects)).
  induction epics as [| epic epics IH]; intros n; cbn; [reflexivity | apply IH].
Qed.

(** In [calculateRequiredDimensions] the content height of a theme counts
    the standalone projects of that theme and nothing else. *)
Lemma required_content_height_standalone_only this theme :
  calculateThemeContentHeight (getThemeContent this theme).1 (getThemeContent this theme).2
  = Z.max 80 (Z.of_nat (length (getThemeContent this theme).1) * lineHeight).
Proof. apply contentHeight_raw_epics. Qed.

Lemma required_height_at_least_800 this : 800 <= (calculateRequiredDimensions this).2.
Proof.
  unfold calculateRequiredDimensions. destruct (Renderer.data this); cbn [snd]; lia.
Qed.

End Dimensions.

(** C1 on the dataset [LayoutExamples.untagged], whose only project names
    no theme: [getUniqueThemes] returns the empty list, without ["Default"],
    and the scene has no theme block and no positioned project, although
    the project was processed. *)
Theorem untagged_project_is_dropped :
  themeNames (loadData LayoutExamples.untagged setupCanvas) = [None]
  ∧ getUniqueThemes (loadData LayoutExamples.untagged setupCanvas) = []
  ∧ ∃ scene, layout LayoutExamples.untagged = Ok scene
             ∧ length (Scene.heap scene) = 1%nat
             ∧ Scene.themes scene = []
             ∧ Scene.projects scene = [].
Proof.
  split; [reflexivity |]. split; [vm_compute; reflexivity |].
  eexists. split; [vm_compute; reflexivity |]. repeat split; reflexivity.
Qed.

(** C2 on the dataset [LayoutExamples.tenMembers], whose theme X holds an
    epic of ten members: the content height that [calculateRequiredDimensions]
    uses for X is 80, not [max(80, 10 * 40) = 400]. *)
Theorem required_content_height_misses_epic_members :
  getUniqueThemes (loadData LayoutExamples.tenMembers setupCanvas) = ["X"%string]
  ∧ length (projectRecords LayoutExamples.tenMembers) = 10%nat
  ∧ calculateThemeContentHeight
      (getThemeContent (loadData LayoutExamples.tenMembers setupCanvas) "X").1
      (getThemeContent (loadData LayoutExamples.tenMembers setupCanvas) "X").2 = 80
  ∧ requiredThemeHeight (loadData LayoutExamples.tenMembers setupCanvas) "X" = 120
  ∧ Z.max 80 (10 * lineHeight) = 400.
Proof. repeat split; vm_compute; reflexivity. Qed.

(** C3 on the dataset [LayoutExamples.tenMembers]: the required height is
    800 while the only theme block of the layout pass is 840 high, 1220 with
    the top and bottom margins and the bottom buffer. *)
Theorem required_height_below_theme_blocks :
  (calculateRequiredDimensions (loadData LayoutExamples.tenMembers setupCanvas)).2 = 800
  ∧ ∃ scene, layout LayoutExamples.tenMembers = Ok scene
             ∧ ThemeObj.height <$> Scene.themes scene = [840]
             ∧ foldr Z.add 0 (ThemeObj.height <$> Scene.themes scene)
               + margin_top + margin_bottom + 200 = 1220.
Proof.
  split; [vm_compute; reflexivity |].
  eexists. split; [vm_compute; reflexivity |]. split; reflexivity.
Qed.

(** C5 on the dataset [LayoutExamples.oneAndEpic]: theme X starts at 120,
    its standalone project sits at 140, and the single epic member is left
    at 220, two slots further down instead of one; the block lists the
    member twice. *)
Theorem epic_member_skips_a_slot :
  ∃ scene, layout LayoutExamples.oneAndEpic = Ok scene
           ∧ Scene.themes scene
             = [ThemeObj.mk "X" 120 160 [0%nat; 1%nat; 1%nat] [0%nat]]
           ∧ PProject.y <$> Scene.heap scene = [140; 220]
           ∧ PEpic.projects <$> Scene.epics scene = [[1%nat]]
           ∧ PEpic.minY <$> Scene.epics scene = [Some 220]
           ∧ 120 + 20 + lineHeight = 180.
Proof.
  eexists. split; [vm_compute; reflexivity |]. repeat split; reflexivity.
Qed.

(* ===================================================================== *)
(** ** The rounding model against the machine *)
(* ===================================================================== *)

Section HardwareAgreement.

Example fl_tenth_agrees :
  JS.fl (1 # 10) = Hardware.of_float (PrimFloat.div (Hardware.float_of_Z 1)
                                                    (Hardware.float_of_Z 10)).
Proof. vm_compute. reflexivity. Qed.

Example defaultPressure_agrees :
  defaultPressure = Hardware.of_float (PrimFloat.div (Hardware.float_of_Z 85)
                                                     (Hardware.float_of_Z 100)).
Proof. vm_compute. reflexivity. Qed.

(** The tail of [Examples.shortTailProject] in the century-wide window. *)
Example shortTail_agrees :
  tailX Examples.centuryData Examples.shortTailProject
  = Hardware.of_float (Hardware.xOf 2537740800000 946684800000 4102444800000).
Proof. vm_compute. reflexivity. Qed.

(** The end of [Examples.shortTailProject] in the century-wide window. *)
Example shortTail_end_agrees :
  xOf (parseDate (Project.tend Examples.shortTailProject))
      (startDateOf Examples.centuryData) (totalDurationOf Examples.centuryData)
      timelineWidth
  = Hardware.of_float (Hardware.xOf 2537654400000 946684800000 4102444800000).
Proof. vm_compute. reflexivity. Qed.

(** The tail of [Examples.zeroTailProject]: exactly zero on the machine too. *)
Example zeroTail_agrees :
  tailX Examples.seventeenDays Examples.zeroTailProject
  = Hardware.of_float (Hardware.xOf 1704067200000 1704240000000 1705708800000)
  ∧ Hardware.of_float (Hardware.xOf 1704067200000 1704240000000 1705708800000) = Fin 0.
Proof. split; vm_compute; reflexivity. Qed.

(** A window that ends before it starts. *)
Example inverted_window_agrees :
  xOf (Some 1706745600000) (startDateOf WindowExamples.invertedWindow)
      (totalDurationOf WindowExamples.invertedWindow) timelineWidth
  = Hardware.of_float (Hardware.xOf 1706745600000 1735689600000 1704067200000).
Proof. vm_compute. reflexivity. Qed.

End HardwareAgreement.

(* ===================================================================== *)
(** ** The project objects of the scene *)
(* ===================================================================== *)

Section Scene.
Context `{Host}.

(** The layout pass on a loaded dataset, with the arguments of
    [processProject] spelled out. *)
Lemma layout_unfold data :
  layout data =
    (standaloneProjects ←
       mapM (λ project, processed data project None) (array (Data.projectLines data));
     '(allProjects, epics) ←
       forEachM (processEpic data (startDateOf data) (totalDurationOf data) timelineWidth)
                (standaloneProjects, []) (indexed (array (Data.epics data)));
     resolveCollisionsWithThemes allProjects epics
       (getUniqueThemes (loadData data setupCanvas))).
Proof. reflexivity. Qed.

Lemma builtFrom_set_y data v p : builtFrom data p → builtFrom data (PProject.set_y v p).
Proof.
  intros (project & epicIndex & p0 & Hin & Hp0 & Hp).
  exists project, epicIndex, p0. split; [exact Hin |]. split; [exact Hp0 |].
  rewrite Hp at 1. reflexivity.
Qed.

Lemma builtFrom_set_theme data v p :
  builtFrom data p → builtFrom data (PProject.set_theme v p).
Proof.
  intros (project & epicIndex & p0 & Hin & Hp0 & Hp).
  exists project, epicIndex, p0. split; [exact Hin |]. split; [exact Hp0 |].
  rewrite Hp at 1. reflexivity.
Qed.

Lemma builtFrom_processed data project epicIndex p :
  project ∈ projectRecords data → processed data project epicIndex = Ok p →
  builtFrom data p.
Proof.
  intros Hin Hp. exists project, epicIndex, p. destruct p. auto.
Qed.

Lemma processEpic_builtFrom data st epicIndex epic st' :
  epic ∈ array (Data.epics data) →
  Forall (builtFrom data) st.1 →
  processEpic data (startDateOf data) (totalDurationOf data) timelineWidth st
              (epicIndex, epic) = Ok st' →
  Forall (builtFrom data) st'.1.
Proof.
  intros Hepic Hall. unfold processEpic. destruct st as [allProjects epics].
  destruct (Epic.projectLines epic) as [projectLines |] eqn:Elines;
    [| intros [= <-]; exact Hall].
  destruct (mapM _ projectLines) as [epicProjects |] eqn:Em;
    cbn [mbind result_bind]; [| discriminate].
  assert (Hnew : Forall (builtFrom data) epicProjects).
  { apply mapM_result_Forall2 in Em.
    assert (Hsub : ∀ project, project ∈ projectLines → project ∈ projectRecords data).
    { intros project Hp. unfold projectRecords. apply elem_of_app. right.
      apply list_elem_of_bind. exists epic. rewrite Elines. auto. }
    clear Elines. induction Em as [| project p l bs Hp _ IH]; [constructor |].
    constructor.
    - destruct (processProject project _ _ _ _) as [p0 |] eqn:Ep0;
        cbn [mbind result_bind] in Hp; [| discriminate].
      injection Hp as <-.
      assert (Hb : builtFrom data p0).
      { eapply builtFrom_processed; [| exact Ep0]. apply Hsub, list_elem_of_here. }
      destruct (_ && _); [apply builtFrom_set_theme |]; exact Hb.
    - apply IH. intros q Hq. apply Hsub, list_elem_of_further, Hq. }
  destruct (0 <? length epicProjects)%nat; intros [= <-]; cbn [fst];
    apply Forall_app; auto.
Qed.

Lemma placeProject_builtFrom data st r :
  Forall (builtFrom data) st.1.1 → Forall (builtFrom data) (placeProject st r).1.1.
Proof.
  destruct st as [[heap projectY] placed]. cbn [fst placeProject].
  intros Hall. apply Forall_alter; [exact Hall |].
  intros p _ Hp. apply builtFrom_set_y, Hp.
Qed.

Lemma placeEpicProject_builtFrom data st r :
  Forall (builtFrom data) st.1.1 → Forall (builtFrom data) (placeEpicProject st r).1.1.
Proof.
  destruct st as [[heap projectY] placed]. cbn [fst placeEpicProject].
  intros Hall.
  assert (Hstep : ∀ h, Forall (builtFrom data) h →
            Forall (builtFrom data) (alter (PProject.set_y projectY) r h)).
  { intros h Hh. apply Forall_alter; [exact Hh |].
    intros p _ Hp. apply builtFrom_set_y, Hp. }
  destruct (decide (r < length heap)%nat); auto.
Qed.

Lemma placeEpic_builtFrom data st e :
  Forall (builtFrom data) st.1.1.1 → Forall (builtFrom data) (placeEpic st e).1.1.1.
Proof.
  destruct st as [[[heap epics] projectY] placed]. cbn [fst placeEpic].
  intros Hall. destruct (epics !! e) as [epic |]; [| exact Hall].
  destruct (0 <? length (PEpic.projects epic))%nat; [| exact Hall].
  pose proof (foldl_invariant placeEpicProject
                (λ st, Forall (builtFrom data) st.1.1) (PEpic.projects epic)
                (heap, projectY, placed)
                (λ st r, placeEpicProject_builtFrom data st r) Hall) as Hf.
  destruct (foldl placeEpicProject _ _) as [[heap' projectY'] placed']. exact Hf.
Qed.

Lemma placeTheme_builtFrom data themeGroups st theme st' :
  Forall (builtFrom data) st.1.1.1 →
  placeTheme themeGroups st theme = Ok st' →
  Forall (builtFrom data) st'.1.1.1.
Proof.
  destruct st as [[[heap epics] currentY] themeData]. cbn [fst placeTheme].
  intros Hall. destruct (inherited theme); [discriminate |].
  set (group := default Group.empty (themeGroups !! theme)).
  pose proof (foldl_invariant placeProject
                (λ st, Forall (builtFrom data) st.1.1) (Group.projects group)
                (heap, currentY + 20, [])
                (λ st r, placeProject_builtFrom data st r) Hall) as Hf.
  destruct (foldl placeProject _ _) as [[heap1 projectY1] placed1].
  pose proof (foldl_invariant placeEpic
                (λ st, Forall (builtFrom data) st.1.1.1) (Group.epics group)
                (heap1, epics, projectY1, placed1)
                (λ st e, placeEpic_builtFrom data st e) Hf) as Hg.
  destruct (foldl placeEpic _ _) as [[[heap2 epics2] projectY2] placed2].
  intros [= <-]. exact Hg.
Qed.

Lemma resolve_builtFrom data projects epics themes scene :
  Forall (builtFrom data) projects →
  resolveCollisionsWithThemes projects epics themes = Ok scene →
  Forall (builtFrom data) (Scene.heap scene).
Proof.
  intros Hall. unfold resolveCollisionsWithThemes.
  destruct (groupByTheme projects epics) as [themeGroups |];
    cbn [mbind result_bind]; [| discriminate].
  destruct (forEachM _ _ themes) as [[[[heap epics'] currentY] themeData] |] eqn:Ef;
    cbn [mbind result_bind]; [| discriminate].
  intros [= <-]. cbn [Scene.heap].
  apply (forEachM_invariant (placeTheme themeGroups)
           (λ st, Forall (builtFrom data) st.1.1.1) (λ _, True) themes
           (projects, epics, margin_top, []) (heap, epics', currentY, themeData)).
  - intros st theme st' _ Hst Hstep.
    eapply placeTheme_builtFrom; eassumption.
  - apply Forall_true. auto.
  - exact Hall.
  - exact Ef.
Qed.

(** Every project object of the scene was built by [processProject] from a
    record of the dataset, with the window of the dataset. *)
Lemma scene_heap_builtFrom data scene :
  layout data = Ok scene → Forall (builtFrom data) (Scene.heap scene).
Proof.
  rewrite layout_unfold.
  destruct (mapM _ (array (Data.projectLines data))) as [standalone |] eqn:Em;
    cbn [mbind result_bind]; [| discriminate].
  destruct (forEachM _ _ _) as [[allProjects epics] |] eqn:Ef;
    cbn [mbind result_bind]; [| discriminate].
  intros Hres. eapply resolve_builtFrom; [| exact Hres].
  assert (Hst : Forall (builtFrom data) standalone).
  { clear Ef Hres. apply mapM_result_Forall2 in Em.
    assert (Hsub : ∀ project, project ∈ array (Data.projectLines data) →
                              project ∈ projectRecords data).
    { intros project Hp. unfold projectRecords. apply elem_of_app. auto. }
    revert Em Hsub. generalize (array (Data.projectLines data)).
    intros l Em. induction Em as [| project p l bs Hp _ IH]; intros Hsub;
      [constructor |].
    constructor.
    - eapply builtFrom_processed; [| exact Hp]. apply Hsub, list_elem_of_here.
    - apply IH. intros q Hq. apply Hsub, list_elem_of_further, Hq. }
  apply (forEachM_invariant _ (λ st, Forall (builtFrom data) st.1)
           (λ entry, entry.2 ∈ array (Data.epics data)) _ _ _
           (λ st entry st', match entry with
                            | (i, epic) => processEpic_builtFrom data st i epic st'
                            end)) in Ef; [exact Ef | | exact Hst].
  unfold indexed. apply Forall_forall. intros [i epic] Hin.
  apply elem_of_zip_r in Hin. exact Hin.
Qed.

End Scene.

(** In a window of positive duration, every project object of the scene
    whose start and end dates are valid has [x1 <= x2], and [x2 <= x3] when
    [x3] is a pixel coordinate. *)
Theorem scene_x_order `{Host} (data : Data.t) (ts te : Z) (scene : Scene.t) :
  window data ts te → ts < te → layout data = Ok scene →
  Forall (λ p, is_Some (PProject.startDate p) → is_Some (PProject.endDate p) →
               Num.leb (PProject.x1 p) (PProject.x2 p) = true
               ∧ (∀ x3, PProject.x3 p = Some x3 →
                        Num.leb (PProject.x2 p) x3 = true))
         (Scene.heap scene).
Proof.
  intros Hwin Hlt Hlayout.
  eapply Forall_impl; [apply scene_heap_builtFrom, Hlayout |].
  intros p (project & epicIndex & p0 & _ & Hp0 & ->). cbn.
  destruct (processProject_fields _ _ _ _ _ _ Hp0) as (_ & _ & -> & ->).
  destruct (window_duration data ts te Hwin Hlt) as (Hstart & r & Hdur & Hr).
  destruct timelineWidth_positive as (w & Hw & Hwpos).
  unfold processed in Hp0. rewrite Hstart, Hdur, Hw in Hp0.
  intros Hs He.
  exact (processProject_x_order project ts r w epicIndex p0 Hr Hwpos Hs He Hp0).
Qed.

Lemma scene_x_order_witness :
  ∃ scene, layout LayoutExamples.oneAndEpic = Ok scene
           ∧ Forall (λ p, is_Some (PProject.startDate p) →
                          is_Some (PProject.endDate p) →
                          Num.leb (PProject.x1 p) (PProject.x2 p) = true
                          ∧ (∀ x3, PProject.x3 p = Some x3 →
                                   Num.leb (PProject.x2 p) x3 = true))
                    (Scene.heap scene).
Proof.
  eexists. split; [vm_compute; reflexivity |].
  apply (scene_x_order LayoutExamples.oneAndEpic 1704067200000 1735689600000).
  - split; vm_compute; reflexivity.
  - lia.
  - vm_compute. reflexivity.
Defined.

(* ===================================================================== *)
(** ** The theme blocks of the scene *)
(* ===================================================================== *)

Section Blocks.
Context `{Host}.

Lemma stacked_app top blocks1 blocks2 :
  stacked top (blocks1 ++ blocks2)
  ↔ stacked top blocks1
    ∧ stacked (top + foldr Z.add 0 (ThemeObj.height <$> blocks1)) blocks2.
Proof.
  revert top. induction blocks1 as [| block blocks1 IH]; intros top; cbn.
  - rewrite Z.add_0_r. tauto.
  - rewrite IH, Z.add_assoc. tauto.
Qed.

(** One iteration of the theme loop appends one block, named after the
    theme and placed at the running offset. *)
Lemma placeTheme_block themeGroups heap epics currentY themeData theme st' :
  placeTheme themeGroups (heap, epics, currentY, themeData) theme = Ok st' →
  ∃ block, st'.2 = themeData ++ [block]
           ∧ st'.1.2 = currentY + ThemeObj.height block
           ∧ ThemeObj.name block = theme
           ∧ ThemeObj.y block = currentY.
Proof.
  unfold placeTheme. destruct (inherited theme); [discriminate |].
  destruct (foldl placeProject _ _) as [[heap1 projectY1] placed1].
  destruct (foldl placeEpic _ _) as [[[heap2 epics2] projectY2] placed2].
  intros [= <-]. eexists. cbn. repeat split; reflexivity.
Qed.

Lemma forEachM_placeTheme_blocks themeGroups themes : ∀ st st',
  forEachM (placeTheme themeGroups) st themes = Ok st' →
  ∃ blocks, st'.2 = st.2 ++ blocks
            ∧ ThemeObj.name <$> blocks = themes
            ∧ stacked st.1.2 blocks.
Proof.
  induction themes as [| theme themes IH]; intros st st'; cbn [forEachM].
  - intros [= <-]. exists []. rewrite app_nil_r. repeat split.
  - destruct (placeTheme themeGroups st theme) as [st1 |] eqn:E1;
      cbn [mbind result_bind]; [| discriminate].
    intros Hrest. destruct st as [[[heap epics] currentY] themeData].
    destruct (placeTheme_block _ _ _ _ _ _ _ E1) as (block & Hdata & Hy & Hname & Htop).
    destruct (IH _ _ Hrest) as (blocks & Hdata' & Hnames & Hstack).
    exists (block :: blocks). cbn [snd fst] in *.
    rewrite Hdata', Hdata, <- app_assoc. repeat split.
    + cbn. by rewrite Hname, Hnames.
    + exact Htop.
    + rewrite <- Hy. exact Hstack.
Qed.

(** The scene has one block per collected theme, in sorted order, stacked
    from the top margin. *)
Lemma scene_blocks data scene :
  layout data = Ok scene →
  ThemeObj.name <$> Scene.themes scene = getUniqueThemes (loadData data setupCanvas)
  ∧ stacked margin_top (Scene.themes scene).
Proof.
  rewrite layout_unfold.
  destruct (mapM _ (array (Data.projectLines data))) as [standalone |];
    cbn [mbind result_bind]; [| discriminate].
  destruct (forEachM _ _ _) as [[allProjects epics] |];
    cbn [mbind result_bind]; [| discriminate].
  unfold resolveCollisionsWithThemes.
  destruct (groupByTheme allProjects epics) as [themeGroups |];
    cbn [mbind result_bind]; [| discriminate].
  destruct (forEachM (placeTheme themeGroups) _ _)
    as [[[[heap epics'] currentY] themeData] |] eqn:Ef;
    cbn [mbind result_bind]; [| discriminate].
  intros [= <-]. cbn [Scene.themes].
  destruct (forEachM_placeTheme_blocks _ _ _ _ Ef) as (blocks & Hdata & Hnames & Hstack).
  cbn [snd fst] in *. subst themeData. auto.
Qed.

(** ["Default"] is a collected theme only when some project or epic
    literally names it. *)
Lemma Default_collected_iff_literal this :
  "Default"%string ∈ getUniqueThemes this ↔ Some "Default"%string ∈ themeNames this.
Proof. rewrite elem_of_getUniqueThemes. split; [tauto | intros ?; split; [done | discriminate]]. Qed.

(** Without a literal ["Default"] theme no block of the scene is the
    ["Default"] block. *)
Lemma no_Default_block data scene :
  Some "Default"%string ∉ themeNames (loadData data setupCanvas) →
  layout data = Ok scene →
  Forall (λ block, ThemeObj.name block ≠ "Default"%string) (Scene.themes scene).
Proof.
  intros Hno Hlayout. destruct (scene_blocks data scene Hlayout) as [Hnames _].
  apply Forall_forall. intros block Hin Hname. apply Hno.
  apply Default_collected_iff_literal. rewrite <- Hnames, <- Hname.
  apply list_elem_of_fmap. exists block. auto.
Qed.

(** The height that [calculateRequiredDimensions] returns for a dataset. *)
Lemma required_height data :
  (calculateRequiredDimensions (loadData data setupCanvas)).2
  = Z.max 800
      (margin_top + margin_bottom + 100
       + foldr Z.add 0 (requiredThemeHeight (loadData data setupCanvas)
                          <$> getUniqueThemes (loadData data setupCanvas))
       + 200).
Proof.
  unfold calculateRequiredDimensions. rewrite data_loadData. cbn [snd].
  f_equal. f_equal.
  generalize (getUniqueThemes (loadData data setupCanvas)).
  generalize (margin_top + margin_bottom + 100).
  intros base themes. revert base.
  induction themes as [| theme themes IH]; intros base; cbn [foldl fmap list_fmap foldr].
  - lia.
  - rewrite IH. lia.
Qed.

End Blocks.

(* ===================================================================== *)
(** ** Lane assignment of standalone projects *)
(* ===================================================================== *)

Section Lanes.
Context `{Host}.

Lemma set_y_idempotent v : PProject.set_y v ∘ PProject.set_y v = PProject.set_y v.
Proof. reflexivity. Qed.

(** Both assignments of the epic loop write the same object. *)
Lemma placeEpicProject_placeProject st r : placeEpicProject st r = placeProject st r.
Proof.
  destruct st as [[heap projectY] placed]. unfold placeEpicProject, placeProject.
  destruct (decide (r < length heap)%nat); [| reflexivity].
  rewrite list_alter_alter_eq. reflexivity.
Qed.

(** Placing a list of references: every reference gets the slot of its last
    occurrence, everything else is left alone. *)
Lemma foldl_placeProject rs : ∀ heap projectY placed,
  ∃ heap',
    foldl placeProject (heap, projectY, placed) rs
    = (heap', projectY + lineHeight * Z.of_nat (length rs), placed ++ rs)
    ∧ length heap' = length heap
    ∧ (∀ r, r ∉ rs → heap' !! r = heap !! r)
    ∧ (∀ i r, rs !! i = Some r → r ∉ drop (S i) rs → (r < length heap)%nat →
              yOf heap' r = Some (projectY + lineHeight * Z.of_nat i)).
Proof.
  induction rs as [| r0 rs IH]; intros heap projectY placed.
  - exists heap. cbn. rewrite Z.mul_0_r, Z.add_0_r, app_nil_r.
    repeat split; auto. intros i r Hi. by rewrite lookup_nil in Hi.
  - cbn [foldl placeProject].
    destruct (IH (alter (PProject.set_y projectY) r0 heap) (projectY + lineHeight)
                 (placed ++ [r0])) as (heap' & -> & Hlen & Hframe & Hslot).
    exists heap'. rewrite length_alter in Hlen. repeat split.
    + f_equal; [f_equal; cbn [length]; lia | by rewrite <- app_assoc].
    + exact Hlen.
    + intros r Hr. apply not_elem_of_cons in Hr as [Hne Hr].
      rewrite (Hframe r Hr). by apply list_lookup_alter_ne.
    + intros [| i] r Hi Hlast Hlt.
      * injection Hi as ->. cbn [drop] in Hlast. unfold yOf.
        rewrite (Hframe r Hlast), list_lookup_alter_eq.
        destruct (lookup_lt_is_Some_2 heap r Hlt) as [p ->]. cbn.
        f_equal. lia.
      * cbn [lookup list_lookup drop] in Hi, Hlast.
        rewrite (Hslot i r Hi Hlast); [f_equal; lia |].
        by rewrite length_alter.
Qed.


Lemma foldl_placeEpicProject st rs :
  foldl placeEpicProject st rs = foldl placeProject st rs.
Proof.
  revert st. induction rs as [| r rs IH]; intros st; cbn [foldl]; [reflexivity |].
  by rewrite placeEpicProject_placeProject, IH.
Qed.

Lemma membersAvoid_alter S lo hi e epics :
  membersAvoid S epics → membersAvoid S (alter (PEpic.set_bounds lo hi) e epics).
Proof. intros Hm. apply Forall_alter; [exact Hm |]. intros epic _ Hepic. exact Hepic. Qed.

(** Placing the members of one epic leaves alone every project object that
    no epic refers to. *)
Lemma placeEpic_frame S heap epics projectY placed e :
  membersAvoid S epics →
  ∃ heap' epics' projectY' extra,
    placeEpic (heap, epics, projectY, placed) e
    = (heap', epics', projectY', placed ++ extra)
    ∧ length heap' = length heap
    ∧ membersAvoid S epics'
    ∧ Forall (λ r, ¬ S r) extra
    ∧ (∀ r, S r → heap' !! r = heap !! r).
Proof.
  intros Hm. unfold placeEpic.
  destruct (epics !! e) as [epic |] eqn:Ee.
  - destruct (0 <? length (PEpic.projects epic))%nat.
    + rewrite foldl_placeEpicProject.
      destruct (foldl_placeProject (PEpic.projects epic) heap projectY placed)
        as (heap' & -> & Hlen & Hframe & _).
      eexists heap', _, _, (PEpic.projects epic).
      split; [reflexivity |]. split; [exact Hlen |].
      split; [apply membersAvoid_alter, Hm |].
      assert (Hav : Forall (λ r, ¬ S r) (PEpic.projects epic)).
      { exact (Forall_lookup_1 (λ epic, Forall (λ r, ¬ S r) (PEpic.projects epic))
                 epics e epic Hm Ee). }
      split; [exact Hav |].
      intros r Hr. apply Hframe. intros Hin.
      rewrite Forall_forall in Hav. exact (Hav r Hin Hr).
    + exists heap, epics, projectY, []. rewrite app_nil_r. repeat split; auto.
  - exists heap, epics, projectY, []. rewrite app_nil_r. repeat split; auto.
Qed.

Lemma foldl_placeEpic_frame S es : ∀ heap epics projectY placed,
  membersAvoid S epics →
  ∃ heap' epics' projectY' extra,
    foldl placeEpic (heap, epics, projectY, placed) es
    = (heap', epics', projectY', placed ++ extra)
    ∧ length heap' = length heap
    ∧ membersAvoid S epics'
    ∧ Forall (λ r, ¬ S r) extra
    ∧ (∀ r, S r → heap' !! r = heap !! r).
Proof.
  induction es as [| e es IH]; intros heap epics projectY placed Hm.
  - exists heap, epics, projectY, []. rewrite app_nil_r. repeat split; auto.
  - cbn [foldl].
    destruct (placeEpic_frame S heap epics projectY placed e Hm)
      as (heap1 & epics1 & projectY1 & extra1 & -> & Hlen1 & Hm1 & Hex1 & Hfr1).
    destruct (IH heap1 epics1 projectY1 (placed ++ extra1) Hm1)
      as (heap2 & epics2 & projectY2 & extra2 & -> & Hlen2 & Hm2 & Hex2 & Hfr2).
    exists heap2, epics2, projectY2, (extra1 ++ extra2).
    rewrite app_assoc. split; [reflexivity |]. split; [congruence |].
    split; [exact Hm2 |]. split; [apply Forall_app; auto |].
    intros r Hr. rewrite (Hfr2 r Hr). exact (Hfr1 r Hr).
Qed.

(** One theme: the references of the group come first in the block; a
    reference that no epic uses gets the slot of its position in the group;
    project objects outside the group that no epic uses are left alone. *)
Lemma placeTheme_lanes S themeGroups heap epics currentY themeData theme st' :
  membersAvoid S epics →
  NoDup (Group.projects (default Group.empty (themeGroups !! theme))) →
  placeTheme themeGroups (heap, epics, currentY, themeData) theme = Ok st' →
  ∃ heap' epics' currentY' block extra,
    st' = (heap', epics', currentY', themeData ++ [block])
    ∧ ThemeObj.y block = currentY
    ∧ ThemeObj.projects block
      = Group.projects (default Group.empty (themeGroups !! theme)) ++ extra
    ∧ Forall (λ r, ¬ S r) extra
    ∧ length heap' = length heap
    ∧ membersAvoid S epics'
    ∧ (∀ r, S r → r ∉ Group.projects (default Group.empty (themeGroups !! theme)) →
            heap' !! r = heap !! r)
    ∧ (∀ i r, S r → (r < length heap)%nat →
              Group.projects (default Group.empty (themeGroups !! theme)) !! i = Some r →
              yOf heap' r = Some (currentY + 20 + lineHeight * Z.of_nat i)).
Proof.
  intros Hm Hnodup. unfold placeTheme.
  destruct (inherited theme); [discriminate |].
  set (group := default Group.empty (themeGroups !! theme)) in *.
  destruct (foldl_placeProject (Group.projects group) heap (currentY + 20) [])
    as (heap1 & -> & Hlen1 & Hframe1 & Hslot1).
  destruct (foldl_placeEpic_frame S (Group.epics group) heap1 epics
              (currentY + 20 + lineHeight * Z.of_nat (length (Group.projects group)))
              ([] ++ Group.projects group) Hm)
    as (heap2 & epics2 & projectY2 & extra & -> & Hlen2 & Hm2 & Hex & Hframe2).
  intros [= <-]. eexists heap2, epics2, _, _, extra.
  split; [reflexivity |]. cbn [ThemeObj.y ThemeObj.projects].
  split; [reflexivity |]. split; [reflexivity |]. split; [exact Hex |].
  split; [congruence |]. split; [exact Hm2 |]. split.
  - intros r Hr Hnot. rewrite (Hframe2 r Hr). apply Hframe1, Hnot.
  - intros i r Hr Hlt Hi. unfold yOf. rewrite (Hframe2 r Hr).
    apply (Hslot1 i r Hi); [| exact Hlt].
    intros Hin. apply list_elem_of_lookup in Hin as [j Hj].
    rewrite lookup_drop in Hj.
    pose proof (NoDup_lookup _ _ _ _ Hnodup Hi Hj). lia.
Qed.


(** The whole theme loop, for references that no epic uses: each keeps the
    slot given by its position in the block that lists it. *)
Lemma forEachM_placeTheme_lanes S (key : ref → string) themeGroups themes :
  (∀ theme r, r ∈ Group.projects (default Group.empty (themeGroups !! theme)) →
              key r = theme) →
  (∀ theme, NoDup (Group.projects (default Group.empty (themeGroups !! theme)))) →
  ∀ heap epics currentY themeData st',
    membersAvoid S epics → NoDup themes →
    forEachM (placeTheme themeGroups) (heap, epics, currentY, themeData) themes = Ok st' →
    ∃ heap' epics' currentY' blocks,
      st' = (heap', epics', currentY', themeData ++ blocks)
      ∧ length heap' = length heap
      ∧ (∀ r, S r → key r ∉ themes → heap' !! r = heap !! r)
      ∧ Forall (λ block, ∀ i r, S r → (r < length heap)%nat →
                  ThemeObj.projects block !! i = Some r →
                  yOf heap' r
                  = Some (ThemeObj.y block + 20 + lineHeight * Z.of_nat i))
               blocks.
Proof.
  intros Hkey Hnodup.
  induction themes as [| theme themes IH];
    intros heap epics currentY themeData st' Hm Hthemes; cbn [forEachM].
  - intros [= <-]. exists heap, epics, currentY, []. rewrite app_nil_r.
    repeat split; auto.
  - destruct (placeTheme themeGroups _ theme) as [st1 |] eqn:E1;
      cbn [mbind result_bind]; [| discriminate].
    intros Hrest. apply NoDup_cons in Hthemes as [Hfresh Hthemes].
    destruct (placeTheme_lanes S _ _ _ _ _ _ _ Hm (Hnodup theme) E1)
      as (heap1 & epics1 & currentY1 & block & extra & -> & Htop & Hlist & Hextra
          & Hlen1 & Hm1 & Hframe1 & Hslot1).
    destruct (IH _ _ _ _ _ Hm1 Hthemes Hrest)
      as (heap2 & epics2 & currentY2 & blocks & -> & Hlen2 & Hframe2 & Hblocks).
    exists heap2, epics2, currentY2, (block :: blocks).
    split; [by rewrite <- app_assoc |]. split; [congruence |]. split.
    + intros r Hr Hk. apply not_elem_of_cons in Hk as [Hne Hk].
      rewrite (Hframe2 r Hr Hk). apply Hframe1; [exact Hr |].
      intros Hin. apply Hne. exact (Hkey theme r Hin).
    + constructor.
      * intros i r Hr Hlt Hi. rewrite Hlist in Hi.
        apply lookup_app_Some in Hi as [Hi | [_ Hi]].
        -- unfold yOf. rewrite (Hframe2 r Hr).
           ++ rewrite Htop. exact (Hslot1 i r Hr Hlt Hi).
           ++ rewrite (Hkey theme r); [exact Hfresh |].
              apply list_elem_of_lookup. eauto.
        -- exfalso. rewrite Forall_forall in Hextra.
           apply (Hextra r); [| exact Hr]. apply list_elem_of_lookup. eauto.
      * eapply Forall_impl; [exact Hblocks |].
        intros b Hb i r Hr Hlt. apply Hb; [exact Hr | congruence].
Qed.

Lemma indexed_lookup {A} (l : list A) r a : (r, a) ∈ indexed l ↔ l !! r = Some a.
Proof.
  unfold indexed. rewrite list_elem_of_lookup. split.
  - intros [i Hi]. apply lookup_zip_with_Some in Hi as (x & y & [= -> ->] & Hx & Hy).
    apply lookup_seq in Hx as [-> _]. exact Hy.
  - intros Hr. exists r. apply lookup_zip_with_Some. exists r, a.
    split; [reflexivity |]. split; [| exact Hr].
    apply lookup_seq. split; [reflexivity |]. eapply lookup_lt_Some, Hr.
Qed.

Lemma indexed_fst {A} (l : list A) : (indexed l).*1 = seq 0 (length l).
Proof. unfold indexed. apply fst_zip. by rewrite length_seq. Qed.

Lemma groupProject_step themeGroups r p :
  groupProject themeGroups (r, p)
  = if inherited (groupKey p) then Throw TypeError
    else Ok (<[groupKey p := Group.push_project r
                               (default Group.empty (themeGroups !! groupKey p))]>
               themeGroups).
Proof. reflexivity. Qed.

Lemma groupEpic_step themeGroups r e :
  groupEpic themeGroups (r, e)
  = if inherited (str_or (PEpic.theme e) "Default") then Throw TypeError
    else Ok (<[str_or (PEpic.theme e) "Default" :=
                 Group.push_epic r
                   (default Group.empty
                      (themeGroups !! str_or (PEpic.theme e) "Default"))]>
               themeGroups).
Proof. reflexivity. Qed.

(** The project references of a group after the first grouping loop. *)
Lemma forEachM_groupProject l : ∀ themeGroups themeGroups' theme,
  forEachM groupProject themeGroups l = Ok themeGroups' →
  Group.projects (default Group.empty (themeGroups' !! theme))
  = Group.projects (default Group.empty (themeGroups !! theme))
    ++ (filter (λ entry, groupKey entry.2 = theme) l).*1.
Proof.
  induction l as [| [r p] l IH]; intros themeGroups themeGroups' theme;
    cbn [forEachM].
  - intros [= <-]. by rewrite app_nil_r.
  - rewrite groupProject_step.
    destruct (inherited (groupKey p)); cbn [mbind result_bind]; [discriminate |].
    intros Hrest. rewrite (IH _ _ theme Hrest). rewrite filter_cons. cbn [snd].
    destruct (decide (groupKey p = theme)) as [-> | Hne].
    + rewrite lookup_insert_eq. cbn. by rewrite <- app_assoc.
    + by rewrite lookup_insert_ne.
Qed.

(** The second grouping loop does not touch the project references. *)
Lemma forEachM_groupEpic l : ∀ themeGroups themeGroups' theme,
  forEachM groupEpic themeGroups l = Ok themeGroups' →
  Group.projects (default Group.empty (themeGroups' !! theme))
  = Group.projects (default Group.empty (themeGroups !! theme)).
Proof.
  induction l as [| [r e] l IH]; intros themeGroups themeGroups' theme;
    cbn [forEachM].
  - by intros [= <-].
  - rewrite groupEpic_step.
    destruct (inherited _); cbn [mbind result_bind]; [discriminate |].
    intros Hrest. rewrite (IH _ _ theme Hrest).
    destruct (decide (str_or (PEpic.theme e) "Default" = theme)) as [-> | Hne].
    + rewrite lookup_insert_eq. reflexivity.
    + by rewrite lookup_insert_ne.
Qed.

(** A group lists, without repetition, project objects filed under its key. *)
Lemma groupByTheme_projects projects epics themeGroups theme :
  groupByTheme projects epics = Ok themeGroups →
  NoDup (Group.projects (default Group.empty (themeGroups !! theme)))
  ∧ ∀ r, r ∈ Group.projects (default Group.empty (themeGroups !! theme)) →
         groupKey <$> projects !! r = Some theme.
Proof.
  unfold groupByTheme.
  destruct (forEachM groupProject ∅ (indexed projects)) as [themeGroups1 |] eqn:E1;
    cbn [mbind result_bind]; [| discriminate].
  intros E2.
  rewrite (forEachM_groupEpic _ _ _ theme E2), (forEachM_groupProject _ _ _ theme E1).
  rewrite lookup_empty. cbn [default Group.empty Group.projects app].
  split.
  - eapply sublist_NoDup; [| apply fmap_sublist, sublist_filter].
    rewrite indexed_fst. apply NoDup_seq.
  - intros r Hin. apply list_elem_of_fmap in Hin as ([r' p] & -> & Hin).
    apply list_elem_of_filter in Hin as [Hk Hin]. cbn [fst snd] in *.
    apply indexed_lookup in Hin. unfold ref in *. rewrite Hin. cbn. by f_equal.
Qed.


(** The epic objects refer to epic members only: their references start
    after the standalone projects. *)
Lemma processEpic_membersAvoid n data startDate totalDuration width st entry st' :
  (n ≤ length st.1)%nat ∧ membersAvoid (λ r, (r < n)%nat) st.2 →
  processEpic data startDate totalDuration width st entry = Ok st' →
  (n ≤ length st'.1)%nat ∧ membersAvoid (λ r, (r < n)%nat) st'.2.
Proof.
  intros [Hlen Hm]. unfold processEpic.
  destruct st as [allProjects epics], entry as [epicIndex epic]. cbn [fst snd] in *.
  destruct (Epic.projectLines epic) as [projectLines |]; [| intros [= <-]; auto].
  destruct (mapM _ projectLines) as [epicProjects |];
    cbn [mbind result_bind]; [| discriminate].
  destruct (0 <? length epicProjects)%nat; intros [= <-]; cbn [fst snd];
    rewrite length_app; (split; [lia |]); [| exact Hm].
  apply Forall_app. split; [exact Hm |]. constructor; [| constructor].
  cbn [PEpic.projects]. apply Forall_forall. intros r Hr.
  apply elem_of_seq in Hr. lia.
Qed.

End Lanes.

Section Lists.
Context `{Host}.

(** Each block lists the project references of its group first. *)
Lemma forEachM_placeTheme_lists themeGroups themes :
  (∀ theme, NoDup (Group.projects (default Group.empty (themeGroups !! theme)))) →
  ∀ st st',
    forEachM (placeTheme themeGroups) st themes = Ok st' →
    ∃ blocks,
      st'.2 = st.2 ++ blocks
      ∧ Forall (λ block,
                  ∃ extra,
                    ThemeObj.projects block
                    = Group.projects
                        (default Group.empty (themeGroups !! ThemeObj.name block))
                      ++ extra)
               blocks.
Proof.
  intros Hnodup. induction themes as [| theme themes IH]; intros st st';
    cbn [forEachM].
  - intros [= <-]. exists []. by rewrite app_nil_r.
  - destruct (placeTheme themeGroups st theme) as [st1 |] eqn:E1;
      cbn [mbind result_bind]; [| discriminate].
    intros Hrest. destruct st as [[[heap epics] currentY] themeData].
    destruct (placeTheme_block _ _ _ _ _ _ _ E1) as (block & Hdata & _ & Hname & _).
    assert (Hm : membersAvoid (λ _, False) epics).
    { apply Forall_forall. intros epic _. apply Forall_forall. auto. }
    destruct (placeTheme_lanes (λ _, False) _ _ _ _ _ _ _ Hm (Hnodup theme) E1)
      as (heap1 & epics1 & currentY1 & block' & extra & -> & _ & Hlist & _).
    cbn [snd] in Hdata. apply app_inj_tail in Hdata as [_ <-].
    destruct (IH _ _ Hrest) as (blocks & Hdata' & Hblocks).
    exists (block' :: blocks). cbn [snd] in *. split.
    + by rewrite Hdata', <- app_assoc.
    + constructor; [| exact Hblocks]. exists extra. by rewrite Hname.
Qed.

Lemma indexed_from_app {A} (l1 l2 : list A) i :
  zip (seq i (length (l1 ++ l2))) (l1 ++ l2)
  = zip (seq i (length l1)) l1 ++ zip (seq (i + length l1) (length l2)) l2.
Proof.
  revert i. induction l1 as [| a l1 IH]; intros i; cbn [length app seq zip zip_with].
  - by rewrite Nat.add_0_r.
  - replace (i + S (length l1))%nat with (S i + length l1)%nat by lia.
    by rewrite IH.
Qed.

(** Filtering records by theme or the objects built from them by theme
    selects the same indices. *)
Lemma filter_indexed_themes (records : list Project.t) (objects : list PProject.t)
    theme :
  Forall2 (λ project p, PProject.theme p = Project.theme project) records objects →
  ∀ i,
    (filter (λ entry, groupKey entry.2 = theme)
            (zip (seq i (length objects)) objects)).*1
    = (filter (λ entry, str_or (Project.theme entry.2) "Default" = theme)
              (zip (seq i (length records)) records)).*1.
Proof.
  induction 1 as [| project p records objects Htheme _ IH]; intros i;
    [reflexivity |].
  cbn [length seq zip zip_with].
  assert (Heq : groupKey p = str_or (Project.theme project) "Default")
    by (unfold groupKey; by rewrite Htheme).
  destruct (decide (groupKey p = theme)) as [Hyes | Hno].
  - rewrite !filter_cons_True by (cbn [snd]; congruence).
    cbn [fmap list_fmap fst]. by rewrite IH.
  - rewrite !filter_cons_False by (cbn [snd]; congruence). apply IH.
Qed.

Lemma zip_seq_fst_ge {A} (l : list A) i (P : nat * A → Prop)
    `{!∀ x, Decision (P x)} :
  Forall (λ r, (i ≤ r)%nat) (filter P (zip (seq i (length l)) l)).*1.
Proof.
  apply Forall_forall. intros r Hr.
  apply list_elem_of_fmap in Hr as ([r' a] & -> & Hin).
  apply list_elem_of_filter in Hin as [_ Hin].
  apply elem_of_zip_l, elem_of_seq in Hin. cbn. lia.
Qed.

(** The project references of a group, computed from the array. *)
Lemma groupByTheme_projects_eq projects epics themeGroups theme :
  groupByTheme projects epics = Ok themeGroups →
  Group.projects (default Group.empty (themeGroups !! theme))
  = (filter (λ entry, groupKey entry.2 = theme) (indexed projects)).*1.
Proof.
  unfold groupByTheme.
  destruct (forEachM groupProject ∅ (indexed projects)) as [themeGroups1 |] eqn:E1;
    cbn [mbind result_bind]; [| discriminate].
  intros E2.
  rewrite (forEachM_groupEpic _ _ _ theme E2), (forEachM_groupProject _ _ _ theme E1).
  rewrite lookup_empty. reflexivity.
Qed.

(** The epic loop of [calculateTimelinePositions] only appends. *)
Lemma processEpic_appends data startDate totalDuration width st entry st' :
  processEpic data startDate totalDuration width st entry = Ok st' →
  ∃ members, st'.1 = st.1 ++ members.
Proof.
  unfold processEpic. destruct st as [allProjects epics], entry as [epicIndex epic].
  destruct (Epic.projectLines epic) as [projectLines |];
    [| intros [= <-]; exists []; by rewrite app_nil_r].
  destruct (mapM _ projectLines) as [epicProjects |];
    cbn [mbind result_bind]; [| discriminate].
  destruct (0 <? length epicProjects)%nat; intros [= <-]; eauto.
Qed.

End Lists.

(** A standalone project that a theme block lists at position [i] lies
    [20 + 40 * i] below the top of the block: the standalone part of the
    lane assignment is sequential stacking in input order. *)
Theorem standalone_lanes `{Host} (data : Data.t) (scene : Scene.t)
    (block : ThemeObj.t) (i : nat) (r : ref) :
  layout data = Ok scene →
  block ∈ Scene.themes scene →
  ThemeObj.projects block !! i = Some r →
  (r < length (array (Data.projectLines data)))%nat →
  yOf (Scene.heap scene) r
  = Some (ThemeObj.y block + 20 + lineHeight * Z.of_nat i).
Proof.
  rewrite layout_unfold.
  destruct (mapM _ (array (Data.projectLines data))) as [standalone |] eqn:Em;
    cbn [mbind result_bind]; [| discriminate].
  apply mapM_result_Forall2, Forall2_length in Em. rewrite Em. clear Em.
  destruct (forEachM _ _ _) as [[allProjects epics] |] eqn:Ef;
    cbn [mbind result_bind]; [| discriminate].
  apply (forEachM_invariant _
           (λ st, (length standalone ≤ length st.1)%nat
                  ∧ membersAvoid (λ r, (r < length standalone)%nat) st.2)
           (λ _, True)) in Ef.
  2: { intros st entry st' _. apply processEpic_membersAvoid. }
  2: { apply Forall_true. auto. }
  2: { split; [cbn; lia | constructor]. }
  destruct Ef as [Hlen Hm]. cbn [fst snd] in Hlen, Hm.
  unfold resolveCollisionsWithThemes.
  destruct (groupByTheme allProjects epics) as [themeGroups |] eqn:Eg;
    cbn [mbind result_bind]; [| discriminate].
  destruct (forEachM (placeTheme themeGroups) _ _) as [st' |] eqn:Et;
    cbn [mbind result_bind]; [| discriminate].
  destruct (forEachM_placeTheme_lanes
              (λ r, (r < length standalone)%nat)
              (λ r, default EmptyString (groupKey <$> allProjects !! r))
              themeGroups (getUniqueThemes (loadData data setupCanvas)))
    with (heap := allProjects) (epics := epics) (currentY := margin_top)
         (themeData := @nil ThemeObj.t) (st' := st')
    as (heap' & epics' & currentY' & blocks & -> & _ & _ & Hblocks).
  - intros theme r' Hin.
    destruct (groupByTheme_projects _ _ _ theme Eg) as [_ Hk].
    by rewrite (Hk r' Hin).
  - intros theme. by destruct (groupByTheme_projects _ _ _ theme Eg).
  - exact Hm.
  - apply getUniqueThemes_NoDup.
  - exact Et.
  - intros [= <-]. cbn [Scene.themes Scene.heap app]. intros Hin Hi Hr.
    rewrite Forall_forall in Hblocks. apply (Hblocks block Hin i r Hr); [lia | exact Hi].
Qed.

Lemma standalone_lanes_witness :
  ∃ scene block,
    layout LayoutExamples.oneAndEpic = Ok scene
    ∧ Scene.themes scene = [block]
    ∧ yOf (Scene.heap scene) 0%nat = Some (ThemeObj.y block + 20 + lineHeight * 0).
Proof.
  eexists. eexists. split; [vm_compute; reflexivity |]. split; [reflexivity |].
  apply (standalone_lanes LayoutExamples.oneAndEpic _ _ 0%nat 0%nat).
  - vm_compute. reflexivity.
  - apply list_elem_of_here.
  - reflexivity.
  - cbn. lia.
Defined.

(** The standalone projects of a theme come first in the block of that
    theme, in input order, and are stacked from [20] below the top of the
    block in steps of [40]. *)
Theorem standalone_stack `{Host} (data : Data.t) (scene : Scene.t)
    (block : ThemeObj.t) (k : nat) (r : ref) :
  layout data = Ok scene →
  block ∈ Scene.themes scene →
  standaloneRefs data (ThemeObj.name block) !! k = Some r →
  ThemeObj.projects block !! k = Some r
  ∧ yOf (Scene.heap scene) r
    = Some (ThemeObj.y block + 20 + lineHeight * Z.of_nat k).
Proof.
  intros Hlayout Hblock Hk.
  assert (Hr : (r < length (array (Data.projectLines data)))%nat).
  { assert (Hin : r ∈ standaloneRefs data (ThemeObj.name block))
      by (apply list_elem_of_lookup; eauto).
    unfold standaloneRefs in Hin.
    apply list_elem_of_fmap in Hin as ([r' project] & -> & Hin).
    apply list_elem_of_filter in Hin as [_ Hin].
    apply indexed_lookup, lookup_lt_Some in Hin. exact Hin. }
  assert (Hlist : ThemeObj.projects block !! k = Some r).
  { revert Hlayout. rewrite layout_unfold.
    destruct (mapM _ (array (Data.projectLines data))) as [standalone |] eqn:Em;
      cbn [mbind result_bind]; [| discriminate].
    apply mapM_result_Forall2 in Em.
    destruct (forEachM _ _ _) as [[allProjects epics] |] eqn:Ef;
      cbn [mbind result_bind]; [| discriminate].
    apply (forEachM_invariant _ (λ st, ∃ members, st.1 = standalone ++ members)
             (λ _, True)) in Ef.
    2: { intros st entry st' _ [members Hst] Hstep.
         destruct (processEpic_appends _ _ _ _ _ _ _ Hstep) as [more ->].
         exists (members ++ more). by rewrite Hst, <- app_assoc. }
    2: { apply Forall_true. auto. }
    2: { exists []. by rewrite app_nil_r. }
    destruct Ef as [members Hall]. cbn [fst] in Hall. subst allProjects.
    unfold resolveCollisionsWithThemes.
    destruct (groupByTheme (standalone ++ members) epics) as [themeGroups |] eqn:Eg;
      cbn [mbind result_bind]; [| discriminate].
    destruct (forEachM (placeTheme themeGroups) _ _)
      as [[[[heap epics'] currentY] themeData] |] eqn:Et;
      cbn [mbind result_bind]; [| discriminate].
    intros [= <-]. cbn [Scene.themes] in Hblock.
    destruct (forEachM_placeTheme_lists themeGroups _
                (λ theme, proj1 (groupByTheme_projects _ _ _ theme Eg)) _ _ Et)
      as (blocks & Hdata & Hblocks).
    cbn [snd app] in Hdata. subst themeData.
    rewrite Forall_forall in Hblocks.
    destruct (Hblocks block Hblock) as [extra ->].
    rewrite (groupByTheme_projects_eq _ _ _ _ Eg).
    unfold indexed. rewrite (indexed_from_app standalone members 0).
    rewrite filter_app, fmap_app, <- app_assoc.
    apply lookup_app_l_Some.
    rewrite (filter_indexed_themes (array (Data.projectLines data)) standalone).
    - exact Hk.
    - eapply Forall2_impl; [exact Em |].
      intros project p Hp. unfold processed in Hp.
      by destruct (processProject_fields _ _ _ _ _ _ Hp) as (_ & -> & _). }
  split; [exact Hlist |].
  exact (standalone_lanes data scene block k r Hlayout Hblock Hlist Hr).
Qed.

Lemma standalone_stack_witness :
  ∃ scene block,
    layout LayoutExamples.single = Ok scene
    ∧ Scene.themes scene = [block]
    ∧ ThemeObj.y block = margin_top
    ∧ ThemeObj.projects block !! 0%nat = Some 0%nat
    ∧ yOf (Scene.heap scene) 0%nat
      = Some (ThemeObj.y block + 20 + lineHeight * Z.of_nat 0).
Proof.
  eexists. eexists. split; [vm_compute; reflexivity |]. split; [reflexivity |].
  split; [reflexivity |].
  apply (standalone_stack LayoutExamples.single _ _ 0%nat 0%nat).
  - vm_compute. reflexivity.
  - apply list_elem_of_here.
  - reflexivity.
Defined.
(* ===================================================================== *)
(** ** Theme labels: line breaking *)
(* ===================================================================== *)

Section Labels.

Lemma foldl_join_app sep a b ws :
  foldl (λ acc w, acc +:+ sep +:+ w) (a +:+ b) ws
  = a +:+ foldl (λ acc w, acc +:+ sep +:+ w) b ws.
Proof.
  revert b. induction ws as [|w ws IH]; intros b; cbn; [done |].
  rewrite <- IH. f_equal. by rewrite string_app_assoc.
Qed.

Lemma join_cons_cons sep w w' ws :
  join sep (w :: w' :: ws) = w +:+ sep +:+ join sep (w' :: ws).
Proof.
  cbn. by rewrite <- !foldl_join_app.
Qed.

Lemma split_not_nil sep s : split sep s ≠ [].
Proof.
  destruct s as [|c s]; cbn; [done |].
  destruct (Ascii.eqb c sep); [done |]. by destruct (split sep s).
Qed.

Lemma join_split (sep : ascii) s : join (String sep "") (split sep s) = s.
Proof.
  induction s as [|c s IH]; cbn [split]; [done |].
  pose proof (split_not_nil sep s) as Hne.
  destruct (Ascii.eqb c sep) eqn:Ec.
  - apply Ascii.eqb_eq in Ec as ->.
    destruct (split sep s) as [|w ws] eqn:E; [done |].
    rewrite join_cons_cons, IH. done.
  - destruct (split sep s) as [|w ws] eqn:E; [done |].
    destruct ws as [|w' ws].
    + cbn in *. by rewrite IH.
    + rewrite join_cons_cons in IH |- *. rewrite <- IH. reflexivity.
Qed.

Lemma join_pairUp ws : join " " (pairUp ws) = join " " ws.
Proof.
  induction ws as [ws IH] using (induction_ltof1 _ (@length string)).
  unfold ltof in IH.
  destruct ws as [|w1 [|w2 rest]]; [done | done |].
  cbn [pairUp]. destruct rest as [|w3 rest]; [done |].
  assert (pairUp (w3 :: rest) ≠ []) as Hne by (by destruct rest).
  destruct (pairUp (w3 :: rest)) as [|l ls] eqn:E; [done |].
  rewrite join_cons_cons, <- E, IH by (cbn; lia).
  rewrite !join_cons_cons. by rewrite !string_app_assoc.
Qed.

Lemma length_pairUp ws : length (pairUp ws) = ((length ws + 1) / 2)%nat.
Proof.
  induction ws as [ws IH] using (induction_ltof1 _ (@length string)).
  unfold ltof in IH.
  destruct ws as [|w1 [|w2 rest]]; [done | done |].
  cbn [pairUp length]. rewrite IH by (cbn; lia).
  replace (S (S (length rest)) + 1)%nat with ((length rest + 1) + 1 * 2)%nat by lia.
  rewrite Nat.div_add by lia. lia.
Qed.

Lemma slice_pair {A} i (l : list A) :
  slice i (i + 2) l = take 2 (drop i l).
Proof. unfold slice. f_equal. lia. Qed.

(** The loop pushes the pairs of the words from [i] on, and exits. *)
Lemma breakLines_pairUp fuel words i lines :
  (length words - i <= 2 * fuel)%nat →
  breakLines fuel words i lines = Some (lines ++ pairUp (drop i words)).
Proof.
  revert i lines. induction fuel as [|fuel IH]; intros i lines Hfuel.
  - cbn [breakLines]. destruct (i <? length words)%nat eqn:Ei.
    + apply Nat.ltb_lt in Ei. lia.
    + apply Nat.ltb_ge in Ei. rewrite drop_ge by lia. by rewrite app_nil_r.
  - cbn [breakLines]. destruct (i <? length words)%nat eqn:Ei.
    + apply Nat.ltb_lt in Ei. rewrite IH by lia.
      rewrite slice_pair, <- app_assoc. do 2 f_equal.
      rewrite <- drop_drop.
      destruct (drop i words) as [|w1 [|w2 rest]] eqn:E.
      * apply (f_equal length) in E. rewrite length_drop in E. cbn in E. lia.
      * done.
      * cbn. done.
    + apply Nat.ltb_ge in Ei. rewrite drop_ge by lia. by rewrite app_nil_r.
Qed.

Lemma labelLines_pairUp text : labelLines text = Some (pairUp (split " " text)).
Proof. unfold labelLines. rewrite breakLines_pairUp by lia. done. Qed.

Lemma Qceiling_half n :
  Qceiling (inject_Z (Z.of_nat n) / inject_Z 2) = Z.of_nat ((n + 1) / 2).
Proof.
  rewrite Nat2Z.inj_div, Nat2Z.inj_add.
  unfold Qceiling, Qfloor, Qdiv, Qopp, Qmult, Qinv, inject_Z.
  cbn [Qnum Qden]. change (Z.pos (1 * 2)) with 2. change (Z.of_nat 2) with 2.
  change (Z.of_nat 1) with 1.
  generalize (Z.of_nat n). intros z. rewrite Z.mul_1_r.
  pose proof (Z.div_mod (z + 1) 2 ltac:(lia)).
  pose proof (Z.mod_pos_bound (z + 1) 2 ltac:(lia)).
  pose proof (Z.div_mod (- z) 2 ltac:(lia)).
  pose proof (Z.mod_pos_bound (- z) 2 ltac:(lia)).
  lia.
Qed.

End Labels.

(** X1: the height that the layout reserves for a theme label is 20 pixels
    for each line that [drawVerticalThemeLabel] draws: the loop of the
    drawing code always exits, and the number of lines it has pushed is the
    count from which [calculateLabelHeight] computes the height. *)
Theorem label_height_counts_drawn_lines (text : string) :
  ∃ calls, drawVerticalThemeLabel text = Some calls
           ∧ calculateLabelHeight text = 20 * Z.of_nat (length calls).
Proof.
  unfold drawVerticalThemeLabel. rewrite labelLines_pairUp. cbn.
  eexists. split; [reflexivity |].
  rewrite length_fmap. unfold indexed. rewrite length_zip, length_seq, Nat.min_id.
  rewrite length_pairUp. unfold calculateLabelHeight.
  rewrite Qceiling_half. lia.
Qed.

(** X2: breaking a theme label into lines loses nothing: the lines that
    [drawVerticalThemeLabel] draws, joined by single spaces, give back the
    theme name. *)
Theorem label_lines_rejoin (text : string) :
  ∃ calls, drawVerticalThemeLabel text = Some calls
           ∧ join " " (ft_text <$> calls) = text.
Proof.
  unfold drawVerticalThemeLabel. rewrite labelLines_pairUp. cbn.
  eexists. split; [reflexivity |].
  rewrite <- list_fmap_compose.
  replace ((ft_text ∘ _) <$> indexed (pairUp (split " " text)))
    with (pairUp (split " " text)).
  - rewrite join_pairUp. apply (join_split " "%char).
  - unfold indexed. generalize 0%nat.
    induction (pairUp (split " " text)) as [|l ls IH]; intros n; cbn; [done |].
    f_equal. apply IH.
Qed.
(* ===================================================================== *)
(** ** Colours *)
(* ===================================================================== *)

Section Colours.

Lemma own_Forall {A} (P : A → Prop) key (entries : list (string * A)) v :
  Forall (λ entry, P entry.2) entries → own key entries = Some v → P v.
Proof.
  induction 1 as [|[k w] entries Hw _ IH]; cbn; [done |].
  destruct (String.eqb k key); [by intros [= <-] | exact IH].
Qed.

Lemma colors_hex : Forall (λ entry, isHexColor entry.2 = true) colors.
Proof. repeat constructor. Qed.

Lemma isHexColor_startsWith s : isHexColor s = true → startsWith "#" s = true.
Proof.
  destruct s as [|c s]; [done |]. cbn.
  destruct c as [[] [] [] [] [] [] [] []]; try done. by destruct s.
Qed.

(** An entry of an object literal without repeated keys is its own
    property, and an own property is an entry. *)
Lemma own_elem_of {A} key (v : A) (entries : list (string * A)) :
  NoDup entries.*1 → (key, v) ∈ entries → own key entries = Some v.
Proof.
  induction entries as [|[k w] entries IH]; cbn; intros Hnd Hin;
    [by apply elem_of_nil in Hin |].
  apply NoDup_cons in Hnd as [Hk Hnd].
  apply elem_of_cons in Hin as [[= -> ->] | Hin].
  - by rewrite String.eqb_refl.
  - destruct (String.eqb k key) eqn:E; [| by apply IH].
    apply String.eqb_eq in E as ->. exfalso. apply Hk.
    apply list_elem_of_fmap. by exists (key, v).
Qed.

Lemma own_Some_elem_of {A} key (v : A) (entries : list (string * A)) :
  own key entries = Some v → (key, v) ∈ entries.
Proof.
  induction entries as [|[k w] entries IH]; cbn; [done |].
  destruct (String.eqb k key) eqn:E.
  - apply String.eqb_eq in E as ->. intros [= ->]. by left.
  - intros Hown. right. by apply IH.
Qed.

Lemma colors_keys_NoDup : NoDup colors.*1.
Proof. apply (bool_decide_unpack _). vm_compute. reflexivity. Qed.

Lemma isHexColor_str_or hex : isHexColor hex = true → str_or (Some hex) "#333333" = hex.
Proof. by destruct hex. Qed.

End Colours.

(** X3: a colour name resolves to its palette colour, whatever the case of
    its letters, and to #333333 when the palette does not have it.  For
    every name that does not start with # and whose lower-case form is no
    property name inherited from Object.prototype, [getColorHex] returns a
    string of seven characters, # and six hexadecimal digits: the colour
    that the palette lists under the lower-case form of the name, and the
    fall-back #333333 when the palette lists none. *)
Theorem getColorHex_names_resolve_to_hex (colorName : string) :
  startsWith "#" colorName = false →
  inherited (toLowerCase colorName) = false →
  ∃ hex,
    getColorHex colorName = ColorString hex
    ∧ isHexColor hex = true
    ∧ (∀ paletteColor, (toLowerCase colorName, paletteColor) ∈ colors → hex = paletteColor)
    ∧ ((∀ paletteColor, (toLowerCase colorName, paletteColor) ∉ colors) →
       hex = "#333333"%string).
Proof.
  intros Hhash Hinh. unfold getColorHex. rewrite Hhash, Hinh.
  destruct (own (toLowerCase colorName) colors) as [hex|] eqn:E.
  - pose proof (own_Forall (λ v, isHexColor v = true) _ _ _ colors_hex E) as Hhex.
    exists hex. rewrite isHexColor_str_or by done. split; [done |]. split; [done |].
    split.
    + intros paletteColor Hin.
      apply (own_elem_of _ _ _ colors_keys_NoDup) in Hin. congruence.
    + intros Hnone. apply own_Some_elem_of in E. by apply Hnone in E.
  - exists "#333333"%string. split; [done |]. split; [done |]. split; [| done].
    intros paletteColor Hin.
    apply (own_elem_of _ _ _ colors_keys_NoDup) in Hin. congruence.
Qed.

Lemma getColorHex_names_resolve_to_hex_witness :
  getColorHex "darkGreen" = ColorString "#336633"
  ∧ getColorHex "Teal" = ColorString "#333333".
Proof.
  split.
  - destruct (getColorHex_names_resolve_to_hex "darkGreen")
      as (hex & Hget & _ & Hpalette & _); [reflexivity | reflexivity |].
    rewrite Hget. f_equal. apply Hpalette. cbn. repeat (left || right).
  - destruct (getColorHex_names_resolve_to_hex "Teal")
      as (hex & Hget & _ & _ & Hfallback); [reflexivity | reflexivity |].
    rewrite Hget. f_equal. apply Hfallback. intros paletteColor Hin.
    cbn in Hin. repeat (apply elem_of_cons in Hin as [[=] | Hin]).
    by apply elem_of_nil in Hin.
Defined.

(** X4: [getColorHex] is idempotent on strings: whatever string it returns
    starts with # and is returned unchanged when passed in again. *)
Theorem getColorHex_idempotent (colorName hex : string) :
  getColorHex colorName = ColorString hex →
  getColorHex hex = ColorString hex.
Proof.
  unfold getColorHex at 1.
  destruct (startsWith "#" colorName) eqn:Hhash.
  - intros [= <-]. unfold getColorHex. by rewrite Hhash.
  - assert (isHexColor hex = true → getColorHex hex = ColorString hex) as Hfix.
    { intros Hhex. unfold getColorHex. by rewrite (isHexColor_startsWith _ Hhex). }
    destruct (own (toLowerCase colorName) colors) as [h|] eqn:E.
    + pose proof (own_Forall (λ v, isHexColor v = true) _ _ _ colors_hex E) as Hhex.
      rewrite isHexColor_str_or by done. intros [= <-]. by apply Hfix.
    + destruct (inherited (toLowerCase colorName)); [done |].
      intros [= <-]. by apply Hfix.
Qed.

Lemma getColorHex_idempotent_witness :
  getColorHex "#336633" = ColorString "#336633".
Proof. apply (getColorHex_idempotent "DarkGreen"). reflexivity. Defined.
(* ===================================================================== *)
(** ** Exact cases of the rounding *)
(* ===================================================================== *)

Module ExactFacts.
Import Float64 Float64Facts JS NumFacts.
Local Open Scope Q_scope.

Lemma Qlog2_unique q e : 0 < q → pow2 e <= q → q < pow2 (e + 1) → Qlog2 q = e.
Proof.
  intros Hq Hlo Hhi. destruct (Qlog2_spec q Hq) as [Hlo' Hhi'].
  destruct (Z.lt_trichotomy (Qlog2 q) e) as [Hlt | [Heq | Hgt]]; [| exact Heq |].
  - assert (pow2 (Qlog2 q + 1) <= pow2 e) by (apply pow2_le; lia). lra.
  - assert (pow2 (e + 1) <= pow2 (Qlog2 q)) by (apply pow2_le; lia). lra.
Qed.

Lemma Qlog2_Qeq q q' : 0 < q → q == q' → Qlog2 q = Qlog2 q'.
Proof.
  intros Hq E. assert (Hq' : 0 < q') by lra.
  destruct (Qlog2_spec q' Hq') as [Hlo Hhi].
  apply Qlog2_unique; lra.
Qed.

Lemma round_even_Qeq m m' : m == m' → round_even m = round_even m'.
Proof.
  intros E. unfold round_even. rewrite <- (Qfloor_comp m m' E).
  assert (E' : m - inject_Z (Qfloor m) == m' - inject_Z (Qfloor m)) by lra.
  rewrite <- (Qcompare_comp _ _ E' (1 # 2) (1 # 2) (Qeq_refl _)). reflexivity.
Qed.

Lemma round_pos_Qeq q q' : 0 < q → q == q' → round_pos q = round_pos q'.
Proof.
  intros Hq E. unfold round_pos, ulp_exp.
  rewrite (Qlog2_Qeq q q' Hq E).
  rewrite (round_even_Qeq (q / _) (q' / pow2 (Z.max (Qlog2 q' - 52) (-1074))));
    [reflexivity |].
  apply Qmult_comp; [exact E | reflexivity].
Qed.

(** The rounding depends on the value of the rational, not on its writing. *)
Lemma fl_Qeq q q' : q == q' → fl q = fl q'.
Proof.
  intros E. unfold fl. rewrite <- (Qcompare_comp q q' E 0 0 (Qeq_refl 0)).
  destruct (Qcompare_spec q 0) as [Hz | Hneg | Hpos]; [reflexivity | |].
  - rewrite (round_pos_Qeq (- q) (- q')); [reflexivity | lra | lra].
  - rewrite (round_pos_Qeq q q'); [reflexivity | lra | exact E].
Qed.

Lemma fl_zero q : q == 0 → fl q = Fin 0.
Proof. intros E. rewrite (fl_Qeq q 0 E). reflexivity. Qed.

Lemma leb_refl_Fin q : Num.leb (Fin q) (Fin q) = true.
Proof. apply leb_Fin. lra. Qed.

Lemma leb_trans a b c :
  Num.leb a b = true → Num.leb b c = true → Num.leb a c = true.
Proof.
  destruct a as [| | | x], b as [| | | y], c as [| | | z];
    cbn [Num.leb]; try discriminate; try reflexivity.
  rewrite !Qle_bool_iff. lra.
Qed.

End ExactFacts.

(* ===================================================================== *)
(** ** Projects inside the window *)
(* ===================================================================== *)

Section Band.
Context `{Host}.
Import NumFacts ExactFacts.

(** The start of the window is drawn at the left margin. *)
Lemma xOf_window_start ts r w :
  (0 < r)%Q → xOf (Some ts) (Some ts) (Fin r) (Fin w) = JS.fl (inject_Z margin_left + 0).
Proof.
  intros Hr. unfold xOf. cbn [valueOf Num.of_Z Num.sub].
  rewrite (fl_zero (inject_Z ts - inject_Z ts)) by ring.
  cbn [Num.div]. destruct (Qcompare_spec r 0) as [E | E | E]; try lra.
  rewrite (fl_zero (0 / r)) by (field; lra).
  cbn [Num.mul]. rewrite (fl_zero (0 * w)) by ring. reflexivity.
Qed.

(** The end of the window is drawn at the right margin. *)
Lemma xOf_window_end ts te r :
  Num.sub (Num.of_Z te) (Num.of_Z ts) = Fin r → (0 < r)%Q →
  xOf (Some te) (Some ts) (Fin r) timelineWidth = Num.of_Z (1200 - margin_right).
Proof.
  intros Hsub Hr. unfold xOf. cbn [valueOf]. rewrite Hsub.
  cbn [Num.div]. destruct (Qcompare_spec r 0) as [E | E | E]; try lra.
  rewrite (fl_Qeq (r / r) 1) by (field; lra).
  vm_compute. reflexivity.
Qed.

End Band.

(** X5: a project inside the window is drawn between the margins.  In a
    window of positive duration, a project that passes validation and
    whose start and end dates lie within the window gets its two pixel
    abscissae between the left margin (120) and the right margin
    (1200 - 60), and so does the abscissa of its tail when the tail ends
    within the window. *)
Theorem in_window_project_within_margins `{Host} (data : Data.t) (ts te s e : Z)
    (project : Project.t) (epicIndex : option nat) (p : PProject.t) :
  window data ts te → ts < te →
  parseDate (Project.tbeg project) = Some s →
  parseDate (Project.tend project) = Some e →
  ts <= s → e <= te →
  processed data project epicIndex = Ok p →
  Num.leb (Num.of_Z margin_left) (PProject.x1 p) = true
  ∧ Num.leb (PProject.x1 p) (PProject.x2 p) = true
  ∧ Num.leb (PProject.x2 p) (Num.of_Z (1200 - margin_right)) = true
  ∧ (∀ t x3, parseDate (show (Project.tailEnd project)) = Some t → t <= te →
             PProject.x3 p = Some x3 →
             Num.leb x3 (Num.of_Z (1200 - margin_right)) = true).
Proof.
  intros Hwin Hlt Hs He Hts Hte Hp.
  destruct (window_duration data ts te Hwin Hlt) as (Hstart & r & Hdur & Hr).
  destruct timelineWidth_positive as (w & Hw & Hwpos).
  assert (Hsub : Num.sub (Num.of_Z te) (Num.of_Z ts) = Fin r).
  { destruct Hwin as [Hb Hend]. unfold totalDurationOf in Hdur.
    rewrite Hb, Hend in Hdur. exact Hdur. }
  pose proof (xOf_window_end ts te r Hsub Hr) as Hright.
  pose proof (xOf_window_start ts r w Hr) as Hleft.
  unfold processed in Hp. rewrite Hstart, Hdur in Hp.
  assert (Hord := Hp). rewrite Hw in Hord.
  apply processProject_x_order in Hord; [| assumption | assumption | eauto | eauto].
  destruct Hord as [Hx12 Hx23].
  pose proof (processProject_validation project (Some ts) (Fin r) timelineWidth epicIndex)
    as Hv.
  destruct (validation project) as [message |]; [congruence |].
  destruct Hv as (p' & Hp' & _ & _ & _ & Hx1 & Hx2 & Hx3).
  assert (p' = p) by congruence. subst p'. clear Hp'.
  rewrite Hs in Hx1. rewrite He in Hx2.
  assert (Hround_left :
    Num.Math_round (xOf (Some ts) (Some ts) (Fin r) (Fin w)) = Num.of_Z margin_left).
  { rewrite Hleft. vm_compute. reflexivity. }
  assert (Hround_right :
    Num.Math_round (xOf (Some te) (Some ts) (Fin r) timelineWidth)
    = Num.of_Z (1200 - margin_right)).
  { rewrite Hright. vm_compute. reflexivity. }
  split; [| split; [exact Hx12 | split]].
  - rewrite Hx1, <- Hround_left, Hw.
    apply NumFacts.Math_round_mono, xOf_mono; assumption.
  - rewrite Hx2, <- Hround_right, Hw.
    apply NumFacts.Math_round_mono, xOf_mono; assumption.
  - intros t x3 Ht Htte Ex3. rewrite Ex3 in Hx3.
    destruct (truthy_str (Project.tailEnd project)); [| discriminate].
    cbn zeta in Hx3. rewrite Ht in Hx3.
    destruct (Num.truthy _); [| discriminate].
    injection Hx3 as ->. rewrite <- Hround_right, Hw.
    apply NumFacts.Math_round_mono, xOf_mono; assumption.
Qed.

Lemma in_window_project_within_margins_witness :
  ∃ p, processed Examples.centuryData Examples.shortTailProject None = Ok p
       ∧ Num.leb (Num.of_Z margin_left) (PProject.x1 p) = true
       ∧ Num.leb (PProject.x1 p) (PProject.x2 p) = true
       ∧ Num.leb (PProject.x2 p) (Num.of_Z (1200 - margin_right)) = true
       ∧ (∀ t x3,
            parseDate (show (Project.tailEnd Examples.shortTailProject)) = Some t →
            t <= 4102444800000 →
            PProject.x3 p = Some x3 →
            Num.leb x3 (Num.of_Z (1200 - margin_right)) = true).
Proof.
  eexists. split; [vm_compute; reflexivity |].
  apply (in_window_project_within_margins Examples.centuryData
           946684800000 4102444800000 2524608000000 2537654400000
           Examples.shortTailProject None).
  - split; vm_compute; reflexivity.
  - lia.
  - vm_compute. reflexivity.
  - vm_compute. reflexivity.
  - lia.
  - lia.
  - vm_compute. reflexivity.
Defined.
(* ===================================================================== *)
(** ** What the resolver leaves alone *)
(* ===================================================================== *)

Section Frame.
Context `{Host}.

(** The resolver only assigns [y] to project objects and [minY], [maxY] to
    epic objects: a property of the two stores that these assignments
    preserve holds of the scene when it held before. *)
Lemma resolve_frame (I : list PProject.t → list PEpic.t → Prop)
    projects epics themes scene :
  (∀ heap epics v r, I heap epics → I (alter (PProject.set_y v) r heap) epics) →
  (∀ heap epics lo hi e, I heap epics → I heap (alter (PEpic.set_bounds lo hi) e epics)) →
  I projects epics →
  resolveCollisionsWithThemes projects epics themes = Ok scene →
  I (Scene.heap scene) (Scene.epics scene).
Proof.
  intros Hy Hb Hinit. unfold resolveCollisionsWithThemes.
  destruct (groupByTheme projects epics) as [themeGroups |];
    cbn [mbind result_bind]; [| discriminate].
  destruct (forEachM _ _ themes) as [[[[heap epics'] currentY] themeData] |] eqn:Ef;
    cbn [mbind result_bind]; [| discriminate].
  intros [= <-]. cbn [Scene.heap Scene.epics].
  apply (forEachM_invariant (placeTheme themeGroups)
           (λ st, I st.1.1.1 st.1.1.2) (λ _, True) themes
           (projects, epics, margin_top, []) (heap, epics', currentY, themeData));
    [| apply Forall_true; auto | exact Hinit | exact Ef].
  clear Ef Hinit. intros [[[heap0 epics0] currentY0] themeData0] theme st' _ Hst.
  cbn [fst snd] in Hst. cbn [placeTheme]. rename heap0 into h0, epics0 into es0.
  destruct (inherited theme); [discriminate |].
  set (group := default Group.empty (themeGroups !! theme)).
  pose proof (foldl_invariant placeProject (λ st, I st.1.1 es0) (Group.projects group)
                (h0, currentY0 + 20, [])) as Hf.
  cbn [fst] in Hf. specialize (Hf ltac:(intros [[h y] pl] r; cbn; apply Hy) Hst).
  destruct (foldl placeProject _ _) as [[heap1 projectY1] placed1]. cbn [fst] in Hf.
  pose proof (foldl_invariant placeEpic (λ st, I st.1.1.1 st.1.1.2) (Group.epics group)
                (heap1, es0, projectY1, placed1)) as Hg.
  cbn [fst snd] in Hg.
  assert (Hstep : ∀ st e, I st.1.1.1 st.1.1.2 → I (placeEpic st e).1.1.1 (placeEpic st e).1.1.2).
  { clear -Hy Hb. intros [[[h es] y] pl] e Hst. cbn [fst snd placeEpic] in *.
    destruct (es !! e) as [epic |]; [| exact Hst].
    destruct (0 <? length (PEpic.projects epic))%nat; [| exact Hst].
    pose proof (foldl_invariant placeEpicProject (λ st, I st.1.1 es)
                  (PEpic.projects epic) (h, y, pl)) as Hm.
    cbn [fst] in Hm.
    assert (Hone : ∀ st r, I st.1.1 es → I (placeEpicProject st r).1.1 es).
    { intros [[h' y'] pl'] r Hh. cbn [fst placeEpicProject] in *.
      destruct (decide (r < length h')%nat); auto. }
    specialize (Hm Hone Hst).
    destruct (foldl placeEpicProject _ _) as [[h2 y2] pl2]. cbn [fst snd] in *.
    apply Hb, Hm. }
  specialize (Hg Hstep Hf).
  destruct (foldl placeEpic _ _) as [[[heap2 epics2] projectY2] placed2].
  intros [= <-]. exact Hg.
Qed.

End Frame.

(* ===================================================================== *)
(** ** The horizontal extent of an epic *)
(* ===================================================================== *)

Section Extent.
Context `{Host}.
Import NumFacts.

Lemma ltb_true_leb a b : Num.ltb b a = true → Num.leb b a = true.
Proof.
  destruct a as [| | | x], b as [| | | y]; cbn; try done.
  rewrite negb_true_iff, <- not_true_iff_false, !Qle_bool_iff.
  intros Hn. destruct (Qlt_le_dec y x) as [Hlt | Hle]; [apply Qlt_le_weak, Hlt | done].
Qed.

Lemma ltb_false_leb a b : a ≠ NaN → b ≠ NaN → Num.ltb b a = false → Num.leb a b = true.
Proof.
  destruct a as [| | | x], b as [| | | y]; cbn; try done.
  rewrite negb_false_iff. done.
Qed.

Lemma leb_refl a : a ≠ NaN → Num.leb a a = true.
Proof. destruct a; cbn; try done. intros _. apply Qle_bool_iff, Qle_refl. Qed.

Lemma min2_not_NaN a b : a ≠ NaN → b ≠ NaN → Num.min2 a b ≠ NaN.
Proof. destruct a, b; cbn; try done; intros _ _; by destruct (negb _). Qed.

Lemma max2_not_NaN a b : a ≠ NaN → b ≠ NaN → Num.max2 a b ≠ NaN.
Proof. destruct a, b; cbn; try done; intros _ _; by destruct (negb _). Qed.

Lemma min2_le a b :
  a ≠ NaN → b ≠ NaN →
  Num.leb (Num.min2 a b) a = true ∧ Num.leb (Num.min2 a b) b = true.
Proof.
  intros Ha Hb.
  assert (Num.min2 a b = if Num.ltb b a then b else a) as -> by (by destruct a, b).
  destruct (Num.ltb b a) eqn:E.
  - split; [apply ltb_true_leb, E | apply leb_refl, Hb].
  - split; [apply leb_refl, Ha | apply ltb_false_leb; done].
Qed.

Lemma max2_ge a b :
  a ≠ NaN → b ≠ NaN →
  Num.leb a (Num.max2 a b) = true ∧ Num.leb b (Num.max2 a b) = true.
Proof.
  intros Ha Hb.
  assert (Num.max2 a b = if Num.ltb a b then b else a) as -> by (by destruct a, b).
  destruct (Num.ltb a b) eqn:E.
  - split; [apply ltb_true_leb, E | apply leb_refl, Hb].
  - split; [apply leb_refl, Ha | apply ltb_false_leb; done].
Qed.

(** [Math.min] of numbers, none of them [NaN], is below each of them. *)
Lemma Math_min_le l :
  Forall (λ a, a ≠ NaN) l →
  Num.Math_min l ≠ NaN ∧ Forall (λ a, Num.leb (Num.Math_min l) a = true) l.
Proof.
  induction 1 as [| a l Ha _ [IHn IHl]]; [split; [done | constructor] |].
  cbn [Num.Math_min foldr]. fold (Num.Math_min l).
  destruct (min2_le a (Num.Math_min l) Ha IHn) as [H1 H2].
  split; [by apply min2_not_NaN |]. constructor; [exact H1 |].
  eapply Forall_impl; [exact IHl |]. intros b Hb. cbn beta in Hb.
  eapply ExactFacts.leb_trans; eassumption.
Qed.

Lemma Math_max_ge l :
  Forall (λ a, a ≠ NaN) l →
  Num.Math_max l ≠ NaN ∧ Forall (λ a, Num.leb a (Num.Math_max l) = true) l.
Proof.
  induction 1 as [| a l Ha _ [IHn IHl]]; [split; [done | constructor] |].
  cbn [Num.Math_max foldr]. fold (Num.Math_max l).
  destruct (max2_ge a (Num.Math_max l) Ha IHn) as [H1 H2].
  split; [by apply max2_not_NaN |]. constructor; [exact H1 |].
  eapply Forall_impl; [exact IHl |]. intros b Hb. cbn beta in Hb.
  eapply ExactFacts.leb_trans; eassumption.
Qed.

(** Reading a store through consecutive references. *)
Lemma omap_lookup_seq {A} (l : list A) a n :
  omap (λ r, l !! r) (seq a n) = take n (drop a l).
Proof.
  revert a. induction n as [| n IH]; intros a; [done |].
  cbn [seq omap list_omap]. rewrite IH.
  destruct (l !! a) as [x |] eqn:E.
  - by rewrite (drop_S l x a E).
  - apply lookup_ge_None in E.
    rewrite !drop_ge by lia. by rewrite !take_nil.
Qed.

Lemma omap_lookup_appended {A} (old new : list A) :
  omap (λ r, (old ++ new) !! r) (seq (length old) (length new)) = new.
Proof. by rewrite omap_lookup_seq, drop_app_length, firstn_all. Qed.

(** The objects behind valid references are not affected by appending. *)
Lemma omap_lookup_app_l {A} (old new : list A) refs :
  Forall (λ r, is_Some (old !! r)) refs →
  omap (λ r, (old ++ new) !! r) refs = omap (λ r, old !! r) refs.
Proof.
  induction 1 as [| r refs [x Hx] _ IH]; [done |].
  cbn [omap list_omap]. rewrite IH, (lookup_app_l_Some _ _ _ _ Hx), Hx. done.
Qed.

(** Assigning [y] to an object changes no abscissa read through a reference. *)
Lemma membersOf_set_y {B} (g : PProject.t → B) v r heap epic :
  (∀ p, g (PProject.set_y v p) = g p) →
  g <$> membersOf (alter (PProject.set_y v) r heap) epic = g <$> membersOf heap epic.
Proof.
  intros Hg. unfold membersOf, ref. induction (PEpic.projects epic) as [| r' refs IH]; [done |].
  cbn [omap list_omap]. unfold ref in *.
  destruct (decide (r = r')) as [<- | Hne].
  - rewrite list_lookup_alter_eq. destruct (heap !! r) as [p |]; cbn; [| exact IH].
    by rewrite Hg, IH.
  - rewrite list_lookup_alter_ne by done.
    destruct (heap !! r') as [p |]; cbn; [| exact IH]. by rewrite IH.
Qed.

Lemma epicExtent_set_y v r heap epic :
  epicExtent heap epic → epicExtent (alter (PProject.set_y v) r heap) epic.
Proof.
  intros (Hrefs & Hx1 & Hx2). split; [| split].
  - eapply Forall_impl; [exact Hrefs |]. intros r' [p Hp]. cbn beta.
    unfold ref in *. destruct (decide (r = r')) as [<- | Hne].
    + rewrite list_lookup_alter_eq. rewrite Hp. by eexists.
    + rewrite list_lookup_alter_ne by done. by eexists.
  - rewrite Hx1. by rewrite membersOf_set_y.
  - rewrite Hx2. by rewrite membersOf_set_y.
Qed.

Lemma epicExtent_app heap new epic :
  epicExtent heap epic → epicExtent (heap ++ new) epic.
Proof.
  intros (Hrefs & Hx1 & Hx2). unfold epicExtent, membersOf in *. unfold ref in *.
  rewrite (omap_lookup_app_l heap new _ Hrefs). split; [| done].
  eapply Forall_impl; [exact Hrefs |]. intros r [p Hp]. cbn beta.
  rewrite (lookup_app_l_Some _ _ _ _ Hp). by eexists.
Qed.

(** Each step of the processing loop keeps the extents and adds an epic
    whose extent is computed from its freshly built members. *)
Lemma processEpic_extent data startDate totalDuration width st entry st' :
  Forall (epicExtent st.1) st.2 →
  processEpic data startDate totalDuration width st entry = Ok st' →
  Forall (epicExtent st'.1) st'.2.
Proof.
  destruct st as [allProjects epics], entry as [epicIndex epic]. cbn [fst snd].
  intros Hall. unfold processEpic.
  destruct (Epic.projectLines epic) as [projectLines |]; [| intros [= <-]; exact Hall].
  destruct (mapM _ projectLines) as [epicProjects |];
    cbn [mbind result_bind]; [| discriminate].
  assert (Hold : Forall (epicExtent (allProjects ++ epicProjects)) epics).
  { eapply Forall_impl; [exact Hall |]. intros e. apply epicExtent_app. }
  destruct (0 <? length epicProjects)%nat; intros [= <-]; cbn [fst snd]; [| exact Hold].
  apply Forall_app. split; [exact Hold |]. constructor; [| constructor].
  unfold epicExtent, membersOf. cbn [PEpic.projects PEpic.x1 PEpic.x2].
  unfold ref. rewrite omap_lookup_appended. split; [| done].
  apply Forall_forall. intros r Hr. apply elem_of_seq in Hr.
  apply lookup_lt_is_Some. rewrite length_app. lia.
Qed.

Lemma layout_extent data scene :
  layout data = Ok scene →
  Forall (epicExtent (Scene.heap scene)) (Scene.epics scene).
Proof.
  rewrite layout_unfold.
  destruct (mapM _ (array (Data.projectLines data))) as [standalone |];
    cbn [mbind result_bind]; [| discriminate].
  destruct (forEachM _ _ _) as [[allProjects epics] |] eqn:Ef;
    cbn [mbind result_bind]; [| discriminate].
  apply (resolve_frame (λ heap epics, Forall (epicExtent heap) epics)).
  - intros heap es v r Hes. eapply Forall_impl; [exact Hes |].
    intros e. apply epicExtent_set_y.
  - intros heap es lo hi e Hes. apply Forall_alter; [exact Hes |].
    intros epic _ Hepic. exact Hepic.
  - apply (forEachM_invariant _ (λ st, Forall (epicExtent st.1) st.2) (λ _, True)
             _ _ _ (λ st entry st' _ Hst Hstep,
                      processEpic_extent data _ _ _ st entry st' Hst Hstep)) in Ef;
      [exact Ef | apply Forall_true; auto | constructor].
Qed.

End Extent.

Section ExtentCoordinates.
Context `{Host}.

Lemma Math_round_not_NaN a : a ≠ NaN → Num.Math_round a ≠ NaN.
Proof. by destruct a. Qed.

(** In a window of positive duration, an object built from a record with
    parseable dates has numbers for abscissae. *)
Lemma builtFrom_coordinates data ts te p :
  window data ts te → ts < te → datesParse data → builtFrom data p →
  PProject.x1 p ≠ NaN ∧ x3_or_x2 p ≠ NaN.
Proof.
  intros Hwin Hlt Hdates (project & epicIndex & p0 & Hin & Hp0 & ->).
  unfold x3_or_x2. cbn [PProject.set_y PProject.set_theme PProject.x1 PProject.x2 PProject.x3].
  destruct (window_duration data ts te Hwin Hlt) as (Hstart & r & Hdur & Hr).
  destruct timelineWidth_positive as (w & Hw & Hwpos).
  unfold datesParse in Hdates. rewrite Forall_forall in Hdates.
  destruct (Hdates project Hin) as [[s Hs] [e He]].
  unfold processed in Hp0. rewrite Hstart, Hdur, Hw in Hp0.
  pose proof (processProject_validation project (Some ts) (Fin r) (Fin w) epicIndex) as Hv.
  destruct (validation project) as [message |]; [congruence |].
  destruct Hv as (p' & Hp' & _ & _ & _ & Hx1 & Hx2 & _).
  assert (p' = p0) by congruence. subst p'.
  rewrite Hs in Hx1. rewrite He in Hx2.
  assert (Hn1 : PProject.x1 p0 ≠ NaN).
  { rewrite Hx1. apply Math_round_not_NaN, xOf_not_NaN; assumption. }
  assert (Hn2 : PProject.x2 p0 ≠ NaN).
  { rewrite Hx2. apply Math_round_not_NaN, xOf_not_NaN; assumption. }
  split; [exact Hn1 |].
  destruct (PProject.x3 p0) as [v |]; [| exact Hn2].
  unfold Num.or_else. destruct (Num.truthy v) eqn:Ev; [| exact Hn2].
  by destruct v.
Qed.

End ExtentCoordinates.

(** X6: the box of an epic spans its members horizontally.  In a window of
    positive duration and a dataset whose project dates all parse, every
    reference held by an epic of the scene points to a project object, the
    [x1] of the epic is at most the [x1] of that project, and the [x2] of
    the epic is at least the right end [x3 || x2] of that project. *)
Theorem epic_extent_covers_members `{Host} (data : Data.t) (ts te : Z)
    (scene : Scene.t) (epic : PEpic.t) (r : ref) :
  window data ts te → ts < te → datesParse data →
  layout data = Ok scene →
  epic ∈ Scene.epics scene → r ∈ PEpic.projects epic →
  ∃ p, Scene.heap scene !! r = Some p
       ∧ Num.leb (PEpic.x1 epic) (PProject.x1 p) = true
       ∧ Num.leb (x3_or_x2 p) (PEpic.x2 epic) = true.
Proof.
  intros Hwin Hlt Hdates Hlayout Hepic Hr.
  pose proof (layout_extent data scene Hlayout) as Hext.
  rewrite Forall_forall in Hext. destruct (Hext epic Hepic) as (Hrefs & Hx1 & Hx2).
  rewrite Forall_forall in Hrefs. destruct (Hrefs r Hr) as [p Hp].
  exists p. split; [exact Hp |].
  assert (Hmember : p ∈ membersOf (Scene.heap scene) epic).
  { apply list_elem_of_omap. exists r. auto. }
  assert (Hnum : Forall (λ m, PProject.x1 m ≠ NaN ∧ x3_or_x2 m ≠ NaN)
                        (membersOf (Scene.heap scene) epic)).
  { apply Forall_forall. intros m Hm.
    apply list_elem_of_omap in Hm as (r' & _ & Hm).
    apply list_elem_of_lookup_2 in Hm.
    pose proof (scene_heap_builtFrom data scene Hlayout) as Hbuilt.
    rewrite Forall_forall in Hbuilt.
    eapply builtFrom_coordinates; eauto. }
  split.
  - rewrite Hx1.
    destruct (Math_min_le (PProject.x1 <$> membersOf (Scene.heap scene) epic)) as [_ Hmin].
    { apply Forall_fmap. eapply Forall_impl; [exact Hnum |]. by intros m [? _]. }
    rewrite Forall_forall in Hmin. apply Hmin, list_elem_of_fmap. eauto.
  - rewrite Hx2.
    destruct (Math_max_ge (x3_or_x2 <$> membersOf (Scene.heap scene) epic)) as [_ Hmax].
    { apply Forall_fmap. eapply Forall_impl; [exact Hnum |]. by intros m [_ ?]. }
    rewrite Forall_forall in Hmax. apply Hmax, list_elem_of_fmap. eauto.
Qed.

Lemma epic_extent_covers_members_witness :
  ∃ scene epic,
    layout LayoutExamples.oneAndEpic = Ok scene
    ∧ Scene.epics scene = [epic]
    ∧ ∃ p, Scene.heap scene !! 1%nat = Some p
           ∧ Num.leb (PEpic.x1 epic) (PProject.x1 p) = true
           ∧ Num.leb (x3_or_x2 p) (PEpic.x2 epic) = true.
Proof.
  eexists. eexists. split; [vm_compute; reflexivity |]. split; [reflexivity |].
  apply (epic_extent_covers_members LayoutExamples.oneAndEpic
           1704067200000 1735689600000).
  - split; vm_compute; reflexivity.
  - lia.
  - repeat constructor; eexists; vm_compute; reflexivity.
  - vm_compute. reflexivity.
  - apply list_elem_of_here.
  - apply list_elem_of_here.
Defined.
(* ===================================================================== *)
(** ** The pencil: options and pointer input *)
(* ===================================================================== *)

(** X7: the fall-backs of the [PencilCanvas] constructor only fill in for
    missing options.  Whatever value the caller passes for an option is the
    value the pencil uses, zero and the empty string included, because the
    constructor copies the argument over the defaulted properties; a
    missing option gets its default. *)
Theorem pencil_options_keep_what_is_given (o : PencilCanvas.given) :
  PencilCanvas.opts (PencilCanvas.constructor o)
  = {| PencilCanvas.color := default "#000000"%string (PencilCanvas.given_color o);
       PencilCanvas.thickness := default (Num.of_Z 3) (PencilCanvas.given_thickness o);
       PencilCanvas.density := default (Num.literal 4 10) (PencilCanvas.given_density o);
       PencilCanvas.jiggle := default (Num.literal 15 10) (PencilCanvas.given_jiggle o);
       PencilCanvas.alpha := default (Num.literal 9 10) (PencilCanvas.given_alpha o) |}.
Proof.
  destruct o as [c t d j a]. unfold PencilCanvas.constructor, PencilCanvas.spread.
  cbn [PencilCanvas.opts PencilCanvas.listed PencilCanvas.color PencilCanvas.thickness
       PencilCanvas.density PencilCanvas.jiggle PencilCanvas.alpha
       PencilCanvas.given_color PencilCanvas.given_thickness PencilCanvas.given_density
       PencilCanvas.given_jiggle PencilCanvas.given_alpha].
  f_equal; [by destruct c | by destruct t | by destruct d | by destruct j | by destruct a].
Qed.

Section PointerInput.
Import PencilCanvas.
Variable rect : domRect.

Lemma run_cons this i inputs :
  run rect this (i :: inputs)
  = ((run rect (handle rect this i).1 inputs).1,
     (handle rect this i).2 ++ (run rect (handle rect this i).1 inputs).2).
Proof.
  cbn [run]. destruct (handle rect this i) as [this1 drawn].
  cbn [fst snd]. by destruct (run rect this1 inputs).
Qed.

(** What a step that is no press does to the state. *)
Lemma handle_no_press this i :
  isPress i = false →
  straightLineStartX (handle rect this i).1 = straightLineStartX this
  ∧ straightLineStartY (handle rect this i).1 = straightLineStartY this
  ∧ (isDrawing this = false →
     isDrawing (handle rect this i).1 = false ∧ (handle rect this i).2 = [])
  ∧ connected (lastX this) (lastY this) (handle rect this i).2
  ∧ (i ≠ toggle → isStraightLineMode (handle rect this i).1 = isStraightLineMode this).
Proof.
  intros Hi. destruct i; try discriminate Hi; cbn [handle];
    try (repeat split; cbn; done).
  all: unfold _draw; destruct (isDrawing this) eqn:Ed; cbn [negb];
    [| repeat split; cbn; done].
  all: destruct (_getCoords rect _) as [ox oy];
    destruct (isStraightLineMode this); [destruct (Num.ltb _ _) |];
    cbn; repeat split; done.
Qed.

(** The last point of the state is the end of the polyline drawn so far. *)
Lemma handle_last this i :
  isPress i = false →
  match (handle rect this i).2 with
  | [] => lastX (handle rect this i).1 = lastX this
          ∧ lastY (handle rect this i).1 = lastY this
  | s :: _ => (handle rect this i).2 = [s]
              ∧ lastX (handle rect this i).1 = x2 s
              ∧ lastY (handle rect this i).1 = y2 s
  end.
Proof.
  intros Hi. destruct i; try discriminate Hi; cbn [handle]; try (cbn; done).
  all: unfold _draw; destruct (isDrawing this); cbn [negb]; [| cbn; done].
  all: destruct (_getCoords rect _) as [ox oy];
    destruct (isStraightLineMode this); [destruct (Num.ltb _ _) |]; cbn; done.
Qed.

Lemma run_no_press this inputs :
  Forall (λ i, isPress i = false) inputs →
  connected (lastX this) (lastY this) (run rect this inputs).2
  ∧ (isDrawing this = false → (run rect this inputs).2 = [])
  ∧ (isStraightLineMode this = true → Forall (λ i, i ≠ toggle) inputs →
     Forall (λ s, x2 s = straightLineStartX this ∨ y2 s = straightLineStartY this)
            (run rect this inputs).2).
Proof.
  intros Hinputs. revert this.
  induction Hinputs as [| i inputs Hi _ IH]; intros this; [cbn; done |].
  rewrite run_cons. cbn [snd].
  destruct (handle_no_press this i Hi) as (Hsx & Hsy & Hidle & Hconn & Hmode).
  pose proof (handle_last this i Hi) as Hlast.
  destruct (IH (handle rect this i).1) as (IHconn & IHidle & IHaxis).
  split; [| split].
  - destruct (handle rect this i).2 as [| s drawn].
    + destruct Hlast as [<- <-]. exact IHconn.
    + destruct Hlast as ([= ->] & Hx & Hy). rewrite Hx, Hy in IHconn.
      destruct Hconn as (? & ? & _). cbn. done.
  - intros Hd. destruct (Hidle Hd) as [Hd' ->]. cbn. apply IHidle, Hd'.
  - intros Hstraight Hno. inversion Hno as [| ? ? Hne Hrest]; subst.
    apply Forall_app. split.
    + clear -Hstraight Hi. destruct i; try discriminate Hi; cbn [handle snd];
        try constructor.
      all: unfold _draw; destruct (isDrawing this); cbn [negb snd]; [| constructor].
      all: destruct (_getCoords rect _) as [ox oy]; rewrite Hstraight;
        destruct (Num.ltb _ _); cbn [snd]; (constructor; [cbn; auto | constructor]).
    + rewrite <- Hsx, <- Hsy. apply IHaxis; [| exact Hrest].
      rewrite (Hmode Hne). exact Hstraight.
Qed.

End PointerInput.

(** X8: nothing is drawn before the pointer is pressed.  Starting from a
    pencil that is not drawing, a sequence of inputs without [mousedown]
    and [touchstart] hands no segment to [_drawPencilStroke], whatever the
    pointer does. *)
Theorem no_segment_without_press (rect : PencilCanvas.domRect) (this : PencilCanvas.t)
    (inputs : list PencilCanvas.input) :
  PencilCanvas.isDrawing this = false →
  Forall (λ i, isPress i = false) inputs →
  (PencilCanvas.run rect this inputs).2 = [].
Proof.
  intros Hidle Hinputs.
  destruct (run_no_press rect this inputs Hinputs) as (_ & Hnone & _).
  exact (Hnone Hidle).
Qed.

(** X9: the segments of one stroke form a polyline.  As long as the pointer
    is not pressed anew, every segment handed to [_drawPencilStroke] starts
    where the previous one ended, the first one at the last point of the
    pencil. *)
Theorem stroke_segments_are_connected (rect : PencilCanvas.domRect)
    (this : PencilCanvas.t) (inputs : list PencilCanvas.input) :
  Forall (λ i, isPress i = false) inputs →
  connected (PencilCanvas.lastX this) (PencilCanvas.lastY this)
            (PencilCanvas.run rect this inputs).2.
Proof.
  intros Hinputs.
  destruct (run_no_press rect this inputs Hinputs) as (Hconn & _ & _).
  exact Hconn.
Qed.

(** X10: in straight-line mode every segment ends on one of the two axes
    through the point where the pointer was pressed.  While the mode is on
    and is not toggled, and the pointer is not pressed anew, the end point
    of each segment has the abscissa or the ordinate of the press point. *)
Theorem straight_line_mode_ends_on_axes (rect : PencilCanvas.domRect)
    (this : PencilCanvas.t) (inputs : list PencilCanvas.input) :
  PencilCanvas.isStraightLineMode this = true →
  Forall (λ i, isPress i = false) inputs →
  Forall (λ i, i ≠ PencilCanvas.toggle) inputs →
  Forall (λ s, PencilCanvas.x2 s = PencilCanvas.straightLineStartX this
               ∨ PencilCanvas.y2 s = PencilCanvas.straightLineStartY this)
         (PencilCanvas.run rect this inputs).2.
Proof.
  intros Hmode Hinputs Hno.
  destruct (run_no_press rect this inputs Hinputs) as (_ & _ & Haxes).
  exact (Haxes Hmode Hno).
Qed.

Lemma no_segment_without_press_witness :
  (PencilCanvas.run PencilExamples.rect PencilExamples.timelinePencil
                    PencilExamples.hovering).2 = [].
Proof.
  apply no_segment_without_press; [reflexivity |].
  repeat constructor.
Defined.

Lemma stroke_segments_are_connected_witness :
  connected (PencilCanvas.lastX PencilExamples.pressedStraight)
            (PencilCanvas.lastY PencilExamples.pressedStraight)
            (PencilCanvas.run PencilExamples.rect PencilExamples.pressedStraight
                              PencilExamples.drifting).2.
Proof.
  apply stroke_segments_are_connected. repeat constructor.
Defined.

Lemma straight_line_mode_ends_on_axes_witness :
  Forall (λ s, PencilCanvas.x2 s
               = PencilCanvas.straightLineStartX PencilExamples.pressedStraight
               ∨ PencilCanvas.y2 s
                 = PencilCanvas.straightLineStartY PencilExamples.pressedStraight)
         (PencilCanvas.run PencilExamples.rect PencilExamples.pressedStraight
                           PencilExamples.drifting).2.
Proof.
  apply straight_line_mode_ends_on_axes;
    [reflexivity | repeat constructor | repeat constructor; discriminate].
Defined.
(* ===================================================================== *)
(** ** The pencil: the dots of a stroke *)
(* ===================================================================== *)

Module IntegerFacts.
Import Float64 Float64Facts JS NumFacts ExactFacts.
Local Open Scope Q_scope.

Lemma Qlog2_inject_Z z : (0 < z)%Z → Qlog2 (inject_Z z) = Z.log2 z.
Proof.
  intros Hz. apply Qlog2_unique.
  - change 0 with (inject_Z 0). rewrite <- Zlt_Qlt. exact Hz.
  - apply Zlog2_bounds, Hz.
  - apply Zlog2_bounds, Hz.
Qed.

Lemma Qred_inject_Z z : Qred (inject_Z z) = inject_Z z.
Proof.
  unfold Qred, inject_Z.
  pose proof (Z.ggcd_gcd z 1) as Hg. pose proof (Z.ggcd_correct_divisors z 1) as Hd.
  destruct (Z.ggcd z 1) as [g [a b]]. cbn [fst snd] in *.
  rewrite Z.gcd_1_r in Hg. subst g. destruct Hd as [Ha Hb].
  rewrite Z.mul_1_l in Ha, Hb. subst a b. reflexivity.
Qed.

(** A positive integer below [2^53] is a binary64 value. *)
Lemma round_pos_inject_Z z :
  (0 < z < 2 ^ 53)%Z → round_pos (inject_Z z) = inject_Z z.
Proof.
  intros [Hpos Hlt].
  assert (Hlog : (Z.log2 z < 53)%Z) by (apply Z.log2_lt_pow2; lia).
  pose proof (Z.log2_nonneg z) as Hnn.
  unfold round_pos, ulp_exp. rewrite Qlog2_inject_Z by exact Hpos.
  set (s := Z.max (Z.log2 z - 52) (-1074)).
  assert (Hs : (s <= 0)%Z) by (unfold s; lia).
  assert (Escaled : inject_Z z / pow2 s == inject_Z (z * 2 ^ (- s))).
  { rewrite inject_Z_mult, <- pow2_inject by lia.
    unfold Qdiv. apply Qmult_comp; [reflexivity |].
    unfold pow2. rewrite <- Qpower_opp. reflexivity. }
  rewrite (round_even_Qeq _ _ Escaled), round_even_Z.
  assert (Eval : inject_Z (z * 2 ^ (- s)) * pow2 s == inject_Z z).
  { rewrite inject_Z_mult, <- pow2_inject by lia.
    rewrite <- Qmult_assoc, <- pow2_add.
    replace (- s + s)%Z with 0%Z by lia. change (pow2 0) with 1. ring. }
  rewrite (Qred_complete _ _ Eval). apply Qred_inject_Z.
Qed.

Lemma fl_inject_Z z : (0 <= z < 2 ^ 53)%Z → fl (inject_Z z) = Fin (inject_Z z).
Proof.
  intros [Hnn Hlt]. destruct (Z.eq_dec z 0%Z) as [-> | Hne]; [reflexivity |].
  unfold fl.
  assert (Hpos : 0 < inject_Z z).
  { change 0 with (inject_Z 0). rewrite <- Zlt_Qlt. lia. }
  destruct (Qcompare_spec (inject_Z z) 0) as [E | E | E]; try lra.
  rewrite round_pos_inject_Z by lia.
  assert (Hsmall : Qle_bool (pow2 1024) (inject_Z z) = false).
  { apply not_true_iff_false. rewrite Qle_bool_iff. intros Hle.
    assert (inject_Z z < pow2 53).
    { rewrite pow2_inject by lia. rewrite <- Zlt_Qlt. exact Hlt. }
    assert (pow2 53 <= pow2 1024) by (apply pow2_le; lia). lra. }
  rewrite Hsmall. reflexivity.
Qed.

End IntegerFacts.

Section StrokeLoop.
Import PencilCanvas NumFacts ExactFacts IntegerFacts.
Context `{MathHost}.
Variable random : oracle.

Lemma leb_of_nat_lt (k N : nat) d dist :
  Num.leb (Num.of_Z (Z.of_nat k)) d = true → Num.ltb d dist = true →
  Num.leb dist (Num.of_Z (Z.of_nat N)) = true → (k < N)%nat.
Proof.
  destruct d as [| | | x], dist as [| | | y]; cbn; try discriminate.
  rewrite negb_true_iff, <- not_true_iff_false, !Qle_bool_iff.
  intros Hk Hxy HN.
  assert (Hlt : (inject_Z (Z.of_nat k) < inject_Z (Z.of_nat N))%Q).
  { destruct (Qlt_le_dec x y) as [Hlt | Hle]; [| done].
    eapply Qle_lt_trans; [exact Hk |]. eapply Qlt_le_trans; [exact Hlt | exact HN]. }
  rewrite <- Zlt_Qlt in Hlt. lia.
Qed.

(** Adding a step of at least one to a [d] of at least [k] gives at least
    [k + 1], or [NaN]. *)
Lemma add_step (k : nat) d step :
  Z.of_nat k + 1 < 2 ^ 53 →
  Num.leb (Num.of_Z (Z.of_nat k)) d = true →
  step = NaN ∨ Num.leb (Num.of_Z 1) step = true →
  Num.add d step = NaN ∨ Num.leb (Num.of_Z (Z.of_nat (S k))) (Num.add d step) = true.
Proof.
  intros Hk Hd [-> | Hstep]; [left; by destruct d |]. right.
  destruct d as [| | | x], step as [| | | y]; try discriminate; try reflexivity.
  cbn [Num.add]. apply leb_Fin in Hd, Hstep.
  unfold Num.of_Z. rewrite <- (fl_inject_Z (Z.of_nat (S k))) by lia.
  apply fl_mono. rewrite Nat2Z.inj_succ. unfold Z.succ. rewrite inject_Z_plus.
  change (inject_Z 1) with 1%Q in *. lra.
Qed.

Lemma strokeStep_at_least_one o dist :
  strokeStep o dist = NaN ∨ Num.leb (Num.of_Z 1) (strokeStep o dist) = true.
Proof.
  unfold strokeStep. set (x := Num.mul _ _).
  destruct x as [| | | x]; [by left | by right | by right |]. right.
  cbn [Num.max2 Num.of_Z]. destruct (Num.ltb _ _) eqn:E.
  - apply ltb_true_leb in E. exact E.
  - apply leb_refl_Fin.
Qed.

(** The loop exits before [d] exceeds the length, having drawn a dot for
    each unit of length at most. *)
Lemma strokeLoop_exits (N : nat) o s dist step fuel : ∀ (k : nat) d n dots,
  Z.of_nat N < 2 ^ 53 →
  Num.leb dist (Num.of_Z (Z.of_nat N)) = true →
  step = NaN ∨ Num.leb (Num.of_Z 1) step = true →
  d = NaN ∨ Num.leb (Num.of_Z (Z.of_nat k)) d = true →
  (k <= N)%nat → (N <= k + fuel)%nat →
  ∃ more, strokeLoop random fuel o s dist step d n dots
          = Some (dots ++ more, (n + 9 * length more)%nat)
          ∧ (k + length more <= N)%nat.
Proof.
  induction fuel as [| fuel IH]; intros k d n dots HN Hdist Hstep Hd Hk Hfuel.
  - cbn [strokeLoop]. destruct (Num.ltb d dist) eqn:Elt.
    + destruct Hd as [-> | Hd]; [discriminate |].
      pose proof (leb_of_nat_lt k N d dist Hd Elt Hdist). lia.
    + exists []. rewrite app_nil_r. cbn. split; [f_equal; f_equal; lia | lia].
  - cbn [strokeLoop]. destruct (Num.ltb d dist) eqn:Elt.
    + destruct Hd as [-> | Hd]; [discriminate |].
      pose proof (leb_of_nat_lt k N d dist Hd Elt Hdist) as HkN.
      destruct (IH (S k) (Num.add d step) (n + 9)%nat (dots ++ [drawDot random o s dist d n]))
        as (more & Hmore & Hlen); try done; try lia.
      { apply add_step; [lia | done | done]. }
      exists (drawDot random o s dist d n :: more). rewrite Hmore. split.
      * rewrite <- app_assoc. cbn [app length]. do 2 f_equal. lia.
      * cbn [length]. lia.
    + exists []. rewrite app_nil_r. cbn. split; [f_equal; f_equal; lia | lia].
Qed.

Lemma strokeLoop_more_fuel o s dist step fuel : ∀ d n dots result,
  strokeLoop random fuel o s dist step d n dots = Some result →
  strokeLoop random (S fuel) o s dist step d n dots = Some result.
Proof.
  induction fuel as [| fuel IH]; intros d n dots result.
  - cbn [strokeLoop]. destruct (Num.ltb d dist); [discriminate | done].
  - intros Hloop. cbn [strokeLoop] in Hloop |- *.
    destruct (Num.ltb d dist); [| done]. apply IH in Hloop. exact Hloop.
Qed.

Lemma strokeLoop_fuel o s dist step fuel fuel' d n dots result :
  (fuel <= fuel')%nat →
  strokeLoop random fuel o s dist step d n dots = Some result →
  strokeLoop random fuel' o s dist step d n dots = Some result.
Proof.
  induction 1 as [| fuel' _ IH]; [done |]. intros Hloop.
  apply strokeLoop_more_fuel, IH, Hloop.
Qed.

End StrokeLoop.

(** X11: a stroke ends, and it draws at most one dot per pixel of length.
    When the length computed for a segment is at most [N] (below 2^53),
    the loop of [_drawPencilStroke] exits after at most [N] iterations,
    each of which draws one dot and calls [Math.random] nine times; in
    particular a segment of length zero draws nothing. *)
Theorem stroke_draws_at_most_one_dot_per_pixel `{MathHost} (random : oracle)
    (o : PencilCanvas.options) (s : PencilCanvas.segment) (n N : nat) :
  Z.of_nat N < 2 ^ 53 →
  Num.leb (PencilCanvas.strokeLength s) (Num.of_Z (Z.of_nat N)) = true →
  ∃ dots, (length dots <= N)%nat
          ∧ ∀ fuel, (N <= fuel)%nat →
              PencilCanvas._drawPencilStroke random fuel o s n
              = Some (dots, (n + 9 * length dots)%nat).
Proof.
  intros HN Hdist. unfold PencilCanvas._drawPencilStroke.
  destruct (strokeLoop_exits random N o s (PencilCanvas.strokeLength s)
              (PencilCanvas.strokeStep o (PencilCanvas.strokeLength s)) N
              0%nat (Num.of_Z 0) n []) as (dots & Hloop & Hlen);
    try done; try lia.
  { apply strokeStep_at_least_one. }
  { right. reflexivity. }
  exists dots. split; [lia |]. intros fuel Hfuel.
  eapply strokeLoop_fuel; [exact Hfuel | exact Hloop].
Qed.

Section Channels.
Import PencilCanvas NumFacts ExactFacts.

Lemma elem_of_allUnits c : c ∈ allUnits.
Proof.
  unfold allUnits. apply list_elem_of_fmap. exists (nat_of_ascii c). split.
  - symmetry. apply ascii_nat_embedding.
  - apply elem_of_seq. pose proof (nat_ascii_bounded c). lia.
Qed.

Lemma twoDigitsParse_all :
  forallb (λ a, forallb (twoDigitsParse a) allUnits) allUnits = true.
Proof. vm_compute. reflexivity. Qed.

(** Two radix-16 digits are read as an integer between 0 and 255. *)
Lemma parseInt16_two_digits a b :
  isHexDigit a = true → isHexDigit b = true →
  isByte (parseInt16 (String a (String b EmptyString))).
Proof.
  intros Ha Hb. pose proof twoDigitsParse_all as Hall.
  rewrite forallb_forall in Hall.
  specialize (Hall a ltac:(apply list_elem_of_In, elem_of_allUnits)).
  rewrite forallb_forall in Hall.
  specialize (Hall b ltac:(apply list_elem_of_In, elem_of_allUnits)).
  unfold twoDigitsParse in Hall. rewrite Ha, Hb in Hall. cbn [andb] in Hall.
  destruct (parseInt16 _) as [| | | [v [| |]]]; try discriminate.
  exists v. split; [reflexivity | lia].
Qed.

(** The three channels of a colour written #RRGGBB. *)
Lemma isHexColor_channels c :
  isHexColor c = true →
  isByte (parseInt16 (substring 1 3 c))
  ∧ isByte (parseInt16 (substring 3 5 c))
  ∧ isByte (parseInt16 (substring 5 7 c)).
Proof.
  destruct c as [| h c]; [discriminate |]. cbn [isHexColor].
  destruct h as [[] [] [] [] [] [] [] []]; try discriminate.
  destruct c as [| d1 [| d2 [| d3 [| d4 [| d5 [| d6 [| d7 c]]]]]]]; try discriminate.
  cbn [String.length Nat.eqb andb list_ascii_of_string forallb].
  rewrite !andb_true_iff. intros (H1 & H2 & H3 & H4 & H5 & H6 & _).
  repeat split; apply parseInt16_two_digits; assumption.
Qed.

(** [Math.max(0, Math.min(255, v))] of a number is between 0 and 255. *)
Lemma clampChannel_range v :
  v ≠ NaN →
  ∃ q, clampChannel v = Fin q ∧ (0 <= q)%Q ∧ (q <= 255)%Q.
Proof.
  intros Hv. unfold clampChannel, Num.of_Z.
  destruct v as [| | | x]; [done | | |]; cbn.
  - exists 255%Q. split; [reflexivity | split; discriminate].
  - exists 0%Q. split; [reflexivity | split; discriminate].
  - destruct (Qle_bool (inject_Z 255) x) eqn:E1; cbn.
    + exists 255%Q. split; [reflexivity | split; discriminate].
    + apply not_true_iff_false in E1. rewrite Qle_bool_iff in E1.
      destruct (Qle_bool x (inject_Z 0)) eqn:E2; cbn.
      * exists 0%Q. split; [reflexivity | split; discriminate].
      * apply not_true_iff_false in E2. rewrite Qle_bool_iff in E2.
        exists x. split; [reflexivity |]. change (inject_Z 0) with 0%Q in *.
        change (inject_Z 255) with 255%Q in *. lra.
Qed.

Lemma Math_round_byte q : (0 <= q)%Q → (q <= 255)%Q → isByte (Num.Math_round (Fin q)).
Proof.
  intros Hlo Hhi. exists (Qfloor (q + (1 # 2))). split; [reflexivity |].
  split.
  - change 0 with (Qfloor 0). apply Qfloor_resp_le. lra.
  - change 255 with (Qfloor (255 + (1 # 2))). apply Qfloor_resp_le. lra.
Qed.

(** A jittered channel is an integer between 0 and 255. *)
Lemma jitter_byte r u :
  isByte r → unitInterval u →
  isByte (Num.Math_round
            (clampChannel
               (Num.add r (Num.mul (Num.sub u (Num.literal 5 10)) (Num.of_Z 15))))).
Proof.
  intros (z & -> & _) (q & -> & _).
  destruct (clampChannel_range
              (Num.add (Num.of_Z z)
                 (Num.mul (Num.sub (Fin q) (Num.literal 5 10)) (Num.of_Z 15))))
    as (c & -> & Hlo & Hhi).
  - change (Num.literal 5 10) with (Fin (1 # 2)). cbn [Num.sub].
    destruct (JS.fl (q - (1 # 2))) as [| | | d] eqn:Ed.
    + by apply fl_not_NaN in Ed.
    + cbn. done.
    + cbn. done.
    + cbn [Num.mul Num.of_Z].
      destruct (JS.fl (d * inject_Z 15)) as [| | | m] eqn:Em; cbn; try done.
      * by apply fl_not_NaN in Em.
      * apply fl_not_NaN.
  - by apply Math_round_byte.
Qed.

End Channels.

(** X12: the colour of every dot is a valid colour.  When the colour of the
    pencil is written #RRGGBB and [Math.random] returns numbers of
    [0, 1), the three channels that an iteration of [_drawPencilStroke]
    writes into [strokeStyle] are integers between 0 and 255. *)
Theorem dot_channels_are_bytes `{MathHost} (random : oracle)
    (o : PencilCanvas.options) (s : PencilCanvas.segment) (dist d : number) (n : nat) :
  isHexColor (PencilCanvas.color o) = true →
  (∀ k, unitInterval (random k)) →
  isByte (PencilCanvas.red (PencilCanvas.drawDot random o s dist d n))
  ∧ isByte (PencilCanvas.green (PencilCanvas.drawDot random o s dist d n))
  ∧ isByte (PencilCanvas.blue (PencilCanvas.drawDot random o s dist d n)).
Proof.
  intros Hcolor Hrandom.
  destruct (isHexColor_channels _ Hcolor) as (Hr & Hg & Hb).
  unfold PencilCanvas.drawDot.
  cbn [PencilCanvas.red PencilCanvas.green PencilCanvas.blue].
  repeat split; apply jitter_byte; auto.
Qed.

Lemma stroke_draws_at_most_one_dot_per_pixel_witness :
  ∃ dots, (length dots <= 5)%nat
          ∧ ∀ fuel, (5 <= fuel)%nat →
              PencilCanvas._drawPencilStroke PencilExamples.alternating fuel
                (PencilCanvas.opts PencilExamples.timelinePencil)
                PencilExamples.threeFour 0
              = Some (dots, (0 + 9 * length dots)%nat).
Proof.
  apply (stroke_draws_at_most_one_dot_per_pixel PencilExamples.alternating
           (PencilCanvas.opts PencilExamples.timelinePencil)
           PencilExamples.threeFour 0 5).
  - reflexivity.
  - vm_compute. reflexivity.
Defined.

Lemma dot_channels_are_bytes_witness :
  isByte (PencilCanvas.red
            (PencilCanvas.drawDot PencilExamples.alternating
               (PencilCanvas.opts PencilExamples.timelinePencil)
               PencilExamples.threeFour (Num.of_Z 5) (Num.of_Z 1) 0))
  ∧ isByte (PencilCanvas.green
              (PencilCanvas.drawDot PencilExamples.alternating
                 (PencilCanvas.opts PencilExamples.timelinePencil)
                 PencilExamples.threeFour (Num.of_Z 5) (Num.of_Z 1) 0))
  ∧ isByte (PencilCanvas.blue
              (PencilCanvas.drawDot PencilExamples.alternating
                 (PencilCanvas.opts PencilExamples.timelinePencil)
                 PencilExamples.threeFour (Num.of_Z 5) (Num.of_Z 1) 0)).
Proof.
  apply dot_channels_are_bytes; [reflexivity |].
  intros k. unfold PencilExamples.alternating.
  destruct (Nat.even k); eexists; (split; [reflexivity | split; [discriminate | reflexivity]]).
Defined.
(* ===================================================================== *)
(** ** The top timeline *)
(* ===================================================================== *)

Section TopTimelineFacts.
Context `{Host} `{Calendar}.
Import NumFacts ExactFacts IntegerFacts.

(** The end of the window is drawn at the right end of the base line,
    whatever the width of the canvas. *)
Lemma xOf_window_end_width ts te r w :
  Num.sub (Num.of_Z te) (Num.of_Z ts) = Fin r → (0 < r)%Q →
  0 <= w → margin_left + w < 2 ^ 53 →
  xOf (Some te) (Some ts) (Fin r) (Num.of_Z w) = Num.of_Z (margin_left + w).
Proof.
  intros Hsub Hr Hw Hsmall. unfold xOf. cbn [valueOf]. rewrite Hsub.
  cbn [Num.div]. destruct (Qcompare_spec r 0) as [E | E | E]; try lra.
  rewrite (fl_Qeq (r / r) 1) by (field; lra).
  replace (JS.fl 1) with (Fin 1) by (vm_compute; reflexivity).
  unfold Num.of_Z. cbn [Num.mul].
  rewrite (fl_Qeq (1 * inject_Z w) (inject_Z w)) by ring.
  rewrite fl_inject_Z by (unfold margin_left in *; lia).
  cbn [Num.add]. rewrite <- inject_Z_plus. apply fl_inject_Z.
  unfold margin_left in *. lia.
Qed.

Lemma withinWindow_Some d ts te :
  withinWindow d (Some ts) (Some te) = true → ∃ v, d = Some v ∧ ts <= v <= te.
Proof.
  unfold withinWindow. rewrite andb_true_iff. intros [Hlo Hhi].
  destruct d as [v |]; [| discriminate]. exists v. split; [reflexivity |].
  cbn [valueOf] in *. apply leb_of_Z in Hlo, Hhi. lia.
Qed.

(** A tick is only drawn for a date inside the window. *)
Lemma drawYear_ticks startDate endDate totalDuration width year m x :
  m ∈ drawYear startDate endDate totalDuration width year → tickX m = Some x →
  ∃ d, withinWindow d startDate endDate = true
       ∧ x = xOf d startDate totalDuration width.
Proof.
  unfold drawYear. rewrite elem_of_app. intros [Hm | Hm] Hx.
  - destruct (withinWindow _ _ _) eqn:E; [| by apply elem_of_nil in Hm].
    apply list_elem_of_singleton in Hm as ->. cbn in Hx. injection Hx as <-. eauto.
  - apply list_elem_of_bind in Hm as (quarter & Hm & _).
    destruct (withinWindow _ _ _) eqn:E; cbn [andb] in Hm; [| by apply elem_of_nil in Hm].
    destruct (1 <? quarter); [| by apply elem_of_nil in Hm].
    apply list_elem_of_singleton in Hm as ->. cbn in Hx. injection Hx as <-. eauto.
Qed.


End TopTimelineFacts.

(** X13: the ticks of the top timeline lie on its base line.  In a window of
    positive duration, every year tick and every quarter tick drawn by
    [drawTopTimeline] has its abscissa between the left margin and the
    right margin of the canvas, whatever the calendar of the engine. *)
Theorem top_timeline_ticks_within_margins `{Host} `{Calendar}
    (displayWidth : Z) (data : Data.t) (ts te : Z) :
  window data ts te → ts < te →
  margin_left + margin_right < displayWidth < 2 ^ 53 →
  Forall (λ m, ∀ x, tickX m = Some x →
                    Num.leb (Num.of_Z margin_left) x = true
                    ∧ Num.leb x (Num.of_Z (displayWidth - margin_right)) = true)
         (drawTopTimeline displayWidth data).
Proof.
  intros [Hs He] Hlt Hwidth. unfold drawTopTimeline. rewrite Hs, He.
  constructor; [intros x [=] |].
  apply Forall_forall. intros m Hm x Hx.
  apply list_elem_of_bind in Hm as (year & Hm & _).
  destruct (drawYear_ticks _ _ _ _ _ _ _ Hm Hx) as (d & Hd & ->).
  apply withinWindow_Some in Hd as (v & -> & Hv).
  cbn [valueOf].
  destruct (duration_positive ts te) as (r & Hr & Hrpos);
    [eapply parseDate_range, Hs | eapply parseDate_range, He | exact Hlt |].
  rewrite Hr. set (w := displayWidth - margin_left - margin_right).
  assert (Hw : (0 < inject_Z w)%Q).
  { change 0%Q with (inject_Z 0). rewrite <- Zlt_Qlt.
    unfold w, margin_left, margin_right in *. lia. }
  pose proof (xOf_window_start ts r (inject_Z w) Hrpos) as Hleft.
  pose proof (xOf_window_end_width ts te r w Hr Hrpos) as Hright.
  change (Num.of_Z w) with (Fin (inject_Z w)) in *.
  split.
  - replace (Num.of_Z margin_left) with (xOf (Some ts) (Some ts) (Fin r) (Fin (inject_Z w)))
      by (rewrite Hleft; vm_compute; reflexivity).
    apply xOf_mono; [exact Hrpos | exact Hw | lia].
  - replace (displayWidth - margin_right) with (margin_left + w) by (unfold w, margin_left, margin_right; lia).
    rewrite <- Hright by (unfold w, margin_left, margin_right in *; lia).
    apply xOf_mono; [exact Hrpos | exact Hw | lia].
Qed.

Lemma top_timeline_ticks_within_margins_witness :
  Forall (λ m, ∀ x, tickX m = Some x →
                    Num.leb (Num.of_Z margin_left) x = true
                    ∧ Num.leb x (Num.of_Z (1200 - margin_right)) = true)
         (drawTopTimeline 1200 Examples.centuryData).
Proof.
  apply (top_timeline_ticks_within_margins 1200 Examples.centuryData
           946684800000 4102444800000).
  - split; vm_compute; reflexivity.
  - lia.
  - unfold margin_left, margin_right. lia.
Defined.


(* ===================================================================== *)
(** ** Epic boxes *)
(* ===================================================================== *)

Section EpicPressure.
Context `{Host}.
Import NumFacts ExactFacts.

(** The pressure of every epic of the scene is a number other than zero. *)
Lemma scene_epic_pressure data scene :
  layout data = Ok scene →
  Forall (λ epic, Num.truthy (PEpic.pencilPressure epic) = true) (Scene.epics scene).
Proof.
  rewrite layout_unfold.
  destruct (mapM _ (array (Data.projectLines data))) as [standalone |];
    cbn [mbind result_bind]; [| discriminate].
  destruct (forEachM _ _ _) as [[allProjects epics] |] eqn:Ef;
    cbn [mbind result_bind]; [| discriminate].
  apply (resolve_frame
           (λ _ epics, Forall (λ epic, Num.truthy (PEpic.pencilPressure epic) = true) epics)).
  - auto.
  - intros heap es lo hi e Hes. apply Forall_alter; [exact Hes |].
    intros epic _ Hepic. exact Hepic.
  - apply (forEachM_invariant _
             (λ st, Forall (λ epic, Num.truthy (PEpic.pencilPressure epic) = true) st.2)
             (λ _, True)) in Ef; [exact Ef | | apply Forall_true; auto | constructor].
    clear. intros [allProjects epics] [epicIndex epic] st' _ Hst. cbn [snd] in Hst.
    unfold processEpic.
    destruct (Epic.projectLines epic) as [projectLines |]; [| by intros [= <-]].
    destruct (mapM _ projectLines) as [epicProjects |];
      cbn [mbind result_bind]; [| discriminate].
    destruct (0 <? length epicProjects)%nat; intros [= <-]; cbn [snd]; [| exact Hst].
    apply Forall_app. split; [exact Hst |]. constructor; [| constructor].
    cbn [PEpic.pencilPressure]. unfold epicPressure.
    apply or_else_truthy, num_or_truthy, defaultPressure_truthy.
Qed.

(** The product of two numbers other than zero is a number. *)
Lemma mul_truthy_not_NaN p k :
  Num.truthy p = true → Num.truthy k = true → Num.mul p k ≠ NaN.
Proof.
  assert (Hsign : ∀ c, Qeq_bool c 0 = false →
            match (c ?= 0)%Q with Eq => NaN | Gt => PosInf | Lt => NegInf end ≠ NaN
            ∧ match (c ?= 0)%Q with Eq => NaN | Gt => NegInf | Lt => PosInf end ≠ NaN).
  { intros c Hc. apply Qeq_bool_neq in Hc.
    destruct (Qcompare_spec c 0); [done | split; discriminate | split; discriminate]. }
  destruct p as [| | | q], k as [| | | c]; cbn; try discriminate;
    rewrite ?negb_true_iff; intros Hp Hk;
    try (by apply Hsign); try apply fl_not_NaN.
Qed.

End EpicPressure.

(** X15: an epic box is drawn with visible strokes whatever pressure is
    configured.  For every epic of a laid-out scene, the fill that
    [drawEpicGrouping] draws has an alpha of at least 0.1, and each of the
    four pencil lines of its outline has a thickness of at least 0.5 and a
    pressure of at least 0.3; none of them is [NaN]. *)
Theorem epic_box_strokes_have_a_floor `{Host} (data : Data.t) (scene : Scene.t)
    (epic : PEpic.t) :
  layout data = Ok scene → epic ∈ Scene.epics scene →
  Num.leb (Num.literal 1 10) (fillAlpha (drawEpicGrouping epic).1) = true
  ∧ length (drawEpicGrouping epic).2 = 4%nat
  ∧ Forall (λ s, Num.leb (Num.literal 5 10) (strokeThickness s) = true
                 ∧ Num.leb (Num.literal 3 10) (strokePressure s) = true)
           (drawEpicGrouping epic).2.
Proof.
  intros Hlayout Hepic.
  pose proof (scene_epic_pressure data scene Hlayout) as Hall.
  rewrite Forall_forall in Hall. specialize (Hall epic Hepic).
  unfold drawEpicGrouping, drawPencilBox, drawPencilCrosshatch, drawPencilBoxOutline.
  cbn [fst snd fillAlpha length].
  assert (Hfloor : ∀ n d m e, Num.truthy (Num.literal m e) = true →
            Num.leb (Num.literal n d)
                    (Num.max2 (Num.literal n d)
                              (Num.mul (PEpic.pencilPressure epic) (Num.literal m e)))
            = true).
  { intros n d m e Hme. apply max2_ge; [apply NumFacts.fl_not_NaN |].
    apply mul_truthy_not_NaN; assumption. }
  split; [apply Hfloor; reflexivity |]. split; [reflexivity |].
  assert (Hthick :
    Num.leb (Num.literal 5 10)
            (Num.max2 (Num.literal 5 10)
                      (Num.mul (PEpic.pencilPressure epic) (Num.of_Z 2))) = true).
  { apply max2_ge; [apply NumFacts.fl_not_NaN |].
    apply mul_truthy_not_NaN; [assumption | reflexivity]. }
  repeat constructor; cbn [strokeThickness strokePressure];
    try exact Hthick; apply Hfloor; reflexivity.
Qed.

Lemma epic_box_strokes_have_a_floor_witness :
  ∃ scene epic,
    layout PressureExamples.pressureData = Ok scene
    ∧ Scene.epics scene = [epic]
    ∧ Num.leb (Num.literal 1 10) (fillAlpha (drawEpicGrouping epic).1) = true
    ∧ length (drawEpicGrouping epic).2 = 4%nat
    ∧ Forall (λ s, Num.leb (Num.literal 5 10) (strokeThickness s) = true
                   ∧ Num.leb (Num.literal 3 10) (strokePressure s) = true)
             (drawEpicGrouping epic).2.
Proof.
  eexists. eexists. split; [vm_compute; reflexivity |]. split; [reflexivity |].
  eapply (epic_box_strokes_have_a_floor PressureExamples.pressureData).
  - vm_compute. reflexivity.
  - apply list_elem_of_here.
Defined.
(* ===================================================================== *)
(** ** The lanes of the members of an epic *)
(* ===================================================================== *)

Section EpicLanes.
Context `{Host}.

Lemma foldl_min_least v ys : Forall (λ y, v <= y) ys → foldl Z.min v ys = v.
Proof.
  induction 1 as [| y ys Hy _ IH]; [done |]. cbn [foldl].
  by rewrite Z.min_l.
Qed.

(** The least and the greatest of lanes in arithmetic progression. *)
Lemma lanes_min_max a n :
  Math_min_Z ((λ i, a + lineHeight * Z.of_nat i) <$> seq 0 (S n)) = Some a
  ∧ Math_max_Z ((λ i, a + lineHeight * Z.of_nat i) <$> seq 0 (S n))
    = Some (a + lineHeight * Z.of_nat n).
Proof.
  split.
  - cbn [seq fmap list_fmap Math_min_Z]. f_equal.
    rewrite Z.mul_0_r, Z.add_0_r. apply foldl_min_least.
    apply Forall_fmap, Forall_forall. intros i _. cbn. unfold lineHeight. lia.
  - induction n as [| n IH]; [cbn; f_equal; lia |].
    rewrite seq_S, fmap_app. cbn [Nat.add fmap list_fmap].
    change (seq 0 (S n)) with (0%nat :: seq 1 n) in *.
    cbn [fmap list_fmap Math_max_Z app] in *.
    rewrite foldl_app. cbn [foldl]. injection IH as ->.
    f_equal. unfold lineHeight. lia.
Qed.

(** Reading a function that is known at every position of a list. *)
Lemma omap_positions {A B} (f : A → option B) (g : nat → B) (l : list A) k :
  (∀ i a, l !! i = Some a → f a = Some (g (k + i)%nat)) →
  omap f l = g <$> seq k (length l).
Proof.
  revert k. induction l as [| a l IH]; intros k Hf; [done |].
  cbn [omap list_omap length seq fmap list_fmap].
  rewrite (Hf 0%nat a eq_refl), Nat.add_0_r. f_equal.
  apply IH. intros i b Hi. rewrite (Hf (S i) b Hi). do 2 f_equal. lia.
Qed.

(** Placing one epic: its members get consecutive lanes from the cursor
    on, its bounds become the first and the last of them, and nothing else
    changes. *)
Lemma placeEpic_lanes heap epics projectY placed e epic :
  epics !! e = Some epic →
  PEpic.projects epic ≠ [] → NoDup (PEpic.projects epic) →
  Forall (λ r, (r < length heap)%nat) (PEpic.projects epic) →
  ∃ heap',
    placeEpic (heap, epics, projectY, placed) e
    = (heap',
       alter (PEpic.set_bounds
                (Some projectY)
                (Some (projectY
                       + lineHeight * (Z.of_nat (length (PEpic.projects epic)) - 1))))
             e epics,
       projectY + lineHeight * Z.of_nat (length (PEpic.projects epic)),
       placed ++ PEpic.projects epic)
    ∧ length heap' = length heap
    ∧ (∀ r, r ∉ PEpic.projects epic → heap' !! r = heap !! r)
    ∧ (∀ i r, PEpic.projects epic !! i = Some r →
              yOf heap' r = Some (projectY + lineHeight * Z.of_nat i)).
Proof.
  intros He Hne Hnodup Hvalid. unfold placeEpic. rewrite He.
  destruct (PEpic.projects epic) as [| r0 rs] eqn:Ers; [done |].
  change (0 <? length (r0 :: rs))%nat with true. cbn iota.
  rewrite foldl_placeEpicProject.
  destruct (foldl_placeProject (r0 :: rs) heap projectY placed)
    as (heap' & -> & Hlen & Hframe & Hslot).
  assert (Hlanes : ∀ i r, (r0 :: rs) !! i = Some r →
                          yOf heap' r = Some (projectY + lineHeight * Z.of_nat i)).
  { intros i r Hi. apply (Hslot i r Hi).
    - intros Hin. apply list_elem_of_lookup in Hin as [j Hj].
      rewrite lookup_drop in Hj.
      pose proof (NoDup_lookup _ _ _ _ Hnodup Hi Hj). lia.
    - rewrite Forall_forall in Hvalid. apply Hvalid, list_elem_of_lookup. eauto. }
  exists heap'. split; [| auto].
  rewrite (omap_positions (λ r, PProject.y <$> heap' !! r)
             (λ i, projectY + lineHeight * Z.of_nat i) (r0 :: rs) 0%nat)
    by (intros i r Hi; exact (Hlanes i r Hi)).
  cbn [length]. destruct (lanes_min_max projectY (length rs)) as [-> ->].
  repeat f_equal. lia.
Qed.

(** Placing any epic: only its own members and its own bounds change. *)
Lemma placeEpic_others heap epics projectY placed e :
  ∃ heap' epics' projectY' placed',
    placeEpic (heap, epics, projectY, placed) e = (heap', epics', projectY', placed')
    ∧ length heap' = length heap
    ∧ PEpic.projects <$> epics' = PEpic.projects <$> epics
    ∧ (∀ e', e' ≠ e → epics' !! e' = epics !! e')
    ∧ (∀ r, (∀ epic, epics !! e = Some epic → r ∉ PEpic.projects epic) →
            heap' !! r = heap !! r).
Proof.
  unfold placeEpic. destruct (epics !! e) as [epic |] eqn:He.
  - destruct (0 <? length (PEpic.projects epic))%nat.
    + rewrite foldl_placeEpicProject.
      destruct (foldl_placeProject (PEpic.projects epic) heap projectY placed)
        as (heap' & -> & Hlen & Hframe & _).
      eexists heap', _, _, _. split; [reflexivity |]. split; [exact Hlen |].
      split; [| split].
      * rewrite (list_fmap_alter PEpic.projects _ id) by (apply Forall_true; done).
        by apply list_alter_id.
      * intros e' Hne. by apply list_lookup_alter_ne.
      * intros r Hr. apply Hframe, (Hr epic eq_refl).
    + eexists heap, epics, _, _. repeat split; auto.
  - eexists heap, epics, _, _. repeat split; auto.
Qed.

(** The lanes of an epic are not affected by what leaves its members and
    its bounds alone. *)
Lemma onLanes_frame heap heap' epic lo :
  (∀ r, r ∈ PEpic.projects epic → heap' !! r = heap !! r) →
  onLanes heap epic lo → onLanes heap' epic lo.
Proof.
  intros Hsame (Hmin & Hmax & Hlanes). split; [exact Hmin |]. split; [exact Hmax |].
  intros i r Hi. unfold yOf. rewrite Hsame by (apply list_elem_of_lookup; eauto).
  exact (Hlanes i r Hi).
Qed.

Lemma separateMembers_lookup size members e l :
  separateMembers size members → members !! e = Some l →
  l ≠ [] ∧ NoDup l ∧ Forall (λ r, (r < size)%nat) l.
Proof.
  intros [Hall _] He. rewrite Forall_forall in Hall.
  apply Hall, list_elem_of_lookup. eauto.
Qed.

(** The epics of one group, with an eye on the epic at index [t]: when its
    turn comes its members are put on consecutive lanes, and the turns of
    the other epics do not disturb them. *)
Lemma foldl_placeEpic_target t M es : NoDup es → ∀ heap epics projectY placed,
  separateMembers (length heap) (PEpic.projects <$> epics) →
  (PEpic.projects <$> epics) !! t = Some M →
  ∃ heap' epics' projectY' placed',
    foldl placeEpic (heap, epics, projectY, placed) es
    = (heap', epics', projectY', placed')
    ∧ length heap' = length heap
    ∧ PEpic.projects <$> epics' = PEpic.projects <$> epics
    ∧ (t ∈ es → ∃ epic lo, epics' !! t = Some epic ∧ onLanes heap' epic lo)
    ∧ (t ∉ es → epics' !! t = epics !! t ∧ ∀ r, r ∈ M → heap' !! r = heap !! r).
Proof.
  induction 1 as [| e es Hfresh Hnodup IH]; intros heap epics projectY placed Hsep Ht.
  - eexists heap, epics, _, _. split; [reflexivity |]. repeat split; auto.
    intros Hin. by apply elem_of_nil in Hin.
  - cbn [foldl].
    destruct (placeEpic_others heap epics projectY placed e)
      as (heap1 & epics1 & projectY1 & placed1 & Hstep & Hlen1 & Hmem1 & Hother1 & Hframe1).
    rewrite Hstep.
    destruct (IH heap1 epics1 projectY1 placed1) as
      (heap2 & epics2 & projectY2 & placed2 & Hrest & Hlen2 & Hmem2 & Hin2 & Hout2).
    { by rewrite Hlen1, Hmem1. }
    { by rewrite Hmem1. }
    eexists heap2, epics2, _, _. split; [exact Hrest |].
    split; [congruence |]. split; [congruence |].
    destruct (decide (e = t)) as [-> | Hne].
    + (* the turn of the epic itself *)
      split; [| intros Hnot; exfalso; apply Hnot, list_elem_of_here].
      intros _. destruct (Hout2 Hfresh) as [Hsame Hheap].
      rewrite list_lookup_fmap in Ht.
      destruct (epics !! t) as [epic |] eqn:Eepic; [| discriminate].
      injection Ht as <-.
      destruct (separateMembers_lookup _ _ t (PEpic.projects epic) Hsep)
        as (Hnonempty & Hdistinct & Hvalid);
        [by rewrite list_lookup_fmap, Eepic |].
      destruct (placeEpic_lanes heap epics projectY placed t epic Eepic
                  Hnonempty Hdistinct Hvalid)
        as (heap1' & Hstep' & _ & _ & Hlanes).
      rewrite Hstep in Hstep'. injection Hstep' as -> -> _ _.
      eexists _, projectY. rewrite Hsame, list_lookup_alter_eq, Eepic.
      split; [reflexivity |].
      apply (onLanes_frame heap1'); [exact Hheap |].
      split; [reflexivity |]. split; [reflexivity |]. exact Hlanes.
    + (* the turn of another epic *)
      assert (Hkeep : ∀ r, r ∈ M → heap1 !! r = heap !! r).
      { intros r Hr. apply Hframe1. intros epic Eepic Hin.
        destruct Hsep as [_ Hdisjoint].
        apply (Hdisjoint t e M (PEpic.projects epic) r); auto.
        unfold ref in *. by rewrite list_lookup_fmap, Eepic. }
      split.
      * intros Hin. apply elem_of_cons in Hin as [-> | Hin]; [done |].
        exact (Hin2 Hin).
      * intros Hnot. apply not_elem_of_cons in Hnot as [_ Hnot].
        destruct (Hout2 Hnot) as [Hsame Hheap]. split.
        -- rewrite Hsame. apply Hother1. congruence.
        -- intros r Hr. rewrite (Hheap r Hr). exact (Hkeep r Hr).
Qed.

(** One theme block, with an eye on the epic at index [t]. *)
Lemma placeTheme_target t M themeGroups heap epics currentY themeData theme st' :
  NoDup (Group.epics (default Group.empty (themeGroups !! theme))) →
  separateMembers (length heap) (PEpic.projects <$> epics) →
  (PEpic.projects <$> epics) !! t = Some M →
  placeTheme themeGroups (heap, epics, currentY, themeData) theme = Ok st' →
  length st'.1.1.1 = length heap
  ∧ PEpic.projects <$> st'.1.1.2 = PEpic.projects <$> epics
  ∧ (t ∈ Group.epics (default Group.empty (themeGroups !! theme)) →
     ∃ epic lo, st'.1.1.2 !! t = Some epic ∧ onLanes st'.1.1.1 epic lo)
  ∧ (t ∉ Group.epics (default Group.empty (themeGroups !! theme)) →
     (∀ r, r ∈ M → r ∉ Group.projects (default Group.empty (themeGroups !! theme))) →
     st'.1.1.2 !! t = epics !! t ∧ ∀ r, r ∈ M → st'.1.1.1 !! r = heap !! r).
Proof.
  intros Hnodup Hsep Ht. unfold placeTheme.
  destruct (inherited theme); [discriminate |].
  set (group := default Group.empty (themeGroups !! theme)) in *.
  destruct (foldl_placeProject (Group.projects group) heap (currentY + 20) [])
    as (heap1 & -> & Hlen1 & Hframe1 & _).
  destruct (foldl_placeEpic_target t M (Group.epics group) Hnodup heap1 epics
              (currentY + 20 + lineHeight * Z.of_nat (length (Group.projects group)))
              ([] ++ Group.projects group))
    as (heap2 & epics2 & projectY2 & placed2 & -> & Hlen2 & Hmem2 & Hin2 & Hout2).
  { by rewrite Hlen1. }
  { exact Ht. }
  intros [= <-]. cbn [fst snd].
  split; [congruence |]. split; [exact Hmem2 |]. split; [exact Hin2 |].
  intros Hnot Havoid. destruct (Hout2 Hnot) as [Hsame Hheap].
  split; [exact Hsame |]. intros r Hr.
  rewrite (Hheap r Hr). apply Hframe1, Havoid, Hr.
Qed.

(** The whole theme loop, with an eye on the epic at index [t] whose
    group key is [key] and whose members are all filed under [key]. *)
Lemma forEachM_placeTheme_target t M key themeGroups themes :
  (∀ theme, NoDup (Group.epics (default Group.empty (themeGroups !! theme)))) →
  (∀ theme, t ∈ Group.epics (default Group.empty (themeGroups !! theme)) ↔ theme = key) →
  (∀ theme r, r ∈ M →
              r ∈ Group.projects (default Group.empty (themeGroups !! theme)) →
              theme = key) →
  NoDup themes →
  ∀ heap epics currentY themeData st',
    separateMembers (length heap) (PEpic.projects <$> epics) →
    (PEpic.projects <$> epics) !! t = Some M →
    forEachM (placeTheme themeGroups) (heap, epics, currentY, themeData) themes = Ok st' →
    (key ∈ themes → ∃ epic lo, st'.1.1.2 !! t = Some epic ∧ onLanes st'.1.1.1 epic lo)
    ∧ (key ∉ themes →
       st'.1.1.2 !! t = epics !! t ∧ ∀ r, r ∈ M → st'.1.1.1 !! r = heap !! r).
Proof.
  intros Hnodup Hturn Hfiled.
  induction 1 as [| theme themes Hfresh Hthemes IH];
    intros heap epics currentY themeData st' Hsep Ht; cbn [forEachM].
  - intros [= <-]. cbn [fst snd]. split; [| auto].
    intros Hin. by apply elem_of_nil in Hin.
  - destruct (placeTheme themeGroups _ theme) as [[[[heap1 epics1] currentY1] themeData1] |]
      eqn:E1; cbn [mbind result_bind]; [| discriminate].
    intros Hrest.
    destruct (placeTheme_target t M _ _ _ _ _ _ _ (Hnodup theme) Hsep Ht E1)
      as (Hlen1 & Hmem1 & Hin1 & Hout1). cbn [fst snd] in *.
    destruct (IH heap1 epics1 currentY1 themeData1 st') as [Hin2 Hout2];
      [by rewrite Hlen1, Hmem1 | by rewrite Hmem1 | exact Hrest |].
    destruct (decide (theme = key)) as [-> | Hne].
    + split; [| intros Hnot; exfalso; apply Hnot, list_elem_of_here].
      intros _. destruct (Hin1 (proj2 (Hturn key) eq_refl)) as (epic & lo & Hepic & Hlanes).
      destruct (Hout2 Hfresh) as [Hsame Hheap].
      exists epic, lo. split; [by rewrite Hsame |].
      apply (onLanes_frame heap1); [| exact Hlanes].
      intros r Hr. apply Hheap.
      assert (PEpic.projects epic = M) as <-; [| exact Hr].
      assert (Hlook : (PEpic.projects <$> epics1) !! t = Some (PEpic.projects epic))
        by (by rewrite list_lookup_fmap, Hepic).
      rewrite Hmem1 in Hlook. congruence.
    + assert (Hnot : t ∉ Group.epics (default Group.empty (themeGroups !! theme))).
      { intros Hin. apply Hne, Hturn, Hin. }
      destruct (Hout1 Hnot) as [Hsame1 Hheap1].
      { intros r Hr Hin. apply Hne. exact (Hfiled theme r Hr Hin). }
      split.
      * intros Hin. apply elem_of_cons in Hin as [-> | Hin]; [done |].
        exact (Hin2 Hin).
      * intros Hout. apply not_elem_of_cons in Hout as [_ Hout].
        destruct (Hout2 Hout) as [Hsame2 Hheap2]. split; [by rewrite Hsame2 |].
        intros r Hr. rewrite (Hheap2 r Hr). exact (Hheap1 r Hr).
Qed.

End EpicLanes.

Section EpicGroups.
Context `{Host}.

Lemma forEachM_groupProject_epics l : ∀ themeGroups themeGroups' theme,
  forEachM groupProject themeGroups l = Ok themeGroups' →
  Group.epics (default Group.empty (themeGroups' !! theme))
  = Group.epics (default Group.empty (themeGroups !! theme)).
Proof.
  induction l as [| [r p] l IH]; intros themeGroups themeGroups' theme;
    cbn [forEachM].
  - by intros [= <-].
  - rewrite groupProject_step.
    destruct (inherited (groupKey p)); cbn [mbind result_bind]; [discriminate |].
    intros Hrest. rewrite (IH _ _ theme Hrest).
    destruct (decide (groupKey p = theme)) as [-> | Hne].
    + rewrite lookup_insert_eq. reflexivity.
    + by rewrite lookup_insert_ne.
Qed.

Lemma forEachM_groupEpic_epics l : ∀ themeGroups themeGroups' theme,
  forEachM groupEpic themeGroups l = Ok themeGroups' →
  Group.epics (default Group.empty (themeGroups' !! theme))
  = Group.epics (default Group.empty (themeGroups !! theme))
    ++ (filter (λ entry, epicKey entry.2 = theme) l).*1.
Proof.
  induction l as [| [r e] l IH]; intros themeGroups themeGroups' theme;
    cbn [forEachM].
  - intros [= <-]. by rewrite app_nil_r.
  - rewrite groupEpic_step. fold (epicKey e).
    destruct (inherited (epicKey e)); cbn [mbind result_bind]; [discriminate |].
    intros Hrest. rewrite (IH _ _ theme Hrest). rewrite filter_cons. cbn [snd].
    destruct (decide (epicKey e = theme)) as [-> | Hne].
    + rewrite lookup_insert_eq. cbn. by rewrite <- app_assoc.
    + by rewrite lookup_insert_ne.
Qed.

(** The epic references of a group: the indices of the epics filed under
    its key, in order. *)
Lemma groupByTheme_epics projects epics themeGroups theme :
  groupByTheme projects epics = Ok themeGroups →
  NoDup (Group.epics (default Group.empty (themeGroups !! theme)))
  ∧ ∀ e, e ∈ Group.epics (default Group.empty (themeGroups !! theme))
         ↔ epicKey <$> epics !! e = Some theme.
Proof.
  unfold groupByTheme.
  destruct (forEachM groupProject ∅ (indexed projects)) as [themeGroups1 |] eqn:E1;
    cbn [mbind result_bind]; [| discriminate].
  intros E2.
  rewrite (forEachM_groupEpic_epics _ _ _ theme E2),
    (forEachM_groupProject_epics _ _ _ theme E1).
  rewrite lookup_empty. cbn [default Group.empty Group.epics app].
  split.
  - eapply sublist_NoDup; [| apply fmap_sublist, sublist_filter].
    rewrite indexed_fst. apply NoDup_seq.
  - intros e. rewrite list_elem_of_fmap. split.
    + intros ([e' epic] & -> & Hin). apply list_elem_of_filter in Hin as [Hk Hin].
      cbn [fst snd] in *. apply indexed_lookup in Hin. unfold ref in *.
      rewrite Hin. cbn. by f_equal.
    + intros He. unfold ref in *. destruct (epics !! e) as [epic |] eqn:Eepic;
        [| discriminate].
      injection He as He. exists (e, epic). split; [reflexivity |].
      apply list_elem_of_filter. split; [exact He |]. by apply indexed_lookup.
Qed.

(** The processing loop gives every epic a fresh, non-empty range of
    references. *)
Lemma processEpic_separate data startDate totalDuration width st entry st' :
  separateMembers (length st.1) (PEpic.projects <$> st.2) →
  processEpic data startDate totalDuration width st entry = Ok st' →
  separateMembers (length st'.1) (PEpic.projects <$> st'.2).
Proof.
  destruct st as [allProjects epics], entry as [epicIndex epic]. cbn [fst snd].
  intros [Hall Hdisjoint]. unfold processEpic.
  destruct (Epic.projectLines epic) as [projectLines |];
    [| intros [= <-]; split; assumption].
  destruct (mapM _ projectLines) as [epicProjects |];
    cbn [mbind result_bind]; [| discriminate].
  assert (Hweak : Forall (λ l, l ≠ [] ∧ NoDup l
                              ∧ Forall (λ r, (r < length (allProjects ++ epicProjects))%nat) l)
                         (PEpic.projects <$> epics)).
  { eapply Forall_impl; [exact Hall |]. intros l (? & ? & Hl). split; [done |].
    split; [done |]. eapply Forall_impl; [exact Hl |].
    intros r Hr. cbn beta in *. rewrite length_app. lia. }
  destruct (0 <? length epicProjects)%nat eqn:Epos; intros [= <-]; cbn [fst snd];
    [| split; assumption].
  apply Nat.ltb_lt in Epos. rewrite fmap_app. cbn [fmap list_fmap PEpic.projects].
  set (fresh := seq (length allProjects) (length epicProjects)).
  assert (Hfresh : ∀ r, r ∈ fresh ↔
            (length allProjects <= r < length allProjects + length epicProjects)%nat).
  { intros r. unfold fresh. rewrite elem_of_seq. lia. }
  assert (Hold : ∀ e l r, (PEpic.projects <$> epics) !! e = Some l → r ∈ l →
                          (r < length allProjects)%nat).
  { intros e l r He Hr. rewrite Forall_forall in Hall.
    destruct (Hall l) as (_ & _ & Hl); [apply list_elem_of_lookup; eauto |].
    rewrite Forall_forall in Hl. exact (Hl r Hr). }
  split.
  - apply Forall_app. split; [exact Hweak |]. constructor; [| constructor].
    split; [| split].
    + unfold fresh. destruct (length epicProjects); [lia | discriminate].
    + apply NoDup_seq.
    + apply Forall_forall. intros r Hr. apply Hfresh in Hr. rewrite length_app. lia.
  - intros e1 e2 l1 l2 r Hne H1 H2 Hr1 Hr2.
    apply lookup_app_Some in H1 as [H1 | [Hlen1 H1]];
      apply lookup_app_Some in H2 as [H2 | [Hlen2 H2]].
    + exact (Hdisjoint e1 e2 l1 l2 r Hne H1 H2 Hr1 Hr2).
    + apply list_lookup_singleton_Some in H2 as [_ <-].
      pose proof (Hold e1 l1 r H1 Hr1). apply Hfresh in Hr2. lia.
    + apply list_lookup_singleton_Some in H1 as [_ <-].
      pose proof (Hold e2 l2 r H2 Hr2). apply Hfresh in Hr1. lia.
    + apply list_lookup_singleton_Some in H1 as [Hz1 _].
      apply list_lookup_singleton_Some in H2 as [Hz2 _]. lia.
Qed.

End EpicGroups.

Section EpicScene.
Context `{Host}.

(** The resolver changes neither the key of a project, nor the key or the
    members of an epic. *)
Lemma resolve_keys projects epics themes scene :
  resolveCollisionsWithThemes projects epics themes = Ok scene →
  groupKey <$> Scene.heap scene = groupKey <$> projects
  ∧ epicKey <$> Scene.epics scene = epicKey <$> epics
  ∧ PEpic.projects <$> Scene.epics scene = PEpic.projects <$> epics.
Proof.
  intros Hresolve.
  apply (resolve_frame
           (λ heap es, groupKey <$> heap = groupKey <$> projects
                       ∧ epicKey <$> es = epicKey <$> epics
                       ∧ PEpic.projects <$> es = PEpic.projects <$> epics)
           projects epics themes scene); [| | done | exact Hresolve].
  - intros heap es v r (Hk & He & Hm). split; [| done].
    rewrite <- Hk. rewrite (list_fmap_alter groupKey _ id) by (apply Forall_true; done).
    by apply list_alter_id.
  - intros heap es lo hi e (Hk & He & Hm). split; [done |]. split.
    + rewrite <- He. rewrite (list_fmap_alter epicKey _ id) by (apply Forall_true; done).
      by apply list_alter_id.
    + rewrite <- Hm.
      rewrite (list_fmap_alter PEpic.projects _ id) by (apply Forall_true; done).
      by apply list_alter_id.
Qed.

Lemma processing_separate data standalone allProjects epics :
  forEachM (processEpic data (startDateOf data) (totalDurationOf data) timelineWidth)
           (standalone, []) (indexed (array (Data.epics data)))
  = Ok (allProjects, epics) →
  separateMembers (length allProjects) (PEpic.projects <$> epics).
Proof.
  intros Ef.
  apply (forEachM_invariant _
           (λ st, separateMembers (length st.1) (PEpic.projects <$> st.2)) (λ _, True)
           _ _ _ (λ st entry st' _ Hst Hstep,
                    processEpic_separate data _ _ _ st entry st' Hst Hstep)) in Ef;
    [exact Ef | apply Forall_true; auto |].
  cbn [fst snd fmap list_fmap]. split; [constructor |].
  intros e1 e2 l1 l2 r _ H1. by rewrite lookup_nil in H1.
Qed.

End EpicScene.

(** X16: the members of an epic end up on consecutive lanes that its bounds
    span.  Take an epic of a laid-out scene whose theme has a block, and
    whose members are all filed under the theme of the epic (none names
    another theme).  Then the [minY] of the epic is the lane of its first
    member, its members lie 40 apart below it in input order, and its
    [maxY] is the lane of its last member, although every member was first
    placed as a standalone project: the box that [drawEpicGrouping] draws
    from [minY - 35] to [maxY + 15] holds the lines of all members. *)
Theorem epic_members_fill_their_box `{Host} (data : Data.t) (scene : Scene.t)
    (t : ref) (epic : PEpic.t) :
  layout data = Ok scene →
  Scene.epics scene !! t = Some epic →
  epicKey epic ∈ getUniqueThemes (loadData data setupCanvas) →
  (∀ r p, r ∈ PEpic.projects epic → Scene.heap scene !! r = Some p →
          groupKey p = epicKey epic) →
  ∃ lo, onLanes (Scene.heap scene) epic lo.
Proof.
  rewrite layout_unfold.
  destruct (mapM _ (array (Data.projectLines data))) as [standalone |];
    cbn [mbind result_bind]; [| discriminate].
  destruct (forEachM _ _ _) as [[allProjects epics] |] eqn:Ef;
    cbn [mbind result_bind]; [| discriminate].
  intros Hresolve Hepic Hblock Hfiled.
  pose proof (processing_separate data standalone allProjects epics Ef) as Hsep.
  destruct (resolve_keys _ _ _ _ Hresolve) as (Hkeys & Hekeys & Hmembers).
  revert Hresolve. unfold resolveCollisionsWithThemes.
  destruct (groupByTheme allProjects epics) as [themeGroups |] eqn:Eg;
    cbn [mbind result_bind]; [| discriminate].
  destruct (forEachM (placeTheme themeGroups) _ _)
    as [[[[heap' epics'] currentY'] themeData'] |] eqn:Et;
    cbn [mbind result_bind]; [| discriminate].
  intros [= <-]. cbn [Scene.heap Scene.epics] in *.
  (* the epic before the resolver *)
  assert (Hm0 : (PEpic.projects <$> epics) !! t = Some (PEpic.projects epic)).
  { rewrite <- Hmembers, list_lookup_fmap. unfold ref in *. by rewrite Hepic. }
  assert (Hk0 : epicKey <$> epics !! t = Some (epicKey epic)).
  { rewrite <- list_lookup_fmap, <- Hekeys, list_lookup_fmap.
    unfold ref in *. by rewrite Hepic. }
  destruct (forEachM_placeTheme_target t (PEpic.projects epic) (epicKey epic)
              themeGroups (getUniqueThemes (loadData data setupCanvas)))
    with (heap := allProjects) (epics := epics) (currentY := margin_top)
         (themeData := @nil ThemeObj.t) (st' := (heap', epics', currentY', themeData'))
    as [Hplaced _].
  - intros theme. by destruct (groupByTheme_epics _ _ _ theme Eg).
  - intros theme. destruct (groupByTheme_epics _ _ _ theme Eg) as [_ Hin].
    rewrite Hin. unfold ref in *. rewrite Hk0. split; congruence.
  - intros theme r Hr Hin.
    destruct (groupByTheme_projects _ _ _ theme Eg) as [_ Hk].
    specialize (Hk r Hin).
    rewrite <- list_lookup_fmap, <- Hkeys, list_lookup_fmap in Hk.
    unfold ref in *. destruct (heap' !! r) as [p |] eqn:Ep; [| discriminate].
    injection Hk as <-. exact (Hfiled r p Hr Ep).
  - apply getUniqueThemes_NoDup.
  - exact Hsep.
  - exact Hm0.
  - exact Et.
  - cbn [fst snd] in Hplaced. destruct (Hplaced Hblock) as (epic' & lo & Hepic' & Hlanes).
    unfold ref in *. rewrite Hepic in Hepic'. injection Hepic' as <-.
    exists lo. exact Hlanes.
Qed.

Lemma epic_members_fill_their_box_witness :
  ∃ scene epic,
    layout EpicExamples.twoMembers = Ok scene
    ∧ Scene.epics scene !! 0%nat = Some epic
    ∧ ∃ lo, onLanes (Scene.heap scene) epic lo.
Proof.
  eexists. eexists. split; [vm_compute; reflexivity |]. split; [reflexivity |].
  apply (epic_members_fill_their_box EpicExamples.twoMembers _ 0%nat).
  - vm_compute. reflexivity.
  - reflexivity.
  - vm_compute. apply list_elem_of_here.
  - intros r p Hr Hp. cbn [PEpic.projects] in Hr.
    repeat (apply elem_of_cons in Hr as [-> | Hr]; [by injection Hp as <- |]).
    by apply elem_of_nil in Hr.
Defined.

(** A member that names a theme of its own, sorted after the theme of its
    epic and used by a standalone project, is placed again with that
    theme and ends up outside the lanes of its epic. *)
Example straying_member_leaves_the_box :
  ∃ scene epic,
    layout EpicExamples.straying = Ok scene
    ∧ Scene.epics scene = [epic]
    ∧ PEpic.projects epic = [1%nat; 2%nat]
    ∧ PEpic.minY epic = Some 180 ∧ PEpic.maxY epic = Some 220
    ∧ yOf (Scene.heap scene) 2%nat = Some 340.
Proof.
  eexists. eexists. split; [vm_compute; reflexivity |]. repeat split; reflexivity.
Qed.
(* ===================================================================== *)
(** ** Where a project with a theme ends up *)
(* ===================================================================== *)

Section Placed.
Context `{Host}.

(** The positioned projects of the scene are those of its blocks, block
    after block. *)
Lemma scene_projects data scene :
  layout data = Ok scene →
  Scene.projects scene = Scene.themes scene ≫= ThemeObj.projects.
Proof.
  rewrite layout_unfold.
  destruct (mapM _ (array (Data.projectLines data))) as [standalone |];
    cbn [mbind result_bind]; [| discriminate].
  destruct (forEachM _ _ _) as [[allProjects epics] |];
    cbn [mbind result_bind]; [| discriminate].
  unfold resolveCollisionsWithThemes.
  destruct (groupByTheme allProjects epics) as [themeGroups |];
    cbn [mbind result_bind]; [| discriminate].
  destruct (forEachM (placeTheme themeGroups) _ _)
    as [[[[heap epics'] currentY] themeData] |];
    cbn [mbind result_bind]; [| discriminate].
  by intros [= <-].
Qed.

Lemma str_or_truthy s d : s ≠ EmptyString → str_or (Some s) d = s.
Proof. intros Hs. cbn. destruct (String.eqb_spec s ""); [done | reflexivity]. Qed.

End Placed.

(** X17: a standalone project that names a theme is drawn, in the block of
    its theme.  Whenever the layout succeeds, the scene has a block for
    the theme, the block lists the project at the position [k] that it has
    among the standalone projects of that theme in input order, the
    project is among the positioned projects of the scene, and it lies
    [20 + 40 * k] below the top of the block. *)
Theorem tagged_project_is_placed `{Host} (data : Data.t) (scene : Scene.t)
    (r : ref) (project : Project.t) (theme : string) :
  layout data = Ok scene →
  array (Data.projectLines data) !! r = Some project →
  Project.theme project = Some theme → theme ≠ EmptyString →
  ∃ block k,
    block ∈ Scene.themes scene
    ∧ ThemeObj.name block = theme
    ∧ standaloneRefs data theme !! k = Some r
    ∧ ThemeObj.projects block !! k = Some r
    ∧ r ∈ Scene.projects scene
    ∧ yOf (Scene.heap scene) r
      = Some (ThemeObj.y block + 20 + lineHeight * Z.of_nat k).
Proof.
  intros Hlayout Hr Htheme Hne.
  (* the theme is collected, so it has a block *)
  assert (Hcollected : theme ∈ getUniqueThemes (loadData data setupCanvas)).
  { apply elem_of_getUniqueThemes. split; [| exact Hne].
    unfold themeNames. rewrite data_loadData. apply elem_of_app. left.
    apply list_elem_of_fmap. exists project. split; [by rewrite Htheme |].
    apply list_elem_of_lookup. eauto. }
  destruct (scene_blocks data scene Hlayout) as [Hnames _].
  rewrite <- Hnames in Hcollected.
  apply list_elem_of_fmap in Hcollected as (block & Hname & Hblock).
  (* the project is one of the standalone projects of the theme *)
  assert (Hin : r ∈ standaloneRefs data theme).
  { unfold standaloneRefs. apply list_elem_of_fmap. exists (r, project).
    split; [reflexivity |]. apply list_elem_of_filter. split.
    - cbn [snd]. rewrite Htheme. by apply str_or_truthy.
    - by apply indexed_lookup. }
  apply list_elem_of_lookup in Hin as [k Hk].
  exists block, k. split; [exact Hblock |]. split; [by symmetry |].
  split; [exact Hk |].
  rewrite Hname in Hk.
  destruct (standalone_stack data scene block k r Hlayout Hblock Hk) as [Hlist Hy].
  split; [exact Hlist |]. split; [| exact Hy].
  rewrite (scene_projects data scene Hlayout).
  apply list_elem_of_bind. exists block. split; [| exact Hblock].
  apply list_elem_of_lookup. eauto.
Qed.

Lemma tagged_project_is_placed_witness :
  ∃ scene block k,
    layout LayoutExamples.single = Ok scene
    ∧ block ∈ Scene.themes scene
    ∧ ThemeObj.name block = "X"%string
    ∧ standaloneRefs LayoutExamples.single "X" !! k = Some 0%nat
    ∧ ThemeObj.projects block !! k = Some 0%nat
    ∧ 0%nat ∈ Scene.projects scene
    ∧ yOf (Scene.heap scene) 0%nat
      = Some (ThemeObj.y block + 20 + lineHeight * Z.of_nat k).
Proof.
  assert (∃ scene, layout LayoutExamples.single = Ok scene) as [scene Hlayout]
    by (eexists; vm_compute; reflexivity).
  exists scene.
  destruct (tagged_project_is_placed LayoutExamples.single scene 0%nat
              (LayoutExamples.task "A" (Some "X"%string)) "X"%string)
    as (block & k & Hrest); [exact Hlayout | reflexivity | reflexivity | discriminate |].
  exists block, k. split; [exact Hlayout | exact Hrest].
Defined.
(* ===================================================================== *)
(** ** The heights of the theme blocks *)
(* ===================================================================== *)

Section Heights.
Context `{Host}.

Lemma contentHeight_at_least_80 {P E} `{EpicLike E} (projects : list P) (epics : list E) :
  80 <= calculateThemeContentHeight projects epics.
Proof. unfold calculateThemeContentHeight. lia. Qed.

Lemma blockHeight_at_least_120 epics theme group : 120 <= blockHeight epics theme group.
Proof.
  unfold blockHeight.
  pose proof (contentHeight_at_least_80 (Group.projects group)
                (omap (λ e, epics !! e) (Group.epics group))).
  lia.
Qed.

(** The height of the block that one iteration of the theme loop appends. *)
Lemma placeTheme_height themeGroups heap epics currentY themeData theme st' :
  placeTheme themeGroups (heap, epics, currentY, themeData) theme = Ok st' →
  ∃ block, st'.2 = themeData ++ [block]
           ∧ ThemeObj.height block
             = blockHeight epics theme (default Group.empty (themeGroups !! theme)).
Proof.
  unfold placeTheme. destruct (inherited theme); [discriminate |].
  destruct (foldl placeProject _ _) as [[heap1 projectY1] placed1].
  destruct (foldl placeEpic _ _) as [[[heap2 epics2] projectY2] placed2].
  intros [= <-]. eexists. cbn. split; reflexivity.
Qed.

Lemma forEachM_placeTheme_heights themeGroups themes : ∀ st st',
  forEachM (placeTheme themeGroups) st themes = Ok st' →
  ∃ blocks, st'.2 = st.2 ++ blocks
            ∧ Forall (λ block, 120 <= ThemeObj.height block) blocks.
Proof.
  induction themes as [| theme themes IH]; intros st st'; cbn [forEachM].
  - intros [= <-]. exists []. by rewrite app_nil_r.
  - destruct (placeTheme themeGroups st theme) as [st1 |] eqn:E1;
      cbn [mbind result_bind]; [| discriminate].
    intros Hrest. destruct st as [[[heap epics] currentY] themeData].
    destruct (placeTheme_height _ _ _ _ _ _ _ E1) as (block & Hdata & Hheight).
    destruct (IH _ _ Hrest) as (blocks & Hdata' & Hblocks).
    exists (block :: blocks). cbn [snd] in *. split.
    + by rewrite Hdata', Hdata, <- app_assoc.
    + constructor; [| exact Hblocks]. rewrite Hheight. apply blockHeight_at_least_120.
Qed.

Lemma scene_heights data scene :
  layout data = Ok scene →
  Forall (λ block, 120 <= ThemeObj.height block) (Scene.themes scene).
Proof.
  rewrite layout_unfold.
  destruct (mapM _ (array (Data.projectLines data))) as [standalone |];
    cbn [mbind result_bind]; [| discriminate].
  destruct (forEachM _ _ _) as [[allProjects epics] |];
    cbn [mbind result_bind]; [| discriminate].
  unfold resolveCollisionsWithThemes.
  destruct (groupByTheme allProjects epics) as [themeGroups |];
    cbn [mbind result_bind]; [| discriminate].
  destruct (forEachM (placeTheme themeGroups) _ _)
    as [[[[heap epics'] currentY] themeData] |] eqn:Ef;
    cbn [mbind result_bind]; [| discriminate].
  intros [= <-]. cbn [Scene.themes].
  destruct (forEachM_placeTheme_heights _ _ _ _ Ef) as (blocks & Hdata & Hblocks).
  cbn [snd app] in Hdata. by subst themeData.
Qed.

End Heights.

(** X18: the scene has one block per theme, stacked from the top margin.
    Whenever the layout succeeds, the blocks of the scene are named after
    the collected themes, in sorted order and without repetition; the
    first one starts at the top margin (120), each one starts where the
    previous one ends, and each one is at least 120 high. *)
Theorem theme_blocks_are_stacked `{Host} (data : Data.t) (scene : Scene.t) :
  layout data = Ok scene →
  ThemeObj.name <$> Scene.themes scene = getUniqueThemes (loadData data setupCanvas)
  ∧ NoDup (ThemeObj.name <$> Scene.themes scene)
  ∧ StronglySorted String_le (ThemeObj.name <$> Scene.themes scene)
  ∧ stacked margin_top (Scene.themes scene)
  ∧ Forall (λ block, 120 <= ThemeObj.height block) (Scene.themes scene).
Proof.
  intros Hlayout. destruct (scene_blocks data scene Hlayout) as [Hnames Hstacked].
  split; [exact Hnames |]. rewrite Hnames.
  split; [apply getUniqueThemes_NoDup |].
  split; [apply getUniqueThemes_sorted |].
  split; [exact Hstacked |].
  exact (scene_heights data scene Hlayout).
Qed.

Lemma theme_blocks_are_stacked_witness :
  ∃ scene,
    layout ThemeExamples.themesBA = Ok scene
    ∧ ThemeObj.name <$> Scene.themes scene
      = getUniqueThemes (loadData ThemeExamples.themesBA setupCanvas)
    ∧ NoDup (ThemeObj.name <$> Scene.themes scene)
    ∧ StronglySorted String_le (ThemeObj.name <$> Scene.themes scene)
    ∧ stacked margin_top (Scene.themes scene)
    ∧ Forall (λ block, 120 <= ThemeObj.height block) (Scene.themes scene).
Proof.
  eexists. split; [vm_compute; reflexivity |].
  apply (theme_blocks_are_stacked ThemeExamples.themesBA).
  vm_compute. reflexivity.
Defined.
(* ===================================================================== *)
(** ** The canvas of a dataset without epics *)
(* ===================================================================== *)

Section Fit.
Context `{Host}.

Lemma foldl_placeEpic_nil es : ∀ heap projectY placed,
  foldl placeEpic (heap, [], projectY, placed) es = (heap, [], projectY, placed).
Proof. induction es as [| e es IH]; intros heap projectY placed; cbn; [done | apply IH]. Qed.

Lemma omap_lookup_nil {A} (l : list nat) : omap (λ e, (@nil A) !! e) l = [].
Proof. induction l as [| e l IH]; [done | exact IH]. Qed.

(** Without epic objects, a block is as high as its project count asks. *)
Lemma blockHeight_no_epics theme group :
  blockHeight [] theme group
  = Z.max (calculateLabelHeight theme + 20)
          (Z.max 80 (Z.of_nat (length (Group.projects group)) * lineHeight) + 40).
Proof. unfold blockHeight. by rewrite omap_lookup_nil. Qed.

Lemma forEachM_placeTheme_no_epics themeGroups themes : ∀ heap currentY themeData st',
  forEachM (placeTheme themeGroups) (heap, [], currentY, themeData) themes = Ok st' →
  ∃ blocks, st'.2 = themeData ++ blocks
            ∧ Forall2 (λ block theme,
                         ThemeObj.height block
                         = blockHeight [] theme
                             (default Group.empty (themeGroups !! theme)))
                      blocks themes.
Proof.
  induction themes as [| theme themes IH]; intros heap currentY themeData st';
    cbn [forEachM].
  - intros [= <-]. exists []. by rewrite app_nil_r.
  - destruct (placeTheme themeGroups _ theme) as [st1 |] eqn:E1;
      cbn [mbind result_bind]; [| discriminate].
    intros Hrest.
    destruct (placeTheme_height _ _ _ _ _ _ _ E1) as (block & Hdata & Hheight).
    assert (Hepics : st1.1.1.2 = []).
    { revert E1. unfold placeTheme. destruct (inherited theme); [discriminate |].
      destruct (foldl placeProject _ _) as [[heap1 projectY1] placed1].
      rewrite foldl_placeEpic_nil. by intros [= <-]. }
    destruct st1 as [[[heap1 epics1] currentY1] themeData1]. cbn [fst snd] in *.
    subst epics1 themeData1.
    destruct (IH _ _ _ _ Hrest) as (blocks & Hdata' & Hblocks).
    exists (block :: blocks). split; [by rewrite Hdata', <- app_assoc |].
    constructor; assumption.
Qed.

(** In a stack of blocks, each block lies between the top of the stack
    and the sum of the heights below it. *)
Lemma stacked_within top blocks :
  stacked top blocks → Forall (λ block, 0 <= ThemeObj.height block) blocks →
  Forall (λ block, top <= ThemeObj.y block
                   ∧ ThemeObj.y block + ThemeObj.height block
                     <= top + foldr Z.add 0 (ThemeObj.height <$> blocks))
         blocks.
Proof.
  revert top. induction blocks as [| block blocks IH]; intros top; [constructor |].
  cbn [stacked fmap list_fmap foldr]. intros [Hy Hrest] Hpos.
  apply Forall_cons in Hpos as [Hh Hpos].
  specialize (IH _ Hrest Hpos).
  assert (Hsum : 0 <= foldr Z.add 0 (ThemeObj.height <$> blocks)).
  { clear -Hpos. induction Hpos as [| b bs Hb _ IHs]; cbn; lia. }
  constructor; [lia |].
  eapply Forall_impl; [exact IH |]. intros b [Hlo Hhi]. cbn beta. lia.
Qed.

(** When every project names a theme, the standalone projects filed under
    a collected theme are those that name it. *)
Lemma tagged_filter_length (records : list Project.t) theme :
  Forall (λ project, truthy_str (Project.theme project) = true) records →
  length (filter (λ project, str_or (Project.theme project) "Default" = theme) records)
  = length (filter (λ project, Project.theme project = Some theme) records).
Proof.
  induction 1 as [| project records Htag _ IH]; [done |].
  assert (Hiff : str_or (Project.theme project) "Default" = theme
                 ↔ Project.theme project = Some theme).
  { destruct (Project.theme project) as [s |]; [| discriminate]. cbn in *.
    destruct (String.eqb s ""); [discriminate |]. split; congruence. }
  destruct (decide (Project.theme project = Some theme)) as [Hyes | Hno].
  - rewrite !filter_cons_True by tauto. cbn. by rewrite IH.
  - rewrite !filter_cons_False by tauto. exact IH.
Qed.

Lemma filter_indexed_length {A} (P : A → Prop) `{!∀ a, Decision (P a)}
    (l : list A) i :
  length (filter (λ entry : nat * A, P entry.2) (zip (seq i (length l)) l))
  = length (filter P l).
Proof.
  revert i. induction l as [| a l IH]; intros i; [done |].
  cbn [length seq zip zip_with].
  destruct (decide (P a)) as [Hyes | Hno].
  - rewrite !filter_cons_True by done. cbn. by rewrite IH.
  - rewrite !filter_cons_False by done. apply IH.
Qed.

End Fit.

Section FitScene.
Context `{Host}.

(** Without epics, and with a theme on every project, the layout pass
    makes each block as high as the dimension calculator assumed. *)
Lemma heights_as_required data scene :
  layout data = Ok scene → array (Data.epics data) = [] → allTagged data →
  ThemeObj.height <$> Scene.themes scene
  = requiredThemeHeight (loadData data setupCanvas)
      <$> getUniqueThemes (loadData data setupCanvas).
Proof.
  rewrite layout_unfold. intros Hlayout Hnone Htagged. revert Hlayout.
  rewrite Hnone. cbn [indexed length seq zip zip_with forEachM].
  destruct (mapM _ (array (Data.projectLines data))) as [standalone |] eqn:Em;
    cbn [mbind result_bind mret result_ret]; [| discriminate].
  apply mapM_result_Forall2 in Em.
  unfold resolveCollisionsWithThemes.
  destruct (groupByTheme standalone []) as [themeGroups |] eqn:Eg;
    cbn [mbind result_bind]; [| discriminate].
  destruct (forEachM (placeTheme themeGroups) _ _)
    as [[[[heap epics'] currentY] themeData] |] eqn:Et;
    cbn [mbind result_bind]; [| discriminate].
  intros [= <-]. cbn [Scene.themes].
  destruct (forEachM_placeTheme_no_epics _ _ _ _ _ _ Et) as (blocks & Hdata & Hblocks).
  cbn [snd app] in Hdata. subst themeData.
  assert (Hthemes : Forall2 (λ project p, PProject.theme p = Project.theme project)
                            (array (Data.projectLines data)) standalone).
  { eapply Forall2_impl; [exact Em |]. intros project p Hp. unfold processed in Hp.
    by destruct (processProject_fields _ _ _ _ _ _ Hp) as (_ & -> & _). }
  clear Et. induction Hblocks as [| block theme blocks themes Hheight _ IH];
    [reflexivity |].
  cbn [fmap list_fmap]. f_equal; [| exact IH].
  rewrite Hheight, blockHeight_no_epics.
  rewrite (groupByTheme_projects_eq _ _ _ theme Eg), length_fmap.
  unfold requiredThemeHeight.
  rewrite required_content_height_standalone_only.
  unfold getThemeContent. rewrite data_loadData. cbn [fst].
  rewrite <- (tagged_filter_length _ theme Htagged).
  rewrite <- (filter_indexed_length
                (λ project, str_or (Project.theme project) "Default" = theme)
                (array (Data.projectLines data)) 0).
  rewrite <- (length_fmap fst (filter _ (zip _ (array (Data.projectLines data))))).
  rewrite <- (filter_indexed_themes _ standalone theme Hthemes 0).
  by rewrite length_fmap.
Qed.

End FitScene.

(** X19: without epics the canvas is tall enough.  For a dataset that has no
    epics and in which every project names a theme, each theme block of
    the scene lies below the top margin and ends at least 360 pixels (the
    bottom margin and 300 more) above the lower edge of the canvas that
    [resizeCanvas] has set up. *)
Theorem blocks_fit_the_canvas_without_epics `{Host} (data : Data.t) (scene : Scene.t) :
  layout data = Ok scene → array (Data.epics data) = [] → allTagged data →
  Forall (λ block,
            margin_top <= ThemeObj.y block
            ∧ ThemeObj.y block + ThemeObj.height block + margin_bottom + 300
              <= Renderer.displayHeight (loadData data setupCanvas))
         (Scene.themes scene).
Proof.
  intros Hlayout Hnone Htagged.
  pose proof (heights_as_required data scene Hlayout Hnone Htagged) as Hheights.
  destruct (scene_blocks data scene Hlayout) as [_ Hstacked].
  pose proof (scene_heights data scene Hlayout) as Hhigh.
  assert (Hpos : Forall (λ block, 0 <= ThemeObj.height block) (Scene.themes scene)).
  { eapply Forall_impl; [exact Hhigh |]. intros block Hb. cbn beta in *. lia. }
  pose proof (stacked_within _ _ Hstacked Hpos) as Hwithin.
  change (Renderer.displayHeight (loadData data setupCanvas))
    with (calculateRequiredDimensions (loadData data setupCanvas)).2.
  rewrite required_height, <- Hheights.
  eapply Forall_impl; [exact Hwithin |]. intros block [Hlo Hhi]. cbn beta.
  unfold margin_top, margin_bottom in *. lia.
Qed.

Lemma blocks_fit_the_canvas_without_epics_witness :
  ∃ scene,
    layout LayoutExamples.single = Ok scene
    ∧ Forall (λ block,
                margin_top <= ThemeObj.y block
                ∧ ThemeObj.y block + ThemeObj.height block + margin_bottom + 300
                  <= Renderer.displayHeight (loadData LayoutExamples.single setupCanvas))
             (Scene.themes scene).
Proof.
  eexists. split; [vm_compute; reflexivity |].
  apply (blocks_fit_the_canvas_without_epics LayoutExamples.single).
  - vm_compute. reflexivity.
  - reflexivity.
  - repeat constructor.
Defined.
(* ===================================================================== *)
(** ** Lanes: the first free range *)
(* ===================================================================== *)

Section FreeRange.

Lemma occupied_beyond ls i : (length ls <= i)%nat → occupied ls i = false.
Proof.
  intros Hi. unfold occupied, laneAt. by rewrite lookup_ge_None_2.
Qed.

Lemma available_beyond ls startLane neededLanes :
  (length ls <= startLane)%nat → available ls startLane neededLanes = true.
Proof.
  intros Hs. unfold available. apply forallb_forall. intros i _.
  rewrite occupied_beyond by lia. reflexivity.
Qed.

Lemma available_spec ls startLane neededLanes :
  available ls startLane neededLanes = true
  ↔ ∀ i, (i < neededLanes)%nat → occupied ls (startLane + i) = false.
Proof.
  unfold available. rewrite forallb_forall. split.
  - intros Hall i Hi. apply negb_true_iff, Hall, in_seq. lia.
  - intros Hall i Hi. apply in_seq in Hi. apply negb_true_iff, Hall. lia.
Qed.

Lemma forallb_false {A} (f : A → bool) l :
  forallb f l = false → ∃ x, In x l ∧ f x = false.
Proof.
  induction l as [| a l IH]; cbn; [discriminate |].
  destruct (f a) eqn:E; cbn.
  - intros Hl. destruct (IH Hl) as (x & Hx & Hfx). eauto.
  - intros _. eauto.
Qed.

Lemma unavailable_spec ls startLane neededLanes :
  available ls startLane neededLanes = false →
  ∃ i, (i < neededLanes)%nat ∧ occupied ls (startLane + i) = true.
Proof.
  intros Hno. apply forallb_false in Hno as (i & Hi & Hocc).
  apply in_seq in Hi. apply negb_false_iff in Hocc. exists i. split; [lia | exact Hocc].
Qed.

(** The search from [startLane] stops at the first start of a free range,
    at the length of the array at the latest. *)
Lemma findFrom_first ls neededLanes fuel : ∀ startLane,
  (length ls <= startLane + fuel)%nat →
  ∃ found, findFrom fuel ls neededLanes startLane = Some found
           ∧ (startLane <= found)%nat
           ∧ (found <= Nat.max startLane (length ls))%nat
           ∧ available ls found neededLanes = true
           ∧ ∀ s, (startLane <= s < found)%nat → available ls s neededLanes = false.
Proof.
  induction fuel as [| fuel IH]; intros startLane Hfuel; cbn [findFrom].
  - rewrite available_beyond by lia. exists startLane.
    split; [reflexivity |]. split; [lia |]. split; [lia |].
    split; [apply available_beyond; lia | intros s Hs; lia].
  - destruct (available ls startLane neededLanes) eqn:E.
    + exists startLane. split; [reflexivity |]. split; [lia |]. split; [lia |].
      split; [exact E | intros s Hs; lia].
    + destruct (IH (S startLane)) as (found & Hfound & Hlo & Hhi & Hfree & Hfirst);
        [lia |].
      assert (Hin : (startLane < length ls)%nat).
      { destruct (le_lt_dec (length ls) startLane) as [Hge | Hlt]; [| exact Hlt].
        rewrite available_beyond in E by exact Hge. discriminate. }
      exists found. split; [exact Hfound |]. split; [lia |]. split; [lia |].
      split; [exact Hfree |]. intros s Hs. destruct (decide (s = startLane)) as [-> | Hne]; [exact E |].
      apply Hfirst. lia.
Qed.

End FreeRange.

(** X20: [findAvailableLaneRange] returns the first free range.  The search
    ends after at most as many steps as the array of lanes is long; the
    lane it returns is at most the length of the array, none of the
    [neededLanes] lanes from it on holds a project, and every smaller start
    has an occupied lane in its range. *)
Theorem findAvailableLaneRange_first_fit (ls : list (option (list ref))) (neededLanes fuel : nat) :
  (length ls <= fuel)%nat →
  ∃ found,
    findAvailableLaneRange fuel ls neededLanes = Some found
    ∧ (found <= length ls)%nat
    ∧ (∀ i, (i < neededLanes)%nat → occupied ls (found + i) = false)
    ∧ (∀ s, (s < found)%nat →
            ∃ i, (i < neededLanes)%nat ∧ occupied ls (s + i) = true).
Proof.
  intros Hfuel. unfold findAvailableLaneRange.
  destruct (findFrom_first ls neededLanes fuel 0) as (found & Hfound & _ & Hhi & Hfree & Hfirst);
    [lia |].
  exists found. split; [exact Hfound |]. split; [lia |]. split.
  - by apply available_spec.
  - intros s Hs. apply unavailable_spec, Hfirst. lia.
Qed.

Lemma findAvailableLaneRange_first_fit_witness :
  ∃ found,
    findAvailableLaneRange 4 [Some [0%nat]; None; Some [1%nat]; Some []] 2 = Some found
    ∧ (found <= 4)%nat
    ∧ (∀ i, (i < 2)%nat →
            occupied [Some [0%nat]; None; Some [1%nat]; Some []] (found + i) = false)
    ∧ (∀ s, (s < found)%nat →
            ∃ i, (i < 2)%nat
                 ∧ occupied [Some [0%nat]; None; Some [1%nat]; Some []] (s + i) = true).
Proof. apply findAvailableLaneRange_first_fit. cbn. lia. Defined.
(* ===================================================================== *)
(** ** The controls of the page *)
(* ===================================================================== *)

Section Controls.
Context `{Host}.
Variable drawScene : Renderer.t → Scene.t → option exception.

Lemma stopAnimation_state (this : App.t) :
  App.renderer (App.stopAnimation this).1 = App.renderer this
  ∧ App.isPlaying (App.stopAnimation this).1 = false
  ∧ App.playDisabled (App.stopAnimation this).1 = false
  ∧ App.stopDisabled (App.stopAnimation this).1 = true
  ∧ Forall (λ e, App.paints e = false) (App.stopAnimation this).2.
Proof.
  unfold App.stopAnimation. destruct (App.pendingTimer this); cbn; repeat split; auto.
Qed.

Lemma animate_state (id : nat) (this : App.t) :
  App.renderer (App.animate drawScene id this).1 = App.renderer this
  ∧ App.isPlaying (App.animate drawScene id this).1 = App.isPlaying this
  ∧ App.playDisabled (App.animate drawScene id this).1 = App.playDisabled this
  ∧ App.stopDisabled (App.animate drawScene id this).1 = App.stopDisabled this.
Proof.
  unfold App.animate. destruct (App.isPlaying this) eqn:E; cbn; [|by rewrite E].
  destruct (App.renderTimeline drawScene this) as [effects [e|]]; cbn; by rewrite ?E.
Qed.

Lemma handle_buttons (this : App.t) (ev : App.event) :
  App.buttonsFollow this → App.buttonsFollow (App.handle drawScene this ev).1.
Proof.
  intros [Hp Hs]. unfold App.buttonsFollow. destruct ev; cbn [App.handle].
  - unfold App.loadFile. destruct parsed as [data|]; [|done].
    match goal with |- context [App.stopAnimation ?t] =>
      pose proof (stopAnimation_state t) as (_ & E1 & E2 & E3 & _);
      destruct (App.stopAnimation t) as [this' stopped] end.
    cbn [fst] in *.
    destruct (App.renderTimeline _ _) as [effects [e|]]; cbn; by rewrite E1, E2, E3.
  - unfold App.loadDefaultData.
    destruct (App.renderTimeline _ _) as [effects [e|]]; cbn; by rewrite Hp, Hs.
  - done.
  - unfold App.startAnimation. destruct (Renderer.data _); [|done].
    destruct (App.isPlaying this) eqn:E; [cbn [fst]; by rewrite E|].
    match goal with |- context [App.animate _ _ ?t] =>
      pose proof (animate_state id t) as (_ & E1 & E2 & E3) end.
    by rewrite E1, E2, E3.
  - pose proof (stopAnimation_state this) as (_ & E1 & E2 & E3 & _). by rewrite E1, E2, E3.
  - pose proof (stopAnimation_state this) as (_ & E1 & E2 & E3 & _).
    destruct (App.stopAnimation this) as [this' stopped]. cbn in *. by rewrite E1, E2, E3.
  - done.
  - pose proof (animate_state id this) as (_ & E1 & E2 & E3). by rewrite E1, E2, E3.
Qed.

Lemma run_cons_app (this : App.t) (ev : App.event) (events : list App.event) :
  App.run drawScene this (ev :: events)
  = ((App.run drawScene (App.handle drawScene this ev).1 events).1,
     (App.handle drawScene this ev).2 ++ (App.run drawScene (App.handle drawScene this ev).1 events).2).
Proof.
  cbn [App.run]. destruct (App.handle drawScene this ev) as [this' effects].
  cbn [fst snd]. by destruct (App.run drawScene this' events).
Qed.

Lemma tick_while_stopped (this : App.t) (ev : App.event) :
  App.isPlaying this = false → App.isTick ev = true →
  (App.handle drawScene this ev).1 = this
  ∧ Forall (λ e, App.paints e = false) (App.handle drawScene this ev).2.
Proof.
  intros Hstop Htick. destruct ev; try discriminate; cbn [App.handle].
  - split; [done|]. by constructor.
  - unfold App.animate. rewrite Hstop. cbn. split; [done|constructor].
Qed.

Lemma ticks_while_stopped (this : App.t) (events : list App.event) :
  App.isPlaying this = false → forallb App.isTick events = true →
  (App.run drawScene this events).1 = this
  ∧ Forall (λ e, App.paints e = false) (App.run drawScene this events).2.
Proof.
  intros Hstop. induction events as [|ev events IH]; intros Hticks.
  - split; [done|constructor].
  - cbn [forallb] in Hticks. apply andb_true_iff in Hticks as [Hev Hticks].
    rewrite run_cons_app. cbn [fst snd].
    destruct (tick_while_stopped this ev Hstop Hev) as [E Hnone]. rewrite E.
    destruct (IH Hticks) as [E' Hnone']. split; [done|].
    apply Forall_app. by split.
Qed.

Lemma startAnimation_throws (id : nat) (this : App.t) (e : exception) :
  calculateTimelinePositions (App.renderer this) = Throw e →
  App.isPlaying this = false →
  App.startAnimation drawScene id this
  = (App.mk (App.renderer this) true (App.animationId this) true false,
     [App.clearCanvas this; App.Uncaught e]).
Proof.
  intros Hthrow Hstop. unfold App.startAnimation, App.animate, App.renderTimeline.
  cbn [App.renderer App.isPlaying negb]. rewrite Hstop, Hthrow.
  destruct (Renderer.data (App.renderer this)) eqn:Hdata; [done|].
  unfold calculateTimelinePositions in Hthrow. by rewrite Hdata in Hthrow.
Qed.

(** X21: every handler keeps the two buttons in step with [isPlaying]: Play is
    disabled exactly while the animation is playing and Stop exactly
    while it is not, whatever happens on the page and whether or not the
    rendering throws. *)
Theorem buttons_follow_the_animation (this : App.t) (events : list App.event) :
  App.buttonsFollow this → App.buttonsFollow (App.run drawScene this events).1.
Proof.
  revert this. induction events as [|ev events IH]; intros this Hthis; [done|].
  rewrite run_cons_app. cbn [fst]. apply IH. by apply handle_buttons.
Qed.

(** X22: once Stop or Clear has been clicked, timers and animation frames that
    are still on their way paint nothing and change nothing. *)
Theorem nothing_is_painted_after_stop (this : App.t) (ev : App.event)
    (ticks : list App.event) :
  ev = App.stopClicked ∨ ev = App.clearClicked →
  forallb App.isTick ticks = true →
  (App.run drawScene this (ev :: ticks)).1 = (App.handle drawScene this ev).1
  ∧ App.isPlaying (App.run drawScene this (ev :: ticks)).1 = false
  ∧ Forall (λ e, App.paints e = false) (App.run drawScene this (ev :: ticks)).2.
Proof.
  intros Hev Hticks. rewrite run_cons_app. cbn [fst snd].
  pose proof (stopAnimation_state this) as (_ & Hstop & _ & _ & Hnone).
  assert (App.isPlaying (App.handle drawScene this ev).1 = false
          ∧ Forall (λ e, App.paints e = false) (App.handle drawScene this ev).2)
    as [Hstopped Hquiet].
  { destruct Hev as [-> | ->]; cbn [App.handle]; [done|].
    destruct (App.stopAnimation this) as [this' stopped]. cbn [fst snd] in *.
    split; [done|]. apply Forall_app. split; [done|]. by repeat constructor. }
  destruct (ticks_while_stopped _ ticks Hstopped Hticks) as [E Hnone'].
  rewrite E. repeat split; [done|]. apply Forall_app. by split.
Qed.

(** X23: a file that parses but whose layout throws is installed all the same:
    the dataset replaces the old one, the animation is stopped, the canvas
    is cleared and left blank, and the alert carries the exception.  A
    click on Play afterwards throws the same exception out of the handler
    with the page left in the playing state and no timer set. *)
Theorem failed_load_keeps_the_data (this : App.t) (data : Data.t) (e : exception) (id : nat) :
  calculateTimelinePositions (loadData data (App.renderer this)) = Throw e →
  let loaded := (App.loadFile drawScene (Some data) this).1 in
  let effects := (App.loadFile drawScene (Some data) this).2 in
  App.renderer loaded = loadData data (App.renderer this)
  ∧ App.isPlaying loaded = false
  ∧ last effects = Some (App.AlertError "Error parsing JSON file: " (Some e))
  ∧ Forall (λ e, App.paints e = false) effects
  ∧ App.isPlaying (App.startAnimation drawScene id loaded).1 = true
  ∧ App.animationId (App.startAnimation drawScene id loaded).1 = App.animationId loaded
  ∧ (App.startAnimation drawScene id loaded).2
    = [App.ClearRect 1200 (Renderer.displayHeight (App.renderer loaded)); App.Uncaught e].
Proof.
  intros Hthrow. unfold App.loadFile.
  match goal with |- context [App.stopAnimation ?t] =>
    pose proof (stopAnimation_state t) as (Er & E1 & E2 & E3 & Hnone);
    destruct (App.stopAnimation t) as [this' stopped] end.
  cbn [fst snd App.set_renderer App.renderer] in *.
  assert (App.renderTimeline drawScene
            (App.set_renderer (resizeCanvas (App.renderer this')) this')
          = ([App.ClearRect 1200 (Renderer.displayHeight (resizeCanvas (App.renderer this')))],
             Some e)) as Hrender.
  { unfold App.renderTimeline. cbn [App.set_renderer App.renderer].
    rewrite Er. fold (loadData data (App.renderer this)). rewrite Hthrow.
    by cbn. }
  rewrite Hrender. cbn [fst snd].
  pose proof (startAnimation_throws id
                (App.set_renderer (resizeCanvas (App.renderer this')) this') e) as Hplay.
  cbn [App.set_renderer App.renderer App.isPlaying App.animationId] in *.
  rewrite Er in *. fold (loadData data (App.renderer this)) in *.
  specialize (Hplay Hthrow E1).
  repeat split.
  - done.
  - by rewrite !last_app.
  - apply Forall_app. split; [done|]. by repeat constructor.
  - by rewrite Hplay.
  - by rewrite Hplay.
  - by rewrite Hplay.
Qed.

End Controls.

Lemma buttons_follow_the_animation_witness :
  App.buttonsFollow AppExamples.fresh
  ∧ App.buttonsFollow
      (App.run AppExamples.quiet AppExamples.fresh
         [App.playClicked 1; App.fileRead (Some LayoutExamples.single);
          App.playClicked 2; App.timeoutFired; App.frameFired 3;
          App.fileRead (Some WindowExamples.backwardsData); App.playClicked 4;
          App.stopClicked]).1.
Proof.
  assert (App.buttonsFollow AppExamples.fresh) as Hfresh by (split; reflexivity).
  split; [exact Hfresh|].
  apply (buttons_follow_the_animation AppExamples.quiet AppExamples.fresh _ Hfresh).
Defined.

Lemma nothing_is_painted_after_stop_witness :
  let events := [App.stopClicked; App.timeoutFired; App.frameFired 8; App.frameFired 9] in
  (App.run AppExamples.quiet AppExamples.playing events).1
  = (App.handle AppExamples.quiet AppExamples.playing App.stopClicked).1
  ∧ App.isPlaying (App.run AppExamples.quiet AppExamples.playing events).1 = false
  ∧ Forall (λ e, App.paints e = false)
      (App.run AppExamples.quiet AppExamples.playing events).2.
Proof.
  apply (nothing_is_painted_after_stop AppExamples.quiet AppExamples.playing App.stopClicked
           [App.timeoutFired; App.frameFired 8; App.frameFired 9]);
    [left; reflexivity | reflexivity].
Defined.

Lemma failed_load_keeps_the_data_witness :
  ∃ e,
    calculateTimelinePositions
      (loadData WindowExamples.backwardsData (App.renderer AppExamples.playing)) = Throw e
    ∧ let loaded :=
        (App.loadFile AppExamples.quiet (Some WindowExamples.backwardsData)
                      AppExamples.playing).1 in
      App.isPlaying loaded = false
      ∧ App.isPlaying (App.startAnimation AppExamples.quiet 9 loaded).1 = true
      ∧ (App.startAnimation AppExamples.quiet 9 loaded).2
        = [App.ClearRect 1200 (Renderer.displayHeight (App.renderer loaded)); App.Uncaught e].
Proof.
  assert (∃ e, calculateTimelinePositions
                 (loadData WindowExamples.backwardsData (App.renderer AppExamples.playing))
               = Throw e) as [e Hthrow] by (eexists; vm_compute; reflexivity).
  exists e. split; [exact Hthrow|].
  destruct (failed_load_keeps_the_data AppExamples.quiet AppExamples.playing
              WindowExamples.backwardsData e 9%nat Hthrow)
    as (_ & Hstop & _ & _ & Hplay & _ & Heffects).
  repeat split; assumption.
Defined.
(* ===================================================================== *)
(** ** The lane resolver *)
(* ===================================================================== *)

Section LaneArray.
Implicit Types ls : list (option (list ref)).

Lemma laneAt_beyond ls i : (length ls <= i)%nat → laneAt ls i = None.
Proof. intros Hi. unfold laneAt. by rewrite lookup_ge_None_2. Qed.

Lemma laneAt_Some_lt ls i lane : laneAt ls i = Some lane → (i < length ls)%nat.
Proof.
  intros E. destruct (decide (i < length ls)%nat) as [|Hge]; [done|].
  rewrite laneAt_beyond in E by lia. done.
Qed.

Lemma length_setLane i lane ls : length (setLane i lane ls) = (length ls `max` S i)%nat.
Proof.
  unfold setLane. destruct (decide _).
  - rewrite length_insert. lia.
  - rewrite !length_app, length_replicate. cbn. lia.
Qed.

Lemma laneAt_setLane_eq i lane ls : laneAt (setLane i lane ls) i = Some lane.
Proof.
  unfold setLane, laneAt. destruct (decide _).
  - by rewrite list_lookup_insert_eq.
  - rewrite lookup_app_r by lia. rewrite lookup_app_r by (rewrite length_replicate; lia).
    rewrite length_replicate. by replace (i - length ls - (i - length ls))%nat with 0%nat by lia.
Qed.

Lemma laneAt_setLane_ne i j lane ls : j ≠ i → laneAt (setLane i lane ls) j = laneAt ls j.
Proof.
  intros Hne. unfold setLane, laneAt. destruct (decide _).
  - by rewrite list_lookup_insert_ne.
  - destruct (decide (j < length ls)%nat).
    + by rewrite lookup_app_l.
    + rewrite (lookup_ge_None_2 ls j) by lia. rewrite lookup_app_r by lia.
      destruct (decide (j < i)%nat).
      * rewrite lookup_app_l by (rewrite length_replicate; lia).
        rewrite lookup_replicate_2 by lia. done.
      * rewrite lookup_app_r by (rewrite length_replicate; lia).
        rewrite length_replicate. rewrite lookup_ge_None_2; [done|]. cbn. lia.
Qed.

Lemma length_ensureLane i ls : length (ensureLane i ls) = (length ls `max` S i)%nat.
Proof.
  unfold ensureLane. destruct (laneAt ls i) eqn:E.
  - apply laneAt_Some_lt in E. lia.
  - apply length_setLane.
Qed.

Lemma laneList_ensureLane i j ls : laneList (ensureLane i ls) j = laneList ls j.
Proof.
  unfold ensureLane, laneList. destruct (laneAt ls i) eqn:E; [done|].
  destruct (decide (j = i)) as [->|Hne].
  - by rewrite laneAt_setLane_eq, E.
  - by rewrite laneAt_setLane_ne.
Qed.

Lemma length_pushOnLane i r ls : length (pushOnLane i r ls) = (length ls `max` S i)%nat.
Proof. apply length_setLane. Qed.

Lemma laneList_pushOnLane_eq i r ls : laneList (pushOnLane i r ls) i = laneList ls i ++ [r].
Proof. unfold laneList, pushOnLane. by rewrite laneAt_setLane_eq. Qed.

Lemma laneList_pushOnLane_ne i j r ls : j ≠ i → laneList (pushOnLane i r ls) j = laneList ls j.
Proof. intros Hne. unfold laneList, pushOnLane. by rewrite laneAt_setLane_ne. Qed.

Lemma laneList_beyond ls i : (length ls <= i)%nat → laneList ls i = [].
Proof. intros Hi. unfold laneList. by rewrite laneAt_beyond. Qed.

Lemma occupied_laneList ls i : occupied ls i = (0 <? length (laneList ls i))%nat.
Proof. unfold occupied, laneList. by destruct (laneAt ls i). Qed.

End LaneArray.

Section LaneInvariant.
Implicit Types (heap : list PProject.t) (ls : list (option (list ref))).

Lemma hasOverlap_sym p q : hasOverlap p q = hasOverlap q p.
Proof. unfold hasOverlap. cbn. by rewrite orb_comm. Qed.

Lemma hasOverlap_set_y v w p q :
  hasOverlap (PProject.set_y v p) (PProject.set_y w q) = hasOverlap p q.
Proof. done. Qed.

Lemma lookup_alter_set_y heap r v a :
  alter (PProject.set_y v) r heap !! a
  = (if decide (a = r) then PProject.set_y v else id) <$> heap !! a.
Proof.
  destruct (decide (a = r)) as [->|Hne].
  - by rewrite list_lookup_alter_eq.
  - rewrite list_lookup_alter_ne by done. by destruct (heap !! a).
Qed.

Lemma overlapping_alter heap r v a b :
  overlapping (alter (PProject.set_y v) r heap) a b = overlapping heap a b.
Proof.
  unfold overlapping, ref in *. rewrite !lookup_alter_set_y.
  destruct (decide (a = r)), (decide (b = r)), (heap !! a) as [p|], (heap !! b) as [q|];
    reflexivity.
Qed.

Lemma overlapping_sym heap a b : overlapping heap a b = overlapping heap b a.
Proof.
  unfold overlapping, ref in *. destruct (heap !! a), (heap !! b); try done. apply hasOverlap_sym.
Qed.

Lemma yOf_alter_set_y heap r v a :
  yOf (alter (PProject.set_y v) r heap) a
  = if decide (a = r) then (λ _, v) <$> heap !! a else yOf heap a.
Proof.
  unfold yOf, ref in *. rewrite lookup_alter_set_y.
  destruct (decide (a = r)); by destruct (heap !! a).
Qed.

Lemma sameButY_alter heap heap0 r v :
  sameButY heap heap0 → sameButY (alter (PProject.set_y v) r heap) heap0.
Proof.
  unfold sameButY. intros <-. apply list_eq. intros a.
  rewrite !list_lookup_fmap, lookup_alter_set_y.
  destruct (decide (a = r)); by destruct (heap !! a).
Qed.

Lemma sameButY_length heap heap0 : sameButY heap heap0 → length heap = length heap0.
Proof. intros E. apply (f_equal length) in E. by rewrite !length_fmap in E. Qed.

Lemma laneInv_nil heap : laneInv heap [] [].
Proof.
  split; intros *; rewrite ?(laneList_beyond [] _) by (cbn; lia);
    try (intros Hin; by apply elem_of_nil in Hin).
  constructor.
Qed.

(** Putting a project that is not placed yet on a lane whose projects it
    does not overlap. *)
Lemma laneInv_place heap ls placed i r :
  laneInv heap ls placed → r ∉ placed → (r < length heap)%nat →
  (∀ a, a ∈ laneList ls i → overlapping heap r a = false) →
  laneInv (alter (PProject.set_y (yOfLane i)) r heap)
          (pushOnLane i r (ensureLane i ls)) (placed ++ [r]).
Proof.
  intros [Hy Hnd Hap Hpl Hln] Hfresh Hvalid Hfree.
  assert (∀ j, laneList (pushOnLane i r (ensureLane i ls)) j
               = if decide (j = i) then laneList ls i ++ [r] else laneList ls j) as Hlist.
  { intros j. destruct (decide (j = i)) as [->|Hne].
    - by rewrite laneList_pushOnLane_eq, laneList_ensureLane.
    - by rewrite laneList_pushOnLane_ne, laneList_ensureLane. }
  assert (∀ j, r ∉ laneList ls j) as Hnew by (intros j Hin; apply Hfresh; eauto).
  split.
  - intros j a. rewrite Hlist, yOf_alter_set_y.
    destruct (decide (j = i)) as [->|Hne].
    + rewrite elem_of_app, list_elem_of_singleton. intros [Hin | ->].
      * destruct (decide (a = r)) as [->|_]; [by apply Hnew in Hin | by apply Hy].
      * rewrite decide_True by done.
        destruct (lookup_lt_is_Some_2 heap r Hvalid) as [p Hp]. unfold ref in *.
        by rewrite Hp.
    + intros Hin. destruct (decide (a = r)) as [->|_]; [by apply Hnew in Hin | by apply Hy].
  - intros j. rewrite Hlist. destruct (decide (j = i)) as [->|Hne]; [|done].
    apply NoDup_app. split; [done|]. split; [|apply NoDup_singleton].
    intros a Hin Hr. apply list_elem_of_singleton in Hr as ->. by apply Hnew in Hin.
  - intros j a b. rewrite Hlist, overlapping_alter.
    destruct (decide (j = i)) as [->|Hne]; [|apply Hap].
    rewrite !elem_of_app, !list_elem_of_singleton.
    intros [Ha | ->] [Hb | ->] Hab.
    + by apply (Hap i).
    + rewrite overlapping_sym. by apply Hfree.
    + by apply Hfree.
    + done.
  - intros j a. rewrite Hlist, elem_of_app.
    destruct (decide (j = i)) as [->|Hne].
    + rewrite elem_of_app, !list_elem_of_singleton. intros [Hin | ->]; [left; eauto | by right].
    + intros Hin. left. eauto.
  - intros a. rewrite elem_of_app, list_elem_of_singleton. intros [Hin | ->].
    + destruct (Hln a Hin) as [j Hj]. exists j. rewrite Hlist.
      destruct (decide (j = i)) as [->|Hne]; [|done]. apply elem_of_app. by left.
    + exists i. rewrite Hlist, decide_True by done. apply elem_of_app. right.
      by apply list_elem_of_singleton.
Qed.

End LaneInvariant.

Section FirstPass.
Context `{ArraySort}.
Implicit Types (heap : list PProject.t) (ls : list (option (list ref))).

(** The members of one epic are put on fresh lanes, one below the other. *)
Lemma placeMembers heap0 start order : ∀ j heap ls placed,
  laneInv heap ls placed → sameButY heap heap0 → (length ls <= start + j)%nat →
  NoDup order → (∀ r, r ∈ order → (r ∉ placed) ∧ (r < length heap)%nat) →
  ∃ heap' ls',
    foldl (placeMember start) (heap, ls) (zip (seq j (length order)) order) = (heap', ls')
    ∧ laneInv heap' ls' (placed ++ order)
    ∧ sameButY heap' heap0
    ∧ (length ls <= length ls')%nat
    ∧ (order ≠ [] → length ls' = (start + j + length order)%nat)
    ∧ (∀ r, r ∉ order → heap' !! r = heap !! r)
    ∧ (∀ i r, order !! i = Some r → yOf heap' r = Some (yOfLane (start + j + i))).
Proof.
  induction order as [|r order IH]; intros j heap ls placed Hinv Hsame Hlen Hnd Hfresh.
  - exists heap, ls. rewrite app_nil_r. do 6 (split; [done|]). intros i r Hi. done.
  - apply NoDup_cons in Hnd as [Hr Hnd].
    destruct (Hfresh r) as [Hrp Hrv]; [by left|].
    cbn [length seq zip zip_with foldl]. unfold placeMember at 2. cbn [fst snd].
    pose proof (laneInv_place heap ls placed (start + j) r Hinv Hrp Hrv) as Hstep.
    rewrite laneList_beyond in Hstep by lia.
    specialize (Hstep ltac:(intros a Ha; by apply elem_of_nil in Ha)).
    destruct (IH (S j) _ _ _ Hstep (sameButY_alter _ _ _ _ Hsame))
      as (heap' & ls' & Hfold & Hinv' & Hsame' & Hmono & Hlen' & Hframe & Hys).
    { rewrite length_pushOnLane, length_ensureLane. lia. }
    { done. }
    { intros a Ha. destruct (Hfresh a) as [Hap Hav]; [by right|]. split.
      - rewrite elem_of_app, list_elem_of_singleton. intros [?| ->]; done.
      - by rewrite length_alter. }
    exists heap', ls'. split; [exact Hfold|].
    rewrite length_pushOnLane, length_ensureLane in Hmono.
    split; [by rewrite <- (assoc_L (++)) in Hinv' |]. split; [done|].
    split; [lia|]. split.
    { intros _. destruct order as [|r' order'].
      - cbn in Hfold. injection Hfold as <- <-.
        rewrite length_pushOnLane, length_ensureLane. cbn. lia.
      - rewrite Hlen' by done. cbn. lia. }
    split.
    + intros a Ha. rewrite Hframe by (intros Hin; apply Ha; by right).
      rewrite list_lookup_alter_ne; [done|]. intros ->. apply Ha. by left.
    + intros [|i] a Hi.
      * cbn in Hi. injection Hi as <-.
        destruct (lookup_lt_is_Some_2 heap r Hrv) as [p Hp].
        unfold yOf, ref in *. rewrite Hframe by done.
        rewrite list_lookup_alter_eq, Hp. cbn. by rewrite Nat.add_0_r.
      * cbn in Hi. rewrite (Hys i a Hi). do 2 f_equal. lia.
Qed.

Lemma yOfLane_mono i j : (i <= j)%nat → yOfLane i <= yOfLane j.
Proof. unfold yOfLane, lineHeight. lia. Qed.

Lemma boxesAbove_mono epicBoxes ls ls' :
  (length ls <= length ls')%nat → boxesAbove epicBoxes ls → boxesAbove epicBoxes ls'.
Proof.
  intros Hlen Hboxes. eapply Forall_impl; [exact Hboxes|]. intros box Hbox. cbn in *.
  pose proof (yOfLane_mono _ _ Hlen). lia.
Qed.

Lemma fmap_omap_sameButY {B} (f : PProject.t → B) heap heap0 (l : list ref) :
  (∀ p, f (PProject.set_y 0 p) = f p) → sameButY heap heap0 →
  f <$> omap (λ r, heap !! r) l = f <$> omap (λ r, heap0 !! r) l.
Proof.
  intros Hf Hsame. induction l as [|a l IH]; [done|]. cbn.
  assert (PProject.set_y 0 <$> heap !! a = PProject.set_y 0 <$> heap0 !! a) as Ha.
  { rewrite <- !list_lookup_fmap. unfold sameButY in Hsame. by rewrite Hsame. }
  unfold ref in *.
  destruct (heap !! a) as [p|], (heap0 !! a) as [p0|]; cbn in *; try done.
  assert (PProject.set_y 0 p = PProject.set_y 0 p0) as Hpp by congruence.
  rewrite IH. f_equal. by rewrite <- (Hf p), <- (Hf p0), Hpp.
Qed.

(** One group of the first pass: it starts at [currentLane], whatever the
    search for free lanes returns. *)
Lemma placeGroup_spec heap0 fuel st group placed :
  laneInv (Resolver.heap st) (Resolver.lanes st) placed →
  sameButY (Resolver.heap st) heap0 →
  (length (Resolver.lanes st) <= Resolver.currentLane st)%nat →
  (length (Resolver.lanes st) <= fuel)%nat →
  boxesAbove (Resolver.epicBoxes st) (Resolver.lanes st) →
  group ≠ [] → NoDup group →
  (∀ r, r ∈ group → (r ∉ placed) ∧ (r < length (Resolver.heap st))%nat) →
  ∃ st' order box,
    placeGroup fuel st group = Some st'
    ∧ order ≡ₚ group
    ∧ laneInv (Resolver.heap st') (Resolver.lanes st') (placed ++ order)
    ∧ sameButY (Resolver.heap st') heap0
    ∧ length (Resolver.lanes st') = (Resolver.currentLane st + length group)%nat
    ∧ Resolver.currentLane st' = (Resolver.currentLane st + length group + 2)%nat
    ∧ Resolver.epicBoxes st' = Resolver.epicBoxes st ++ [box]
    ∧ EpicBox.minY box = yOfLane (Resolver.currentLane st) - 35
    ∧ EpicBox.maxY box = yOfLane (Resolver.currentLane st + length group - 1) + 15
    ∧ boxesAbove (Resolver.epicBoxes st') (Resolver.lanes st')
    ∧ (∀ r, r ∉ group → Resolver.heap st' !! r = Resolver.heap st !! r)
    ∧ (∀ i r, order !! i = Some r →
              yOf (Resolver.heap st') r = Some (yOfLane (Resolver.currentLane st + i)))
    ∧ EpicBox.minX box = Num.Math_min (PProject.x1 <$> omap (λ r, heap0 !! r) order)
    ∧ EpicBox.maxX box
      = Num.Math_max ((λ p, num_or (PProject.x3 p) (PProject.x2 p))
                      <$> omap (λ r, heap0 !! r) order).
Proof.
  intros Hinv Hsame Hcur Hfuel Hboxes Hne Hnd Hfresh. unfold placeGroup.
  set (order := Array_sort _ group).
  assert (order ≡ₚ group) as Hperm by apply Array_sort_Permutation.
  assert (length order = length group) as Hlen by by rewrite Hperm.
  assert (order ≠ []) as Hne'.
  { intros E. rewrite E in Hperm. symmetry in Hperm. by apply Permutation_nil_r in Hperm. }
  unfold findAvailableLaneRange.
  destruct (findFrom_first (Resolver.lanes st) (length order) fuel 0)
    as (found & -> & _ & Hfound & _); [lia|]. cbn [mbind option_bind].
  replace (Resolver.currentLane st `max` found)%nat with (Resolver.currentLane st) by lia.
  destruct (placeMembers heap0 (Resolver.currentLane st) order 0 (Resolver.heap st)
              (Resolver.lanes st) placed Hinv Hsame)
    as (heap' & ls' & Hfold & Hinv' & Hsame' & Hmono & Hlen' & Hframe & Hys);
    [lia | by rewrite Hperm | by intros r Hr; apply Hfresh; rewrite <- Hperm |].
  specialize (Hlen' Hne'). rewrite Nat.add_0_r in Hlen'.
  unfold indexed. rewrite Hfold. cbn [fst snd].
  eexists _, order, _. split; [reflexivity|]. cbn [Resolver.heap Resolver.lanes
    Resolver.epicBoxes Resolver.currentLane EpicBox.minY EpicBox.maxY].
  split; [done|]. split; [done|]. split; [done|]. split; [lia|]. split; [lia|].
  split; [done|]. split; [done|].
  assert (length group ≠ 0%nat) as Hk by (by destruct group).
  split.
  { cbn [EpicBox.maxY]. unfold yOfLane, lineHeight. rewrite Hlen. lia. }
  split.
  - apply Forall_app. split.
    + by apply (boxesAbove_mono _ (Resolver.lanes st)).
    + constructor; [|constructor]. cbn. rewrite Hlen', Hlen. unfold yOfLane, lineHeight. lia.
  - split; [intros r Hr; apply Hframe; by rewrite Hperm|].
    split; [intros i r Hi; rewrite (Hys i r Hi); by rewrite Nat.add_0_r|].
    cbn [EpicBox.minX EpicBox.maxX].
    split; f_equal; by apply fmap_omap_sameButY.
Qed.

End FirstPass.

Section Groups.

Lemma filtered_refs_NoDup {A} (P : nat * A → Prop) `{!∀ e, Decision (P e)} (l : list A) :
  NoDup (filter P (indexed l)).*1.
Proof.
  eapply sublist_NoDup; [|apply fmap_sublist, sublist_filter].
  rewrite indexed_fst. apply NoDup_seq.
Qed.

Lemma elem_of_membersOfIndex projects k r :
  r ∈ membersOfIndex projects k
  ↔ ∃ p, projects !! r = Some p ∧ PProject.epicIndex p = Some k.
Proof.
  unfold membersOfIndex. rewrite list_elem_of_fmap. split.
  - intros ([r' a] & -> & Hin). apply list_elem_of_filter in Hin as [HP Hin].
    apply indexed_lookup in Hin. eauto.
  - intros (a & Ha & HP). exists (r, a). split; [done|].
    apply list_elem_of_filter. split; [done|]. by apply indexed_lookup.
Qed.

Lemma elem_of_standaloneOf projects r :
  r ∈ standaloneOf projects ↔ ∃ p, projects !! r = Some p ∧ PProject.epicIndex p = None.
Proof.
  unfold standaloneOf. rewrite list_elem_of_fmap. split.
  - intros ([r' a] & -> & Hin). apply list_elem_of_filter in Hin as [HP Hin].
    apply indexed_lookup in Hin. eauto.
  - intros (a & Ha & HP). exists (r, a). split; [done|].
    apply list_elem_of_filter. split; [done|]. by apply indexed_lookup.
Qed.

Lemma foldl_fileUnderEpic l : ∀ epicGroups k,
  foldl fileUnderEpic epicGroups l !! k
  = match (filter (λ entry, PProject.epicIndex entry.2 = Some k) l).*1 with
    | [] => epicGroups !! k
    | more => Some (default [] (epicGroups !! k) ++ more)
    end.
Proof.
  induction l as [|[r p] l IH]; intros epicGroups k; [done|].
  cbn [foldl]. rewrite IH. unfold fileUnderEpic. cbn [fst snd].
  destruct (decide (PProject.epicIndex p = Some k)) as [E|Hne].
  - rewrite filter_cons_True by done. rewrite E. rewrite !lookup_insert_eq.
    cbn [fmap list_fmap fst default].
    destruct ((filter _ l).*1); [done|]. unfold id. by rewrite <- (assoc_L (++)).
  - rewrite filter_cons_False by done.
    destruct (PProject.epicIndex p) as [k'|]; [|done].
    rewrite !lookup_insert_ne by congruence. done.
Qed.

Lemma groupEpics_lookup projects k :
  groupEpics projects !! k
  = match membersOfIndex projects k with
    | [] => None
    | members => Some members
    end.
Proof. unfold groupEpics. rewrite foldl_fileUnderEpic. done. Qed.

Lemma Object_keys_elem {A} (o : gmap nat A) k : k ∈ Object_keys o ↔ is_Some (o !! k).
Proof.
  unfold Object_keys. rewrite merge_sort_Permutation.
  rewrite list_elem_of_fmap. split.
  - intros ([k' a] & -> & Hin). apply elem_of_map_to_list in Hin. eauto.
  - intros [a Ha]. exists (k, a). split; [done|]. by apply elem_of_map_to_list.
Qed.

Lemma Object_keys_NoDup {A} (o : gmap nat A) : NoDup (Object_keys o).
Proof. unfold Object_keys. rewrite merge_sort_Permutation. apply NoDup_fst_map_to_list. Qed.

Lemma Object_keys_sorted {A} (o : gmap nat A) : StronglySorted le (Object_keys o).
Proof. unfold Object_keys. apply StronglySorted_merge_sort; apply _. Qed.

Lemma omap_total {A B} (f : A → option B) (g : A → B) (l : list A) :
  (∀ a, a ∈ l → f a = Some (g a)) → omap f l = g <$> l.
Proof.
  induction l as [|a l IH]; intros Hall; [done|]. cbn.
  rewrite Hall by by left. cbn. f_equal. apply IH. intros b Hb. apply Hall. by right.
Qed.

Lemma groupsInOrder_keys projects :
  groupsInOrder projects
  = membersOfIndex projects <$> Object_keys (groupEpics projects).
Proof.
  unfold groupsInOrder. apply omap_total. intros k Hk.
  apply Object_keys_elem in Hk as [g Hg]. rewrite groupEpics_lookup in Hg |- *.
  by destruct (membersOfIndex projects k).
Qed.

Lemma keys_have_members projects k :
  k ∈ Object_keys (groupEpics projects) ↔ membersOfIndex projects k ≠ [].
Proof.
  rewrite Object_keys_elem, groupEpics_lookup.
  destruct (membersOfIndex projects k); split; done.
Qed.

End Groups.

Section Passes.
Context `{ArraySort}.

Lemma forEachOpt_None {S A} (f : S → A → option S) (l : list A) :
  foldl (λ acc a, acc ≫= λ st, f st a) None l = None.
Proof. by induction l. Qed.

Lemma forEachOpt_cons {S A} (f : S → A → option S) (st : S) (a : A) (l : list A) :
  forEachOpt f st (a :: l) = f st a ≫= λ st', forEachOpt f st' l.
Proof.
  unfold forEachOpt. cbn [foldl mbind option_bind].
  destruct (f st a); [done|]. apply forEachOpt_None.
Qed.

Lemma lanesTaken_cons projects k keys :
  lanesTaken projects (k :: keys)
  = (length (membersOfIndex projects k) + 2 + lanesTaken projects keys)%nat.
Proof. done. Qed.

(** The first pass over the groups of the keys [keys]. *)
Lemma firstPass_spec projects fuel keys : ∀ st placed,
  NoDup keys → (∀ k, k ∈ keys → membersOfIndex projects k ≠ []) →
  laneInv (Resolver.heap st) (Resolver.lanes st) placed →
  sameButY (Resolver.heap st) projects →
  (length (Resolver.lanes st) <= Resolver.currentLane st)%nat →
  boxesAbove (Resolver.epicBoxes st) (Resolver.lanes st) →
  (∀ r k, r ∈ placed → r ∈ membersOfIndex projects k → k ∉ keys) →
  (Resolver.currentLane st + lanesTaken projects keys <= fuel)%nat →
  ∃ st' placed' more,
    forEachOpt (placeGroup fuel) st (membersOfIndex projects <$> keys) = Some st'
    ∧ laneInv (Resolver.heap st') (Resolver.lanes st') placed'
    ∧ sameButY (Resolver.heap st') projects
    ∧ (length (Resolver.lanes st') <= Resolver.currentLane st')%nat
    ∧ boxesAbove (Resolver.epicBoxes st') (Resolver.lanes st')
    ∧ Resolver.currentLane st' = (Resolver.currentLane st + lanesTaken projects keys)%nat
    ∧ (∀ r, r ∈ placed' ↔ r ∈ placed ∨ ∃ k, k ∈ keys ∧ r ∈ membersOfIndex projects k)
    ∧ Resolver.epicBoxes st' = Resolver.epicBoxes st ++ more
    ∧ length more = length keys
    ∧ (∀ r, (∀ k, k ∈ keys → r ∉ membersOfIndex projects k) →
            Resolver.heap st' !! r = Resolver.heap st !! r)
    ∧ (∀ before k after, keys = before ++ k :: after →
         ∃ order box,
           order ≡ₚ membersOfIndex projects k
           ∧ (∀ i r, order !! i = Some r →
                     yOf (Resolver.heap st') r
                     = Some (yOfLane (Resolver.currentLane st
                                      + lanesTaken projects before + i)))
           ∧ more !! length before = Some box
           ∧ EpicBox.minY box
             = yOfLane (Resolver.currentLane st + lanesTaken projects before) - 35
           ∧ EpicBox.maxY box
             = yOfLane (Resolver.currentLane st + lanesTaken projects before
                        + length (membersOfIndex projects k) - 1) + 15
           ∧ EpicBox.minX box = Num.Math_min (PProject.x1 <$> omap (λ r, projects !! r) order)
           ∧ EpicBox.maxX box
             = Num.Math_max ((λ p, num_or (PProject.x3 p) (PProject.x2 p))
                             <$> omap (λ r, projects !! r) order)).
Proof.
  induction keys as [|k keys IH];
    intros st placed Hnd Hne Hinv Hsame Hcur Hboxes Hplaced Hfuel.
  - exists st, placed, []. cbn. rewrite app_nil_r, Nat.add_0_r.
    do 6 (split; [done|]). split.
    { intros r. split; [by left|]. intros [?|(k & Hk & _)]; [done|]. by apply elem_of_nil in Hk. }
    do 3 (split; [done|]). intros [|? ?] ? ? [=].
  - apply NoDup_cons in Hnd as [Hk Hnd]. rewrite lanesTaken_cons in Hfuel.
    cbn [fmap list_fmap]. rewrite forEachOpt_cons.
    destruct (placeGroup_spec projects fuel st (membersOfIndex projects k) placed)
      as (st1 & order & box & -> & Hperm & Hinv1 & Hsame1 & Hlen1 & Hcur1 & Hbox1 & HminY
          & HmaxY & Hboxes1 & Hframe1 & Hys1 & HminX & HmaxX); try done.
    { lia. }
    { apply Hne. by left. }
    { apply filtered_refs_NoDup. }
    { intros r Hr. split.
      - intros Hin. apply (Hplaced r k Hin Hr). by left.
      - apply elem_of_membersOfIndex in Hr as (p & Hp & _).
        rewrite (sameButY_length _ _ Hsame). by eapply lookup_lt_Some. }
    cbn [mbind option_bind].
    destruct (IH st1 (placed ++ order)) as
      (st' & placed' & more & Hrun & Hinv' & Hsame' & Hlen' & Hboxes' & Hcur' & Hpl' & Hmore
       & Hmlen & Hframe' & Hgroups); try done.
    { intros k' Hk'. apply Hne. by right. }
    { lia. }
    { intros r k' Hr Hrk' Hk'. apply elem_of_app in Hr as [Hr|Hr].
      - apply (Hplaced r k' Hr Hrk'). by right.
      - rewrite Hperm in Hr.
        apply elem_of_membersOfIndex in Hr as (p & Hp & Hpk).
        apply elem_of_membersOfIndex in Hrk' as (p' & Hp' & Hpk').
        assert (k' = k) as -> by congruence. done. }
    { lia. }
    exists st', placed', (box :: more). split; [exact Hrun|].
    do 4 (split; [done|]). split; [rewrite lanesTaken_cons; lia|]. split.
    { intros r. rewrite Hpl', elem_of_app, Hperm. split.
      - intros [[Hr|Hr]|(k' & Hk' & Hr)]; [by left| |].
        + right. exists k. split; [by left | done].
        + right. exists k'. split; [by right | done].
      - intros [Hr|(k' & Hk' & Hr)]; [by left; left|].
        apply elem_of_cons in Hk' as [->|Hk']; [by left; right|].
        right. eauto. }
    split; [by rewrite Hmore, Hbox1, <- (assoc_L (++))|].
    split; [by cbn; rewrite Hmlen|]. split.
    { intros r Hr. rewrite Hframe'.
      - apply Hframe1. apply Hr. by left.
      - intros k' Hk'. apply Hr. by right. }
    intros [|k0 before] k1 after Hkeys; cbn in Hkeys; injection Hkeys as -> ->.
    + exists order, box. split; [done|]. split.
      { intros i r Hi.
        replace (Resolver.currentLane st + lanesTaken projects [] + i)%nat
          with (Resolver.currentLane st + i)%nat by (cbn; lia).
        rewrite <- (Hys1 i r Hi). unfold yOf. rewrite Hframe'; [done|].
        intros k' Hk' Hin.
          assert (r ∈ membersOfIndex projects k1) as Hr1.
          { rewrite <- Hperm. by eapply list_elem_of_lookup_2. }
          apply elem_of_membersOfIndex in Hr1 as (p & Hp & Hpk).
          apply elem_of_membersOfIndex in Hin as (p' & Hp' & Hpk').
          assert (k' = k1) as -> by congruence. done. }
      replace (Resolver.currentLane st + lanesTaken projects [])%nat
        with (Resolver.currentLane st) by (cbn; lia).
      done.
    + destruct (Hgroups before k1 after eq_refl)
        as (order' & box' & Hperm' & Hys' & Hb' & Hmin' & Hmax' & HminX' & HmaxX').
      exists order', box'. split; [done|]. rewrite lanesTaken_cons.
      replace (Resolver.currentLane st + (length (membersOfIndex projects k0) + 2
                 + lanesTaken projects before))%nat
        with (Resolver.currentLane st1 + lanesTaken projects before)%nat by lia.
      done.
Qed.

Lemma laneInv_ensureLane heap ls placed i :
  laneInv heap ls placed → laneInv heap (ensureLane i ls) placed.
Proof.
  intros [Hy Hnd Hap Hpl Hln]. split; intros *; rewrite ?laneList_ensureLane; eauto.
  intros Hr. destruct (Hln _ Hr) as [j Hj]. exists j. by rewrite laneList_ensureLane.
Qed.

Lemma existsb_false {A} (f : A → bool) (l : list A) :
  existsb f l = false ↔ Forall (λ a, f a = false) l.
Proof.
  induction l as [|a l IH]; cbn; [by split; [constructor|]|].
  rewrite orb_false_iff, IH. split; [by intros []; constructor | by inversion 1].
Qed.

Lemma collides_false heap epicBoxes r lane y p :
  heap !! r = Some p →
  collides heap epicBoxes r lane y = false
  ↔ (∀ a, a ∈ lane → overlapping heap r a = false)
    ∧ Forall (λ box, projectCollidesWithEpicBox p y box = false) epicBoxes.
Proof.
  intros Hp. unfold collides, overlapping, ref in *. rewrite Hp.
  rewrite orb_false_iff, !existsb_false, Forall_forall. done.
Qed.

Lemma collides_beyond heap epicBoxes r ls i :
  boxesAbove epicBoxes ls → (length ls <= i)%nat →
  collides heap epicBoxes r [] (yOfLane i) = false.
Proof.
  intros Hboxes Hi. unfold collides. destruct (heap !! r) as [p|]; [|done]. cbn [existsb orb].
  apply existsb_false. eapply Forall_impl; [exact Hboxes|]. intros box Hbox. cbn in Hbox.
  pose proof (yOfLane_mono _ _ Hi). unfold projectCollidesWithEpicBox.
  replace (EpicBox.maxY box <? yOfLane i - 15) with true by (symmetry; apply Z.ltb_lt; lia).
  by rewrite orb_true_r, andb_false_r.
Qed.

(** The loop of the second pass ends, at the first lane beyond the array
    at the latest, and puts the project where it collides with nothing. *)
Lemma placeFrom_spec heap0 epicBoxes r heap placed : ∀ fuel ls laneIndex,
  laneInv heap ls placed → sameButY heap heap0 → boxesAbove epicBoxes ls →
  r ∉ placed → (r < length heap)%nat →
  (laneIndex <= length ls)%nat → (length ls <= laneIndex + fuel)%nat →
  ∃ heap' ls' p',
    placeFrom fuel epicBoxes r heap ls laneIndex = Some (heap', ls')
    ∧ laneInv heap' ls' (placed ++ [r])
    ∧ sameButY heap' heap0
    ∧ boxesAbove epicBoxes ls'
    ∧ (length ls <= length ls' <= S (length ls))%nat
    ∧ (∀ a, a ≠ r → heap' !! a = heap !! a)
    ∧ heap' !! r = Some p'
    ∧ Forall (λ box, projectCollidesWithEpicBox p' (PProject.y p') box = false) epicBoxes.
Proof.
  intros fuel. induction fuel as [|fuel IH];
    intros ls laneIndex Hinv Hsame Hboxes Hfresh Hvalid Hlo Hhi; cbn [placeFrom];
    fold (laneList (ensureLane laneIndex ls) laneIndex); rewrite laneList_ensureLane;
    destruct (lookup_lt_is_Some_2 heap r Hvalid) as [p Hp];
    destruct (collides heap epicBoxes r (laneList ls laneIndex) (yOfLane laneIndex)) eqn:E.
  - rewrite laneList_beyond, (collides_beyond _ _ _ ls) in E by (done || lia). done.
  - apply (collides_false _ _ _ _ _ p Hp) in E as [Hfree Hclear].
    eexists _, _, (PProject.set_y (yOfLane laneIndex) p). split; [reflexivity|].
    split; [by apply laneInv_place|]. split; [by apply sameButY_alter|].
    rewrite length_pushOnLane, length_ensureLane.
    split; [apply (boxesAbove_mono _ ls); [rewrite length_pushOnLane, length_ensureLane; lia | done]|].
    split; [lia|]. split; [by intros a Ha; rewrite list_lookup_alter_ne|].
    split; [unfold ref in *; by rewrite list_lookup_alter_eq, Hp|]. done.
  - assert (laneIndex < length ls)%nat as Hin.
    { destruct (decide (laneIndex < length ls)%nat) as [|Hge]; [done|].
      rewrite laneList_beyond, (collides_beyond _ _ _ ls) in E by (done || lia). done. }
    destruct (IH (ensureLane laneIndex ls) (S laneIndex))
      as (heap' & ls' & p' & Hrun & Hinv' & Hsame' & Hboxes' & Hlen' & Hframe & Hp' & Hclear);
      try done.
    + by apply laneInv_ensureLane.
    + apply (boxesAbove_mono _ ls); [rewrite length_ensureLane; lia | done].
    + rewrite length_ensureLane. lia.
    + rewrite length_ensureLane. lia.
    + rewrite length_ensureLane in Hlen'. exists heap', ls', p'.
      do 4 (split; [done|]). split; [lia|]. done.
  - apply (collides_false _ _ _ _ _ p Hp) in E as [Hfree Hclear].
    eexists _, _, (PProject.set_y (yOfLane laneIndex) p). split; [reflexivity|].
    split; [by apply laneInv_place|]. split; [by apply sameButY_alter|].
    rewrite length_pushOnLane, length_ensureLane.
    split; [apply (boxesAbove_mono _ ls); [rewrite length_pushOnLane, length_ensureLane; lia | done]|].
    split; [lia|]. split; [by intros a Ha; rewrite list_lookup_alter_ne|].
    split; [unfold ref in *; by rewrite list_lookup_alter_eq, Hp|]. done.
Qed.

Lemma placeStandalone_spec projects fuel st r placed :
  laneInv (Resolver.heap st) (Resolver.lanes st) placed →
  sameButY (Resolver.heap st) projects →
  boxesAbove (Resolver.epicBoxes st) (Resolver.lanes st) →
  r ∉ placed → (r < length projects)%nat →
  (length (Resolver.lanes st) <= fuel)%nat →
  ∃ heap' ls' p',
    placeStandalone fuel st r
    = Some (Resolver.mk heap' ls' (Resolver.epicBoxes st) (Resolver.currentLane st))
    ∧ laneInv heap' ls' (placed ++ [r])
    ∧ sameButY heap' projects
    ∧ boxesAbove (Resolver.epicBoxes st) ls'
    ∧ (length (Resolver.lanes st) <= length ls' <= S (length (Resolver.lanes st)))%nat
    ∧ (∀ a, a ≠ r → heap' !! a = Resolver.heap st !! a)
    ∧ heap' !! r = Some p'
    ∧ Forall (λ box, projectCollidesWithEpicBox p' (PProject.y p') box = false)
             (Resolver.epicBoxes st).
Proof.
  intros Hinv Hsame Hboxes Hfresh Hvalid Hfuel. unfold placeStandalone.
  destruct (placeFrom_spec projects (Resolver.epicBoxes st) r (Resolver.heap st) placed
              fuel (Resolver.lanes st) 0)
    as (heap1 & ls1 & p1 & -> & Hrest); try done.
  { by rewrite (sameButY_length _ _ Hsame). }
  { lia. }
  exists heap1, ls1, p1. done.
Qed.

(** The second pass over the standalone projects [rs]. *)
Lemma secondPass_spec projects fuel rs : ∀ st placed,
  NoDup rs → (∀ r, r ∈ rs → (r ∉ placed) ∧ (r < length projects)%nat) →
  laneInv (Resolver.heap st) (Resolver.lanes st) placed →
  sameButY (Resolver.heap st) projects →
  boxesAbove (Resolver.epicBoxes st) (Resolver.lanes st) →
  (length (Resolver.lanes st) + length rs <= fuel)%nat →
  ∃ st',
    forEachOpt (placeStandalone fuel) st rs = Some st'
    ∧ laneInv (Resolver.heap st') (Resolver.lanes st') (placed ++ rs)
    ∧ sameButY (Resolver.heap st') projects
    ∧ Resolver.epicBoxes st' = Resolver.epicBoxes st
    ∧ (length (Resolver.lanes st') <= length (Resolver.lanes st) + length rs)%nat
    ∧ (∀ a, a ∉ rs → Resolver.heap st' !! a = Resolver.heap st !! a)
    ∧ (∀ r, r ∈ rs →
            ∃ p, Resolver.heap st' !! r = Some p
                 ∧ Forall (λ box, projectCollidesWithEpicBox p (PProject.y p) box = false)
                          (Resolver.epicBoxes st)).
Proof.
  induction rs as [|r rs IH]; intros st placed Hnd Hfresh Hinv Hsame Hboxes Hfuel.
  - exists st. rewrite app_nil_r. do 4 (split; [done|]). split; [cbn; lia|].
    split; [done|]. intros r Hr. by apply elem_of_nil in Hr.
  - apply NoDup_cons in Hnd as [Hr Hnd]. destruct (Hfresh r) as [Hrp Hrv]; [by left|].
    rewrite forEachOpt_cons.
    destruct (placeStandalone_spec projects fuel st r placed)
      as (heap1 & ls1 & p1 & -> & Hinv1 & Hsame1 & Hboxes1 & Hlen1 & Hframe1 & Hp1 & Hclear1);
      try done.
    { cbn in Hfuel. lia. }
    cbn [mbind option_bind fst snd].
    destruct (IH (Resolver.mk heap1 ls1 (Resolver.epicBoxes st) (Resolver.currentLane st))
                 (placed ++ [r]))
      as (st' & Hrun & Hinv' & Hsame' & Hboxes' & Hlen' & Hframe' & Hclear'); try done.
    { intros a Ha. destruct (Hfresh a) as [Hap Hav]; [by right|]. split; [|done].
      rewrite elem_of_app, list_elem_of_singleton. intros [?| ->]; done. }
    { cbn in *. lia. }
    exists st'. split; [exact Hrun|]. split; [by rewrite <- (assoc_L (++)) in Hinv'|].
    split; [done|]. split; [done|]. split; [cbn in *; lia|]. split.
    { intros a Ha. rewrite Hframe' by (intros Hin; apply Ha; by right).
      apply Hframe1. intros ->. apply Ha. by left. }
    intros a Ha. apply elem_of_cons in Ha as [->|Ha]; [|by apply Hclear'].
    exists p1. split; [|done]. by rewrite Hframe'.
Qed.

End Passes.

Section Counting.

Lemma sum_list_fmap_add {A} (f g : A → nat) (l : list A) :
  sum_list ((λ a, f a + g a)%nat <$> l) = (sum_list (f <$> l) + sum_list (g <$> l))%nat.
Proof. induction l as [|a l IH]; cbn; [done|]. rewrite IH. lia. Qed.

Lemma sum_list_indicator (keys : list nat) (o : option nat) :
  NoDup keys →
  (sum_list ((λ k, if decide (o = Some k) then 1 else 0)%nat <$> keys)
   <= if o is Some _ then 1 else 0)%nat.
Proof.
  induction 1 as [|k keys Hk Hnd IH]; cbn; [destruct o; lia|].
  destruct (decide (o = Some k)) as [->|Hne]; [|lia].
  assert (sum_list ((λ k', if decide (Some k = Some k') then 1 else 0)%nat <$> keys) = 0%nat)
    as ->; [|lia].
  clear IH Hnd. induction keys as [|k' keys IH]; [done|]. cbn.
  apply not_elem_of_cons in Hk as [Hne Hk].
  rewrite decide_False by congruence. by apply IH.
Qed.

(** The groups and the standalone projects share out the array. *)
Lemma members_count (projects : list PProject.t) (keys : list nat) :
  NoDup keys →
  (sum_list ((λ k, length (filter (λ p, PProject.epicIndex p = Some k) projects)) <$> keys)
   + length (filter (λ p, PProject.epicIndex p = None) projects)
   <= length projects)%nat.
Proof.
  intros Hnd. induction projects as [|p projects IH]; cbn [length].
  - rewrite filter_nil. cbn. induction keys; cbn; [lia|].
    apply NoDup_cons in Hnd as [_ Hnd]. specialize (IHkeys Hnd). lia.
  - pose proof (sum_list_indicator keys (PProject.epicIndex p) Hnd) as Hind.
    assert (sum_list ((λ k, length (filter (λ p, PProject.epicIndex p = Some k)
                                           (p :: projects))) <$> keys)
            = (sum_list ((λ k, if decide (PProject.epicIndex p = Some k) then 1 else 0)%nat
                         <$> keys)
               + sum_list ((λ k, length (filter (λ p, PProject.epicIndex p = Some k) projects))
                          <$> keys))%nat) as ->.
    { rewrite <- sum_list_fmap_add. f_equal. apply list_fmap_ext. intros _ k _.
      destruct (decide (PProject.epicIndex p = Some k)).
      - by rewrite filter_cons_True.
      - by rewrite filter_cons_False. }
    destruct (PProject.epicIndex p) as [k|] eqn:E.
    + rewrite (filter_cons_False _ p) by (cbn; congruence). lia.
    + rewrite (filter_cons_True _ p) by (cbn; congruence). cbn [length]. lia.
Qed.

Lemma length_membersOfIndex projects k :
  length (membersOfIndex projects k)
  = length (filter (λ p, PProject.epicIndex p = Some k) projects).
Proof.
  unfold membersOfIndex, indexed. rewrite length_fmap.
  exact (filter_indexed_length (λ p, PProject.epicIndex p = Some k) projects 0).
Qed.

Lemma length_standaloneOf projects :
  length (standaloneOf projects)
  = length (filter (λ p, PProject.epicIndex p = None) projects).
Proof.
  unfold standaloneOf, indexed. rewrite length_fmap.
  exact (filter_indexed_length (λ p, PProject.epicIndex p = None) projects 0).
Qed.

(** With two spare lanes after each group, the lanes of the first pass
    and one lane for every standalone project are at most three lanes for
    every project. *)
Lemma lanes_budget projects keys :
  NoDup keys → (∀ k, k ∈ keys → membersOfIndex projects k ≠ []) →
  (lanesTaken projects keys + length (standaloneOf projects) <= 3 * length projects)%nat.
Proof.
  intros Hnd Hne. pose proof (members_count projects keys Hnd) as Hcount.
  rewrite length_standaloneOf.
  assert (lanesTaken projects keys
          <= 3 * sum_list ((λ k, length (filter (λ p, PProject.epicIndex p = Some k) projects))
                           <$> keys))%nat; [|lia].
  clear Hcount Hnd. unfold lanesTaken. induction keys as [|k keys IH]; cbn; [lia|].
  assert (membersOfIndex projects k ≠ []) as Hk by (apply Hne; by left).
  rewrite <- length_membersOfIndex.
  assert (length (membersOfIndex projects k) ≠ 0%nat)
    by (by destruct (membersOfIndex projects k)).
  specialize (IH ltac:(intros k' Hk'; apply Hne; by right)). lia.
Qed.

End Counting.

Section Resolved.
Context `{ArraySort}.

(** Both passes together: what holds when [resolveCollisions] returns. *)
Lemma resolved_spec projects fuel :
  (3 * length projects <= fuel)%nat →
  ∃ st placed,
    resolved fuel projects = Some st
    ∧ laneInv (Resolver.heap st) (Resolver.lanes st) placed
    ∧ sameButY (Resolver.heap st) projects
    ∧ (∀ r, (r < length projects)%nat → r ∈ placed)
    ∧ (length (Resolver.lanes st) <= 3 * length projects)%nat
    ∧ length (Resolver.epicBoxes st) = length (Object_keys (groupEpics projects))
    ∧ (∀ r, r ∈ standaloneOf projects →
            ∃ p, Resolver.heap st !! r = Some p
                 ∧ Forall (λ box, projectCollidesWithEpicBox p (PProject.y p) box = false)
                          (Resolver.epicBoxes st))
    ∧ (∀ before k after, Object_keys (groupEpics projects) = before ++ k :: after →
         ∃ order box,
           order ≡ₚ membersOfIndex projects k
           ∧ (∀ i r, order !! i = Some r →
                     yOf (Resolver.heap st) r
                     = Some (yOfLane (lanesTaken projects before + i)))
           ∧ Resolver.epicBoxes st !! length before = Some box
           ∧ EpicBox.minY box = yOfLane (lanesTaken projects before) - 35
           ∧ EpicBox.maxY box
             = yOfLane (lanesTaken projects before
                        + length (membersOfIndex projects k) - 1) + 15
           ∧ EpicBox.minX box = Num.Math_min (PProject.x1 <$> omap (λ r, projects !! r) order)
           ∧ EpicBox.maxX box
             = Num.Math_max ((λ p, num_or (PProject.x3 p) (PProject.x2 p))
                             <$> omap (λ r, projects !! r) order)).
Proof.
  intros Hfuel. unfold resolved. rewrite groupsInOrder_keys.
  set (keys := Object_keys (groupEpics projects)).
  assert (NoDup keys) as Hnd by apply Object_keys_NoDup.
  assert (∀ k, k ∈ keys → membersOfIndex projects k ≠ []) as Hne
    by (intros k; apply keys_have_members).
  pose proof (lanes_budget projects keys Hnd Hne) as Hbudget.
  destruct (firstPass_spec projects fuel keys (Resolver.mk projects [] [] 0) [])
    as (st1 & placed1 & more & -> & Hinv1 & Hsame1 & Hlen1 & Hboxes1 & Hcur1 & Hpl1 & Hmore
        & Hmlen & Hframe1 & Hgroups); try done.
  { apply laneInv_nil. }
  { constructor. }
  { intros r k Hr. by apply elem_of_nil in Hr. }
  { cbn. lia. }
  cbn [mbind option_bind]. cbn in Hcur1, Hmore.
  destruct (secondPass_spec projects fuel (standaloneOf projects) st1 placed1)
    as (st2 & -> & Hinv2 & Hsame2 & Hboxes2 & Hlen2 & Hframe2 & Hclear2); try done.
  { apply filtered_refs_NoDup. }
  { intros r Hr. apply elem_of_standaloneOf in Hr as (p & Hp & Hnone). split.
    - rewrite Hpl1. intros [Hr|(k & _ & Hr)]; [by apply elem_of_nil in Hr|].
      apply elem_of_membersOfIndex in Hr as (p' & Hp' & Hsome). congruence.
    - by eapply lookup_lt_Some. }
  { lia. }
  exists st2, (placed1 ++ standaloneOf projects). split; [done|].
  split; [done|]. split; [done|]. split.
  { intros r Hr. destruct (lookup_lt_is_Some_2 projects r Hr) as [p Hp].
    apply elem_of_app. destruct (PProject.epicIndex p) as [k|] eqn:E.
    - left. apply Hpl1. right. exists k.
      assert (r ∈ membersOfIndex projects k) as Hin by (apply elem_of_membersOfIndex; eauto).
      split; [|done]. apply keys_have_members. intros Hnil. rewrite Hnil in Hin.
      by apply elem_of_nil in Hin.
    - right. apply elem_of_standaloneOf. eauto. }
  split; [lia|]. split; [by rewrite Hboxes2, Hmore|]. split.
  { intros r Hr. rewrite Hboxes2. by apply Hclear2. }
  intros before k after Hkeys.
  destruct (Hgroups before k after Hkeys)
    as (order & box & Hperm & Hys & Hbox & HminY & HmaxY & HminX & HmaxX).
  cbn [Resolver.currentLane Nat.add] in Hys, HminY, HmaxY.
  exists order, box. split; [done|]. split.
  { intros i r Hi. rewrite <- (Hys i r Hi). unfold yOf. rewrite Hframe2; [done|].
    intros Hin. apply elem_of_standaloneOf in Hin as (p & Hp & Hnone).
    assert (r ∈ membersOfIndex projects k) as Hr
      by (rewrite <- Hperm; by eapply list_elem_of_lookup_2).
    apply elem_of_membersOfIndex in Hr as (p' & Hp' & Hsome). congruence. }
  rewrite Hboxes2, Hmore. done.
Qed.

Lemma yOfLane_inj i j : yOfLane i = yOfLane j → i = j.
Proof. unfold yOfLane, lineHeight. lia. Qed.

End Resolved.

(** X24: [resolveCollisions] returns, and it only assigns [y].  With fuel
    for three lanes per project both loops end; the array that comes back
    holds the same objects, changed in [y] at most, and every project lies
    on the ordinate [120 + 40 * lane] of a lane below [3 * n]. *)
Theorem resolveCollisions_returns `{ArraySort} (projects : list PProject.t) (fuel : nat) :
  (3 * length projects <= fuel)%nat →
  ∃ result,
    resolveCollisions fuel projects = Some result
    ∧ sameButY result projects
    ∧ Forall (λ p, ∃ lane, (lane < 3 * length projects)%nat ∧ PProject.y p = yOfLane lane)
             result.
Proof.
  intros Hfuel.
  destruct (resolved_spec projects fuel Hfuel)
    as (st & placed & Hrun & Hinv & Hsame & Hall & Hlanes & _).
  unfold resolveCollisions. rewrite Hrun. exists (Resolver.heap st).
  split; [done|]. split; [done|].
  apply Forall_lookup. intros r p Hp.
  assert (r < length projects)%nat as Hr
    by (rewrite <- (sameButY_length _ _ Hsame); by eapply lookup_lt_Some).
  destruct (inv_lane _ _ _ Hinv r (Hall r Hr)) as [i Hi].
  pose proof (inv_y _ _ _ Hinv i r Hi) as Hy. unfold yOf, ref in *. rewrite Hp in Hy.
  injection Hy as Hy. exists i. split; [|done].
  destruct (decide (i < length (Resolver.lanes st))%nat) as [Hlt|Hge].
  - unfold ref in *. lia.
  - rewrite laneList_beyond in Hi by (unfold ref in *; lia). by apply elem_of_nil in Hi.
Qed.

(** X25: two projects that [resolveCollisions] puts on the same ordinate do
    not overlap.  With fuel for three lanes per project the resolver
    returns, and any two different projects of the result that have the
    same [y] are more than the buffer of 10 apart: [hasOverlap] is false
    for them, in both orders. *)
Theorem lane_mates_do_not_overlap `{ArraySort} (projects : list PProject.t) (fuel : nat) :
  (3 * length projects <= fuel)%nat →
  ∃ result,
    resolveCollisions fuel projects = Some result
    ∧ ∀ a b p q, a ≠ b → result !! a = Some p → result !! b = Some q →
                 PProject.y p = PProject.y q →
                 hasOverlap p q = false ∧ hasOverlap q p = false.
Proof.
  intros Hfuel.
  destruct (resolved_spec projects fuel Hfuel)
    as (st & placed & Hrun & Hinv & Hsame & Hall & _).
  unfold resolveCollisions. rewrite Hrun. exists (Resolver.heap st). split; [done|].
  intros a b p q Hab Hp Hq Hy.
  assert (∀ r p, Resolver.heap st !! r = Some p →
                 ∃ i, r ∈ laneList (Resolver.lanes st) i ∧ PProject.y p = yOfLane i) as Hlane.
  { intros r p' Hp'.
    assert (r < length projects)%nat as Hr
      by (rewrite <- (sameButY_length _ _ Hsame); by eapply lookup_lt_Some).
    destruct (inv_lane _ _ _ Hinv r (Hall r Hr)) as [i Hi]. exists i. split; [done|].
    pose proof (inv_y _ _ _ Hinv i r Hi) as Hyi. unfold yOf, ref in *.
    rewrite Hp' in Hyi. by injection Hyi. }
  destruct (Hlane a p Hp) as (i & Hi & Hyi). destruct (Hlane b q Hq) as (j & Hj & Hyj).
  assert (i = j) as <- by (apply yOfLane_inj; congruence).
  pose proof (inv_apart _ _ _ Hinv i a b Hi Hj Hab) as Hfree.
  unfold overlapping, ref in *. rewrite Hp, Hq in Hfree.
  split; [done|]. by rewrite hasOverlap_sym.
Qed.

(** X26: the members of an epic take consecutive lanes of their own, two
    lanes after the previous epic.  Let [k] be an epic index that occurs,
    [before] the smaller ones.  With enough fuel the resolver returns, the
    members of [k] lie one per lane, in the order that [sort] gave them,
    from the lane on that is the sum of [size + 2] over the epics of
    [before]; the box recorded for [k] spans the [x1] and the [x3 || x2]
    of its members, starts 35 above the first of these lanes and ends 15
    below the last. *)
Theorem epics_take_consecutive_lanes `{ArraySort} (projects : list PProject.t) (fuel : nat)
    (before : list nat) (k : nat) (after : list nat) :
  (3 * length projects <= fuel)%nat →
  Object_keys (groupEpics projects) = before ++ k :: after →
  Forall (λ k', (k' < k)%nat) before
  ∧ Forall (λ k', (k < k')%nat) after
  ∧ ∃ st order box,
      resolved fuel projects = Some st
      ∧ order ≡ₚ membersOfIndex projects k
      ∧ (∀ i r, order !! i = Some r →
                yOf (Resolver.heap st) r = Some (yOfLane (lanesTaken projects before + i)))
      ∧ Resolver.epicBoxes st !! length before = Some box
      ∧ EpicBox.minY box = yOfLane (lanesTaken projects before) - 35
      ∧ EpicBox.maxY box
        = yOfLane (lanesTaken projects before + length (membersOfIndex projects k) - 1) + 15
      ∧ EpicBox.minX box = Num.Math_min (PProject.x1 <$> omap (λ r, projects !! r) order)
      ∧ EpicBox.maxX box
        = Num.Math_max ((λ p, num_or (PProject.x3 p) (PProject.x2 p))
                        <$> omap (λ r, projects !! r) order).
Proof.
  intros Hfuel Hkeys.
  pose proof (Object_keys_sorted (groupEpics projects)) as Hsorted.
  pose proof (Object_keys_NoDup (groupEpics projects)) as Hnd.
  rewrite Hkeys in Hsorted, Hnd.
  apply NoDup_app in Hnd as (_ & Hapart & Hnd). apply NoDup_cons in Hnd as [Hk _].
  split.
  { apply Forall_forall. intros k' Hk'.
    assert (k' <= k)%nat
      by (eapply (StronglySorted_app_1_elem_of le); [exact Hsorted | done | by left]).
    assert (k' ≠ k) by (intros ->; apply (Hapart k Hk'); by left). lia. }
  split.
  { apply Forall_forall. intros k' Hk'.
    apply StronglySorted_app_1_r in Hsorted. apply StronglySorted_inv in Hsorted as [_ Hall].
    rewrite Forall_forall in Hall. specialize (Hall k' Hk').
    assert (k' ≠ k) by (by intros ->). lia. }
  destruct (resolved_spec projects fuel Hfuel)
    as (st & placed & Hrun & _ & _ & _ & _ & _ & _ & Hgroups).
  destruct (Hgroups before k after Hkeys) as (order & box & Hrest).
  exists st, order, box. done.
Qed.

(** X27: no standalone project is left inside the box of an epic.  With
    enough fuel the resolver returns with one box for every epic index
    that occurs, and for every project without an epic index
    [projectCollidesWithEpicBox] is false at its final [y] for each of
    these boxes. *)
Theorem standalone_projects_avoid_epic_boxes `{ArraySort} (projects : list PProject.t)
    (fuel : nat) :
  (3 * length projects <= fuel)%nat →
  ∃ st,
    resolved fuel projects = Some st
    ∧ length (Resolver.epicBoxes st) = length (Object_keys (groupEpics projects))
    ∧ ∀ r p box, Resolver.heap st !! r = Some p → PProject.epicIndex p = None →
                 box ∈ Resolver.epicBoxes st →
                 projectCollidesWithEpicBox p (PProject.y p) box = false.
Proof.
  intros Hfuel.
  destruct (resolved_spec projects fuel Hfuel)
    as (st & placed & Hrun & _ & Hsame & _ & _ & Hboxes & Hclear & _).
  exists st. split; [done|]. split; [done|]. intros r p box Hp Hnone Hbox.
  assert (r ∈ standaloneOf projects) as Hr.
  { apply elem_of_standaloneOf.
    assert (PProject.set_y 0 <$> Resolver.heap st !! r = PProject.set_y 0 <$> projects !! r)
      as Hr by (rewrite <- !list_lookup_fmap; unfold sameButY in Hsame; by rewrite Hsame).
    unfold ref in *. rewrite Hp in Hr. destruct (projects !! r) as [p0|]; [|done].
    exists p0. split; [done|]. cbn in Hr.
    assert (PProject.epicIndex (PProject.set_y 0 p) = PProject.epicIndex (PProject.set_y 0 p0))
      as Hidx by congruence.
    cbn in Hidx. congruence. }
  destruct (Hclear r Hr) as (p' & Hp' & Hall). unfold ref in *.
  assert (p' = p) as -> by congruence.
  rewrite Forall_forall in Hall. by apply Hall.
Qed.

Lemma resolveCollisions_returns_witness :
  ∃ result,
    resolveCollisions 18 ResolverExamples.six = Some result
    ∧ sameButY result ResolverExamples.six
    ∧ Forall (λ p, ∃ lane, (lane < 3 * 6)%nat ∧ PProject.y p = yOfLane lane) result.
Proof. apply (resolveCollisions_returns ResolverExamples.six 18). cbn. lia. Defined.

Lemma lane_mates_do_not_overlap_witness :
  ∃ result,
    resolveCollisions 18 ResolverExamples.six = Some result
    ∧ ∀ a b p q, a ≠ b → result !! a = Some p → result !! b = Some q →
                 PProject.y p = PProject.y q →
                 hasOverlap p q = false ∧ hasOverlap q p = false.
Proof. apply (lane_mates_do_not_overlap ResolverExamples.six 18). cbn. lia. Defined.

Lemma epics_take_consecutive_lanes_witness :
  ∃ st order box,
    resolved 18 ResolverExamples.six = Some st
    ∧ order ≡ₚ [2%nat]
    ∧ (∀ i r, order !! i = Some r →
              yOf (Resolver.heap st) r = Some (yOfLane (4 + i)))
    ∧ Resolver.epicBoxes st !! 1%nat = Some box
    ∧ EpicBox.minY box = 245
    ∧ EpicBox.maxY box = 295.
Proof.
  destruct (epics_take_consecutive_lanes ResolverExamples.six 18 [0%nat] 1%nat [])
    as (_ & _ & st & order & box & Hrun & Hperm & Hys & Hbox & HminY & HmaxY & _);
    [cbn; lia | reflexivity |].
  exists st, order, box. split; [exact Hrun|]. split; [exact Hperm|].
  split; [exact Hys|]. split; [exact Hbox|]. split; [exact HminY | exact HmaxY].
Defined.

Lemma standalone_projects_avoid_epic_boxes_witness :
  ∃ st,
    resolved 18 ResolverExamples.six = Some st
    ∧ length (Resolver.epicBoxes st) = 2%nat
    ∧ ∀ r p box, Resolver.heap st !! r = Some p → PProject.epicIndex p = None →
                 box ∈ Resolver.epicBoxes st →
                 projectCollidesWithEpicBox p (PProject.y p) box = false.
Proof. apply (standalone_projects_avoid_epic_boxes ResolverExamples.six 18). cbn. lia. Defined.
(* ===================================================================== *)
(** ** The fading tail *)
(* ===================================================================== *)

Section TailLoop.
Context `{MathHost}.
Import JS NumFacts ExactFacts IntegerFacts.

Lemma counter_step (k : nat) :
  Z.of_nat k + 1 < 2 ^ 53 →
  Num.add (Num.of_Z (Z.of_nat k)) (Num.of_Z 1) = Num.of_Z (Z.of_nat (S k)).
Proof.
  intros Hk. unfold Num.of_Z. cbn [Num.add].
  rewrite (fl_Qeq _ (inject_Z (Z.of_nat (S k)))).
  - apply fl_inject_Z. lia.
  - rewrite <- inject_Z_plus. by rewrite Nat2Z.inj_succ.
Qed.

(** The loop runs once for every integer below [numSegments]. *)
Lemma tailLoop_run (n : nat) x1 y1 y2 thickness pressure segmentLength fuel : ∀ (k : nat),
  Z.of_nat n < 2 ^ 53 → (k <= n)%nat → (n <= k + fuel)%nat →
  tailLoop fuel x1 y1 y2 thickness pressure segmentLength (Num.of_Z (Z.of_nat n))
           (Num.of_Z (Z.of_nat k))
  = Some ((λ j, tailSegment x1 y1 y2 thickness pressure segmentLength
                            (Num.of_Z (Z.of_nat n)) (Num.of_Z (Z.of_nat j)))
          <$> seq k (n - k)).
Proof.
  induction fuel as [|fuel IH]; intros k Hn Hk Hfuel; cbn [tailLoop].
  - replace (n - k)%nat with 0%nat by lia.
    destruct (Num.ltb _ _) eqn:E; [|done]. apply ltb_of_Z in E. lia.
  - destruct (Num.ltb _ _) eqn:E.
    + apply ltb_of_Z in E. rewrite counter_step by lia.
      rewrite (IH (S k)) by lia. cbn [fmap option_fmap option_map].
      replace (n - k)%nat with (S (n - S k)) by lia. done.
    + replace (n - k)%nat with 0%nat; [done|].
      destruct (decide (k < n)%nat) as [Hlt|]; [|lia].
      assert (Num.ltb (Num.of_Z (Z.of_nat k)) (Num.of_Z (Z.of_nat n)) = true)
        by (apply ltb_of_Z; lia). congruence.
Qed.

Lemma leb_between_Fin lo hi r :
  Num.leb (Fin lo) r = true → Num.leb r (Fin hi) = true → ∃ q, r = Fin q ∧ (lo <= q <= hi)%Q.
Proof.
  destruct r as [| | |q]; cbn [Num.leb]; try discriminate.
  rewrite !Qle_bool_iff. eauto.
Qed.

Lemma fl_between_integers (lo hi : Z) q :
  0 <= lo → hi < 2 ^ 53 → (inject_Z lo <= q <= inject_Z hi)%Q →
  ∃ r, fl q = Fin r ∧ (inject_Z lo <= r <= inject_Z hi)%Q.
Proof.
  intros Hlo Hhi [Hq1 Hq2].
  assert (lo <= hi) by (rewrite Zle_Qle; lra).
  apply leb_between_Fin.
  - rewrite <- (fl_inject_Z lo) by lia. by apply fl_mono.
  - rewrite <- (fl_inject_Z hi) by lia. by apply fl_mono.
Qed.

(** The number of segments of a tail of moderate length is an integer:
    about one for every ten pixels, five at least. *)
Lemma tailSegments_integer x1 x2 l :
  Num.sub x2 x1 = Fin l → (0 <= l <= inject_Z (10 * (2 ^ 53 - 1)))%Q →
  ∃ n : nat,
    tailSegments x1 x2 = Num.of_Z (Z.of_nat n)
    ∧ Z.of_nat n < 2 ^ 53
    ∧ Z.max 5 (Qfloor (l / 10)) <= Z.of_nat n <= Z.max 5 (Qceiling (l / 10)).
Proof.
  intros Hl [Hl0 Hl1]. unfold tailSegments. rewrite Hl. unfold Num.of_Z at 2.
  change (Num.div (Fin l) (Fin (inject_Z 10))) with (fl (l / 10)).
  assert (0 <= l / 10)%Q as Hnn by (apply Qle_shift_div_l; lra).
  assert (l / 10 <= inject_Z (2 ^ 53 - 1))%Q as Hup.
  { apply Qle_shift_div_r; [lra|]. rewrite inject_Z_mult in Hl1.
    change (inject_Z 10) with 10%Q in Hl1. lra. }
  pose proof (Qfloor_le (l / 10)) as Hfl. pose proof (Qle_ceiling (l / 10)) as Hce.
  assert (0 <= Qfloor (l / 10)) as Hf0.
  { change 0%Z with (Qfloor 0%Q). by apply Qfloor_resp_le. }
  assert (Qceiling (l / 10) <= 2 ^ 53 - 1) as Hc1.
  { rewrite <- (Qceiling_Z (2 ^ 53 - 1)). by apply Qceiling_resp_le. }
  destruct (fl_between_integers (Qfloor (l / 10)) (Qceiling (l / 10)) (l / 10)%Q)
    as (r & -> & Hr1 & Hr2); [lia | lia | split; lra |].
  cbn [Math_floor].
  assert (Qfloor (l / 10) <= Qfloor r <= Qceiling (l / 10)) as [Hz1 Hz2].
  { split.
    - rewrite <- (Qfloor_Z (Qfloor (l / 10))). by apply Qfloor_resp_le.
    - rewrite <- (Qfloor_Z (Qceiling (l / 10))). by apply Qfloor_resp_le. }
  exists (Z.to_nat (Z.max 5 (Qfloor r))). rewrite Z2Nat.id by lia.
  split; [|lia].
  fold (Num.of_Z (Qfloor r)). destruct (Z.le_gt_cases 5 (Qfloor r)) as [Hge|Hlt].
  - rewrite Z.max_r by lia. cbn [Num.max2 Num.of_Z].
    destruct (Num.ltb _ _) eqn:E; [done|].
    assert (Qfloor r = 5) as ->; [|done].
    apply not_true_iff_false in E. rewrite (ltb_of_Z 5 (Qfloor r)) in E. lia.
  - rewrite Z.max_l by lia. cbn [Num.max2 Num.of_Z].
    destruct (Num.ltb _ _) eqn:E; [|done].
    apply (ltb_of_Z 5 (Qfloor r)) in E. lia.
Qed.

(** A tail of moderate length: the loop ends and draws one line for
    every integer below the number of segments. *)
Lemma drawFadingTail_run x1 y1 x2 y2 thickness pressure l :
  Num.sub x2 x1 = Fin l → (0 <= l <= inject_Z (10 * (2 ^ 53 - 1)))%Q →
  ∃ n : nat,
    Z.of_nat n < 2 ^ 53
    ∧ Z.max 5 (Qfloor (l / 10)) <= Z.of_nat n <= Z.max 5 (Qceiling (l / 10))
    ∧ ∀ fuel, (n <= fuel)%nat →
        drawFadingTail fuel x1 y1 x2 y2 thickness pressure
        = Some ((λ j, tailSegment x1 y1 y2 thickness pressure
                                  (Num.div (Fin l) (Num.of_Z (Z.of_nat n)))
                                  (Num.of_Z (Z.of_nat n)) (Num.of_Z (Z.of_nat j)))
                <$> seq 0 n).
Proof.
  intros Hl Hrange.
  destruct (tailSegments_integer x1 x2 l Hl Hrange) as (n & Hn & Hsmall & Hbounds).
  exists n. split; [done|]. split; [done|]. intros fuel Hfuel.
  unfold drawFadingTail. rewrite Hn, Hl.
  pose proof (tailLoop_run n x1 y1 y2 thickness pressure
                (Num.div (Fin l) (Num.of_Z (Z.of_nat n))) fuel 0 Hsmall) as Hrun.
  change (Z.of_nat 0) with 0 in Hrun. rewrite Hrun by lia. by rewrite Nat.sub_0_r.
Qed.

Lemma mul_comm a b : Num.mul a b = Num.mul b a.
Proof.
  destruct a as [| | |x], b as [| | |y]; try reflexivity.
  cbn [Num.mul]. apply fl_Qeq. apply Qmult_comm.
Qed.

(** The counter of the loop stays a number that is not negative, until
    it overflows. *)
Lemma counter_next c :
  (0 <= c)%Q →
  Num.add (Fin c) (Num.of_Z 1) = PosInf
  ∨ ∃ c', Num.add (Fin c) (Num.of_Z 1) = Fin c' ∧ (0 <= c')%Q.
Proof.
  intros Hc. unfold Num.of_Z. cbn [Num.add].
  assert (Num.leb (fl 0) (fl (c + inject_Z 1)) = true) as Hle.
  { apply fl_mono. change (inject_Z 1) with 1%Q. lra. }
  rewrite (fl_zero 0) in Hle by reflexivity.
  destruct (fl (c + inject_Z 1)) as [| | | c']; try discriminate; [by left |].
  right. exists c'. split; [done |]. by apply leb_Fin in Hle.
Qed.

(** Inside the loop the fade ratio is the root of a number between 0
    and 1, whatever the number of segments is. *)
Lemma fade_argument_any c numSegments :
  (0 <= c)%Q → Num.ltb (Fin c) numSegments = true →
  ∃ q, Num.sub (Num.of_Z 1) (Num.div (Fin c) numSegments) = Fin q ∧ (0 <= q <= 1)%Q.
Proof.
  intros Hc Hlt.
  assert (∃ p, Num.div (Fin c) numSegments = Fin p ∧ (0 <= p <= 1)%Q) as (p & -> & Hp0 & Hp1).
  { destruct numSegments as [| | | m]; try discriminate.
    - exists 0%Q. split; [reflexivity | lra].
    - cbn [Num.ltb] in Hlt.
      rewrite negb_true_iff, <- not_true_iff_false, Qle_bool_iff in Hlt.
      assert (0 < m)%Q as Hm by lra.
      cbn [Num.div]. replace (m ?= 0)%Q with Gt by (symmetry; by apply Qgt_alt).
      destruct (fl_between_integers 0 1 (c / m)%Q) as (p & -> & Hp0 & Hp1); [lia | lia | |].
      { change (inject_Z 0) with 0%Q. change (inject_Z 1) with 1%Q. split.
        - apply Qle_shift_div_l; lra.
        - apply Qle_shift_div_r; lra. }
      exists p. split; [done |]. done. }
  unfold Num.of_Z. cbn [Num.sub].
  destruct (fl_between_integers 0 1 (inject_Z 1 - p)%Q) as (q & -> & Hq0 & Hq1);
    [lia | lia | |].
  { change (inject_Z 0) with 0%Q. change (inject_Z 1) with 1%Q. lra. }
  exists q. split; [done |]. done.
Qed.

(** Two fifths of the thickness are the least that a segment gets. *)
Lemma segment_floor (Hsqrt : ∀ q, (0 <= q)%Q → Math_sqrt (Fin q) ≠ NaN)
    x1 y1 y2 t pressure segmentLength numSegments c :
  (0 < t)%Q → (0 <= c)%Q → Num.ltb (Fin c) numSegments = true →
  Num.leb (Num.mul (Fin t) (Num.literal 4 10))
          (strokeThickness
             (tailSegment x1 y1 y2 (Fin t) pressure segmentLength numSegments (Fin c)))
  = true.
Proof.
  intros Ht Hc Hlt. cbn [tailSegment strokeThickness].
  destruct (fade_argument_any c numSegments Hc Hlt) as (q & -> & Hq0 & Hq1).
  pose proof (Hsqrt q Hq0) as Hfade.
  destruct (max2_ge (Num.literal 4 10) (Math_sqrt (Fin q))) as [Hge _];
    [apply NumFacts.fl_not_NaN | done |].
  rewrite !(mul_comm (Fin t)). by apply NumFacts.mul_mono_l.
Qed.

(** Whatever list the loop returns, each of its lines keeps two fifths of
    the thickness. *)
Lemma tailLoop_floor (Hsqrt : ∀ q, (0 <= q)%Q → Math_sqrt (Fin q) ≠ NaN)
    x1 y1 y2 t pressure segmentLength numSegments fuel : ∀ i lines,
  (0 < t)%Q →
  i = PosInf ∨ (∃ c, i = Fin c ∧ (0 <= c)%Q) →
  tailLoop fuel x1 y1 y2 (Fin t) pressure segmentLength numSegments i = Some lines →
  Forall (λ s, Num.leb (Num.mul (Fin t) (Num.literal 4 10)) (strokeThickness s) = true)
         lines.
Proof.
  induction fuel as [| fuel IH]; intros i lines Ht Hi; cbn [tailLoop];
    destruct (Num.ltb i numSegments) eqn:Elt; try discriminate;
    try (intros [= <-]; constructor).
  destruct Hi as [-> | (c & -> & Hc)]; [by destruct numSegments |].
  destruct (tailLoop fuel _ _ _ _ _ _ _ _) as [rest |] eqn:Erest; [| discriminate].
  cbn. intros [= <-]. constructor.
  - by apply segment_floor.
  - apply (IH _ rest Ht (counter_next c Hc) Erest).
Qed.

Lemma ltb_NaN_r a : Num.ltb a NaN = false.
Proof. by destruct a. Qed.

(** The number of segments is [NaN] or an integer below 2^53 unless the
    tail is infinitely long or longer than 10 * (2^53 - 1). *)
Lemma tailSegments_cases x1 x2 :
  Num.sub x2 x1 ≠ PosInf →
  (∀ l, Num.sub x2 x1 = Fin l → (l <= inject_Z (10 * (2 ^ 53 - 1)))%Q) →
  tailSegments x1 x2 = NaN
  ∨ ∃ n : nat, tailSegments x1 x2 = Num.of_Z (Z.of_nat n) ∧ Z.of_nat n < 2 ^ 53.
Proof.
  intros Hinf Hbound. unfold tailSegments.
  destruct (Num.sub x2 x1) as [| | | l] eqn:El; [by left | done | |].
  - right. exists 5%nat. split; [reflexivity | lia].
  - specialize (Hbound l eq_refl). destruct (Qlt_le_dec l 0) as [Hneg | Hnn].
    + right. exists 5%nat. split; [| lia].
      unfold Num.of_Z at 2.
      change (Num.div (Fin l) (Fin (inject_Z 10))) with (fl (l / 10)).
      assert (Num.leb (fl (l / 10)) (fl 0) = true) as Hle.
      { apply fl_mono. apply Qle_shift_div_r; lra. }
      rewrite (fl_zero 0) in Hle by reflexivity.
      destruct (fl (l / 10)) as [| | | r]; try discriminate; [reflexivity |].
      apply leb_Fin in Hle. cbn [Math_floor Num.max2 Num.of_Z].
      destruct (Num.ltb _ _) eqn:E; [| reflexivity].
      apply (ltb_of_Z 5 (Qfloor r)) in E.
      assert (Qfloor r <= 0); [| lia].
      change 0 with (Qfloor 0%Q). by apply Qfloor_resp_le.
    + right.
      assert (Num.sub x2 x1 = Fin l) as El' by (by rewrite El).
      destruct (tailSegments_integer x1 x2 l El' (conj Hnn Hbound)) as (n & Hn & Hsmall & _).
      exists n. unfold tailSegments in Hn. rewrite El in Hn. done.
Qed.

(** The loop ends for every such tail. *)
Lemma drawFadingTail_returns x1 y1 x2 y2 thickness pressure :
  Num.sub x2 x1 ≠ PosInf →
  (∀ l, Num.sub x2 x1 = Fin l → (l <= inject_Z (10 * (2 ^ 53 - 1)))%Q) →
  ∃ n : nat, ∀ fuel, (n <= fuel)%nat →
    ∃ lines, drawFadingTail fuel x1 y1 x2 y2 thickness pressure = Some lines
             ∧ length lines = n.
Proof.
  intros Hinf Hbound.
  destruct (tailSegments_cases x1 x2 Hinf Hbound) as [Hnan | (n & Hn & Hsmall)].
  - exists 0%nat. intros fuel _. exists []. split; [| done].
    unfold drawFadingTail. rewrite Hnan. destruct fuel; cbn [tailLoop];
      by rewrite ltb_NaN_r.
  - exists n. intros fuel Hfuel. unfold drawFadingTail. rewrite Hn.
    pose proof (tailLoop_run n x1 y1 y2 thickness pressure
                  (Num.div (Num.sub x2 x1) (Num.of_Z (Z.of_nat n))) fuel 0 Hsmall) as Hrun.
    change (Z.of_nat 0) with 0 in Hrun. rewrite Hrun by lia.
    eexists. split; [reflexivity |]. by rewrite length_fmap, length_seq, Nat.sub_0_r.
Qed.

End TailLoop.

(** X28: the fading tail is drawn as a chain of pencil lines, about one
    for every ten pixels and five at least.  For a tail whose length
    [x2 - x1] is a number between 0 and 10 * (2^53 - 1), the loop of
    [drawFadingTail] ends; the number [n] of lines it draws lies between
    [max(5, floor(length / 10))] and [max(5, ceil(length / 10))]; all lines
    go from [y1] to [y2], and each starts at the abscissa where the one
    before it ended. *)
Theorem fading_tail_is_a_chain `{MathHost} (x1 y1 x2 y2 thickness pressure : number) (l : Q) :
  Num.sub x2 x1 = Fin l → (0 <= l <= inject_Z (10 * (2 ^ 53 - 1)))%Q →
  ∃ n : nat,
    Z.max 5 (Qfloor (l / 10)) <= Z.of_nat n <= Z.max 5 (Qceiling (l / 10))
    ∧ ∀ fuel, (n <= fuel)%nat →
        ∃ lines,
          drawFadingTail fuel x1 y1 x2 y2 thickness pressure = Some lines
          ∧ length lines = n
          ∧ Forall (λ s, (strokeFrom s).2 = y1 ∧ (strokeTo s).2 = y2) lines
          ∧ chained lines.
Proof.
  intros Hl Hrange.
  destruct (drawFadingTail_run x1 y1 x2 y2 thickness pressure l Hl Hrange)
    as (n & Hsmall & Hbounds & Hrun).
  exists n. split; [done|]. intros fuel Hfuel. rewrite (Hrun fuel Hfuel).
  eexists. split; [reflexivity|]. split; [by rewrite length_fmap, length_seq|].
  split.
  - apply Forall_fmap, Forall_forall. intros j _. done.
  - intros j a b Ha Hb. rewrite list_lookup_fmap in Ha, Hb.
    destruct (seq 0 n !! j) as [ja|] eqn:Eja; [|done].
    destruct (seq 0 n !! S j) as [jb|] eqn:Ejb; [|done].
    apply lookup_seq in Eja as [-> _]. apply lookup_seq in Ejb as [-> Hlt].
    cbn in Ha, Hb. injection Ha as <-. injection Hb as <-.
    cbn [tailSegment strokeTo strokeFrom fst]. rewrite counter_step by lia. done.
Qed.

(** X29: the tail never gets thinner than two fifths of the line.  On an
    engine whose [Math.sqrt] returns a number for every number that is not
    negative, and for a line of positive thickness, every pencil line in
    the list that [drawFadingTail] returns is drawn with a thickness of at
    least [thickness * 0.4], whatever the two abscissae are: a tail of
    negative length, an endless one and one with [NaN] ends included.
    The call returns whenever the length [x2 - x1] is not [Infinity] and,
    if a number, at most 10 * (2^53 - 1). *)
Theorem fading_tail_keeps_two_fifths `{MathHost} (x1 y1 x2 y2 pressure : number) (t : Q) :
  (∀ q, (0 <= q)%Q → Math_sqrt (Fin q) ≠ NaN) → (0 < t)%Q →
  (∀ fuel lines,
     drawFadingTail fuel x1 y1 x2 y2 (Fin t) pressure = Some lines →
     Forall (λ s, Num.leb (Num.mul (Fin t) (Num.literal 4 10)) (strokeThickness s) = true)
            lines)
  ∧ (Num.sub x2 x1 ≠ PosInf →
     (∀ l, Num.sub x2 x1 = Fin l → (l <= inject_Z (10 * (2 ^ 53 - 1)))%Q) →
     ∃ n : nat, ∀ fuel, (n <= fuel)%nat →
       ∃ lines, drawFadingTail fuel x1 y1 x2 y2 (Fin t) pressure = Some lines
                ∧ length lines = n).
Proof.
  intros Hsqrt Ht. split.
  - intros fuel lines Hrun. unfold drawFadingTail in Hrun.
    eapply (tailLoop_floor Hsqrt); [exact Ht | | exact Hrun].
    right. exists 0%Q. split; [reflexivity | lra].
  - apply drawFadingTail_returns.
Qed.

Lemma fading_tail_is_a_chain_witness :
  ∃ n : nat,
    (5 <= n <= 8)%nat
    ∧ ∃ lines,
        drawFadingTail n (Num.of_Z 300) (Num.of_Z 160) (Num.of_Z 372) (Num.of_Z 160)
                       (Num.of_Z 6) (Num.literal 85 100) = Some lines
        ∧ length lines = n
        ∧ chained lines.
Proof.
  destruct (fading_tail_is_a_chain (Num.of_Z 300) (Num.of_Z 160) (Num.of_Z 372) (Num.of_Z 160)
              (Num.of_Z 6) (Num.literal 85 100) 72)
    as (n & Hn & Hrun); [reflexivity | split; apply Qle_bool_iff; vm_compute; reflexivity |].
  exists n. split.
  { set (lo := Z.max 5 (Qfloor (72 / 10))) in Hn. set (hi := Z.max 5 (Qceiling (72 / 10))) in Hn.
    vm_compute in lo, hi. subst lo hi. lia. }
  destruct (Hrun n) as (lines & Hlines & Hlen & _ & Hchain); [lia|].
  exists lines. split; [exact Hlines|]. split; [exact Hlen | exact Hchain].
Defined.

Lemma fading_tail_keeps_two_fifths_witness :
  ∃ n : nat,
    ∃ lines,
      drawFadingTail n (Num.of_Z 372) (Num.of_Z 160) (Num.of_Z 300) (Num.of_Z 160)
                     (Num.of_Z 6) (Num.literal 85 100) = Some lines
      ∧ length lines = n
      ∧ Forall (λ s, Num.leb (Num.mul (Num.of_Z 6) (Num.literal 4 10)) (strokeThickness s)
                     = true) lines.
Proof.
  destruct (fading_tail_keeps_two_fifths (Num.of_Z 372) (Num.of_Z 160) (Num.of_Z 300)
              (Num.of_Z 160) (Num.literal 85 100) 6)
    as [Hfloor Hreturns].
  - intros q Hq. cbn. apply Qle_bool_iff in Hq. rewrite Hq. apply NumFacts.fl_not_NaN.
  - reflexivity.
  - destruct Hreturns as (n & Hrun).
    + discriminate.
    + intros l [= <-]. apply Qle_bool_iff. vm_compute. reflexivity.
    + exists n. destruct (Hrun n) as (lines & Hlines & Hlen); [lia |].
      exists lines. split; [exact Hlines |]. split; [exact Hlen |].
      exact (Hfloor n lines Hlines).
Defined.
(* ===================================================================== *)
(** ** Pressure fall-back chains in the scene *)
(* ===================================================================== *)

Section EpicStore.
Context `{Host}.

Lemma mapM_result_length {A B} (f : A → result B) l bs :
  mapM f l = Ok bs → length bs = length l.
Proof.
  intros Hm. apply mapM_result_Forall2 in Hm. symmetry. by eapply Forall2_length.
Qed.

(** One iteration of the epic loop stores an epic object exactly when the
    record has project lines, with the index of the record and the
    pressure of its fall-back chain. *)
Lemma processEpic_store data startDate totalDuration width allProjects epics i epic st' :
  processEpic data startDate totalDuration width (allProjects, epics) (i, epic) = Ok st' →
  (array (Epic.projectLines epic) = [] ∧ st'.2 = epics)
  ∨ (array (Epic.projectLines epic) ≠ []
     ∧ ∃ e, st'.2 = epics ++ [e] ∧ PEpic.epicIndex e = i
            ∧ PEpic.pencilPressure e = epicPressure data epic).
Proof.
  unfold processEpic.
  destruct (Epic.projectLines epic) as [projectLines |]; [| intros [= <-]; by left].
  destruct (mapM _ projectLines) as [epicProjects |] eqn:Em;
    cbn [mbind result_bind]; [| discriminate].
  apply mapM_result_length in Em. cbn [array default].
  destruct (0 <? length epicProjects)%nat eqn:E; intros [= <-]; cbn [snd].
  - right. split; [apply Nat.ltb_lt in E; destruct projectLines; [cbn in *; lia | done] |].
    eexists. split; [reflexivity |]. done.
  - left. split; [| done]. apply Nat.ltb_ge in E. destruct projectLines; [done | cbn in *; lia].
Qed.

(** The epic loop: the epic objects it stores are those of the records
    with project lines. *)
Lemma forEachM_processEpic_store data startDate totalDuration width l : ∀ st st',
  forEachM (processEpic data startDate totalDuration width) st l = Ok st' →
  ∃ new, st'.2 = st.2 ++ new
    ∧ (∀ e, e ∈ new →
            ∃ epic, (PEpic.epicIndex e, epic) ∈ l
                    ∧ PEpic.pencilPressure e = epicPressure data epic)
    ∧ (∀ i epic, (i, epic) ∈ l → array (Epic.projectLines epic) ≠ [] →
                 ∃ e, e ∈ new ∧ PEpic.epicIndex e = i).
Proof.
  induction l as [| [i epic] l IH]; intros [allProjects epics] st'; cbn [forEachM].
  - intros [= <-]. exists []. rewrite app_nil_r. split; [done |].
    split; intros *; intros Hin; by apply elem_of_nil in Hin.
  - destruct (processEpic _ _ _ _ _ _) as [st1 |] eqn:E1; cbn [mbind result_bind];
      [| discriminate].
    intros Hrest. destruct (IH st1 st' Hrest) as (new & Hnew & Hsound & Hcomplete).
    destruct (processEpic_store _ _ _ _ _ _ _ _ _ E1)
      as [[Hempty E] | (Hlines & e & E & Hidx & Hpr)]; cbn [snd] in *.
    + exists new. rewrite Hnew, E. split; [done |]. split.
      * intros e He. destruct (Hsound e He) as (epic' & Hin & Hp).
        exists epic'. split; [by right | done].
      * intros i' epic' Hin Hl. apply elem_of_cons in Hin as [[= -> ->] | Hin];
          [done | eauto].
    + exists (e :: new). rewrite Hnew, E, <- (assoc_L (++)). split; [done |]. split.
      * intros e' He'. apply elem_of_cons in He' as [-> | He'].
        -- exists epic. rewrite Hidx. split; [by left | done].
        -- destruct (Hsound e' He') as (epic' & Hin & Hp).
           exists epic'. split; [by right | done].
      * intros i' epic' Hin Hl. apply elem_of_cons in Hin as [[= -> ->] | Hin].
        -- exists e. split; [by left | done].
        -- destruct (Hcomplete i' epic' Hin Hl) as (e' & He' & Hi').
           exists e'. split; [by right | done].
Qed.

(** The epics of the scene: one for every epic record with project lines,
    under the index of the record and with the pressure of its fall-back
    chain; the resolver touches neither. *)
Lemma scene_epics_store data scene :
  layout data = Ok scene →
  (∀ e, e ∈ Scene.epics scene →
        ∃ epic, array (Data.epics data) !! PEpic.epicIndex e = Some epic
                ∧ PEpic.pencilPressure e = epicPressure data epic)
  ∧ (∀ i epic, array (Data.epics data) !! i = Some epic →
               array (Epic.projectLines epic) ≠ [] →
               ∃ e, e ∈ Scene.epics scene ∧ PEpic.epicIndex e = i).
Proof.
  rewrite layout_unfold.
  destruct (mapM _ (array (Data.projectLines data))) as [standalone |];
    cbn [mbind result_bind]; [| discriminate].
  destruct (forEachM _ _ _) as [[allProjects epics] |] eqn:Ef;
    cbn [mbind result_bind]; [| discriminate].
  intros Hres.
  destruct (forEachM_processEpic_store _ _ _ _ _ _ _ Ef) as (new & Hnew & Hsound & Hcomplete).
  cbn [snd app] in Hnew. subst new.
  set (key := λ e : PEpic.t, (PEpic.epicIndex e, PEpic.pencilPressure e)).
  assert (key <$> Scene.epics scene = key <$> epics) as Hkeys.
  { apply (resolve_frame (λ _ es, key <$> es = key <$> epics) allProjects epics
             (getUniqueThemes (loadData data setupCanvas)) scene); [| | | exact Hres].
    - auto.
    - intros heap es lo hi e Hes. rewrite <- Hes.
      rewrite (list_fmap_alter key (PEpic.set_bounds lo hi) id) by (apply Forall_true; done).
      apply list_alter_id. done.
    - done. }
  split.
  - intros e He.
    assert (key e ∈ key <$> epics) as Hin
      by (rewrite <- Hkeys; apply list_elem_of_fmap; eauto).
    apply list_elem_of_fmap in Hin as (e0 & Hk & He0). injection Hk as Hi Hp.
    destruct (Hsound e0 He0) as (epic & Hin & Hpr).
    apply indexed_lookup in Hin. exists epic. rewrite Hi, Hp. done.
  - intros i epic Hi Hl. apply indexed_lookup in Hi.
    destruct (Hcomplete i epic Hi Hl) as (e0 & He0 & Hidx).
    assert (key e0 ∈ key <$> Scene.epics scene) as Hin
      by (rewrite Hkeys; apply list_elem_of_fmap; eauto).
    apply list_elem_of_fmap in Hin as (e & Hk & He). injection Hk as Hi' Hp.
    exists e. split; [done | congruence].
Qed.

End EpicStore.

(** C10. A per-project [pencilPressure] of exactly 0 is never the drawing
    pressure.  The pressure [this.data.pencilPressure || 0.85] is not 0,
    and it is 0.85 when the dataset-level pressure is 0 or absent.  For a
    project whose own pressure is 0, [drawProjectLine] draws the main line
    with that pressure, and every stroke it orders carries it.  For an
    epic record whose parsed [pencilPressure] is 0, the layout stores an
    epic object under the index of the record as soon as the record has
    project lines; every epic object of the scene with that index carries
    that pressure, and the fill and the outline of its box are shaded
    from it. *)
Theorem zero_pressure_falls_back `{Host} (data : Data.t) :
  ¬ isZero (datasetPressure data)
  ∧ (Data.pencilPressure data = None
     ∨ (∃ z', Data.pencilPressure data = Some z' ∧ isZero z') →
     datasetPressure data = defaultPressure)
  ∧ (∀ (p : PProject.t) (z : number),
       Project.pencilPressure (PProject.source p) = Some z → isZero z →
       projectPressure data p = datasetPressure data
       ∧ (∃ thickness tail,
            drawProjectLine data p
            = PencilLine (PProject.x1 p) (Num.of_Z (PProject.y p))
                         (PProject.x2 p) (Num.of_Z (PProject.y p))
                         thickness (datasetPressure data) :: tail)
       ∧ Forall (λ s, strokePressure s = datasetPressure data) (drawProjectLine data p))
  ∧ (∀ (scene : Scene.t) (i : nat) (epic : Epic.t),
       layout data = Ok scene →
       array (Data.epics data) !! i = Some epic →
       isZero (parseFloat (Epic.pencilPressure epic)) →
       (array (Epic.projectLines epic) ≠ [] →
        ∃ e, e ∈ Scene.epics scene ∧ PEpic.epicIndex e = i)
       ∧ (∀ e, e ∈ Scene.epics scene → PEpic.epicIndex e = i →
               PEpic.pencilPressure e = datasetPressure data
               ∧ fillAlpha (drawEpicGrouping e).1
                 = Num.max2 (Num.literal 1 10)
                            (Num.mul (datasetPressure data) (Num.literal 3 10))
               ∧ grayValue (drawEpicGrouping e).1
                 = Math_floor (Num.sub (Num.of_Z 220)
                                       (Num.mul (datasetPressure data) (Num.of_Z 50)))
               ∧ Forall (λ s, strokePressure s
                              = Num.max2 (Num.literal 3 10)
                                         (Num.mul (datasetPressure data) (Num.literal 8 10)))
                        (drawEpicGrouping e).2)).
Proof.
  split; [apply truthy_not_zero, num_or_truthy, defaultPressure_truthy |].
  split; [apply datasetPressure_default |]. split.
  - intros p z Hp Hz.
    assert (E : projectPressure data p = datasetPressure data).
    { unfold projectPressure, datasetPressure. rewrite Hp. cbn [num_or].
      unfold Num.or_else. by rewrite (isZero_falsy z Hz). }
    split; [exact E |]. split.
    + unfold drawProjectLine. rewrite E. eauto.
    + pose proof (drawProjectLine_pressure data p) as Hall. rewrite E in Hall.
      eapply Forall_impl; [exact Hall |]. intros s Hs. by destruct s.
  - intros scene i epic Hlayout Hi Hz.
    destruct (scene_epics_store data scene Hlayout) as [Hsound Hcomplete].
    split; [intros Hl; by apply (Hcomplete i epic) |].
    intros e He Hidx. destruct (Hsound e He) as (epic' & Hi' & Hpr).
    rewrite Hidx in Hi'. assert (epic' = epic) as -> by congruence.
    assert (E : PEpic.pencilPressure e = datasetPressure data).
    { rewrite Hpr. unfold epicPressure, datasetPressure, Num.or_else.
      by rewrite (isZero_falsy _ Hz). }
    split; [exact E |].
    unfold drawEpicGrouping, drawPencilBox, drawPencilCrosshatch, drawPencilBoxOutline.
    cbn [fst snd fillAlpha grayValue]. rewrite E.
    split; [reflexivity |]. split; [reflexivity |]. repeat constructor.
Qed.

Lemma zero_pressure_falls_back_witness :
  ∃ scene e,
    layout PressureExamples.pressureData = Ok scene
    ∧ Scene.heap scene !! 0%nat = Some PressureExamples.zeroPressurePositioned
    ∧ Forall (λ s, strokePressure s = PressureExamples.sixTenths)
             (drawProjectLine PressureExamples.pressureData
                              PressureExamples.zeroPressurePositioned)
    ∧ e ∈ Scene.epics scene
    ∧ PEpic.epicIndex e = 0%nat
    ∧ PEpic.pencilPressure e = PressureExamples.sixTenths.
Proof.
  assert (∃ scene, layout PressureExamples.pressureData = Ok scene
                   ∧ Scene.heap scene !! 0%nat = Some PressureExamples.zeroPressurePositioned)
    as (scene & Hlayout & Hheap) by (eexists; split; vm_compute; reflexivity).
  destruct (zero_pressure_falls_back PressureExamples.pressureData)
    as (_ & _ & Hproject & Hepic).
  destruct (Hproject PressureExamples.zeroPressurePositioned (Num.of_Z 0))
    as (_ & _ & Hstrokes); [reflexivity | exists 0%Q; split; reflexivity |].
  destruct (Hepic scene 0%nat PressureExamples.zeroPressureEpic Hlayout)
    as [Hstored Hcarries];
    [reflexivity | exists 0%Q; split; [vm_compute; reflexivity | reflexivity] |].
  destruct Hstored as (e & He & Hidx); [discriminate |].
  destruct (Hcarries e He Hidx) as (Hpr & _).
  exists scene, e. split; [exact Hlayout |]. split; [exact Hheap |].
  split; [exact Hstrokes |]. split; [exact He |]. split; [exact Hidx | exact Hpr].
Defined.
